(* ===== verification/_CoqProject ===== *)
-Q . S2P
Prelude.v
Text.v
Sorting.v
Guild.v
Effects.v
Leaderboard.v
Commands.v
Dispatch.v
Writes.v
Answers.v
Events.v
Registry.v
Tasks.v
Async.v
Drops.v
Lock.v
Arrivals.v
Disk.v
Scenarios.v
