(* ===== verification/Prelude.v ===== *)
(** * tater-board: a verification development for the command handler

    The program is the command handler of a chat bot that keeps, per guild,
    a configuration and two tables of reaction counts.  Its source is the
    single function [handle_commands] of [src/src/handler/commands.rs].

    The function takes the registry of guilds under its lock, finds or
    creates the entry of the message's guild, returns early for messages
    that are not commands, decides whether the author is an admin,
    splits the message in words and runs one arm of a [match] on the
    second word; after an admin's command it saves the configuration.
    The arms read and write the guild's state, send messages, look users
    up and save files; each of these calls can fail.

    ** Files, in dependency order

    - [Prelude] (this file): Rust's [Result] as the type [result] with the
      stdpp monad classes, 64-bit unsigned arithmetic kept at its width
      ([in_u64], [wrap_u64], [checked_mul], [checked_add]), the iterator
      adaptors the handler uses ([enumerate], [find_map]), the hint
      database [tater] and the tactics shared by all files.
    - [Text]: strings as lists of Unicode scalar values, and the string
      functions of Rust's library the handler calls: [split_whitespace],
      [starts_with], [join], [parse_u64] with its errors, [u64_to_string].
    - [Sorting]: the stable [sort_by_key], and [sort_desc], the sort
      followed by [reverse] of lines 98-99.
    - [Guild]: the state of a guild ([Config], [Handler]), the registry
      access [entry_or_insert] of line 30, the invariant [wf_handler],
      and the class [Platform] of what the chat library renders and
      parses.
    - [Effects]: the class [World] (what the chat service answers,
      whether a delivery or a save succeeds, the iteration order of hash
      tables, the build profile), the trace of [Event]s, and the monad
      [M] of the handler's body with [try_block] and [usize_op]; its
      laws, and the combinators [pure_state], [preserves], [silent],
      [emits] and [no_panic] with their rules.
    - [Leaderboard]: the arm of [receivers] and [givers], lines 86-182.
    - [Commands]: the other arms, lines 64-85 and 183-405, one
      definition each.
    - [Dispatch]: [handle_commands] itself: [compute_is_admin] (lines
      43-54), [dispatch] (the [match], lines 63-406), [save_config]
      (lines 408-426), [handle_guild] (lines 32-62 and what follows the
      [match]), [handle_commands] (lines 19-31) and [handle_all], the
      calls one after the other; and the dispatcher of the design
      document, [decode], [authorize] and [execute], with its order of
      the guards, [tokenize_first].
    - [Writes]: a specification, not a model of lines: the seven
      assignments to [this.config] the arms make (lines 189, 191, 221,
      240, 265, 301, 320 and 343) as the type [Write]; [writes_of] and
      [writes_for] say which of them a command and a message perform,
      and the handler is proved to do exactly these: its abstract
      transition function.
    - [Answers]: the predicate [answers] on computations with its rules,
      and that every arm of the [match] answers on the channel of the
      message when the chat service delivers.  A message of the source
      is sent to a channel and names no message it replies to, so an
      answer is a message to the channel of the command.
    - [Events]: well-formedness of what is sent and saved, [wf_event],
      how much is sent, and where it goes.
    - [Registry]: the tasks that wait for the lock of line 29 as a
      transition system: [Pool], the relation [step] that grants the
      lock to any waiting task under any answers of the chat service,
      and [handle_calls], the schedule in a given order.
    - [Tasks]: an [async fn] body as a finite tree of its reads and
      writes of [this] and of its awaits ([Task], [Request]), run to its
      end ([complete]), one node at a time ([runs]) or until it is
      dropped at an await ([cancel]); what can be read off the tree
      ([reads_only], [immediate], [settles], [atomic], and [suspends],
      a bound on its awaits).
    - [Async]: [handle_commands] once more, with every [.await] of
      [commands.rs] as a node: [handle_guild_task], [dispatch_task] and
      one task per arm, named after the definitions of [Commands],
      [Leaderboard] and [Dispatch]; [handle_commands_task] is the call
      whose task completes, [abort_commands] the call whose task is
      dropped.
    - [Drops]: the pool when tasks are dropped: [astep] is
      [Registry.step] or a call dropped before or after it took the
      lock.
    - [Lock]: the tasks at the grain of the runtime: [System] holds the
      tasks that have not passed line 29 and the holder of the lock with
      what is left of its body; [lstep] is one turn of one task.
    - [Arrivals]: the messages that come in while others are handled:
      [oruns] is a run of [Lock.lstep] into which messages [arrive].
    - [Disk]: what the saves of lines 382 and 412 write and what a
      restart recovers: [Disk], [write], [disk_after] (the log
      replayed), [load] and [restart]; [durable] says that a restart
      recovers the state of every guild.
    - [Scenarios]: a concrete [Platform] and [World], the scenarios of
      the design document evaluated in them, and an application of each
      theorem that has hypotheses to a concrete run.

    ** How the model corresponds to the code

    - State.  [this], the [&mut Handler] of line 30, is the state the
      monad [M] threads; a write [this.config.f = v] is [put_config].
      The registry is a [gmap] from guild to [Handler]; the handler's
      writes reach it when [handle_commands] stores the final state
      under the guild, which is what the mutable borrow does in place.
    - Effects.  Every awaited call followed by [?] is a [perform] or a
      [lift_result]: it consults the [World] and either continues or
      ends the function with [Fail].  The events that succeeded are
      collected in order.  [try { }] is [try_block]: it turns [Fail]
      into a value and keeps the writes made before it.
    - Panics are the third outcome, [Panic]: arithmetic overflow in a
      build with overflow checks, and indexing out of bounds.
    - Calls are serialised by the lock of line 29, which is held to the
      end of the function: [handle_all] handles a list of messages in
      order.  The lock is not poisoned by a panic, so the next message
      is handled from the state the panicking call left.
      [Dispatch.handle_commands] is a call with the lock in hand: the
      wait of line 29 is not a step of it, but of [Lock.lstep].
    - The world.  Within one call a request has one answer: [World]
      gives the answer of [get_user], of a delivery or of a save as a
      function of the request, and the order in which a table or a set
      is iterated as a function of its content.  Different calls may
      have different worlds.  What is read off the tree of a task
      ([Tasks.atomic], [Tasks.suspends]) holds for all answers at each
      await instead.
    - Tasks.  The chat library starts a task per message; those of a
      guild wait at line 29.  [Registry.step] takes any one message out
      of the pool and runs [handle_commands] on it to the end, under a
      [World] of its own: the order of the tasks is not fixed and the
      chat service need not answer two calls alike.  The parameter [A]
      of [step] restricts the worlds, for theorems that assume
      something of the chat service.
    - Awaits.  [Effects.M] asks the world and goes on; the code is
      suspended at each [.await] and can be dropped there.  In [Async]
      the awaits are nodes [TAwait] of a tree, in the order of the
      source: the guild (line 39), the member and their roles (lines
      45-48), one user per line of a leaderboard (line 125) or per admin
      listed (line 364), every [say] and [send_message], and the saves
      (lines 383 and 413).  The assignments to [this.config] are nodes
      [TPut] between them.  [Tasks.complete] answers every await from
      the [World].  The bodies of [Async] are a second transcription of
      the same lines; [Async.handle_commands_task_run] checks that, run
      to the end, they are [Dispatch.handle_commands].  That is a check
      of the two transcriptions against each other, not a property of
      the program.
    - The lock.  Line 29 is [Lock.lstep_lock]: a task takes the lock
      when nobody holds it, and line 30 finds or makes the entry of its
      guild.  The guard [handlers] lives to the end of the function, so
      the holder keeps the lock across its awaits and gives it back when
      the body returns, fails with [?] or panics ([lstep_unlock]; the
      lock is an async mutex, which a panic does not poison), or when
      its task is dropped ([lstep_drop]).  Tasks of messages without a
      guild return at line 27 and never ask for the lock.  These rules
      are written after the scope of the guard in the source and the
      design document; they are not derived from the code.
    - The disk.  [HandlerWrapper::save_server_config] and
      [save_server_taters] are called by [commands.rs] and written
      elsewhere.  In [Effects] such a call is an event that carries the
      registry it was given, and the [World] says whether it succeeds.
      [Disk] replays the events that succeeded, after the contract the
      design document gives for the three operations of the store: a
      save replaces the configuration, or the tables, that are stored
      for the guild, and loading a guild gives what is stored, with the
      defaults of [Handler::new] for what never was.

    ** What is proved

    - The authorisation gate ([Dispatch.authorization_gate],
      [dispatch_admin_only], [handle_all_users]): somebody who is not an
      admin never changes a state and never causes a save, and gets the
      answer of an unknown command from the admin commands.
    - Refinement ([Dispatch.dispatch_refines]): the [match] on strings
      is the interpreter of the design's command enumeration behind its
      gate.  The order of the guards differs from the design's, and
      [Dispatch.authorizes_before_tokens] says exactly where that
      shows.
    - The transition function ([Writes.handle_commands_writes]): the
      registry after a call is the registry before with the writes of
      the message applied to the state of its guild, on every path.
    - Confinement ([Events.handle_commands_confined]): a call makes at
      most three deliveries and saves, each a message to the channel of
      the command or a save of the registry the call holds.
    - Schedules ([Registry]): the state of a guild depends on
      the calls for that guild alone ([guilds_independent]); the
      numbers in the registry and in everything sent and saved fit 64
      bits ([schedule_well_formed]); the pin channel stays blacklisted
      until somebody unblacklists ([pin_channel_stays_blacklisted]), a
      channel stays blacklisted and an admin listed until the command
      that undoes it; the tables and the trigger word never change
      ([steps_frame]).
    - Liveness ([Registry.every_command_answered], from
      [Answers.handle_guild_answers]): with a responsive chat service
      every command that waits is answered by the time the pool is
      empty.
    - The lock serialises ([Lock.lock_serialises], by the simulation
      [Lock.lstep_astep]): however the tasks take their turns, when the
      lock is free the registry and the log are those of a schedule of
      whole calls; conversely every such schedule is a run of the tasks
      ([Lock.lock_implements]).  In
      the middle of a run, whenever no task is between two writes, the
      state of every guild is one that whole calls reach
      ([Lock.awaits_see_whole_calls]); between the two writes of
      [set_pin_channel] it is not ([Scenarios.half_written]).
    - Dropped tasks ([Async.dropped_call_atomic], from
      [Tasks.atomic_cancel] and [Async.atomic_handle_guild]): a call
      dropped at any await leaves all the writes of its command or none,
      has delivered a prefix of what the complete call delivers, and has
      not saved the configuration.  So dropped tasks reach no state that
      complete calls do not reach ([Drops.aborts_simulated]) and the
      invariants of the registry survive them
      ([Drops.dropped_tasks_keep_pin_blacklisted]).
    - Requests under the lock ([Async.handle_guild_awaits]): the body
      is suspended at most 16 times, or 5 times more than the guild has
      listed admins; the loop of the leaderboard is bounded by the page
      size, that of [list_admins] by the set of admins only
      ([Scenarios.list_admins_requests]).
    - Arrivals ([Arrivals.arrivals_serialised]): a run into which
      messages arrive is a run of the batch that has them from the
      start, so what is proved of a batch is used of the handler as it
      runs.  These are lemmas about the relations.
    - Durability ([Disk]): a call that returns normally keeps the
      registry durable, whatever was answered
      ([returned_call_durable]); when every delivery and save succeeds
      and no task is dropped, a restart recovers the state of every
      guild whenever the lock is free ([tasks_durable]).  Otherwise the
      registry can be ahead of the disk
      ([Scenarios.restart_after_failed_reply], [restart_after_drop]),
      until a command of an admin of the guild returns
      ([admin_command_heals]).  Saving and loading a guild gives its
      state back ([load_saved]).
    - No partial write ([Dispatch.dispatch_argument_error],
      [Commands.with_u64_arg_rejected]).
    - The invariant [wf_handler]: every stored number fits 64 bits,
      after every arm and after any sequence of messages
      ([Dispatch.handle_all_wf]); guilds are isolated
      ([handle_all_other]).
    - The functional behaviour of each arm, errors included
      ([Commands]): idempotence of the set commands
      ([Commands.idempotent_sets], property P1 of the design
      document), what [list_admins] answers
      ([Commands.cmd_list_admins_reply]).
    - The ranking ([Leaderboard.scores_spec], [scores_unique]), the
      window, the requester's place ([Leaderboard.asker_place_rank],
      property P3) and the page count, and the
      behaviour of the page arithmetic at the 64-bit boundary
      ([cmd_leaderboard_reply], [cmd_leaderboard_wraps],
      [Dispatch.handle_guild_panics]).
    - When the configuration is saved and when it is not
      ([Dispatch.config_saved_once], [rejected_argument_saves],
      [set_threshold_reply_fails]), and how the two saves fail
      ([Dispatch.save_failures]).
    - Round trips: [Text.parse_u64_to_string],
      [Text.split_whitespace_join], [Commands.parse_u64_arg_to_string].

    ** Bounds and fuel

    - A Rust [u64] or [usize] is a [Z] in the range [0 .. 2^64 - 1]
      ([usize] is taken to be 64 bits wide); every operation that can
      leave the range says what happens there.
    - [u64_to_string] prints with fuel 20, the number of decimal digits
      of [2^64 - 1]; [Text.digits_go_value] shows that the fuel is
      enough for every number in range, and [Text.u64_to_string_fuel]
      that more fuel changes nothing: the loop has ended.
    - All other recursion is structural: the loops of the source run
      over a vector or a hash set, which are lists here.
    - A pool holds the tasks of a finite batch of messages.
      [Registry.step], [Drops.astep] and [Lock.lstep] have no rule for
      arrivals; [Arrivals.oruns] has, for any finite list of messages.
    - A [Task] is a finite tree, so [complete], [cancel] and [awaits]
      are structural and need no fuel; the number [n] of [cancel n]
      counts the awaits passed before the drop, and
      [Tasks.cancel_awaits] says for which [n] there is one.  That the
      runs of [Registry.step] and [Lock.lstep] are finite
      ([Registry.schedule_terminates], [Lock.lstep_sn]) follows from
      this by construction and is no theorem of the program; what the
      program bounds is the number of requests of a call
      ([Async.handle_guild_awaits]).

    ** What is not modelled

    - The chat library: its calls are the operations of [World] and
      [Platform], with any answer; how a message is delivered or a
      mention is rendered is not described.
    - The encoding of the files the saves write, and the code that
      writes and loads them, which is not in [commands.rs]: [Disk]
      follows the contract of the design document, and whether a save
      succeeds is an answer of the [World].
    - The other handlers of the program, which count the reactions and
      pin messages: they are not in [commands.rs], and the design
      document leaves them out.  The tables are inputs here, and the
      command handler is proved never to write them; so [Disk] says
      nothing of counts that change between two saves.
    - The runtime that starts the tasks, beyond what [Registry],
      [Drops], [Lock] and [Arrivals] say of it: which task runs next,
      when a message arrives and whether a task is dropped is any
      choice; fairness is not described.
    - A request that is never answered.  In [Lock.lstep] the world
      answers the request the holder waits for at the holder's next
      turn, so a holder that waits for ever, and keeps the lock of all
      guilds while it does, is not a run of the model; nothing is proved
      about it.
    - What happens inside one request: an await of the handler is one
      node, although the chat library and the file system wait several
      times within it.  A request that was in flight when its task was
      dropped is recorded as the request the task waited for
      ([Tasks.waiting]), not as delivered: whether it reached the
      service is not known to the handler.
    - Hash table iteration order is any order: [World.map_iter] and
      [set_iter] are permutations of the entries.

    ** Conventions

    - A Rust [String] is a list of Unicode scalar values (see [Text]).
    - Fallible pure code returns [result]; effectful code runs in the
      monad of [Effects]. *)

From Stdlib Require Import ZArith Lia.
From stdpp Require Export base tactics numbers option list sorting.

Declare Scope tater_scope.
Delimit Scope tater_scope with tater.
#[global] Open Scope Z_scope.

Create HintDb tater discriminated.

(** ** Rust's [Result<A, E>] *)

Inductive result (E A : Type) : Type :=
| Ok (a : A)
| Err (e : E).
Arguments Ok {E A} a.
Arguments Err {E A} e.

#[export] Instance result_eq_dec {E A} `{EqDecision E, EqDecision A} :
  EqDecision (result E A).
Proof. solve_decision. Defined.

#[export] Instance result_ret {E} : MRet (result E) := λ A a, Ok a.
#[export] Instance result_bind {E} : MBind (result E) := λ A B f r,
  match r with Ok a => f a | Err e => Err e end.
#[export] Instance result_fmap {E} : FMap (result E) := λ A B f r,
  match r with Ok a => Ok (f a) | Err e => Err e end.

(** [Option::ok_or_else], [Result::map_err], [Result::ok] and
    [Option::unwrap_or], by their Rust names. *)
Definition ok_or {E A} (o : option A) (e : E) : result E A :=
  match o with Some a => Ok a | None => Err e end.

Definition map_err {E E' A} (f : E → E') (r : result E A) : result E' A :=
  match r with Ok a => Ok a | Err e => Err (f e) end.

Definition result_ok {E A} (r : result E A) : option A :=
  match r with Ok a => Some a | Err _ => None end.

Definition unwrap_or {A} (o : option A) (d : A) : A :=
  match o with Some a => a | None => d end.

Definition is_Ok {E A} (r : result E A) : Prop := ∃ a, r = Ok a.

#[export] Instance is_Ok_dec {E A} (r : result E A) : Decision (is_Ok r).
Proof.
  refine (match r with Ok a => left _ | Err e => right _ end);
    [by eexists | by intros [??]].
Defined.

(** ** 64-bit unsigned integers *)

Definition u64_MAX : Z := 18446744073709551615.

Definition in_u64 (x : Z) : Prop := 0 ≤ x ≤ u64_MAX.

#[export] Instance in_u64_dec x : Decision (in_u64 x).
Proof. unfold in_u64. apply _. Defined.

(** Arithmetic modulo [2^64]: what an overflowing operation leaves in a
    build without overflow checks. *)
Definition wrap_u64 (x : Z) : Z := x `mod` 18446744073709551616.

(** [u64::checked_mul] and [u64::checked_add]. *)
Definition checked_mul (a b : Z) : option Z :=
  if decide (a * b ≤ u64_MAX) then Some (a * b) else None.

Definition checked_add (a b : Z) : option Z :=
  if decide (a + b ≤ u64_MAX) then Some (a + b) else None.

(** ** Iterator adaptors *)

(** [Iterator::enumerate] over a slice. *)
Definition enumerate {A} (l : list A) : list (nat * A) := imap pair l.

(** [Iterator::filter_map(f).next()]: the first element [f] keeps. *)
Fixpoint find_map {A B} (f : A → option B) (l : list A) : option B :=
  match l with
  | [] => None
  | x :: l => match f x with Some y => Some y | None => find_map f l end
  end.

(** ** Tactics *)

(** Case analysis on the scrutinee of the first [result] or [option] match
    of the goal or of hypothesis [H]. *)
Ltac case_bind :=
  match goal with
  | |- context [mbind _ ?r] => destruct r eqn:?; simpl
  | |- context [match ?r with Ok _ => _ | Err _ => _ end] =>
      destruct r eqn:?; simpl
  | |- context [match ?o with Some _ => _ | None => _ end] =>
      destruct o eqn:?; simpl
  end.

Ltac case_bind_in H :=
  match type of H with
  | context [match ?r with Ok _ => _ | Err _ => _ end] =>
      destruct r eqn:?; simpl in H
  | context [match ?o with Some _ => _ | None => _ end] =>
      destruct o eqn:?; simpl in H
  end.

(** Arithmetic on [u64] bounds: unfold the definitions and call [lia]. *)
Ltac u64_lia :=
  unfold in_u64, wrap_u64, u64_MAX in *; lia.

(** Linear arithmetic with division and remainder by constants. *)
Ltac div_lia := Z.div_mod_to_equations; lia.

(** ** Lemmas on [result] *)

Section result_lemmas.
Context {E A B : Type}.
Implicit Types (r : result E A) (o : option A) (f : A → result E B).

Lemma result_bind_Ok r f b :
  r ≫= f = Ok b ↔ ∃ a, r = Ok a ∧ f a = Ok b.
Proof. destruct r; simpl; naive_solver. Qed.

Lemma result_bind_Err r f e :
  r ≫= f = Err e ↔ r = Err e ∨ ∃ a, r = Ok a ∧ f a = Err e.
Proof. destruct r; simpl; naive_solver. Qed.

Lemma ok_or_Ok o (e : E) a : ok_or o e = Ok a ↔ o = Some a.
Proof. destruct o; simpl; naive_solver. Qed.

Lemma ok_or_Err o (e e' : E) : ok_or o e = Err e' ↔ o = None ∧ e' = e.
Proof. destruct o; simpl; naive_solver. Qed.

Lemma map_err_Ok {E'} (g : E → E') r a : map_err g r = Ok a ↔ r = Ok a.
Proof. destruct r; simpl; naive_solver. Qed.

Lemma result_ok_Some r a : result_ok r = Some a ↔ r = Ok a.
Proof. destruct r; simpl; naive_solver. Qed.

Lemma result_ok_None r : result_ok r = None ↔ ¬ is_Ok r.
Proof. destruct r; simpl; unfold is_Ok; naive_solver. Qed.

End result_lemmas.

(** ** Lemmas on 64-bit arithmetic *)

Lemma wrap_u64_range x : in_u64 (wrap_u64 x).
Proof.
  pose proof (Z.mod_pos_bound x 18446744073709551616 eq_refl). u64_lia.
Qed.

Lemma wrap_u64_id x : in_u64 x → wrap_u64 x = x.
Proof. intros. unfold wrap_u64. apply Z.mod_small. u64_lia. Qed.

Lemma wrap_u64_overflow x :
  u64_MAX < x → wrap_u64 x ≠ x.
Proof. intros ? Heq. pose proof (wrap_u64_range x). rewrite Heq in *. u64_lia. Qed.

Lemma checked_mul_Some a b c :
  checked_mul a b = Some c ↔ a * b ≤ u64_MAX ∧ c = a * b.
Proof. unfold checked_mul. case_decide; naive_solver. Qed.

Lemma checked_mul_None a b : checked_mul a b = None ↔ u64_MAX < a * b.
Proof. unfold checked_mul. case_decide; split; (done || lia). Qed.

Lemma checked_add_Some a b c :
  checked_add a b = Some c ↔ a + b ≤ u64_MAX ∧ c = a + b.
Proof. unfold checked_add. case_decide; naive_solver. Qed.

Lemma checked_add_None a b : checked_add a b = None ↔ u64_MAX < a + b.
Proof. unfold checked_add. case_decide; split; (done || lia). Qed.

#[export] Hint Resolve wrap_u64_range : tater.
#[export] Hint Rewrite wrap_u64_id using (assumption || u64_lia) : tater.

(** ** Lemmas on the iterator adaptors *)

Section iterator_lemmas.
Context {A B : Type}.
Implicit Types (l : list A) (x : A) (i : nat).

Lemma length_enumerate l : length (enumerate l) = length l.
Proof. apply length_imap. Qed.

Lemma lookup_enumerate l i : enumerate l !! i = pair i <$> l !! i.
Proof. apply list_lookup_imap. Qed.

Lemma enumerate_fmap_snd l : snd <$> enumerate l = l.
Proof.
  apply list_eq; intros i.
  rewrite list_lookup_fmap, lookup_enumerate. by destruct (l !! i).
Qed.

Lemma enumerate_fmap_fst l : fst <$> enumerate l = seq 0 (length l).
Proof.
  apply list_eq; intros i.
  rewrite list_lookup_fmap, lookup_enumerate.
  destruct (l !! i) eqn:Hi; simpl.
  - symmetry. apply lookup_seq. split; [done|]. by eapply lookup_lt_Some.
  - symmetry. apply lookup_seq_ge. apply lookup_ge_None in Hi. lia.
Qed.

(** The window [skip(n).take(k)] of an enumerated list, element by
    element. *)
Lemma lookup_take_drop_enumerate l (n k i : nat) :
  take k (drop n (enumerate l)) !! i =
    if decide (i < k)%nat then pair (n + i)%nat <$> l !! (n + i)%nat else None.
Proof.
  case_decide.
  - by rewrite lookup_take_lt, lookup_drop, lookup_enumerate.
  - apply lookup_take_ge. lia.
Qed.

Lemma find_map_Some (f : A → option B) l y :
  find_map f l = Some y ↔
  ∃ i x, l !! i = Some x ∧ f x = Some y ∧
         ∀ j x', (j < i)%nat → l !! j = Some x' → f x' = None.
Proof.
  induction l as [|a l IH]; simpl.
  - split; [done|]. by intros (? & ? & ? & _).
  - destruct (f a) eqn:Ha.
    + split.
      * intros [= ->]. exists 0%nat, a. split_and!; [done..|]. lia.
      * intros ([|i] & x & Hx & Hfx & Hmin); simplify_eq/=; [congruence|].
        specialize (Hmin 0%nat a). rewrite Ha in Hmin.
        discriminate Hmin; [lia|done].
    + rewrite IH. split.
      * intros (i & x & ? & ? & Hmin). exists (S i), x. split_and!; [done..|].
        intros [|j] x' ?; simpl; [naive_solver|]. intros. eapply Hmin; [|done]. lia.
      * intros ([|i] & x & Hx & Hfx & Hmin); simplify_eq/=.
        exists i, x. split_and!; [done..|].
        intros j x' ??. apply (Hmin (S j)); [lia|done].
Qed.

Lemma find_map_None (f : A → option B) l :
  find_map f l = None ↔ ∀ x, x ∈ l → f x = None.
Proof.
  induction l as [|a l IH]; simpl.
  - split; [|done]. by intros _ ? ?%elem_of_nil.
  - destruct (f a) eqn:Ha.
    + split; [done|]. intros H. specialize (H a). rewrite Ha in H.
      apply H. by left.
    + rewrite IH. split.
      * intros H x [->|?]%elem_of_cons; auto.
      * intros H x ?. apply H. by right.
Qed.

End iterator_lemmas.

(** ** Lemmas on decisions *)

Lemma negb_involutive_bool_decide (P : Prop) `{Decision P} :
  negb (bool_decide (¬ P)) = bool_decide P.
Proof. by repeat case_bool_decide. Qed.

(** ** Lemmas on lists *)

Lemma filter_nil_Forall {A} (P : A → Prop) `{∀ x, Decision (P x)} (l : list A) :
  Forall (λ x, ¬ P x) l → filter P l = [].
Proof.
  induction 1 as [|x l Hx _ IH]; [done|]. by rewrite filter_cons_False.
Qed.

Lemma StronglySorted_impl {A} (R1 R2 : relation A) (l : list A) :
  (∀ x y, R1 x y → R2 x y) → StronglySorted R1 l → StronglySorted R2 l.
Proof.
  intros HR. induction 1 as [|x l _ IH Hx]; constructor; [done|].
  eapply Forall_impl; [done|]. auto.
Qed.

Lemma StronglySorted_reverse {A} (R : relation A) (l : list A) :
  StronglySorted R l → StronglySorted (flip R) (reverse l).
Proof.
  induction 1 as [|x l Hl IH Hx]; [constructor|].
  rewrite reverse_cons. apply StronglySorted_app.
  split_and!; [|done|by repeat constructor].
  intros y1 y2 Hy1 ->%list_elem_of_singleton. rewrite elem_of_reverse in Hy1.
  by eapply Forall_forall in Hx.
Qed.
