(* ===== verification/Text.v ===== *)
(** * Text: Rust strings, tokens and decimal integers

    A Rust [String] or [&str] is modelled as the list of its Unicode scalar
    values (a [char] is a [Z]); [str] converts an ASCII literal.  The file
    holds the string operations [handle_commands] calls: [starts_with]
    (line 33), [split_whitespace] (line 56), [str::parse::<u64>] (lines 89,
    188, 220, ...), [to_string] on integers and [join] (line 291), with
    their laws: tokens are non-empty and free of white space, splitting is
    a left inverse of joining, printing then parsing an integer gives it
    back, and a parsed integer fits 64 bits. *)

From stdpp Require Export strings.
From S2P Require Import Prelude.

#[local] Open Scope Z_scope.

Notation text := (list Z) (only parsing).

(** An ASCII literal as text. *)
Definition str (s : string) : text :=
  (λ a, Z.of_N (Ascii.N_of_ascii a)) <$> String.list_ascii_of_string s.
Arguments str s%_string.

(** [char::is_whitespace]: the code points with the Unicode property
    White_Space. *)
Definition is_whitespace (c : Z) : bool :=
  bool_decide (9 ≤ c ≤ 13 ∨ c = 32 ∨ c = 133 ∨ c = 160 ∨ c = 5760 ∨
               8192 ≤ c ≤ 8202 ∨ c = 8232 ∨ c = 8233 ∨ c = 8239 ∨
               c = 8287 ∨ c = 12288).

(** The text is at a token boundary: it is empty or starts with white
    space. *)
Definition at_boundary (s : text) : bool :=
  match s with [] => true | c :: _ => is_whitespace c end.

(** [str::split_whitespace().collect()]: the maximal runs of characters
    that are not white space, in order. *)
Fixpoint split_whitespace (s : text) : list text :=
  match s with
  | [] => []
  | c :: s' =>
      let rest := split_whitespace s' in
      if is_whitespace c then rest
      else match rest with
           | t :: ts => if at_boundary s' then [c] :: rest else (c :: t) :: ts
           | [] => [[c]]
           end
  end.

(** [str::starts_with(&str)]. *)
Definition starts_with (s p : text) : bool := bool_decide (p `prefix_of` s).

(** [[String]::join(sep)]. *)
Fixpoint join (sep : text) (l : list text) : text :=
  match l with
  | [] => []
  | [x] => x
  | x :: l => x ++ sep ++ join sep l
  end.

(** ** Decimal integers *)

(** [core::num::IntErrorKind], the variants an unsigned parse can give,
    and [ParseIntError]'s [Display]. *)
Inductive IntErrorKind := Empty | InvalidDigit | PosOverflow.

#[export] Instance IntErrorKind_eq_dec : EqDecision IntErrorKind.
Proof. solve_decision. Defined.

Definition int_error_to_string (e : IntErrorKind) : text :=
  match e with
  | Empty => str "cannot parse integer from empty string"
  | InvalidDigit => str "invalid digit found in string"
  | PosOverflow => str "number too large to fit in target type"
  end.

(** [char::to_digit(10)]. *)
Definition to_digit (c : Z) : option Z :=
  if decide (48 ≤ c ≤ 57) then Some (c - 48) else None.

(** The digit loop of [u64::from_str_radix(_, 10)]: an invalid digit is
    reported before the overflow of the same step. *)
Fixpoint parse_digits (acc : Z) (s : text) : result IntErrorKind Z :=
  match s with
  | [] => Ok acc
  | c :: s =>
      match to_digit c with
      | None => Err InvalidDigit
      | Some d =>
          match checked_mul acc 10 with
          | None => Err PosOverflow
          | Some m =>
              match checked_add m d with
              | None => Err PosOverflow
              | Some r => parse_digits r s
              end
          end
      end
  end.

(** [str::parse::<u64>()] (and [parse::<usize>()] on a 64-bit target): an
    optional [+], then at least one digit. *)
Definition parse_u64 (s : text) : result IntErrorKind Z :=
  match s with
  | [] => Err Empty
  | c :: s' =>
      if decide (c = 43 ∨ c = 45) then
        match s' with
        | [] => Err InvalidDigit
        | _ => if decide (c = 43) then parse_digits 0 s' else parse_digits 0 s
        end
      else parse_digits 0 s
  end.

(** [u64::to_string()]: the decimal digits, most significant first.  Fuel
    20 is the number of digits of [u64::MAX]. *)
Fixpoint digits_go (fuel : nat) (n : Z) (acc : text) : text :=
  match fuel with
  | O => acc
  | S fuel =>
      let acc' := (48 + n `mod` 10) :: acc in
      if decide (n < 10) then acc' else digits_go fuel (n `div` 10) acc'
  end.

Definition u64_to_string (n : Z) : text := digits_go 20 n [].

(** ** Specification predicates *)

(** A token: a non-empty text without white space. *)
Definition is_token (t : text) : Prop :=
  t ≠ [] ∧ Forall (λ c, is_whitespace c = false) t.

#[export] Instance is_token_dec t : Decision (is_token t).
Proof. unfold is_token. apply _. Defined.

Definition is_digit (c : Z) : Prop := 48 ≤ c ≤ 57.

(** The value of a digit string read from an accumulator. *)
Definition digits_value (acc : Z) (s : text) : Z :=
  foldl (λ a c, 10 * a + (c - 48)) acc s.

(** ** Tokens *)

Lemma is_whitespace_digit c : is_digit c → is_whitespace c = false.
Proof. unfold is_digit, is_whitespace. intros. apply bool_decide_eq_false. lia. Qed.

Lemma split_whitespace_ws c s :
  is_whitespace c = true → split_whitespace (c :: s) = split_whitespace s.
Proof. simpl. by intros ->. Qed.

(** What [split_whitespace] starts with decides how a character in front
    of it is attached. *)
Lemma split_whitespace_cons c s :
  is_whitespace c = false →
  split_whitespace (c :: s) =
    match split_whitespace s with
    | t :: ts => if at_boundary s then [c] :: t :: ts else (c :: t) :: ts
    | [] => [[c]]
    end.
Proof. simpl. intros ->. by destruct (split_whitespace s). Qed.

Lemma split_whitespace_head c s :
  is_whitespace c = false →
  ∃ t ts, split_whitespace (c :: s) = (c :: t) :: ts.
Proof.
  intros Hc. rewrite split_whitespace_cons by done.
  destruct (split_whitespace s); [|destruct (at_boundary s)]; eauto.
Qed.

Lemma split_whitespace_tokens s : Forall is_token (split_whitespace s).
Proof.
  induction s as [|c s IH]; [constructor|].
  destruct (is_whitespace c) eqn:Hc.
  { by rewrite split_whitespace_ws. }
  rewrite split_whitespace_cons by done.
  assert (is_token [c]) by (split; [done|by repeat constructor]).
  destruct (split_whitespace s) as [|t ts]; [by repeat constructor|].
  apply Forall_cons_1 in IH as [[? ?] ?].
  destruct (at_boundary s); repeat (constructor || split); done.
Qed.

(** A token in front of a boundary is split off whole. *)
Lemma split_whitespace_token_app t s :
  is_token t → at_boundary s = true →
  split_whitespace (t ++ s) = t :: split_whitespace s.
Proof.
  intros [Hne Hws] Hs. induction Hws as [|c t Hc Hws IH]; [done|]. clear Hne.
  rewrite <-app_comm_cons, split_whitespace_cons by done.
  destruct t as [|c' t]; simpl app in *.
  - rewrite Hs. by destruct (split_whitespace s).
  - rewrite IH by done. apply Forall_cons_1 in Hws as [Hc' _]. simpl. by rewrite Hc'.
Qed.

Lemma split_whitespace_join ts :
  Forall is_token ts → split_whitespace (join (str " ") ts) = ts.
Proof.
  induction 1 as [|t ts Ht Hts IH]; [done|].
  destruct ts as [|t' ts].
  - simpl. rewrite <-(app_nil_r t) at 1.
    by rewrite split_whitespace_token_app.
  - change (join _ (t :: t' :: ts)) with (t ++ 32 :: join (str " ") (t' :: ts)).
    rewrite split_whitespace_token_app, split_whitespace_ws, IH; done.
Qed.

(** Splitting loses only white space. *)
Lemma split_whitespace_concat s :
  concat (split_whitespace s) = filter (λ c, is_whitespace c = false) s.
Proof.
  induction s as [|c s IH]; [done|].
  destruct (is_whitespace c) eqn:Hc.
  { rewrite split_whitespace_ws, filter_cons_False by (done || congruence). done. }
  rewrite split_whitespace_cons, filter_cons_True, <-IH by done.
  destruct (split_whitespace s); [done|]. by destruct (at_boundary s).
Qed.

Lemma split_whitespace_nil s :
  split_whitespace s = [] ↔ Forall (λ c, is_whitespace c = true) s.
Proof.
  induction s as [|c s IH]; [done|].
  destruct (is_whitespace c) eqn:Hc.
  - rewrite split_whitespace_ws by done. rewrite IH, Forall_cons. naive_solver.
  - destruct (split_whitespace_head c s Hc) as (t & ts & ->).
    rewrite Forall_cons. split; [done|]. intros [? _]. congruence.
Qed.

(** [starts_with] is the prefix order. *)
Lemma starts_with_spec s p : starts_with s p = true ↔ ∃ r, s = p ++ r.
Proof. unfold starts_with. by rewrite bool_decide_eq_true. Qed.

Lemma starts_with_app p r : starts_with (p ++ r) p = true.
Proof. apply starts_with_spec. eauto. Qed.

(** ** Decimal integers *)

Lemma to_digit_Some c d : to_digit c = Some d ↔ is_digit c ∧ d = c - 48.
Proof. unfold to_digit, is_digit. case_decide; naive_solver. Qed.

Lemma to_digit_None c : to_digit c = None ↔ ¬ is_digit c.
Proof. unfold to_digit, is_digit. case_decide; naive_solver. Qed.

Lemma digits_value_ge acc s :
  0 ≤ acc → Forall is_digit s → acc ≤ digits_value acc s.
Proof.
  intros Hacc Hs. revert acc Hacc.
  induction Hs as [|c s Hc _ IH]; intros acc Hacc; simpl; [done|].
  unfold is_digit in Hc. etrans; [|apply IH]; lia.
Qed.

(** On digits whose value fits, the loop computes the value. *)
Lemma parse_digits_value acc s :
  0 ≤ acc → Forall is_digit s → digits_value acc s ≤ u64_MAX →
  parse_digits acc s = Ok (digits_value acc s).
Proof.
  intros Hacc Hs. revert acc Hacc.
  induction Hs as [|c s Hc Hs IH]; intros acc Hacc Hmax; simpl; [done|].
  simpl in Hmax. pose proof Hc as Hc'. unfold is_digit in Hc'.
  pose proof (digits_value_ge (10 * acc + (c - 48)) s ltac:(lia) Hs).
  rewrite (proj2 (to_digit_Some c (c - 48))) by done.
  rewrite (proj2 (checked_mul_Some acc 10 (acc * 10))) by lia.
  rewrite (proj2 (checked_add_Some (acc * 10) (c - 48) (acc * 10 + (c - 48)))) by lia.
  replace (acc * 10) with (10 * acc) by lia. apply IH; lia.
Qed.

(** The loop never leaves the 64-bit range. *)
Lemma parse_digits_range acc s n :
  in_u64 acc → parse_digits acc s = Ok n → in_u64 n.
Proof.
  revert acc. induction s as [|c s IH]; intros acc Hacc; simpl.
  { by intros [= <-]. }
  destruct (to_digit c) as [d|] eqn:Hd; [|done].
  apply to_digit_Some in Hd as [Hc ->]. unfold is_digit in Hc.
  destruct (checked_mul acc 10) as [m|] eqn:Hm; [|done].
  apply checked_mul_Some in Hm as [? ->].
  destruct (checked_add _ _) as [r|] eqn:Hr; [|done].
  apply checked_add_Some in Hr as [? ->].
  apply IH. u64_lia.
Qed.

Lemma parse_u64_range s n : parse_u64 s = Ok n → in_u64 n.
Proof.
  assert (in_u64 0) by u64_lia.
  unfold parse_u64. destruct s as [|c [|c' s]]; [done|..];
    repeat case_decide; try done; eauto using parse_digits_range.
Qed.

(** Digits only: the parse skips the sign analysis. *)
Lemma parse_u64_digits s :
  s ≠ [] → Forall is_digit s → parse_u64 s = parse_digits 0 s.
Proof.
  intros Hne Hs. destruct Hs as [|c s Hc _]; [done|]. simpl.
  unfold is_digit in Hc. case_decide; [lia|done].
Qed.

Lemma digits_go_digits fuel n acc :
  0 ≤ n → Forall is_digit acc → Forall is_digit (digits_go fuel n acc).
Proof.
  revert n acc. induction fuel as [|fuel IH]; intros n acc Hn Hacc; simpl; [done|].
  assert (is_digit (48 + n `mod` 10)).
  { unfold is_digit. pose proof (Z.mod_pos_bound n 10). lia. }
  case_decide; [by constructor|].
  apply IH; [|by constructor]. apply Z.div_pos; lia.
Qed.

Lemma digits_go_nonempty fuel n acc :
  fuel ≠ O → digits_go fuel n acc ≠ [].
Proof.
  revert n acc. induction fuel as [|fuel IH]; intros n acc Hf; simpl; [done|].
  case_decide; [done|]. destruct fuel; simpl; [done|]. by apply IH.
Qed.

(** With enough fuel the digits of [n] in front of [acc] read as [n]
    followed by [acc]. *)
Lemma digits_go_value fuel n acc :
  0 ≤ n < 10 ^ Z.of_nat fuel →
  digits_value 0 (digits_go fuel n acc) = digits_value n acc.
Proof.
  revert n acc. induction fuel as [|fuel IH]; intros n acc Hn.
  { simpl in *. by replace n with 0 by lia. }
  simpl. case_decide.
  - simpl. f_equal. rewrite Z.mod_small; lia.
  - rewrite IH.
    + simpl. f_equal. pose proof (Z.div_mod n 10). lia.
    + rewrite Nat2Z.inj_succ, Z.pow_succ_r in Hn by lia.
      split; [apply Z.div_pos; lia|]. apply Z.div_lt_upper_bound; lia.
Qed.

(** The loop ends before the fuel does: as soon as the fuel is the
    number of digits, more fuel changes nothing. *)
Lemma digits_go_fuel fuel fuel' n acc :
  0 ≤ n < 10 ^ Z.of_nat (S fuel) → (S fuel ≤ fuel')%nat →
  digits_go fuel' n acc = digits_go (S fuel) n acc.
Proof.
  revert fuel' n acc. induction fuel as [|fuel IH]; intros [|fuel'] n acc Hn Hf;
    try lia; simpl; case_decide; try done.
  - change (10 ^ Z.of_nat 1) with 10 in Hn. lia.
  - rewrite Nat2Z.inj_succ, Z.pow_succ_r in Hn by lia.
    rewrite (IH fuel'); [done| |lia].
    split; [apply Z.div_pos; lia|]. apply Z.div_lt_upper_bound; lia.
Qed.

(** Twenty rounds are enough for every [u64]. *)
Lemma u64_to_string_fuel fuel n :
  in_u64 n → (20 ≤ fuel)%nat → digits_go fuel n [] = u64_to_string n.
Proof. intros Hn Hf. apply (digits_go_fuel 19); [u64_lia|done]. Qed.

Lemma u64_to_string_digits n : 0 ≤ n → Forall is_digit (u64_to_string n).
Proof. intros. by apply digits_go_digits. Qed.

Lemma u64_to_string_token n : 0 ≤ n → is_token (u64_to_string n).
Proof.
  intros. split; [by apply digits_go_nonempty|].
  eapply Forall_impl; [by apply u64_to_string_digits|].
  apply is_whitespace_digit.
Qed.

(** Printing then parsing a 64-bit integer gives it back. *)
Lemma parse_u64_to_string n :
  in_u64 n → parse_u64 (u64_to_string n) = Ok n.
Proof.
  intros Hn. assert (0 ≤ n) by u64_lia.
  assert (digits_value 0 (u64_to_string n) = n) as Hv.
  { unfold u64_to_string. rewrite digits_go_value; [done|]. u64_lia. }
  rewrite parse_u64_digits
    by (by apply digits_go_nonempty || by apply u64_to_string_digits).
  rewrite parse_digits_value; rewrite ?Hv;
    [done|done|by apply u64_to_string_digits|u64_lia].
Qed.
