(* ===== verification/Sorting.v ===== *)
(** * Sorting: [sort_by_key] followed by [reverse]

    The leaderboard orders its entries with [scores.sort_by_key(count)]
    and [scores.reverse()] (lines 98-99 of [commands.rs]).  Rust documents
    [sort_by_key] as a stable sort; the model is the stable insertion
    sort [sort_by_key], and [sort_by_key_unique] shows that nothing else
    can be meant: a list that is sorted by key and keeps, for every key,
    the elements of that key in their original order is the result of
    [sort_by_key], whatever algorithm produced it.

    [sort_desc] is the composition the handler runs.  It is sorted by
    decreasing key, a permutation of its input, and lists equal keys in
    the reverse of their input order ([sort_desc_ties]); equivalently it
    is the stable descending sort of the reversed input
    ([sort_desc_alt]). *)

From stdpp Require Import sorting.
From S2P Require Import Prelude.

#[local] Open Scope Z_scope.

Section sort_by_key.
Context {A : Type} (key : A → Z).
Implicit Types (x y : A) (l : list A) (k : Z).

(** Insert [x] in front of the first element whose key is not smaller. *)
Fixpoint insert_by_key (x : A) (l : list A) : list A :=
  match l with
  | [] => [x]
  | y :: l' =>
      if decide (key x ≤ key y) then x :: y :: l' else y :: insert_by_key x l'
  end.

(** [slice::sort_by_key]: ascending by key, equal keys in input order. *)
Definition sort_by_key (l : list A) : list A := foldr insert_by_key [] l.

(** [sort_by_key] then [reverse]: the order of the leaderboard. *)
Definition sort_desc (l : list A) : list A := reverse (sort_by_key l).

(** ** Specification predicates *)

Definition key_le : relation A := λ x y, key x ≤ key y.
Definition key_ge : relation A := λ x y, key y ≤ key x.

(** The elements of key [k], in the order of the list. *)
Definition with_key (k : Z) (l : list A) : list A :=
  filter (λ x, key x = k) l.

#[export] Instance key_le_trans : Transitive key_le.
Proof. unfold key_le. intros x y z. lia. Qed.

#[export] Instance key_ge_trans : Transitive key_ge.
Proof. unfold key_ge. intros x y z. lia. Qed.

(** ** Insertion *)

Lemma insert_by_key_perm x l : insert_by_key x l ≡ₚ x :: l.
Proof.
  induction l as [|y l IH]; simpl; [done|].
  case_decide; [done|]. by rewrite IH, Permutation_swap.
Qed.

Lemma insert_by_key_sorted x l :
  StronglySorted key_le l → StronglySorted key_le (insert_by_key x l).
Proof.
  induction 1 as [|y l Hl IH Hy]; simpl; [by repeat constructor|].
  case_decide as Hxy.
  - constructor; [by constructor|]. constructor; [done|].
    eapply Forall_impl; [done|]. unfold key_le in *. simpl. lia.
  - constructor; [done|]. rewrite insert_by_key_perm.
    constructor; [|done]. unfold key_le. lia.
Qed.

Lemma with_key_insert k x l :
  with_key k (insert_by_key x l) = with_key k (x :: l).
Proof.
  unfold with_key. induction l as [|y l IH]; simpl; [done|].
  case_decide as Hxy; [done|].
  rewrite filter_cons, IH, !filter_cons.
  repeat case_decide; try done; lia.
Qed.

(** ** The ascending sort *)

Lemma sort_by_key_perm l : sort_by_key l ≡ₚ l.
Proof.
  induction l as [|x l IH]; simpl; [done|].
  by rewrite insert_by_key_perm, IH.
Qed.

Lemma sort_by_key_sorted l : StronglySorted key_le (sort_by_key l).
Proof.
  induction l as [|x l IH]; simpl; [constructor|].
  by apply insert_by_key_sorted.
Qed.

(** Stability: for each key, the elements of that key keep their order. *)
Lemma sort_by_key_stable k l : with_key k (sort_by_key l) = with_key k l.
Proof.
  induction l as [|x l IH]; simpl; [done|].
  rewrite with_key_insert. unfold with_key in *.
  by rewrite !filter_cons, IH.
Qed.

Lemma length_sort_by_key l : length (sort_by_key l) = length l.
Proof. by rewrite sort_by_key_perm. Qed.

(** In a sorted list no element has a key below the head's. *)
Lemma with_key_sorted_lt x l k :
  StronglySorted key_le (x :: l) → k < key x → with_key k (x :: l) = [].
Proof.
  intros Hs Hk. apply StronglySorted_inv in Hs as [_ Hx].
  unfold with_key. rewrite filter_cons_False by lia.
  apply filter_nil_Forall. eapply Forall_impl; [done|].
  unfold key_le. simpl. lia.
Qed.

Lemma with_key_head x l : with_key (key x) (x :: l) = x :: with_key (key x) l.
Proof. unfold with_key. by rewrite filter_cons_True. Qed.

Lemma with_key_tail x l k : k ≠ key x → with_key k (x :: l) = with_key k l.
Proof. intros. unfold with_key. rewrite filter_cons_False; [done|congruence]. Qed.

(** Two sorted lists with the same elements per key, in the same order,
    are equal. *)
Lemma sorted_with_key_eq l1 l2 :
  StronglySorted key_le l1 → StronglySorted key_le l2 →
  (∀ k, with_key k l1 = with_key k l2) → l1 = l2.
Proof.
  intros Hs1. revert l2.
  induction l1 as [|x l1 IH]; intros [|y l2] Hs2 Heq.
  - done.
  - specialize (Heq (key y)). by rewrite with_key_head in Heq.
  - specialize (Heq (key x)). by rewrite with_key_head in Heq.
  - assert (key x = key y) as Hk.
    { destruct (Z.lt_trichotomy (key x) (key y)) as [?|[?|?]]; [|done|].
      - pose proof (Heq (key x)) as Hq.
        rewrite with_key_head, (with_key_sorted_lt y) in Hq; done.
      - pose proof (Heq (key y)) as Hq.
        rewrite with_key_head, (with_key_sorted_lt x) in Hq; done. }
    pose proof (Heq (key x)) as Hx.
    rewrite Hk, with_key_head, <-Hk, with_key_head in Hx.
    injection Hx as -> Hx. f_equal.
    apply StronglySorted_inv in Hs1 as [? _], Hs2 as [? _].
    apply IH; [done..|]. intros k.
    destruct (decide (k = key y)) as [->|?]; [done|].
    specialize (Heq k). by rewrite !with_key_tail in Heq.
Qed.

(** Any stable sort by key computes [sort_by_key]. *)
Lemma sort_by_key_unique l l' :
  StronglySorted key_le l' →
  (∀ k, with_key k l' = with_key k l) →
  l' = sort_by_key l.
Proof.
  intros Hs Hk. apply sorted_with_key_eq; [done|apply sort_by_key_sorted|].
  intros k. by rewrite sort_by_key_stable.
Qed.

(** ** The descending order of the leaderboard *)

Lemma sort_desc_perm l : sort_desc l ≡ₚ l.
Proof. unfold sort_desc. by rewrite reverse_Permutation, sort_by_key_perm. Qed.

Lemma length_sort_desc l : length (sort_desc l) = length l.
Proof. by rewrite sort_desc_perm. Qed.

Lemma elem_of_sort_desc x l : x ∈ sort_desc l ↔ x ∈ l.
Proof. by rewrite sort_desc_perm. Qed.

Lemma sort_desc_sorted l : StronglySorted key_ge (sort_desc l).
Proof. apply (StronglySorted_reverse key_le), sort_by_key_sorted. Qed.

(** Equal keys come out in the reverse of their input order. *)
Lemma sort_desc_ties k l : with_key k (sort_desc l) = reverse (with_key k l).
Proof.
  unfold sort_desc, with_key. rewrite filter_reverse.
  f_equal. apply sort_by_key_stable.
Qed.

End sort_by_key.

(** Sorting by key and reversing, as the handler does, is the
    stable sort by decreasing key of the reversed input. *)
Theorem sort_desc_alt {A} (key : A → Z) (l : list A) :
  sort_desc key l = sort_by_key (λ x, - key x) (reverse l).
Proof.
  apply sort_by_key_unique.
  - eapply StronglySorted_impl; [|apply (sort_desc_sorted key)].
    unfold key_ge, key_le. intros x y. simpl. lia.
  - intros k. unfold with_key.
    erewrite (list_filter_iff _ (λ x, key x = - k));
      [|intros; simpl; lia].
    erewrite (list_filter_iff _ (λ x, key x = - k) (reverse l));
      [|intros; simpl; lia].
    rewrite filter_reverse. apply sort_desc_ties.
Qed.
