(* ===== verification/Guild.v ===== *)
(** * Guild: the per-guild state and the registry of guilds

    [Config] and [Handler] are the records behind [this.config] and
    [this.taters_got] / [this.taters_given] in [commands.rs]; their
    declarations are in the handler module above [commands.rs], so the
    fields are the ones the command handler reads and writes.  The sets
    are [gset]s and the tables [gmap]s; identities, counts and the
    threshold are 64-bit integers.

    [Platform] is the interface to the code [commands.rs] calls but does
    not contain: the rendering of a channel mention, the parser of a
    reaction symbol and the defaults of [Handler::new].  Every theorem of
    the development holds for every instance of it.

    [entry_or_insert] is the registry access of line 30,
    [handlers.entry(guild_id).or_insert_with(Handler::new)].

    The invariant [wf_handler] says that every stored number fits 64
    bits; [Commands] shows that each command keeps it. *)

From stdpp Require Import gmap.
From S2P Require Import Prelude Text.

#[local] Open Scope Z_scope.

Notation UserId := Z (only parsing).
Notation ChannelId := Z (only parsing).
Notation GuildId := Z (only parsing).

(** [serenity::model::channel::ReactionType], seen through its [Display]
    implementation: the handler only ever prints a reaction. *)
Record ReactionType := { reaction_to_string : text }.

#[export] Instance ReactionType_eq_dec : EqDecision ReactionType.
Proof. solve_decision. Defined.

Record Config := {
  trigger_word : text;
  admins : gset Z;
  blacklisted_channels : gset Z;
  pin_channel : Z;
  threshold : Z;
  tater_emoji : ReactionType;
}.

#[export] Instance Config_eq_dec : EqDecision Config.
Proof. solve_decision. Defined.

Record Handler := {
  config : Config;
  taters_got : gmap Z Z;
  taters_given : gmap Z Z;
}.

#[export] Instance Handler_eq_dec : EqDecision Handler.
Proof. solve_decision. Defined.

(** ** Field updates ([this.config.f = v]) *)

Definition set_admins (s : gset Z) (c : Config) : Config :=
  {| trigger_word := trigger_word c; admins := s;
     blacklisted_channels := blacklisted_channels c;
     pin_channel := pin_channel c; threshold := threshold c;
     tater_emoji := tater_emoji c |}.

Definition set_blacklisted_channels (s : gset Z) (c : Config) : Config :=
  {| trigger_word := trigger_word c; admins := admins c;
     blacklisted_channels := s;
     pin_channel := pin_channel c; threshold := threshold c;
     tater_emoji := tater_emoji c |}.

Definition set_pin_channel (x : Z) (c : Config) : Config :=
  {| trigger_word := trigger_word c; admins := admins c;
     blacklisted_channels := blacklisted_channels c;
     pin_channel := x; threshold := threshold c;
     tater_emoji := tater_emoji c |}.

Definition set_threshold (x : Z) (c : Config) : Config :=
  {| trigger_word := trigger_word c; admins := admins c;
     blacklisted_channels := blacklisted_channels c;
     pin_channel := pin_channel c; threshold := x;
     tater_emoji := tater_emoji c |}.

Definition set_tater_emoji (r : ReactionType) (c : Config) : Config :=
  {| trigger_word := trigger_word c; admins := admins c;
     blacklisted_channels := blacklisted_channels c;
     pin_channel := pin_channel c; threshold := threshold c;
     tater_emoji := r |}.

Definition set_config (c : Config) (h : Handler) : Handler :=
  {| config := c; taters_got := taters_got h; taters_given := taters_given h |}.

(** ** [HashSet] operations with their return values *)

(** [HashSet::insert]: the new set and whether the value was new. *)
Definition hashset_insert (x : Z) (s : gset Z) : gset Z * bool :=
  ({[x]} ∪ s, bool_decide (x ∉ s)).

(** [HashSet::remove]: the new set and whether the value was present. *)
Definition hashset_remove (x : Z) (s : gset Z) : gset Z * bool :=
  (s ∖ {[x]}, bool_decide (x ∈ s)).

(** ** The interface to the code outside [commands.rs] *)

Class Platform := {
  (** [ChannelId::mention().to_string()] *)
  channel_mention : Z → text;
  (** [ReactionType::try_from(&str)], errors already printed *)
  reaction_try_from : text → result text ReactionType;
  (** the configuration [Handler::new] starts from *)
  default_trigger_word : text;
  default_pin_channel : Z;
  default_threshold : Z;
  default_tater_emoji : ReactionType;
  default_pin_channel_u64 : in_u64 default_pin_channel;
  default_threshold_u64 : in_u64 default_threshold;
}.

Section guild.
Context `{Platform}.

(** [Handler::new]: no admins, nothing blacklisted, empty tables. *)
Definition Handler_new : Handler :=
  {| config :=
       {| trigger_word := default_trigger_word; admins := ∅;
          blacklisted_channels := ∅; pin_channel := default_pin_channel;
          threshold := default_threshold;
          tater_emoji := default_tater_emoji |};
     taters_got := ∅; taters_given := ∅ |}.

(** [handlers.entry(guild_id).or_insert_with(Handler::new)]: the registry
    with the guild present, and the guild's state. *)
Definition entry_or_insert (handlers : gmap Z Handler) (g : Z)
    : gmap Z Handler * Handler :=
  match handlers !! g with
  | Some h => (handlers, h)
  | None => (<[g := Handler_new]> handlers, Handler_new)
  end.

(** ** Well-formedness *)

Definition wf_config (c : Config) : Prop :=
  set_Forall in_u64 (admins c) ∧
  set_Forall in_u64 (blacklisted_channels c) ∧
  in_u64 (pin_channel c) ∧
  in_u64 (threshold c).

Definition wf_table (t : gmap Z Z) : Prop :=
  map_Forall (λ k v, in_u64 k ∧ in_u64 v) t.

Definition wf_handler (h : Handler) : Prop :=
  wf_config (config h) ∧ wf_table (taters_got h) ∧ wf_table (taters_given h).

Definition wf_handlers (handlers : gmap Z Handler) : Prop :=
  map_Forall (λ _ h, wf_handler h) handlers.

(** ** Sets *)

Lemma hashset_insert_elem x s y :
  y ∈ (hashset_insert x s).1 ↔ y = x ∨ y ∈ s.
Proof. unfold hashset_insert. set_solver. Qed.

Lemma hashset_insert_existed x s :
  (hashset_insert x s).2 = false → (hashset_insert x s).1 = s.
Proof.
  unfold hashset_insert. simpl. intros Hx%bool_decide_eq_false.
  apply dec_stable in Hx. set_solver.
Qed.

Lemma hashset_insert_new x s :
  (hashset_insert x s).2 = true ↔ x ∉ s.
Proof. unfold hashset_insert. simpl. apply bool_decide_eq_true. Qed.

Lemma hashset_remove_elem x s y :
  y ∈ (hashset_remove x s).1 ↔ y ≠ x ∧ y ∈ s.
Proof. unfold hashset_remove. set_solver. Qed.

Lemma hashset_remove_absent x s :
  (hashset_remove x s).2 = false → (hashset_remove x s).1 = s.
Proof.
  unfold hashset_remove. simpl. intros Hx%bool_decide_eq_false. set_solver.
Qed.

Lemma hashset_remove_present x s :
  (hashset_remove x s).2 = true ↔ x ∈ s.
Proof. unfold hashset_remove. simpl. apply bool_decide_eq_true. Qed.

Lemma hashset_insert_wf x s :
  in_u64 x → set_Forall in_u64 s → set_Forall in_u64 (hashset_insert x s).1.
Proof.
  intros Hx Hs y [->|?]%hashset_insert_elem; [done|]. by apply Hs.
Qed.

Lemma hashset_remove_wf x s :
  set_Forall in_u64 s → set_Forall in_u64 (hashset_remove x s).1.
Proof. intros Hs y [_ ?]%hashset_remove_elem. by apply Hs. Qed.

(** ** The registry *)

Lemma Handler_new_wf : wf_handler Handler_new.
Proof.
  split_and!; simpl; try apply map_Forall_empty.
  split_and!; simpl;
    [apply set_Forall_empty..|apply default_pin_channel_u64
    |apply default_threshold_u64].
Qed.

(** The state [entry_or_insert] hands out is the one the registry
    then holds for the guild. *)
Theorem entry_or_insert_lookup handlers g :
  (entry_or_insert handlers g).1 !! g = Some (entry_or_insert handlers g).2.
Proof.
  unfold entry_or_insert. destruct (handlers !! g) eqn:Hg; simpl; [done|].
  by rewrite lookup_insert_eq.
Qed.

(** Other guilds are not touched. *)
Lemma entry_or_insert_other handlers g g' :
  g ≠ g' → (entry_or_insert handlers g).1 !! g' = handlers !! g'.
Proof.
  intros. unfold entry_or_insert. destruct (handlers !! g); simpl; [done|].
  by rewrite lookup_insert_ne.
Qed.

(** An existing guild keeps its state; a new one starts from the
    default. *)
Lemma entry_or_insert_this handlers g :
  (entry_or_insert handlers g).2 = default Handler_new (handlers !! g).
Proof. unfold entry_or_insert. by destruct (handlers !! g). Qed.

Lemma entry_or_insert_wf handlers g :
  wf_handlers handlers →
  wf_handlers (entry_or_insert handlers g).1 ∧
  wf_handler (entry_or_insert handlers g).2.
Proof.
  intros Hwf. unfold entry_or_insert. destruct (handlers !! g) eqn:Hg; simpl.
  - split; [done|]. by eapply (Hwf g).
  - split; [|apply Handler_new_wf].
    apply map_Forall_insert_2; [apply Handler_new_wf|done].
Qed.

Lemma wf_handlers_insert handlers g h :
  wf_handlers handlers → wf_handler h → wf_handlers (<[g := h]> handlers).
Proof. intros. by apply map_Forall_insert_2. Qed.

End guild.
