(* ===== verification/Effects.v ===== *)
(** * Effects: the world the handler talks to, and its monad

    [handle_commands] is an [async fn] that mutates the guild's state
    [this], sends messages, asks the chat service for users and members,
    and saves files; any of the calls can fail, and a [?] then leaves the
    function with the error while the state keeps what was written.

    - [World] is the interface to everything outside the process: the
      answer of each request, whether a delivery or a save succeeds, the
      iteration order of the hash tables, and whether the build checks
      arithmetic overflow.  It is a class, so that the theorems hold for
      every world and the witnesses run in a concrete one.
    - [Event] is what the handler did to the world, in order: the trace.
    - [M A] is the monad of the handler's body: it threads the state
      [this], appends to the trace and ends in an [Outcome]: a value, an
      error that [?] propagates ([Fail]), or a panic.  [try_block] is
      Rust's [try { ... }]: it catches [Fail], not [Panic], and does not
      undo writes.
    - The laws: [M] is a monad up to [≡] (pointwise equality of runs),
      [mbind] is [Proper] for it, and the combinators [pure_state],
      [preserves], [silent], [emits] and [no_panic] compose along
      [mbind], which is how [Commands] and [Dispatch] prove their frame,
      invariant and panic-freedom theorems. *)

From stdpp Require Import gmap.
From S2P Require Import Prelude Text Guild.

#[local] Open Scope Z_scope.

(** ** Data of the chat library *)

(** [serenity::model::user::User], seen through the two renderings the
    handler uses: [mention()] and [tag()]. *)
Record User := { user_mention : text; user_tag : text }.

(** [serenity::model::guild::Role]: its permission bits. *)
Record Role := { permissions : Z }.

(** [Permissions::ADMINISTRATOR], bit 3. *)
Definition ADMINISTRATOR : Z := 8.

(** [Role::has_permission]: all bits of [p] are set. *)
Definition has_permission (r : Role) (p : Z) : bool :=
  bool_decide (Z.land (permissions r) p = p).

(** [serenity::model::channel::Message], the fields the handler reads. *)
Record Message := {
  guild_id : option Z;
  author_id : Z;
  content : text;
  channel_id : Z;
}.

#[export] Instance Message_eq_dec : EqDecision Message.
Proof. solve_decision. Defined.

(** ** Events *)

Inductive Event :=
| EvSay (channel : Z) (content : text)
| EvSendEmbed (channel : Z) (title description footer : text)
| EvSendNoMentions (channel : Z) (content : text)
| EvSaveTaters (guild : Z) (handlers : gmap Z Handler)
| EvSaveConfig (guild : Z) (handlers : gmap Z Handler).

#[export] Instance Event_eq_dec : EqDecision Event.
Proof. solve_decision. Defined.

Definition is_save_config (e : Event) : bool :=
  match e with EvSaveConfig _ _ => true | _ => false end.

Definition is_save_taters (e : Event) : bool :=
  match e with EvSaveTaters _ _ => true | _ => false end.

(** ** The world *)

Class World := {
  (** [message.guild(&ctx.cache)] finds the guild *)
  guild_in_cache : Z → bool;
  (** [guild.member(http, user).await] and then [.roles(&ctx.cache)]:
      the request fails, or the roles are not cached, or they are *)
  fetch_member_roles : Z → Z → result text (option (list Role));
  (** [ctx.http.get_user(id)] *)
  get_user : Z → result text User;
  (** whether a delivery or a save succeeds, and the error if not *)
  deliver : Event → result text ();
  (** [HashMap::iter] and [HashSet::iter]: some order of the entries *)
  map_iter : gmap Z Z → list (Z * Z);
  set_iter : gset Z → list Z;
  (** the build profile: debug builds panic on overflow, release builds
      wrap *)
  overflow_checks : bool;
  map_iter_perm : ∀ m, map_iter m ≡ₚ map_to_list m;
  set_iter_perm : ∀ s, set_iter s ≡ₚ elements s;
}.

(** ** Outcomes and runs *)

Inductive Outcome (A : Type) : Type :=
| Done (a : A)
| Fail (e : text)
| Panic.
Arguments Done {A} a.
Arguments Fail {A} e.
Arguments Panic {A}.

#[export] Instance Outcome_eq_dec {A} `{EqDecision A} : EqDecision (Outcome A).
Proof. solve_decision. Defined.

Record Run (A : Type) : Type := MkRun {
  final : Handler;
  trace : list Event;
  outcome : Outcome A;
}.
Arguments MkRun {A} final trace outcome.
Arguments final {A} r.
Arguments trace {A} r.
Arguments outcome {A} r.

Record M (A : Type) : Type := MkM { run : Handler → Run A }.
Arguments MkM {A} run.
Arguments run {A} m this.

(** A run that comes after the events [t]. *)
Definition after {A} (t : list Event) (r : Run A) : Run A :=
  MkRun (final r) (t ++ trace r) (outcome r).

(** Sequencing of runs: the continuation starts from the state the first
    run left, unless that run failed or panicked. *)
Definition bind_run {A B} (r : Run A) (k : A → Handler → Run B) : Run B :=
  match outcome r with
  | Done a => after (trace r) (k a (final r))
  | Fail e => MkRun (final r) (trace r) (Fail e)
  | Panic => MkRun (final r) (trace r) Panic
  end.

(** The run of a [try] block: an error becomes a value. *)
Definition try_run {A} (r : Run A) : Run (result text A) :=
  MkRun (final r) (trace r)
    (match outcome r with
     | Done a => Done (Ok a)
     | Fail e => Done (Err e)
     | Panic => Panic
     end).

#[export] Instance M_ret : MRet M := λ A a, MkM (λ h, MkRun h [] (Done a)).

#[export] Instance M_bind : MBind M := λ A B f m,
  MkM (λ h, bind_run (run m h) (λ a h', run (f a) h')).

#[export] Instance M_equiv {A} : Equiv (M A) := λ m1 m2, ∀ h, run m1 h = run m2 h.

(** ** Primitive operations *)

(** Read [this]. *)
Definition get_this : M Handler := MkM (λ h, MkRun h [] (Done h)).

(** Write [this.config]. *)
Definition put_config (c : Config) : M () :=
  MkM (λ h, MkRun (set_config c h) [] (Done ())).

(** The [?] operator on a [Result<_, String>]. *)
Definition lift_result {A} (r : result text A) : M A :=
  MkM (λ h, MkRun h [] (match r with Ok a => Done a | Err e => Fail e end)).

Definition panic {A} : M A := MkM (λ h, MkRun h [] Panic).

Section effects.
Context `{World}.

(** One delivery or save, followed by [?]: the event is in the trace if
    it succeeded. *)
Definition perform (e : Event) : M () :=
  MkM (λ h,
    match deliver e with
    | Ok _ => MkRun h [e] (Done ())
    | Err err => MkRun h [] (Fail err)
    end).

(** [channel_id.say(&ctx.http, msg).await?] *)
Definition say (channel : Z) (msg : text) : M () := perform (EvSay channel msg).

(** [format!("An error occured: \n{}", oh_no)] *)
Definition error_message (oh_no : text) : text :=
  str "An error occured: " ++ [10] ++ oh_no.

(** [try { ... }]: the block's value or its first error, as a [Result];
    writes made before the error stay. *)
Definition try_block {A} (m : M A) : M (result text A) :=
  MkM (λ h, try_run (run m h)).

(** Arithmetic on [usize]: a result out of range panics in a build with
    overflow checks and wraps in one without. *)
Definition usize_op (x : Z) : M Z :=
  if decide (in_u64 x) then mret x
  else if overflow_checks then panic else mret (wrap_u64 x).

(** ** Specification predicates *)

(** The computation never writes the state. *)
Definition pure_state {A} (m : M A) : Prop := ∀ h, final (run m h) = h.

(** The computation keeps a property of the state. *)
Definition preserves {A} (P : Handler → Prop) (m : M A) : Prop :=
  ∀ h, P h → P (final (run m h)).

(** The computation does not panic from any state. *)
Definition no_panic {A} (m : M A) : Prop := ∀ h, outcome (run m h) ≠ Panic.

(** The computation ends with a value and without events. *)
Definition silent {A} (m : M A) : Prop :=
  ∀ h, ∃ a, outcome (run m h) = Done a ∧ trace (run m h) = [].

(** An error leaves the state as it was. *)
Definition fail_safe {A} (m : M A) : Prop :=
  ∀ h e, outcome (run m h) = Fail e → final (run m h) = h.

(** Every event of the computation has a property. *)
Definition emits {A} (P : Event → Prop) (m : M A) : Prop :=
  ∀ h, Forall P (trace (run m h)).

(** ** How a bind runs *)

Lemma run_bind {A B} (m : M A) (f : A → M B) h :
  run (m ≫= f) h = bind_run (run m h) (λ a h', run (f a) h').
Proof. done. Qed.

Lemma run_ret {A} (a : A) h : run (mret a) h = MkRun h [] (Done a).
Proof. done. Qed.

Lemma run_try_block {A} (m : M A) h : run (try_block m) h = try_run (run m h).
Proof. done. Qed.

Lemma run_get_this h : run get_this h = MkRun h [] (Done h).
Proof. done. Qed.

Lemma run_put_config c h :
  run (put_config c) h = MkRun (set_config c h) [] (Done ()).
Proof. done. Qed.

Lemma run_lift_result {A} (r : result text A) h :
  run (lift_result r) h =
    MkRun h [] (match r with Ok a => Done a | Err e => Fail e end).
Proof. done. Qed.

Lemma run_panic {A} h : run (@panic A) h = MkRun h [] Panic.
Proof. done. Qed.

Lemma run_perform e h :
  run (perform e) h =
    match deliver e with
    | Ok _ => MkRun h [e] (Done ())
    | Err err => MkRun h [] (Fail err)
    end.
Proof. done. Qed.

Lemma run_say c msg h : run (say c msg) h = run (perform (EvSay c msg)) h.
Proof. done. Qed.

Lemma after_nil {A} (r : Run A) : after [] r = r.
Proof. by destruct r. Qed.

Lemma after_after {A} t1 t2 (r : Run A) : after t1 (after t2 r) = after (t1 ++ t2) r.
Proof. unfold after. simpl. by rewrite app_assoc. Qed.

Lemma bind_run_Done {A B} h t (a : A) (k : A → Handler → Run B) :
  bind_run (MkRun h t (Done a)) k = after t (k a h).
Proof. done. Qed.

Lemma bind_run_Fail {A B} h t e (k : A → Handler → Run B) :
  bind_run (MkRun h t (Fail e)) k = MkRun h t (Fail e).
Proof. done. Qed.

Lemma bind_run_Panic {A B} h t (k : A → Handler → Run B) :
  bind_run (MkRun h t Panic) k = MkRun h t Panic.
Proof. done. Qed.

Lemma bind_run_after {A B} t (r : Run A) (k : A → Handler → Run B) :
  bind_run (after t r) k = after t (bind_run r k).
Proof.
  destruct r as [h t' [a| |]]; unfold bind_run, after; simpl; [|done..].
  by rewrite app_assoc.
Qed.

Lemma try_run_after {A} t (r : Run A) : try_run (after t r) = after t (try_run r).
Proof. done. Qed.

Lemma try_run_Done {A} h t (a : A) :
  try_run (MkRun h t (Done a)) = MkRun h t (Done (Ok a)).
Proof. done. Qed.

Lemma try_run_Fail {A} h t e :
  try_run (MkRun (A:=A) h t (Fail e)) = MkRun h t (Done (Err e)).
Proof. done. Qed.

Lemma try_run_Panic {A} h t :
  try_run (MkRun (A:=A) h t Panic) = MkRun h t Panic.
Proof. done. Qed.

Lemma after_MkRun {A} t h t' (o : Outcome A) :
  after t (MkRun h t' o) = MkRun h (t ++ t') o.
Proof. done. Qed.

(** ** The monad laws, up to [≡] *)

#[export] Instance M_equivalence {A} : Equivalence (≡@{M A}).
Proof.
  split; [by intros ??| by intros ?? Hm ?|].
  intros ??? H1 H2 h. by rewrite H1.
Qed.

#[export] Instance M_bind_proper {A B} :
  Proper (pointwise_relation A (≡) ==> (≡) ==> (≡@{M B})) mbind.
Proof.
  intros f g Hfg m1 m2 Hm h. rewrite !run_bind, (Hm h). unfold bind_run.
  destruct (outcome (run m2 h)); [|done..]. by rewrite (Hfg _ _).
Qed.

Lemma M_bind_ret_l {A B} (a : A) (f : A → M B) : mret a ≫= f ≡ f a.
Proof. intros h. rewrite run_bind, run_ret, bind_run_Done. apply after_nil. Qed.

Lemma M_bind_ret_r {A} (m : M A) : m ≫= mret ≡ m.
Proof.
  intros h. rewrite run_bind. destruct (run m h) as [h' t [a| |]]; [|done..].
  rewrite bind_run_Done, run_ret. unfold after. simpl. by rewrite app_nil_r.
Qed.

Lemma M_bind_assoc {A B C} (m : M A) (f : A → M B) (g : B → M C) :
  (m ≫= f) ≫= g ≡ m ≫= (λ a, f a ≫= g).
Proof.
  intros h. rewrite !run_bind.
  destruct (run m h) as [h1 t1 [a| |]]; [|done..].
  by rewrite !bind_run_Done, bind_run_after.
Qed.

(** The outcome of a bind, by cases on the first computation. *)
Lemma outcome_bind {A B} (m : M A) (f : A → M B) h :
  outcome (run (m ≫= f) h) =
    match outcome (run m h) with
    | Done a => outcome (run (f a) (final (run m h)))
    | Fail e => Fail e
    | Panic => Panic
    end.
Proof. rewrite run_bind. unfold bind_run. by destruct (outcome (run m h)). Qed.

Lemma final_bind {A B} (m : M A) (f : A → M B) h :
  final (run (m ≫= f) h) =
    match outcome (run m h) with
    | Done a => final (run (f a) (final (run m h)))
    | _ => final (run m h)
    end.
Proof. rewrite run_bind. unfold bind_run. by destruct (outcome (run m h)). Qed.

(** A continuation that does not write leaves the state of the first
    computation. *)
Lemma final_bind_pure {A B} (m : M A) (f : A → M B) h :
  (∀ a h', final (run (f a) h') = h') →
  final (run (m ≫= f) h) = final (run m h).
Proof. intros Hf. rewrite final_bind. by destruct (outcome (run m h)). Qed.

Lemma final_try_block {A} (m : M A) h :
  final (run (try_block m) h) = final (run m h).
Proof. done. Qed.

Lemma trace_bind {A B} (m : M A) (f : A → M B) h :
  trace (run (m ≫= f) h) =
    match outcome (run m h) with
    | Done a => trace (run m h) ++ trace (run (f a) (final (run m h)))
    | _ => trace (run m h)
    end.
Proof. rewrite run_bind. unfold bind_run. by destruct (outcome (run m h)). Qed.

(** ** Frame and invariant rules *)

Lemma pure_state_ret {A} (a : A) : pure_state (mret a).
Proof. by intros h. Qed.

Lemma pure_state_bind {A B} (m : M A) (f : A → M B) :
  pure_state m → (∀ a, pure_state (f a)) → pure_state (m ≫= f).
Proof.
  intros Hm Hf h. rewrite final_bind.
  destruct (outcome (run m h)); rewrite ?Hf; apply Hm.
Qed.

Lemma pure_state_get_this : pure_state get_this.
Proof. by intros h. Qed.

Lemma pure_state_lift_result {A} (r : result text A) : pure_state (lift_result r).
Proof. by intros h. Qed.

Lemma pure_state_panic {A} : pure_state (@panic A).
Proof. by intros h. Qed.

Lemma pure_state_perform e : pure_state (perform e).
Proof. intros h. simpl. by destruct (deliver e). Qed.

Lemma pure_state_say c msg : pure_state (say c msg).
Proof. apply pure_state_perform. Qed.

Lemma pure_state_try_block {A} (m : M A) : pure_state m → pure_state (try_block m).
Proof. intros Hm h. apply Hm. Qed.

Lemma pure_state_usize_op x : pure_state (usize_op x).
Proof.
  unfold usize_op. case_decide; [apply pure_state_ret|].
  destruct overflow_checks; [apply pure_state_panic|apply pure_state_ret].
Qed.

Lemma pure_state_preserves {A} P (m : M A) : pure_state m → preserves P m.
Proof. intros Hm h ?. by rewrite Hm. Qed.

Lemma preserves_bind {A B} P (m : M A) (f : A → M B) :
  preserves P m → (∀ a, preserves P (f a)) → preserves P (m ≫= f).
Proof.
  intros Hm Hf h HP. rewrite final_bind.
  destruct (outcome (run m h)); [apply Hf|..]; by apply Hm.
Qed.

(** After [?] on a result the continuation only runs on its value. *)
Lemma preserves_bind_lift {A B} P (r : result text A) (f : A → M B) :
  (∀ a, r = Ok a → preserves P (f a)) → preserves P (lift_result r ≫= f).
Proof.
  intros Hf h Hh. rewrite final_bind. destruct r as [a|e]; simpl; [|done].
  by apply Hf.
Qed.

Lemma preserves_try_block {A} P (m : M A) :
  preserves P m → preserves P (try_block m).
Proof. intros Hm h. apply Hm. Qed.

Lemma preserves_put_config P c :
  (∀ h, P h → P (set_config c h)) → preserves P (put_config c).
Proof. intros Hc h. apply Hc. Qed.

(** ** Silent computations and safety of errors *)

Lemma silent_ret {A} (a : A) : silent (mret a).
Proof. intros h. by exists a. Qed.

Lemma silent_get_this : silent get_this.
Proof. intros h. by exists h. Qed.

Lemma silent_put_config c : silent (put_config c).
Proof. intros h. by exists (). Qed.

Lemma silent_bind {A B} (m : M A) (f : A → M B) :
  silent m → (∀ a, silent (f a)) → silent (m ≫= f).
Proof.
  intros Hm Hf h. destruct (Hm h) as (a & Ha & Ht).
  destruct (Hf a (final (run m h))) as (b & Hb & Ht').
  exists b. by rewrite outcome_bind, trace_bind, Ha, Ht, Ht'.
Qed.

(** A silent computation runs to a state and a value. *)
Lemma silent_run {A} (m : M A) h :
  silent m → ∃ a, run m h = MkRun (final (run m h)) [] (Done a).
Proof.
  intros Hm. destruct (Hm h) as (a & Ha & Ht). exists a.
  destruct (run m h). simpl in *. by subst.
Qed.

Lemma silent_no_panic {A} (m : M A) : silent m → no_panic m.
Proof. intros Hm h. destruct (Hm h) as (a & Ha & _). congruence. Qed.

Lemma fail_safe_pure {A} (m : M A) : pure_state m → fail_safe m.
Proof. intros Hm h e _. apply Hm. Qed.

Lemma fail_safe_silent {A} (m : M A) : silent m → fail_safe m.
Proof. intros Hm h e He. destruct (Hm h) as (a & Ha & _). congruence. Qed.

Lemma fail_safe_bind {A B} (m : M A) (f : A → M B) :
  pure_state m → (∀ a, fail_safe (f a)) → fail_safe (m ≫= f).
Proof.
  intros Hm Hf h e. rewrite outcome_bind, final_bind.
  destruct (outcome (run m h)) eqn:Ho; rewrite ?Hm; [apply Hf|done..].
Qed.

(** ** What is emitted *)

Lemma emits_ret {A} P (a : A) : emits P (mret a).
Proof. intros h. constructor. Qed.

Lemma emits_bind {A B} P (m : M A) (f : A → M B) :
  emits P m → (∀ a, emits P (f a)) → emits P (m ≫= f).
Proof.
  intros Hm Hf h. rewrite trace_bind. specialize (Hm h).
  destruct (outcome (run m h)); [|done..]. apply Forall_app. split; [done|apply Hf].
Qed.

Lemma emits_silent {A} P (m : M A) : silent m → emits P m.
Proof. intros Hm h. destruct (Hm h) as (a & _ & ->). constructor. Qed.

Lemma emits_get_this P : emits P get_this.
Proof. intros h. constructor. Qed.

Lemma emits_put_config P c : emits P (put_config c).
Proof. intros h. constructor. Qed.

Lemma emits_lift_result {A} P (r : result text A) : emits P (lift_result r).
Proof. intros h. constructor. Qed.

Lemma emits_panic {A} P : emits P (@panic A).
Proof. intros h. constructor. Qed.

Lemma emits_perform (P : Event → Prop) e : P e → emits P (perform e).
Proof. intros He h. simpl. destruct (deliver e); simpl; by repeat constructor. Qed.

Lemma emits_try_block {A} P (m : M A) : emits P m → emits P (try_block m).
Proof. intros Hm h. apply Hm. Qed.

Lemma emits_usize_op P x : emits P (usize_op x).
Proof.
  unfold usize_op. case_decide; [apply emits_ret|].
  destruct overflow_checks; [apply emits_panic|apply emits_ret].
Qed.

Lemma emits_impl {A} (P Q : Event → Prop) (m : M A) :
  (∀ e, P e → Q e) → emits P m → emits Q m.
Proof. intros HPQ Hm h. eapply Forall_impl; [apply Hm|done]. Qed.

(** ** Panic freedom *)

Lemma no_panic_ret {A} (a : A) : no_panic (mret a).
Proof. by intros h. Qed.

Lemma no_panic_bind {A B} (m : M A) (f : A → M B) :
  no_panic m → (∀ a, no_panic (f a)) → no_panic (m ≫= f).
Proof.
  intros Hm Hf h. rewrite outcome_bind. specialize (Hm h).
  destruct (outcome (run m h)); [apply Hf|done..].
Qed.

Lemma no_panic_get_this : no_panic get_this.
Proof. by intros h. Qed.

Lemma no_panic_put_config c : no_panic (put_config c).
Proof. by intros h. Qed.

Lemma no_panic_lift_result {A} (r : result text A) : no_panic (lift_result r).
Proof. intros h. simpl. by destruct r. Qed.

Lemma no_panic_perform e : no_panic (perform e).
Proof. intros h. simpl. by destruct (deliver e). Qed.

Lemma no_panic_say c msg : no_panic (say c msg).
Proof. apply no_panic_perform. Qed.

Lemma no_panic_try_block {A} (m : M A) : no_panic m → no_panic (try_block m).
Proof.
  intros Hm h. specialize (Hm h). rewrite run_try_block. simpl.
  by destruct (outcome (run m h)).
Qed.

(** Without overflow checks arithmetic never panics; with them it
    panics exactly when the result leaves the range. *)
Lemma no_panic_usize_op x : overflow_checks = false → no_panic (usize_op x).
Proof.
  intros Hoc h. unfold usize_op. rewrite Hoc. by case_decide.
Qed.

Lemma usize_op_in_range x h :
  in_u64 x → run (usize_op x) h = MkRun h [] (Done x).
Proof. intros. unfold usize_op. by rewrite decide_True. Qed.

Lemma usize_op_checked x h :
  ¬ in_u64 x → overflow_checks = true → run (usize_op x) h = MkRun h [] Panic.
Proof. intros ? Hoc. unfold usize_op. by rewrite decide_False, Hoc. Qed.

Lemma usize_op_wrapping x h :
  ¬ in_u64 x → overflow_checks = false →
  run (usize_op x) h = MkRun h [] (Done (wrap_u64 x)).
Proof. intros ? Hoc. unfold usize_op. by rewrite decide_False, Hoc. Qed.

(** ** The order of iteration *)

Lemma elem_of_map_iter m k v : (k, v) ∈ map_iter m ↔ m !! k = Some v.
Proof. by rewrite map_iter_perm, elem_of_map_to_list. Qed.

Lemma length_map_iter m : length (map_iter m) = size m.
Proof. by rewrite map_iter_perm, length_map_to_list. Qed.

Lemma NoDup_map_iter_keys m : NoDup (map_iter m).*1.
Proof. rewrite map_iter_perm. apply NoDup_fst_map_to_list. Qed.

Lemma elem_of_set_iter s x : x ∈ set_iter s ↔ x ∈ s.
Proof. by rewrite set_iter_perm, elem_of_elements. Qed.

Lemma NoDup_set_iter s : NoDup (set_iter s).
Proof. rewrite set_iter_perm. apply NoDup_elements. Qed.

End effects.

#[export] Hint Rewrite @run_bind @run_ret @run_try_block run_get_this
  run_put_config @run_lift_result @run_panic @run_say @bind_run_Done
  @bind_run_Fail @bind_run_Panic @after_nil @after_after @try_run_Done
  @try_run_Fail @try_run_Panic @after_MkRun : run.

(** Run the handler's code symbolically: unfold binds and primitives,
    leaving the matches on what the world answers. *)
Ltac run_simpl :=
  repeat (progress (autorewrite with run; cbn [final trace outcome app])).

#[export] Hint Resolve pure_state_ret pure_state_get_this pure_state_lift_result
  pure_state_panic pure_state_perform pure_state_say pure_state_try_block
  pure_state_usize_op pure_state_bind : tater.
#[export] Hint Resolve silent_ret silent_get_this silent_put_config
  silent_bind : tater.
#[export] Hint Resolve emits_ret emits_get_this emits_put_config
  emits_lift_result emits_panic emits_try_block emits_usize_op emits_perform
  emits_bind : tater.
#[export] Hint Resolve no_panic_ret no_panic_get_this no_panic_put_config
  no_panic_lift_result no_panic_perform no_panic_say no_panic_try_block
  no_panic_bind : tater.
