(* ===== verification/Leaderboard.v ===== *)
(** * Leaderboard: the [receivers] and [givers] commands

    Lines 86-182 of [commands.rs].  The pure part ranks a table:
    [page_num] (line 89), [scores] (lines 97-101), [to_display] (lines
    103-107), [medal] (lines 116-121), [board_line] (lines 128-135),
    [asker_place] (lines 138-148), [place_strings] (lines 149-152),
    [total_pages] (line 153) and [footer] (lines 154-162).  The effectful
    part, [render_board] (the [for] loop of lines 115-136) and
    [cmd_leaderboard] (the whole arm), asks the chat service for each
    displayed user and sends one embed, or one error message.

    Integers: [page_num] and the products and sums of lines 106 and 160
    are [usize]; they go through [usize_op], which panics or wraps by
    the build profile.  A rank [idx + 1] is below the length of a vector
    and cannot overflow.

    Theorems: the ranking is a permutation of the table, sorted by
    decreasing count, with equal counts in reverse iteration order; the
    window of a page holds consecutive ranks; the requester's place does
    not depend on the page; the number of pages is one more than needed
    when the table's size is a multiple of the page size; the command
    never writes the state; it panics exactly in a build with overflow
    checks on a page number of [1844674407370955162] or more, and shows
    a wrong window there in a build without. *)

From stdpp Require Import gmap.
From S2P Require Import Prelude Text Sorting Guild Effects.

#[local] Open Scope Z_scope.

(** Which arm of [leaderboard @ "receivers" | leaderboard @ "givers"]. *)
Inductive Board := Receivers | Givers.

#[export] Instance Board_eq_dec : EqDecision Board.
Proof. solve_decision. Defined.

Definition PAGE_SIZE : Z := 10.

Definition board_map (b : Board) (this : Handler) : gmap Z Z :=
  match b with Receivers => taters_got this | Givers => taters_given this end.

Definition verb (b : Board) : text :=
  match b with Receivers => str "received" | Givers => str "given" end.

(** [args.get(0).and_then(|page| page.parse().ok()).unwrap_or(0)] *)
Definition page_num (args : list text) : Z :=
  unwrap_or (args !! 0%nat ≫= λ page, result_ok (parse_u64 page)) 0.

(** The window [enumerate().skip(skip).take(PAGE_SIZE)]. *)
Definition to_display (scores : list (Z * Z)) (skip : Z)
    : list (nat * (Z * Z)) :=
  take (Z.to_nat PAGE_SIZE) (drop (Z.to_nat skip) (enumerate scores)).

Definition medal (place : Z) : text :=
  if decide (place = 1) then [127941]
  else if decide (place = 2) then [129352]
  else if decide (place = 3) then [129353]
  else [127894; 65039].

(** One line of the board: medal, rank, mention, verb, count. *)
Definition board_line (b : Board) (idx : nat) (user : User) (count : Z) : text :=
  medal (Z.of_nat idx + 1) ++ str " " ++ u64_to_string (Z.of_nat idx + 1) ++
  str ": " ++ user_mention user ++ str " has " ++ verb b ++ str " " ++
  u64_to_string count ++ str "x taters" ++ [10].

(** The first entry of the requester, as (place, score). *)
Definition asker_place (scores : list (Z * Z)) (author : Z) : option (Z * Z) :=
  find_map (λ '(idx, (id, score)),
              if decide (id = author) then Some (Z.of_nat idx + 1, score)
              else None)
           (enumerate scores).

Definition place_strings (p : option (Z * Z)) : text * text :=
  match p with
  | Some (p, s) => (u64_to_string p, u64_to_string s)
  | None => (str "?", str "?")
  end.

(** [map.len() / PAGE_SIZE + 1] *)
Definition total_pages (len : Z) : Z := len `div` PAGE_SIZE + 1.

Definition footer (place : text) (len : Z) (score emoji : text)
    (page total : Z) : text :=
  str "Your place: #" ++ place ++ str "/" ++ u64_to_string len ++
  str " with " ++ score ++ str "x " ++ emoji ++ str " | Page " ++
  u64_to_string page ++ str "/" ++ u64_to_string total.

Section leaderboard.
Context `{Platform, World}.

(** Collect, [sort_by_key] by count, [reverse]. *)
Definition scores (map : gmap Z Z) : list (Z * Z) :=
  sort_desc snd (map_iter map).

(** The [for] loop over the window: one request per entry, the first
    failure ends the block. *)
Fixpoint render_board (b : Board) (board : text)
    (entries : list (nat * (Z * Z))) : M text :=
  match entries with
  | [] => mret board
  | (idx, (user_id, count)) :: rest =>
      user ← lift_result (get_user user_id);
      render_board b (board ++ board_line b idx user count) rest
  end.

(** Lines 109-174: render the window, find the requester's place, send
    the embed. *)
Definition send_leaderboard (b : Board) (message : Message) (this : Handler)
    (page_num skip : Z) : M () :=
  let map := board_map b this in
  let scores := scores map in
  board ← render_board b [] (to_display scores skip);
  let ps := place_strings (asker_place scores (author_id message)) in
  let total := total_pages (Z.of_nat (size map)) in
  page ← usize_op (page_num + 1);
  let footer :=
    footer ps.1 (Z.of_nat (size map)) ps.2
           (reaction_to_string (tater_emoji (config this))) page total in
  perform (EvSendEmbed (channel_id message)
             (str "Leaderboard - Taters " ++ verb b) board footer).

(** The arm of [receivers] and [givers]. *)
Definition cmd_leaderboard (b : Board) (message : Message) (args : list text)
    : M () :=
  res ← try_block (
    let page_num := page_num args in
    this ← get_this;
    skip ← usize_op (PAGE_SIZE * page_num);
    send_leaderboard b message this page_num skip);
  match res with
  | Err oh_no => say (channel_id message) (error_message oh_no)
  | Ok _ => mret ()
  end.

(** ** Specification functions *)

(** The board when every request succeeds. *)
Definition board_text (b : Board) (entries : list (nat * (Z * Z))) : text :=
  concat ((λ '(idx, (user_id, count)),
             match get_user user_id with
             | Ok user => board_line b idx user count
             | Err _ => []
             end) <$> entries).

(** The error of the first request that fails, if any. *)
Definition first_failure (entries : list (nat * (Z * Z))) : option text :=
  find_map (λ '(_, (user_id, _)),
              match get_user user_id with Ok _ => None | Err e => Some e end)
           entries.

(** The embed of the page that starts after [skip] entries and is shown
    as page number [page]. *)
Definition leaderboard_embed (b : Board) (message : Message) (this : Handler)
    (skip page : Z) : Event :=
  let map := board_map b this in
  let ps := place_strings (asker_place (scores map) (author_id message)) in
  EvSendEmbed (channel_id message) (str "Leaderboard - Taters " ++ verb b)
    (board_text b (to_display (scores map) skip))
    (footer ps.1 (Z.of_nat (size map)) ps.2
            (reaction_to_string (tater_emoji (config this))) page
            (total_pages (Z.of_nat (size map)))).

(** What the command does once [skip] and [page] are computed: the
    embed, or the message of the first error. *)
Definition leaderboard_reply (b : Board) (message : Message) (this : Handler)
    (skip page : Z) : Run () :=
  let failed e := run (say (channel_id message) (error_message e)) this in
  match first_failure (to_display (scores (board_map b this)) skip) with
  | Some e => failed e
  | None =>
      let embed := leaderboard_embed b message this skip page in
      match deliver embed with
      | Ok _ => MkRun this [embed] (Done ())
      | Err e => failed e
      end
  end.

(** ** The ranking *)

Lemma scores_perm map : scores map ≡ₚ map_to_list map.
Proof. unfold scores. by rewrite sort_desc_perm, map_iter_perm. Qed.

Lemma elem_of_scores map id count :
  (id, count) ∈ scores map ↔ map !! id = Some count.
Proof. by rewrite scores_perm, elem_of_map_to_list. Qed.

Lemma length_scores map : length (scores map) = size map.
Proof. by rewrite scores_perm, length_map_to_list. Qed.

Lemma NoDup_scores_keys map : NoDup (scores map).*1.
Proof. rewrite scores_perm. apply NoDup_fst_map_to_list. Qed.

Lemma scores_sorted map : StronglySorted (key_ge snd) (scores map).
Proof. apply sort_desc_sorted. Qed.

(** The sortedness of [scores] by index: an entry ranked earlier has at
    least the count of one ranked later. *)
Lemma scores_ranked map (i j : nat) e1 e2 :
  scores map !! i = Some e1 → scores map !! j = Some e2 → (i < j)%nat →
  e2.2 ≤ e1.2.
Proof.
  intros Hi Hj Hij.
  pose proof (scores_sorted map) as Hs.
  rewrite <-(take_drop_middle _ _ _ Hi) in Hs.
  apply StronglySorted_app in Hs as (_ & _ & Hs).
  apply StronglySorted_inv in Hs as [_ Hall].
  eapply Forall_forall in Hall; [apply Hall|].
  apply list_elem_of_lookup. exists (j - S i)%nat.
  rewrite lookup_drop. rewrite <-Hj. f_equal. lia.
Qed.

(** Equal counts are ranked in the reverse of the iteration order. *)
Lemma scores_ties map k :
  with_key snd k (scores map) = reverse (with_key snd k (map_iter map)).
Proof. apply sort_desc_ties. Qed.

(** C7: the ranking.  [scores] holds the entries of the table, each
    once; counts never increase along it; and the entries of one count
    stand in the reverse of the order in which the table iterates. *)
Theorem scores_spec map :
  scores map ≡ₚ map_to_list map ∧
  StronglySorted (key_ge snd) (scores map) ∧
  ∀ k, with_key snd k (scores map) = reverse (with_key snd k (map_iter map)).
Proof.
  split_and!; [apply scores_perm|apply scores_sorted|intros; apply sort_desc_ties].
Qed.

(** The ranking is determined by the table and its iteration
    order: a list with non-increasing counts whose entries of each count
    are those of the iteration, reversed, is [scores]. *)
Theorem scores_unique map l :
  StronglySorted (key_ge snd) l →
  (∀ k, with_key snd k l = reverse (with_key snd k (map_iter map))) →
  l = scores map.
Proof.
  intros Hs Hk. unfold scores, sort_desc.
  rewrite <-(reverse_involutive l). f_equal. apply sort_by_key_unique.
  - apply (StronglySorted_reverse (key_ge snd)), Hs.
  - intros k. unfold with_key in *.
    by rewrite filter_reverse, Hk, reverse_involutive.
Qed.

(** ** The window of a page *)

Lemma lookup_to_display scores skip (i : nat) :
  0 ≤ skip →
  to_display scores skip !! i =
    if decide (i < 10)%nat
    then pair (Z.to_nat skip + i)%nat <$> scores !! (Z.to_nat skip + i)%nat
    else None.
Proof. intros. unfold to_display. by rewrite lookup_take_drop_enumerate. Qed.

Lemma length_to_display scores skip :
  length (to_display scores skip) =
    (10 `min` (length scores - Z.to_nat skip))%nat.
Proof.
  unfold to_display. by rewrite length_take, length_drop, length_enumerate.
Qed.

Lemma to_display_nil scores skip :
  Z.of_nat (length scores) ≤ skip → to_display scores skip = [].
Proof.
  intros. apply length_zero_iff_nil. rewrite length_to_display. lia.
Qed.

(** The ranks of a page are consecutive and start after [skip]. *)
Theorem to_display_ranks scores skip :
  0 ≤ skip →
  (to_display scores skip).*1 =
    seq (Z.to_nat skip) (length (to_display scores skip)).
Proof.
  intros. apply list_eq. intros i.
  rewrite list_lookup_fmap, lookup_to_display by done.
  destruct (decide (i < length (to_display scores skip))%nat) as [Hi|Hi].
  - rewrite lookup_seq_lt by done. rewrite length_to_display in Hi.
    rewrite decide_True by lia.
    destruct (lookup_lt_is_Some_2 scores (Z.to_nat skip + i)) as [e ->]; [lia|done].
  - rewrite lookup_seq_ge by lia. rewrite length_to_display in Hi.
    case_decide; [|done]. rewrite lookup_ge_None_2; [done|lia].
Qed.

(** ** The requester's place *)

Lemma asker_place_Some scores author p s :
  asker_place scores author = Some (p, s) ↔
  ∃ i : nat, p = Z.of_nat i + 1 ∧ scores !! i = Some (author, s) ∧
             ∀ (j : nat) e, (j < i)%nat → scores !! j = Some e → e.1 ≠ author.
Proof.
  unfold asker_place. rewrite find_map_Some. split.
  - intros (i & [idx [id sc]] & Hi & Hf & Hmin).
    rewrite lookup_enumerate in Hi.
    destruct (scores !! i) as [[id' sc']|] eqn:Hs; simplify_eq/=.
    case_decide; simplify_eq. exists idx. split_and!; [done..|].
    intros j [id' sc'] Hj Hs' ?. simplify_eq/=.
    specialize (Hmin j (j, (author, sc')) Hj).
    rewrite lookup_enumerate, Hs' in Hmin. specialize (Hmin eq_refl).
    simpl in Hmin. by rewrite decide_True in Hmin.
  - intros (i & -> & Hi & Hmin). exists i, (i, (author, s)).
    rewrite lookup_enumerate, Hi. split_and!; [done|by rewrite decide_True|].
    intros j [idx [id sc]] Hj Hs. rewrite lookup_enumerate in Hs.
    destruct (scores !! j) as [e|] eqn:He; simplify_eq/=.
    rewrite decide_False; [done|]. by apply (Hmin idx (id, sc)).
Qed.

Lemma asker_place_None scores author :
  asker_place scores author = None ↔ author ∉ scores.*1.
Proof.
  unfold asker_place. rewrite find_map_None. split.
  - intros Hall [[id sc] [-> [i Hi]%list_elem_of_lookup]]%list_elem_of_fmap.
    specialize (Hall (i, (id, sc))). simpl in Hall.
    rewrite decide_True in Hall by done. discriminate Hall.
    apply list_elem_of_lookup. exists i. by rewrite lookup_enumerate, Hi.
  - intros Hnot [idx [id sc]] [i Hi]%list_elem_of_lookup.
    rewrite lookup_enumerate in Hi.
    destruct (scores !! i) as [e|] eqn:He; simplify_eq/=.
    rewrite decide_False; [done|]. intros ->. apply Hnot.
    apply list_elem_of_fmap. exists (author, sc). split; [done|].
    by eapply list_elem_of_lookup_2.
Qed.

(** The place of a requester in the table: a rank within the table, with
    the requester's own count. *)
Lemma asker_place_table map author p s :
  asker_place (scores map) author = Some (p, s) →
  map !! author = Some s ∧ 1 ≤ p ≤ Z.of_nat (size map).
Proof.
  intros (i & -> & Hi & _)%asker_place_Some. split.
  - apply elem_of_scores. by eapply list_elem_of_lookup_2.
  - apply lookup_lt_Some in Hi. rewrite length_scores in Hi. lia.
Qed.

(** A requester who is in the table has a place, whatever page
    was asked for, and the count shown with it is their own. *)
Lemma asker_place_present map author s :
  map !! author = Some s → ∃ p, asker_place (scores map) author = Some (p, s).
Proof.
  intros Hm. destruct (asker_place (scores map) author) as [[p s']|] eqn:Hp.
  - apply asker_place_table in Hp as [? _]. exists p. congruence.
  - apply asker_place_None in Hp. destruct Hp.
    apply list_elem_of_fmap. exists (author, s). split; [done|].
    by apply elem_of_scores.
Qed.

Lemma asker_place_absent map author :
  map !! author = None → asker_place (scores map) author = None.
Proof.
  intros Hm. apply asker_place_None.
  intros [[id sc] [-> Hin%elem_of_scores]]%list_elem_of_fmap. simpl in *. congruence.
Qed.

(** C26: the place in the footer is the requester's rank.  It is
    computed over the whole ranking, so it does not depend on the page
    that was asked for.  A requester with a count in the table is shown
    the position of their entry in the ranking, counted from 1, and
    their own count; every entry ranked before theirs is of somebody
    else and has at least their count.  A requester without a count has
    no place, and the footer shows question marks. *)
Theorem asker_place_rank map author :
  match map !! author with
  | Some s =>
      ∃ i : nat,
        asker_place (scores map) author = Some (Z.of_nat i + 1, s) ∧
        scores map !! i = Some (author, s) ∧
        ∀ (j : nat) e, (j < i)%nat → scores map !! j = Some e →
                       e.1 ≠ author ∧ s ≤ e.2
  | None =>
      place_strings (asker_place (scores map) author) = (str "?", str "?")
  end.
Proof.
  destruct (map !! author) as [s|] eqn:Hm; [|by rewrite asker_place_absent].
  destruct (asker_place_present map author s Hm) as [p Hp].
  destruct (proj1 (asker_place_Some _ _ _ _) Hp) as (i & -> & Hi & Hmin).
  exists i. split_and!; [done..|]. intros j e Hj He.
  split; [by eapply Hmin|]. apply (scores_ranked map j i e (author, s)); done.
Qed.

(** ** The number of pages *)

(** The number of pages in the footer: the pages before the last
    are full, and the last one is not. *)
Theorem total_pages_bounds len :
  0 ≤ len →
  PAGE_SIZE * (total_pages len - 1) ≤ len < PAGE_SIZE * total_pages len.
Proof. unfold total_pages, PAGE_SIZE. intros. div_lia. Qed.

(** C32: the last page the footer counts is empty exactly when the
    number of entries is a multiple of the page size (zero included). *)
Theorem last_page_empty scores :
  to_display scores (PAGE_SIZE * (total_pages (Z.of_nat (length scores)) - 1)) = []
  ↔ Z.of_nat (length scores) `mod` PAGE_SIZE = 0.
Proof.
  rewrite <-length_zero_iff_nil, length_to_display.
  unfold total_pages, PAGE_SIZE. div_lia.
Qed.

(** ** The loop *)

Lemma render_board_cons b board idx user_id count rest :
  render_board b board ((idx, (user_id, count)) :: rest) =
    (user ← lift_result (get_user user_id);
     render_board b (board ++ board_line b idx user count) rest).
Proof. done. Qed.

Lemma pure_state_render_board b board entries :
  pure_state (render_board b board entries).
Proof.
  revert board. induction entries as [|[idx [id count]] rest IH]; intros board;
    [apply pure_state_ret|rewrite render_board_cons; auto with tater].
Qed.

Lemma no_panic_render_board b board entries :
  no_panic (render_board b board entries).
Proof.
  revert board. induction entries as [|[idx [id count]] rest IH]; intros board;
    [apply no_panic_ret|rewrite render_board_cons; auto with tater].
Qed.

Lemma emits_render_board P b board entries :
  emits P (render_board b board entries).
Proof.
  revert board. induction entries as [|[idx [id count]] rest IH]; intros board;
    [apply emits_ret|rewrite render_board_cons; auto with tater].
Qed.

(** The leaderboard sends an embed or an error text to the channel of
    the message, nothing else. *)
Lemma emits_cmd_leaderboard (P : Event → Prop) b message args :
  (∀ t, P (EvSay (channel_id message) t)) →
  (∀ t d f, P (EvSendEmbed (channel_id message) t d f)) →
  emits P (cmd_leaderboard b message args).
Proof.
  intros Hsay Hembed. unfold cmd_leaderboard, send_leaderboard, say.
  apply emits_bind; [|intros []; auto with tater].
  auto 8 using emits_render_board with tater.
Qed.

Lemma render_board_run b board entries h :
  run (render_board b board entries) h =
    MkRun h []
      (match first_failure entries with
       | Some e => Fail e
       | None => Done (board ++ board_text b entries)
       end).
Proof.
  revert board. induction entries as [|[idx [id count]] rest IH]; intros board.
  { simpl. by rewrite app_nil_r. }
  rewrite render_board_cons. unfold first_failure, board_text in *.
  run_simpl. simpl. destruct (get_user id) as [user|e]; run_simpl; [|done].
  rewrite IH. destruct (find_map _ rest); [done|].
  by rewrite app_assoc.
Qed.

(** ** The command *)

Lemma page_num_range args : in_u64 (page_num args).
Proof.
  unfold page_num. destruct (args !! 0%nat) as [page|]; simpl; [|u64_lia].
  destruct (parse_u64 page) eqn:Hp; simpl; [|u64_lia].
  by eapply parse_u64_range.
Qed.

Lemma pure_state_send_leaderboard b message this pn skip :
  pure_state (send_leaderboard b message this pn skip).
Proof.
  unfold send_leaderboard.
  auto 6 using pure_state_render_board with tater.
Qed.

Lemma pure_state_cmd_leaderboard b message args :
  pure_state (cmd_leaderboard b message args).
Proof.
  unfold cmd_leaderboard. apply pure_state_bind; [|intros []; auto with tater].
  auto 6 using pure_state_send_leaderboard with tater.
Qed.

(** The block of lines 109-174 when the page number has a successor. *)
Lemma send_leaderboard_run b message this pn skip h :
  in_u64 (pn + 1) →
  run (send_leaderboard b message this pn skip) h =
    match first_failure (to_display (scores (board_map b this)) skip) with
    | Some e => MkRun h [] (Fail e)
    | None =>
        run (perform (leaderboard_embed b message this skip (pn + 1))) h
    end.
Proof.
  intros Hpn. unfold send_leaderboard, leaderboard_embed.
  rewrite run_bind, render_board_run.
  destruct (first_failure _); [done|]. run_simpl.
  rewrite usize_op_in_range by done. by rewrite bind_run_Done, after_nil.
Qed.

(** The same block when [page_num + 1] wraps. *)
Lemma send_leaderboard_run_wrapping b message this pn skip h :
  overflow_checks = false →
  run (send_leaderboard b message this pn skip) h =
    match first_failure (to_display (scores (board_map b this)) skip) with
    | Some e => MkRun h [] (Fail e)
    | None =>
        run (perform (leaderboard_embed b message this skip (wrap_u64 (pn + 1)))) h
    end.
Proof.
  intros Hoc. destruct (decide (in_u64 (pn + 1))).
  { by rewrite wrap_u64_id, send_leaderboard_run. }
  unfold send_leaderboard, leaderboard_embed.
  rewrite run_bind, render_board_run.
  destruct (first_failure _); [done|]. run_simpl.
  rewrite usize_op_wrapping by done. by rewrite bind_run_Done, after_nil.
Qed.

(** What the arm does with the result of its [try] block. *)
Lemma leaderboard_reply_try b message this skip page :
  leaderboard_reply b message this skip page =
    bind_run
      (try_run
         match first_failure (to_display (scores (board_map b this)) skip) with
         | Some e => MkRun this [] (Fail e)
         | None => run (perform (leaderboard_embed b message this skip page)) this
         end)
      (λ res h',
         run match res with
             | Err oh_no => say (channel_id message) (error_message oh_no)
             | Ok _ => mret ()
             end h').
Proof.
  unfold leaderboard_reply. destruct (first_failure _).
  { by rewrite try_run_Fail, bind_run_Done, after_nil. }
  rewrite run_perform. destruct (deliver _) as [[]|]; by run_simpl.
Qed.

(** The whole arm, on every input: it panics on an overflowing page
    number in a build with overflow checks, and otherwise replies for the
    window that starts at the (wrapped) product. *)
Lemma cmd_leaderboard_run b message args this :
  run (cmd_leaderboard b message args) this =
    if overflow_checks && bool_decide (u64_MAX < PAGE_SIZE * page_num args)
    then MkRun this [] Panic
    else leaderboard_reply b message this
           (wrap_u64 (PAGE_SIZE * page_num args))
           (wrap_u64 (page_num args + 1)).
Proof.
  pose proof (page_num_range args) as Hpn.
  rewrite leaderboard_reply_try. unfold cmd_leaderboard, PAGE_SIZE.
  rewrite run_bind, run_try_block, run_bind, run_get_this, bind_run_Done,
    after_nil, run_bind.
  case_bool_decide as Hov.
  - destruct overflow_checks eqn:Hoc; cbn [andb].
    + by rewrite usize_op_checked by (done || u64_lia).
    + rewrite usize_op_wrapping by (done || u64_lia).
      by rewrite bind_run_Done, after_nil, send_leaderboard_run_wrapping.
  - rewrite andb_false_r, usize_op_in_range by u64_lia.
    rewrite !wrap_u64_id by u64_lia.
    by rewrite bind_run_Done, after_nil, send_leaderboard_run by u64_lia.
Qed.

(** C6: the leaderboard on a page number whose tenfold fits 64 bits, in
    any build: the window starts after [10 * page] entries and is shown
    as page [page + 1]; the reply is the embed, or the message of the
    first lookup or delivery that failed; the state is not written. *)
Theorem cmd_leaderboard_reply b message args this :
  page_num args ≤ 1844674407370955161 →
  run (cmd_leaderboard b message args) this =
    leaderboard_reply b message this (PAGE_SIZE * page_num args)
      (page_num args + 1).
Proof.
  intros Hp. pose proof (page_num_range args). rewrite cmd_leaderboard_run.
  rewrite bool_decide_eq_false_2, andb_false_r by (unfold PAGE_SIZE; u64_lia).
  by rewrite !wrap_u64_id by (unfold PAGE_SIZE; u64_lia).
Qed.

(** The command panics exactly in a build with overflow checks, on a
    page number from [1844674407370955162]. *)
Lemma cmd_leaderboard_panics b message args this :
  outcome (run (cmd_leaderboard b message args) this) = Panic ↔
  overflow_checks = true ∧ 1844674407370955162 ≤ page_num args.
Proof.
  rewrite cmd_leaderboard_run. unfold PAGE_SIZE, leaderboard_reply.
  destruct overflow_checks; simpl.
  - case_bool_decide; simpl; [split; [u64_lia|done]|].
    split; [|u64_lia].
    destruct (first_failure _); rewrite ?run_say, ?run_perform;
      repeat (destruct (deliver _) as [[]|]; simpl); done.
  - split; [|naive_solver].
    destruct (first_failure _); rewrite ?run_say, ?run_perform;
      repeat (destruct (deliver _) as [[]|]; simpl); done.
Qed.

(** C24: in a build without overflow checks the product wraps.  For
    every page number the window starts after [10 * page] entries
    modulo [2^64], and the page is shown as [page + 1] modulo [2^64];
    so the page [1844674407370955162], shown as number [...163], starts
    after 4 entries, at rank 5. *)
Theorem cmd_leaderboard_wraps b message args this :
  overflow_checks = false →
  run (cmd_leaderboard b message args) this =
    leaderboard_reply b message this
      ((PAGE_SIZE * page_num args) `mod` 2 ^ 64)
      ((page_num args + 1) `mod` 2 ^ 64) ∧
  (page_num args = 1844674407370955162 →
   run (cmd_leaderboard b message args) this =
     leaderboard_reply b message this 4 1844674407370955163).
Proof.
  intros Hoc. rewrite cmd_leaderboard_run, Hoc.
  split; [done|]. by intros ->.
Qed.

End leaderboard.

#[export] Hint Resolve pure_state_render_board no_panic_render_board
  pure_state_cmd_leaderboard : tater.
