(* ===== verification/Commands.v ===== *)
(** * Commands: the arms of [match cmd] other than the leaderboard

    One definition per arm of [handle_commands] (lines 63-406 of
    [commands.rs]): [cmd_help] (64-85), [cmd_set_pin_channel] (183-214),
    [cmd_set_threshold] (215-233), [cmd_blacklist] (234-258),
    [cmd_unblacklist] (259-283), [cmd_show_blacklist] (284-293),
    [cmd_set_potato] (294-313), [cmd_admin] (314-336), [cmd_unadmin]
    (337-359), [cmd_list_admins] (360-378), [cmd_save] (379-397) and
    [cmd_unknown] (398-405).

    The six arms that take an identity or a number share their first and
    last lines in the source: the argument is fetched and parsed inside a
    [try] block ([parse_u64_arg], lines 185-188) and the block's result is
    sent back ([reply], lines 205-213).  [with_u64_arg] is that frame;
    each arm is the frame around its own lines.

    Theorems, for every arm: what it writes and what it answers on a
    valid argument, that a rejected argument leaves the state as it was
    ([fail_safe]), that the invariant [wf_handler] is kept, and that it
    does not panic. *)

From stdpp Require Import gmap.
From S2P Require Import Prelude Text Guild Effects.

#[local] Open Scope Z_scope.

Definition HELP : text := str " === PotatoBoard Help ===
- `help`: Get this message.
- `receivers <page_number>`: See the most protatolific receivers of potatoes. `page_number` is optional.
- `givers <page_number>`: See the most protatolific givers of potatoes. `page_number` is optional.".

Definition ADMIN_HELP : text := str "You're an admin! Here's the admin commands:
- `set_pin_channel <channel_id>`: Set the channel that pinned messages to go, and adds it to the potato blacklist.
- `set_potato <emoji>`: Set the given emoji to be the operative one.
- `set_threshold <number>`: Set how many potatoes have to be on a message before it is pinned.
- `blacklist <channel_id>`: Make the channel no longer eligible for pinning messages, regardless of potato count.
- `unblacklist <channel_id>`: Unblacklist this channel so messages from it can be pinned again.
- `show_blacklist`: Show which channels are ineligible for pinning messages.
- `admin <user_id>`: Let this user access this bot's admin commands on this server.
- `unadmin <user_id>`: Stops this user from being an admin on this server.
- `list_admins`: Print a list of admins.
- `save`: Flush any in-memory state to disk.
People with any role with an Administrator privilege are always admins of this bot.".

Definition not_enough_arguments : text :=
  str "Not enough arguments (1 expected)".

(** The texts of the answers. *)
Definition quoted (s : text) : text := str "`" ++ s ++ str "`".

Definition msg_set_pin_channel (mention : text) (existed : bool) : text :=
  if negb existed
  then str "Set pins channel to " ++ quoted mention ++
       str " and added it to the blacklist"
  else str "Set pins channel to " ++ quoted mention ++
       str ", and it was already blacklisted".

Definition msg_set_threshold (threshold : Z) : text :=
  str "Threshold changed to " ++ u64_to_string threshold.

Definition msg_blacklist (mention : text) (existed : bool) : text :=
  if negb existed then str "Blacklisted " ++ quoted mention
  else quoted mention ++ str " was already blacklisted".

Definition msg_unblacklist (mention : text) (existed : bool) : text :=
  if existed then str "Unblacklisted " ++ quoted mention
  else quoted mention ++ str " was not blacklisted".

Definition msg_set_potato (emoji old_react : text) : text :=
  str "Set potato emoji to " ++ emoji ++ str " (from " ++ old_react ++ str ")".

Definition msg_admin (user_id : Z) (existed : bool) : text :=
  if negb existed
  then str "Added " ++ quoted (u64_to_string user_id) ++ str " as a new admin"
  else quoted (u64_to_string user_id) ++ str " was already an admin".

Definition msg_unadmin (user_id : Z) (existed : bool) : text :=
  if existed
  then str "Removed " ++ quoted (u64_to_string user_id) ++
       str " from being an admin"
  else quoted (u64_to_string user_id) ++ str " was not an admin".

(** [args.get(0).ok_or_else(..)?] and [.parse::<u64>().map_err(..)?] *)
Definition parse_u64_arg (args : list text) : result text Z :=
  a ← ok_or (args !! 0%nat) not_enough_arguments;
  map_err int_error_to_string (parse_u64 a).

(** Write [this.config] through a function of its old value. *)
Definition modify_config (f : Config → Config) : M () :=
  this ← get_this; put_config (f (config this)).

(** [this.config.blacklisted_channels.insert(x)] and [.remove(&x)], and
    the same on [admins]: the write and the returned flag. *)
Definition blacklist_insert (x : Z) : M bool :=
  this ← get_this;
  let r := hashset_insert x (blacklisted_channels (config this)) in
  put_config (set_blacklisted_channels r.1 (config this));; mret r.2.

Definition blacklist_remove (x : Z) : M bool :=
  this ← get_this;
  let r := hashset_remove x (blacklisted_channels (config this)) in
  put_config (set_blacklisted_channels r.1 (config this));; mret r.2.

Definition admins_insert (x : Z) : M bool :=
  this ← get_this;
  let r := hashset_insert x (admins (config this)) in
  put_config (set_admins r.1 (config this));; mret r.2.

Definition admins_remove (x : Z) : M bool :=
  this ← get_this;
  let r := hashset_remove x (admins (config this)) in
  put_config (set_admins r.1 (config this));; mret r.2.

Section commands.
Context `{Platform, World}.

(** The [match msg { Ok(msg) => say(msg), Err(oh_no) => say(..) }] that
    ends an arm. *)
Definition reply (message : Message) (msg : result text text) : M () :=
  match msg with
  | Ok msg => say (channel_id message) msg
  | Err oh_no => say (channel_id message) (error_message oh_no)
  end.

(** An arm that parses its first argument as a [u64] in a [try] block,
    runs [body] on it in the same block, and answers. *)
Definition with_u64_arg (message : Message) (args : list text)
    (body : Z → M text) : M () :=
  msg ← try_block (x ← lift_result (parse_u64_arg args); body x);
  reply message msg.

Definition cmd_help (is_admin : bool) (message : Message) : M () :=
  say (channel_id message) HELP;;
  if is_admin then say (channel_id message) ADMIN_HELP else mret ().

Definition cmd_set_pin_channel (message : Message) (args : list text) : M () :=
  with_u64_arg message args (λ channel_id,
    modify_config (set_pin_channel channel_id);;
    inserted ← blacklist_insert channel_id;
    mret (msg_set_pin_channel (channel_mention channel_id) (negb inserted))).

Definition cmd_set_threshold (message : Message) (args : list text) : M () :=
  with_u64_arg message args (λ threshold,
    modify_config (set_threshold threshold);;
    mret (msg_set_threshold threshold)).

Definition cmd_blacklist (message : Message) (args : list text) : M () :=
  with_u64_arg message args (λ channel_id,
    inserted ← blacklist_insert channel_id;
    mret (msg_blacklist (channel_mention channel_id) (negb inserted))).

Definition cmd_unblacklist (message : Message) (args : list text) : M () :=
  with_u64_arg message args (λ channel_id,
    existed ← blacklist_remove channel_id;
    mret (msg_unblacklist (channel_mention channel_id) existed)).

Definition cmd_show_blacklist (message : Message) : M () :=
  this ← get_this;
  say (channel_id message)
    (join [10] ((λ c, str "- " ++ channel_mention c) <$>
                set_iter (blacklisted_channels (config this)))).

Definition cmd_set_potato (message : Message) (args : list text) : M () :=
  msg ← try_block (
    emoji ← lift_result (ok_or (args !! 0%nat) not_enough_arguments);
    potato_react ← lift_result (reaction_try_from emoji);
    this ← get_this;
    let old_react := reaction_to_string (tater_emoji (config this)) in
    modify_config (set_tater_emoji potato_react);;
    mret (msg_set_potato emoji old_react));
  reply message msg.

Definition cmd_admin (message : Message) (args : list text) : M () :=
  with_u64_arg message args (λ user_id,
    inserted ← admins_insert user_id;
    mret (msg_admin user_id (negb inserted))).

Definition cmd_unadmin (message : Message) (args : list text) : M () :=
  with_u64_arg message args (λ user_id,
    existed ← admins_remove user_id;
    mret (msg_unadmin user_id existed)).

(** The loop of [list_admins]: one request per admin, the first failure
    ends the block. *)
Fixpoint list_admins_loop (msg : text) (ids : list Z) : M text :=
  match ids with
  | [] => mret msg
  | id :: ids =>
      user ← lift_result (get_user id);
      list_admins_loop (msg ++ [10] ++ str "- " ++ user_tag user) ids
  end.

Definition cmd_list_admins (message : Message) : M () :=
  msg ← try_block (
    this ← get_this;
    list_admins_loop (str "Admins:") (set_iter (admins (config this))));
  reply message msg.

(** [save]: the tables of the registry are saved; a failure of the save
    is answered, not propagated. *)
Definition cmd_save (handlers : gmap Z Handler) (message : Message) : M () :=
  msg ← match guild_id message with
        | Some id =>
            try_block (
              this ← get_this;
              perform (EvSaveTaters id (<[id := this]> handlers));;
              mret (str "Saved this server's taters!"))
        | None => mret (Err (str "There was no guild ID (are you in a PM?)"))
        end;
  reply message msg.

Definition cmd_unknown (message : Message) (command : text) : M () :=
  perform (EvSendNoMentions (channel_id message)
             (str "Unknown command: " ++ command)).

(** ** Specification functions *)

(** The text [reply] sends. *)
Definition reply_text (msg : result text text) : text :=
  match msg with Ok msg => msg | Err oh_no => error_message oh_no end.

(** The state after [this.config = f(this.config)]. *)
Definition with_config (f : Config → Config) (h : Handler) : Handler :=
  set_config (f (config h)) h.

(** The text [list_admins] builds from the answers of [get_user], or the
    first error among them. *)
Definition admin_line (user : User) : text := [10] ++ str "- " ++ user_tag user.

Definition admins_text (ids : list Z) : result text text :=
  users ← mapM get_user ids; mret (str "Admins:" ++ concat (admin_line <$> users)).

(** What [save] answers. *)
Definition save_text (e : Event) : text :=
  reply_text (deliver e ;; Ok (str "Saved this server's taters!")).

End commands.

(** ** The writes *)

Lemma set_config_id h : set_config (config h) h = h.
Proof. by destruct h. Qed.

Lemma set_blacklisted_channels_id c :
  set_blacklisted_channels (blacklisted_channels c) c = c.
Proof. by destruct c. Qed.

Lemma set_admins_id c : set_admins (admins c) c = c.
Proof. by destruct c. Qed.

Lemma with_config_with_config f g h :
  with_config g (with_config f h) = with_config (g ∘ f) h.
Proof. done. Qed.

Lemma run_modify_config f h :
  run (modify_config f) h = MkRun (with_config f h) [] (Done ()).
Proof. done. Qed.

Lemma run_blacklist_insert x h :
  run (blacklist_insert x) h =
    MkRun (with_config (set_blacklisted_channels
                          ({[x]} ∪ blacklisted_channels (config h))) h) []
          (Done (bool_decide (x ∉ blacklisted_channels (config h)))).
Proof. done. Qed.

Lemma run_blacklist_remove x h :
  run (blacklist_remove x) h =
    MkRun (with_config (set_blacklisted_channels
                          (blacklisted_channels (config h) ∖ {[x]})) h) []
          (Done (bool_decide (x ∈ blacklisted_channels (config h)))).
Proof. done. Qed.

Lemma run_admins_insert x h :
  run (admins_insert x) h =
    MkRun (with_config (set_admins ({[x]} ∪ admins (config h))) h) []
          (Done (bool_decide (x ∉ admins (config h)))).
Proof. done. Qed.

Lemma run_admins_remove x h :
  run (admins_remove x) h =
    MkRun (with_config (set_admins (admins (config h) ∖ {[x]})) h) []
          (Done (bool_decide (x ∈ admins (config h)))).
Proof. done. Qed.

#[export] Hint Rewrite run_modify_config run_blacklist_insert
  run_blacklist_remove run_admins_insert run_admins_remove : run.

Lemma silent_modify_config f : silent (modify_config f).
Proof. intros h. by exists (). Qed.

Lemma silent_blacklist_insert x : silent (blacklist_insert x).
Proof. intros h. rewrite run_blacklist_insert. eauto. Qed.

Lemma silent_blacklist_remove x : silent (blacklist_remove x).
Proof. intros h. rewrite run_blacklist_remove. eauto. Qed.

Lemma silent_admins_insert x : silent (admins_insert x).
Proof. intros h. rewrite run_admins_insert. eauto. Qed.

Lemma silent_admins_remove x : silent (admins_remove x).
Proof. intros h. rewrite run_admins_remove. eauto. Qed.

Lemma preserves_modify_config P f :
  (∀ h, P h → P (with_config f h)) → preserves P (modify_config f).
Proof. intros Hf h. apply Hf. Qed.

(** A parsed argument fits 64 bits. *)
Lemma parse_u64_arg_range args x : parse_u64_arg args = Ok x → in_u64 x.
Proof.
  unfold parse_u64_arg. intros (a & _ & Hp)%result_bind_Ok.
  apply map_err_Ok in Hp. by eapply parse_u64_range.
Qed.

(** C35: round trip: the decimal form of a 64-bit number, as the
    handler prints it, is accepted as an argument and parses to the
    number. *)
Theorem parse_u64_arg_to_string n args :
  in_u64 n → parse_u64_arg (u64_to_string n :: args) = Ok n.
Proof. intros. unfold parse_u64_arg. simpl. by rewrite parse_u64_to_string. Qed.

#[export] Hint Resolve silent_modify_config silent_blacklist_insert
  silent_blacklist_remove silent_admins_insert silent_admins_remove : tater.

(** ** The frame of an arm *)

Section frame.
Context `{Platform, World}.

Lemma run_reply message msg h :
  run (reply message msg) h = run (say (channel_id message) (reply_text msg)) h.
Proof. by destruct msg. Qed.

Lemma pure_state_reply message msg : pure_state (reply message msg).
Proof. destruct msg; apply pure_state_say. Qed.

Lemma no_panic_reply message msg : no_panic (reply message msg).
Proof. destruct msg; apply no_panic_say. Qed.

(** A rejected argument: the error is answered and nothing is written. *)
Lemma with_u64_arg_Err message args body e h :
  parse_u64_arg args = Err e →
  run (with_u64_arg message args body) h =
    run (say (channel_id message) (error_message e)) h.
Proof. intros Hp. unfold with_u64_arg. rewrite Hp. by run_simpl. Qed.

(** An accepted argument: the body runs and its text is answered. *)
Lemma with_u64_arg_Ok message args body x h h' msg :
  parse_u64_arg args = Ok x →
  run (body x) h = MkRun h' [] (Done msg) →
  run (with_u64_arg message args body) h = run (say (channel_id message) msg) h'.
Proof.
  intros Hp Hb. unfold with_u64_arg. rewrite Hp. run_simpl.
  rewrite Hb. by run_simpl.
Qed.

Lemma preserves_with_u64_arg P message args body :
  (∀ x, in_u64 x → preserves P (body x)) →
  preserves P (with_u64_arg message args body).
Proof.
  intros Hb. unfold with_u64_arg.
  apply preserves_bind; [|intros; apply pure_state_preserves, pure_state_reply].
  apply preserves_try_block, preserves_bind_lift.
  intros x Hx. by eapply Hb, parse_u64_arg_range.
Qed.

Lemma no_panic_with_u64_arg message args body :
  (∀ x, no_panic (body x)) → no_panic (with_u64_arg message args body).
Proof.
  intros Hb. unfold with_u64_arg.
  auto using no_panic_reply with tater.
Qed.

(** ** The arms that take a number *)

Lemma cmd_set_pin_channel_run message args c h :
  parse_u64_arg args = Ok c →
  run (cmd_set_pin_channel message args) h =
    run (say (channel_id message)
           (msg_set_pin_channel (channel_mention c)
              (bool_decide (c ∈ blacklisted_channels (config h)))))
        (with_config
           (set_blacklisted_channels ({[c]} ∪ blacklisted_channels (config h))
            ∘ set_pin_channel c) h).
Proof.
  intros Hp. eapply with_u64_arg_Ok; [done|]. run_simpl. simpl.
  by rewrite negb_involutive_bool_decide.
Qed.

Lemma cmd_set_threshold_run message args n h :
  parse_u64_arg args = Ok n →
  run (cmd_set_threshold message args) h =
    run (say (channel_id message) (msg_set_threshold n))
        (with_config (set_threshold n) h).
Proof. intros Hp. eapply with_u64_arg_Ok; [done|]. by run_simpl. Qed.

Lemma cmd_blacklist_run message args c h :
  parse_u64_arg args = Ok c →
  run (cmd_blacklist message args) h =
    run (say (channel_id message)
           (msg_blacklist (channel_mention c)
              (bool_decide (c ∈ blacklisted_channels (config h)))))
        (with_config
           (set_blacklisted_channels ({[c]} ∪ blacklisted_channels (config h))) h).
Proof.
  intros Hp. eapply with_u64_arg_Ok; [done|]. run_simpl.
  by rewrite negb_involutive_bool_decide.
Qed.

Lemma cmd_unblacklist_run message args c h :
  parse_u64_arg args = Ok c →
  run (cmd_unblacklist message args) h =
    run (say (channel_id message)
           (msg_unblacklist (channel_mention c)
              (bool_decide (c ∈ blacklisted_channels (config h)))))
        (with_config
           (set_blacklisted_channels (blacklisted_channels (config h) ∖ {[c]})) h).
Proof. intros Hp. eapply with_u64_arg_Ok; [done|]. by run_simpl. Qed.

Lemma cmd_admin_run message args u h :
  parse_u64_arg args = Ok u →
  run (cmd_admin message args) h =
    run (say (channel_id message)
           (msg_admin u (bool_decide (u ∈ admins (config h)))))
        (with_config (set_admins ({[u]} ∪ admins (config h))) h).
Proof.
  intros Hp. eapply with_u64_arg_Ok; [done|]. run_simpl.
  by rewrite negb_involutive_bool_decide.
Qed.

Lemma cmd_unadmin_run message args u h :
  parse_u64_arg args = Ok u →
  run (cmd_unadmin message args) h =
    run (say (channel_id message)
           (msg_unadmin u (bool_decide (u ∈ admins (config h)))))
        (with_config (set_admins (admins (config h) ∖ {[u]})) h).
Proof. intros Hp. eapply with_u64_arg_Ok; [done|]. by run_simpl. Qed.

End frame.

(** ** Idempotence, and the pin channel *)

Section sets.
Context `{Platform, World}.

Lemma with_config_blacklist_present c h :
  c ∈ blacklisted_channels (config h) →
  with_config
    (set_blacklisted_channels ({[c]} ∪ blacklisted_channels (config h))) h = h.
Proof.
  intros. unfold with_config.
  replace ({[c]} ∪ blacklisted_channels (config h))
    with (blacklisted_channels (config h)) by set_solver.
  by rewrite set_blacklisted_channels_id, set_config_id.
Qed.

Lemma with_config_blacklist_absent c h :
  c ∉ blacklisted_channels (config h) →
  with_config
    (set_blacklisted_channels (blacklisted_channels (config h) ∖ {[c]})) h = h.
Proof.
  intros. unfold with_config.
  replace (blacklisted_channels (config h) ∖ {[c]})
    with (blacklisted_channels (config h)) by set_solver.
  by rewrite set_blacklisted_channels_id, set_config_id.
Qed.

Lemma with_config_admins_present u h :
  u ∈ admins (config h) →
  with_config (set_admins ({[u]} ∪ admins (config h))) h = h.
Proof.
  intros. unfold with_config.
  replace ({[u]} ∪ admins (config h)) with (admins (config h)) by set_solver.
  by rewrite set_admins_id, set_config_id.
Qed.

Lemma with_config_admins_absent u h :
  u ∉ admins (config h) →
  with_config (set_admins (admins (config h) ∖ {[u]})) h = h.
Proof.
  intros. unfold with_config.
  replace (admins (config h) ∖ {[u]}) with (admins (config h)) by set_solver.
  by rewrite set_admins_id, set_config_id.
Qed.

(** Blacklisting a blacklisted channel leaves the state as it was
    and answers that the channel was already blacklisted. *)
Lemma cmd_blacklist_idempotent message args c h :
  parse_u64_arg args = Ok c → c ∈ blacklisted_channels (config h) →
  run (cmd_blacklist message args) h =
    run (say (channel_id message)
           (quoted (channel_mention c) ++ str " was already blacklisted")) h.
Proof.
  intros Hp Hc. rewrite (cmd_blacklist_run _ _ c) by done.
  by rewrite with_config_blacklist_present, bool_decide_eq_true_2.
Qed.

Lemma cmd_unblacklist_absent message args c h :
  parse_u64_arg args = Ok c → c ∉ blacklisted_channels (config h) →
  run (cmd_unblacklist message args) h =
    run (say (channel_id message)
           (quoted (channel_mention c) ++ str " was not blacklisted")) h.
Proof.
  intros Hp Hc. rewrite (cmd_unblacklist_run _ _ c) by done.
  by rewrite with_config_blacklist_absent, bool_decide_eq_false_2.
Qed.

(** Making an admin of an admin leaves the state as it was and
    answers that the user was already an admin. *)
Lemma cmd_admin_idempotent message args u h :
  parse_u64_arg args = Ok u → u ∈ admins (config h) →
  run (cmd_admin message args) h =
    run (say (channel_id message)
           (quoted (u64_to_string u) ++ str " was already an admin")) h.
Proof.
  intros Hp Hu. rewrite (cmd_admin_run _ _ u) by done.
  by rewrite with_config_admins_present, bool_decide_eq_true_2.
Qed.

Lemma cmd_unadmin_absent message args u h :
  parse_u64_arg args = Ok u → u ∉ admins (config h) →
  run (cmd_unadmin message args) h =
    run (say (channel_id message)
           (quoted (u64_to_string u) ++ str " was not an admin")) h.
Proof.
  intros Hp Hu. rewrite (cmd_unadmin_run _ _ u) by done.
  by rewrite with_config_admins_absent, bool_decide_eq_false_2.
Qed.

(** C25: the sets are idempotent (property P1 of the design
    document).  [blacklist] of a channel that is blacklisted, and
    [admin] of a user who is an admin, leave every field of the guild's
    state as it was, and the one thing they do is to answer that the
    channel was already blacklisted, or the user already an admin:
    [HashSet::insert] returns [false] at lines 240 and 320 and the arm
    picks the second text.  Likewise [unblacklist] of a channel that is
    not blacklisted and [unadmin] of a user who is not an admin, with
    [HashSet::remove] at lines 265 and 343. *)
Theorem idempotent_sets message args x h :
  parse_u64_arg args = Ok x →
  (x ∈ blacklisted_channels (config h) →
   final (run (cmd_blacklist message args) h) = h ∧
   run (cmd_blacklist message args) h =
     run (say (channel_id message)
            (quoted (channel_mention x) ++ str " was already blacklisted")) h) ∧
  (x ∈ admins (config h) →
   final (run (cmd_admin message args) h) = h ∧
   run (cmd_admin message args) h =
     run (say (channel_id message)
            (quoted (u64_to_string x) ++ str " was already an admin")) h) ∧
  (x ∉ blacklisted_channels (config h) →
   final (run (cmd_unblacklist message args) h) = h ∧
   run (cmd_unblacklist message args) h =
     run (say (channel_id message)
            (quoted (channel_mention x) ++ str " was not blacklisted")) h) ∧
  (x ∉ admins (config h) →
   final (run (cmd_unadmin message args) h) = h ∧
   run (cmd_unadmin message args) h =
     run (say (channel_id message)
            (quoted (u64_to_string x) ++ str " was not an admin")) h).
Proof.
  intros Hp. split_and!; intros Hx;
    [rewrite (cmd_blacklist_idempotent _ _ x) by done
    |rewrite (cmd_admin_idempotent _ _ x) by done
    |rewrite (cmd_unblacklist_absent _ _ x) by done
    |rewrite (cmd_unadmin_absent _ _ x) by done];
    (split; [apply pure_state_say|done]).
Qed.

(** C4: after [set_pin_channel c] with a valid [c] the pin channel is
    [c] and [c] is blacklisted, whether or not the answer could be
    delivered. *)
Theorem cmd_set_pin_channel_blacklists message args c h :
  parse_u64_arg args = Ok c →
  pin_channel (config (final (run (cmd_set_pin_channel message args) h))) = c ∧
  c ∈ blacklisted_channels
        (config (final (run (cmd_set_pin_channel message args) h))).
Proof.
  intros Hp. rewrite (cmd_set_pin_channel_run _ _ c), pure_state_say by done.
  simpl. set_solver.
Qed.

(** C36: [unblacklist] of the pin channel takes it off the blacklist
    and leaves it the pin channel: that the pin channel is blacklisted
    is not an invariant of the state. *)
Theorem cmd_unblacklist_pin_channel message args h :
  parse_u64_arg args = Ok (pin_channel (config h)) →
  pin_channel (config (final (run (cmd_unblacklist message args) h))) =
    pin_channel (config h) ∧
  pin_channel (config (final (run (cmd_unblacklist message args) h)))
    ∉ blacklisted_channels
        (config (final (run (cmd_unblacklist message args) h))).
Proof.
  intros Hp. rewrite (cmd_unblacklist_run _ _ _ _ Hp), pure_state_say.
  simpl. set_solver.
Qed.

(** An arm that parses a number and is given an argument it
    rejects leaves the state as it was, whatever its body would write,
    and does nothing but send the error, if that. *)
Theorem with_u64_arg_rejected message args body e h :
  parse_u64_arg args = Err e →
  final (run (with_u64_arg message args body) h) = h ∧
  trace (run (with_u64_arg message args body) h) `sublist_of`
    [EvSay (channel_id message) (error_message e)].
Proof.
  intros Hp. rewrite (with_u64_arg_Err _ _ _ e) by done.
  split; [apply pure_state_say|]. rewrite run_say, run_perform.
  destruct (deliver _); simpl; [done|]. apply sublist_nil_l.
Qed.

End sets.

(** ** The invariant *)

Section invariant.
Context `{Platform, World}.

Lemma wf_with_config f h :
  wf_handler h → wf_config (f (config h)) → wf_handler (with_config f h).
Proof. intros (? & ? & ?) ?. by split_and!. Qed.

Lemma wf_config_set_pin_channel x c :
  in_u64 x → wf_config c → wf_config (set_pin_channel x c).
Proof. intros ? (? & ? & ? & ?). by split_and!. Qed.

Lemma wf_config_set_threshold x c :
  in_u64 x → wf_config c → wf_config (set_threshold x c).
Proof. intros ? (? & ? & ? & ?). by split_and!. Qed.

Lemma wf_config_set_tater_emoji r c :
  wf_config c → wf_config (set_tater_emoji r c).
Proof. intros (? & ? & ? & ?). by split_and!. Qed.

Lemma wf_config_blacklist_insert x c :
  in_u64 x → wf_config c →
  wf_config (set_blacklisted_channels ({[x]} ∪ blacklisted_channels c) c).
Proof.
  intros ? (? & ? & ? & ?). split_and!; simpl; [done| |done..].
  by apply (hashset_insert_wf x).
Qed.

Lemma wf_config_blacklist_remove x c :
  wf_config c →
  wf_config (set_blacklisted_channels (blacklisted_channels c ∖ {[x]}) c).
Proof.
  intros (? & ? & ? & ?). split_and!; simpl; [done| |done..].
  by apply (hashset_remove_wf x).
Qed.

Lemma wf_config_admins_insert x c :
  in_u64 x → wf_config c → wf_config (set_admins ({[x]} ∪ admins c) c).
Proof.
  intros ? (? & ? & ? & ?). split_and!; simpl; [|done..].
  by apply (hashset_insert_wf x).
Qed.

Lemma wf_config_admins_remove x c :
  wf_config c → wf_config (set_admins (admins c ∖ {[x]}) c).
Proof.
  intros (? & ? & ? & ?). split_and!; simpl; [|done..].
  by apply (hashset_remove_wf x).
Qed.

Lemma preserves_wf_cmd_set_pin_channel message args :
  preserves wf_handler (cmd_set_pin_channel message args).
Proof.
  apply preserves_with_u64_arg. intros x Hx h Hh. run_simpl.
  rewrite with_config_with_config. apply wf_with_config; [done|]. simpl.
  apply (wf_config_blacklist_insert x (set_pin_channel x (config h))); [done|].
  apply wf_config_set_pin_channel; [done|apply Hh].
Qed.

Lemma preserves_wf_cmd_set_threshold message args :
  preserves wf_handler (cmd_set_threshold message args).
Proof.
  apply preserves_with_u64_arg. intros x Hx h Hh. run_simpl.
  apply wf_with_config; [done|]. apply wf_config_set_threshold; [done|apply Hh].
Qed.

Lemma preserves_wf_cmd_blacklist message args :
  preserves wf_handler (cmd_blacklist message args).
Proof.
  apply preserves_with_u64_arg. intros x Hx h Hh. run_simpl.
  apply wf_with_config; [done|]. apply wf_config_blacklist_insert; [done|apply Hh].
Qed.

Lemma preserves_wf_cmd_unblacklist message args :
  preserves wf_handler (cmd_unblacklist message args).
Proof.
  apply preserves_with_u64_arg. intros x Hx h Hh. run_simpl.
  apply wf_with_config; [done|]. apply wf_config_blacklist_remove, Hh.
Qed.

Lemma preserves_wf_cmd_admin message args :
  preserves wf_handler (cmd_admin message args).
Proof.
  apply preserves_with_u64_arg. intros x Hx h Hh. run_simpl.
  apply wf_with_config; [done|]. apply wf_config_admins_insert; [done|apply Hh].
Qed.

Lemma preserves_wf_cmd_unadmin message args :
  preserves wf_handler (cmd_unadmin message args).
Proof.
  apply preserves_with_u64_arg. intros x Hx h Hh. run_simpl.
  apply wf_with_config; [done|]. apply wf_config_admins_remove, Hh.
Qed.

End invariant.

(** ** The arms without a number *)

Section others.
Context `{Platform, World}.

Lemma cmd_help_run is_admin message h :
  run (cmd_help is_admin message) h =
    run (say (channel_id message) HELP;;
         if is_admin then say (channel_id message) ADMIN_HELP else mret ()) h.
Proof. done. Qed.

Lemma pure_state_cmd_help is_admin message : pure_state (cmd_help is_admin message).
Proof. unfold cmd_help. destruct is_admin; auto with tater. Qed.

Lemma no_panic_cmd_help is_admin message : no_panic (cmd_help is_admin message).
Proof. unfold cmd_help. destruct is_admin; auto with tater. Qed.

(** What a user who is not an admin gets from [help] when the delivery
    succeeds: the one text, which does not mention the admin commands. *)
Lemma cmd_help_user message h :
  deliver (EvSay (channel_id message) HELP) = Ok () →
  run (cmd_help false message) h =
    MkRun h [EvSay (channel_id message) HELP] (Done ()).
Proof. intros Hd. unfold cmd_help. run_simpl. rewrite run_perform, Hd. by run_simpl. Qed.

(** [set_potato] with a reaction the platform accepts writes it
    and answers with the new symbol, as typed, and the old one. *)
Theorem cmd_set_potato_run message emoji args r h :
  reaction_try_from emoji = Ok r →
  run (cmd_set_potato message (emoji :: args)) h =
    run (say (channel_id message)
           (msg_set_potato emoji (reaction_to_string (tater_emoji (config h)))))
        (with_config (set_tater_emoji r) h).
Proof.
  intros Hr. unfold cmd_set_potato.
  change ((emoji :: args) !! 0%nat) with (Some emoji).
  unfold ok_or. run_simpl. rewrite Hr. by run_simpl.
Qed.

Lemma cmd_set_potato_Err message emoji args e h :
  reaction_try_from emoji = Err e →
  run (cmd_set_potato message (emoji :: args)) h =
    run (say (channel_id message) (error_message e)) h.
Proof.
  intros Hr. unfold cmd_set_potato.
  change ((emoji :: args) !! 0%nat) with (Some emoji).
  unfold ok_or. run_simpl. rewrite Hr. by run_simpl.
Qed.

Lemma cmd_set_potato_missing message h :
  run (cmd_set_potato message []) h =
    run (say (channel_id message) (error_message not_enough_arguments)) h.
Proof.
  unfold cmd_set_potato. change (@nil text !! 0%nat) with (@None text).
  unfold ok_or. by run_simpl.
Qed.

Lemma preserves_wf_cmd_set_potato message args :
  preserves wf_handler (cmd_set_potato message args).
Proof.
  unfold cmd_set_potato.
  apply preserves_bind; [|intros; apply pure_state_preserves, pure_state_reply].
  apply preserves_try_block, preserves_bind_lift. intros emoji _.
  apply preserves_bind_lift. intros r _.
  apply preserves_bind; [apply pure_state_preserves, pure_state_get_this|].
  intros this. apply preserves_bind; [|intros; apply pure_state_preserves, pure_state_ret].
  apply preserves_modify_config. intros h Hh.
  apply wf_with_config; [done|]. apply wf_config_set_tater_emoji, Hh.
Qed.

Lemma no_panic_cmd_set_potato message args : no_panic (cmd_set_potato message args).
Proof.
  unfold cmd_set_potato, modify_config.
  auto 10 using no_panic_reply with tater.
Qed.

(** [show_blacklist] *)
Lemma pure_state_cmd_show_blacklist message : pure_state (cmd_show_blacklist message).
Proof. unfold cmd_show_blacklist. auto with tater. Qed.

Lemma no_panic_cmd_show_blacklist message : no_panic (cmd_show_blacklist message).
Proof. unfold cmd_show_blacklist. auto with tater. Qed.

Lemma set_iter_empty : set_iter ∅ = [].
Proof. apply Permutation_nil_r. by rewrite set_iter_perm, elements_empty. Qed.

(** C37: with nothing blacklisted, [show_blacklist] sends the empty
    text. *)
Theorem cmd_show_blacklist_empty message h :
  blacklisted_channels (config h) = ∅ →
  run (cmd_show_blacklist message) h = run (say (channel_id message) []) h.
Proof.
  intros Hb. unfold cmd_show_blacklist. run_simpl.
  by rewrite Hb, set_iter_empty.
Qed.

(** [list_admins] *)
Lemma list_admins_loop_run msg ids h :
  run (list_admins_loop msg ids) h =
    run (lift_result (users ← mapM get_user ids;
                      mret (msg ++ concat (admin_line <$> users)))) h.
Proof.
  revert msg. induction ids as [|id ids IH]; intros msg; simpl.
  - by rewrite app_nil_r.
  - run_simpl. destruct (get_user id) as [user|e]; simpl; run_simpl; [|done].
    rewrite IH. run_simpl. destruct (mapM get_user ids); simpl; [|done].
    unfold admin_line. by rewrite <-!app_assoc.
Qed.

(** The lines of the users of a list, or the error of the first request
    that fails. *)
Lemma lines_first_failure (pre : text) ids :
  (users ← mapM get_user ids; mret (pre ++ concat (admin_line <$> users))) =
    match find_map (λ id, match get_user id with
                          | Ok _ => None
                          | Err e => Some e
                          end) ids with
    | Some e => Err e
    | None =>
        Ok (pre ++ concat ((λ id, match get_user id with
                                  | Ok user => [10] ++ str "- " ++ user_tag user
                                  | Err _ => []
                                  end) <$> ids))
    end.
Proof.
  revert pre. induction ids as [|id ids IH]; intros pre; [done|].
  cbn [mapM find_map fmap list_fmap concat].
  destruct (get_user id) as [user|e]; [|done]. cbn [mbind result_bind].
  specialize (IH (pre ++ admin_line user)).
  destruct (mapM get_user ids) as [users|e], (find_map _ ids) as [e'|];
    cbn [mbind result_bind mret result_ret fmap list_fmap concat] in *;
    try done.
  injection IH as IH%app_inv_head. unfold admin_line in *. by rewrite IH.
Qed.

Lemma cmd_list_admins_run message h :
  run (cmd_list_admins message) h =
    run (say (channel_id message)
           (reply_text (admins_text (set_iter (admins (config h)))))) h.
Proof.
  unfold cmd_list_admins. run_simpl. rewrite list_admins_loop_run. run_simpl.
  unfold admins_text. destruct (mapM _ _); simpl; by run_simpl.
Qed.

(** C34: what [list_admins] answers.  The loop of lines 363-366 asks
    the chat service for one user per listed admin, in the order the
    set iterates, and stops at the first request that fails.  When all
    succeed the answer is the line [Admins:] followed by one line with
    the tag of each; when one fails the answer is the error text of the
    first that failed and no part of the list.  The state is not
    written. *)
Theorem cmd_list_admins_reply message h :
  let ids := set_iter (admins (config h)) in
  final (run (cmd_list_admins message) h) = h ∧
  run (cmd_list_admins message) h =
    run (say (channel_id message)
           match find_map (λ id, match get_user id with
                                 | Ok _ => None
                                 | Err e => Some e
                                 end) ids with
           | Some e => error_message e
           | None =>
               str "Admins:" ++
               concat ((λ id, match get_user id with
                              | Ok user => [10] ++ str "- " ++ user_tag user
                              | Err _ => []
                              end) <$> ids)
           end) h.
Proof.
  cbn zeta. rewrite cmd_list_admins_run. split; [apply pure_state_say|].
  unfold admins_text. rewrite lines_first_failure.
  by destruct (find_map _ _).
Qed.

Lemma pure_state_cmd_list_admins message : pure_state (cmd_list_admins message).
Proof. intros h. by rewrite cmd_list_admins_run, pure_state_say. Qed.

Lemma no_panic_cmd_list_admins message : no_panic (cmd_list_admins message).
Proof. intros h. rewrite cmd_list_admins_run. apply no_panic_say. Qed.

(** [save] saves the tables of the registry with the guild's
    current state in it, and answers with the success or with the error
    of the save: a failed save is reported, not propagated. *)
Theorem cmd_save_run handlers message id h :
  guild_id message = Some id →
  run (cmd_save handlers message) h =
    after (if deliver (EvSaveTaters id (<[id := h]> handlers))
           then [EvSaveTaters id (<[id := h]> handlers)] else [])
      (run (say (channel_id message)
              (save_text (EvSaveTaters id (<[id := h]> handlers)))) h).
Proof.
  intros Hg. unfold cmd_save, save_text. rewrite Hg. run_simpl.
  rewrite run_perform. destruct (deliver _) as [[]|e]; by run_simpl.
Qed.

Lemma pure_state_cmd_save handlers message : pure_state (cmd_save handlers message).
Proof.
  unfold cmd_save. destruct (guild_id message);
    auto 10 using pure_state_reply with tater.
Qed.

Lemma no_panic_cmd_save handlers message : no_panic (cmd_save handlers message).
Proof.
  unfold cmd_save. destruct (guild_id message);
    auto 10 using no_panic_reply with tater.
Qed.

(** the unknown command *)
Lemma pure_state_cmd_unknown message command : pure_state (cmd_unknown message command).
Proof. apply pure_state_perform. Qed.

Lemma no_panic_cmd_unknown message command : no_panic (cmd_unknown message command).
Proof. apply no_panic_perform. Qed.

(** ** Panic freedom of the arms that take a number *)

Lemma no_panic_silent_body message args (body : Z → M text) :
  (∀ x, silent (body x)) → no_panic (with_u64_arg message args body).
Proof. intros Hb. apply no_panic_with_u64_arg. intros x. apply silent_no_panic, Hb. Qed.

Lemma no_panic_cmd_set_pin_channel message args :
  no_panic (cmd_set_pin_channel message args).
Proof. apply no_panic_silent_body. auto with tater. Qed.

Lemma no_panic_cmd_set_threshold message args :
  no_panic (cmd_set_threshold message args).
Proof. apply no_panic_silent_body. auto with tater. Qed.

Lemma no_panic_cmd_blacklist message args : no_panic (cmd_blacklist message args).
Proof. apply no_panic_silent_body. auto with tater. Qed.

Lemma no_panic_cmd_unblacklist message args : no_panic (cmd_unblacklist message args).
Proof. apply no_panic_silent_body. auto with tater. Qed.

Lemma no_panic_cmd_admin message args : no_panic (cmd_admin message args).
Proof. apply no_panic_silent_body. auto with tater. Qed.

Lemma no_panic_cmd_unadmin message args : no_panic (cmd_unadmin message args).
Proof. apply no_panic_silent_body. auto with tater. Qed.

End others.

(** ** What the arms emit *)

Section events.
Context `{Platform, World} (P : Event → Prop) (message : Message).
Hypothesis P_say : ∀ t, P (EvSay (channel_id message) t).

Lemma emits_say t : emits P (say (channel_id message) t).
Proof. by apply emits_perform. Qed.

Lemma emits_reply msg : emits P (reply message msg).
Proof. destruct msg; apply emits_say. Qed.

Lemma emits_with_u64_arg args body :
  (∀ x, silent (body x)) → emits P (with_u64_arg message args body).
Proof.
  intros Hb. unfold with_u64_arg.
  auto 6 using emits_reply, emits_silent with tater.
Qed.

Lemma emits_cmd_help is_admin : emits P (cmd_help is_admin message).
Proof. unfold cmd_help. destruct is_admin; auto using emits_say with tater. Qed.

Lemma emits_cmd_show_blacklist : emits P (cmd_show_blacklist message).
Proof. unfold cmd_show_blacklist. auto using emits_say with tater. Qed.

Lemma emits_cmd_set_potato args : emits P (cmd_set_potato message args).
Proof.
  unfold cmd_set_potato, modify_config.
  auto 10 using emits_reply with tater.
Qed.

Lemma emits_cmd_list_admins : emits P (cmd_list_admins message).
Proof. intros h. rewrite cmd_list_admins_run. apply emits_say. Qed.

(** [save] from the state [h]: the save of the registry with [h] in it,
    and the answer. *)
Lemma emits_cmd_save_from handlers h :
  (∀ id, guild_id message = Some id →
         P (EvSaveTaters id (<[id := h]> handlers))) →
  Forall P (trace (run (cmd_save handlers message) h)).
Proof.
  intros Hs. unfold cmd_save. destruct (guild_id message) as [id|];
    [|by apply emits_bind; [apply emits_ret|intros; apply emits_reply]].
  rewrite trace_bind, run_try_block. run_simpl. rewrite run_perform.
  destruct (deliver _) as [[]|e]; run_simpl; simpl;
    (destruct (deliver (EvSay _ _)); simpl; repeat constructor; auto).
Qed.

Lemma emits_cmd_save handlers :
  (∀ g hs, P (EvSaveTaters g hs)) → emits P (cmd_save handlers message).
Proof. intros Hs h. apply emits_cmd_save_from. auto. Qed.

End events.
