(* ===== verification/Dispatch.v ===== *)
(** * Dispatch: [handle_commands] from the first line to the last

    The function of [commands.rs], composed the way the source composes
    it:

    - [handle_commands] (lines 19-31 and the function's return): the
      message's guild, the lock on the registry and the entry of the
      guild ([entry_or_insert]); the body runs on that entry, and what it
      leaves is what the registry holds afterwards, whatever the outcome.
      The call has the lock from line 29 to its return, so the registry
      it is given is the registry it works on; the wait for the lock is
      a step of [Lock.lstep], not of this function.
    - [handle_guild] (lines 32-62 and 408-428): the guards that end the
      function early (own message, no trigger word, guild not cached,
      roles unknown, fewer than two words), the indexing [split[1]] and
      [split[2..]], the [match], and the save of the configuration.
    - [compute_is_admin] (lines 43-54): membership in [admins], else a
      role with the administrator permission; the request for the member
      is only made when the membership test fails.
    - [dispatch] (lines 63-406): the arms of the [match] in their order,
      with their [if is_admin] guards.
    - [save_config] (lines 408-426).
    - [handle_all]: the calls of [handle_commands] one after the other,
      which is how they happen: the lock of line 29 is held from there to
      the return, so two calls never interleave.

    Theorems: the authorisation gate (a user who is not an admin never
    changes the state, and gets the answer of an unknown command), no
    partial write on a rejected argument, isolation of guilds, the
    invariant over any sequence of messages, when the configuration is
    saved and how the saves fail, when the handler panics, and where the
    order of the guards differs from the design document's
    ([tokenize_first], [authorizes_before_tokens]). *)

From stdpp Require Import gmap.
From S2P Require Import Prelude Text Guild Effects Leaderboard Commands.

#[local] Open Scope Z_scope.

(** The names of the arms guarded by [if is_admin], in source order. *)
Definition admin_commands : list text :=
  [str "set_pin_channel"; str "set_threshold"; str "blacklist";
   str "unblacklist"; str "show_blacklist"; str "set_potato"; str "admin";
   str "unadmin"; str "list_admins"; str "save"].

(** The names of the arms open to everybody. *)
Definition user_commands : list text :=
  [str "help"; str "receivers"; str "givers"].

(** The pattern of an arm: the literal [name]. *)
Definition is_cmd (cmd : text) (name : string) : bool :=
  bool_decide (cmd = str name).

(** The commands as a closed enumeration. *)
Inductive Command :=
| Help | Leaderboard (b : Board) | SetPinChannel | SetThreshold | Blacklist
| Unblacklist | ShowBlacklist | SetPotato | Admin | Unadmin | ListAdmins
| Save | Unknown.

#[export] Instance Command_eq_dec : EqDecision Command.
Proof. solve_decision. Defined.

(** What one call of [handle_commands] leaves behind. *)
Record Handled := MkHandled {
  handlers_after : gmap Z Handler;
  events : list Event;
  returned : Outcome ();
}.

Section dispatch.
Context `{Platform, World}.

(** [this.config.admins.contains(..) || match guild.member(..).await?
    .roles(..).await { Some(roles) => roles.iter().any(..), None =>
    return Ok(()) }]: [None] is the early return. *)
Definition compute_is_admin (guild : Z) (message : Message) : M (option bool) :=
  this ← get_this;
  if bool_decide (author_id message ∈ admins (config this)) then mret (Some true)
  else
    roles ← lift_result (fetch_member_roles guild (author_id message));
    mret (existsb (λ r, has_permission r ADMINISTRATOR) <$> roles).

(** [match cmd { ... }] *)
Definition dispatch (handlers : gmap Z Handler) (is_admin : bool)
    (message : Message) (cmd : text) (args : list text) : M () :=
  if is_cmd cmd "help" then cmd_help is_admin message
  else if is_cmd cmd "receivers" then cmd_leaderboard Receivers message args
  else if is_cmd cmd "givers" then cmd_leaderboard Givers message args
  else if is_cmd cmd "set_pin_channel" && is_admin
  then cmd_set_pin_channel message args
  else if is_cmd cmd "set_threshold" && is_admin
  then cmd_set_threshold message args
  else if is_cmd cmd "blacklist" && is_admin then cmd_blacklist message args
  else if is_cmd cmd "unblacklist" && is_admin then cmd_unblacklist message args
  else if is_cmd cmd "show_blacklist" && is_admin then cmd_show_blacklist message
  else if is_cmd cmd "set_potato" && is_admin then cmd_set_potato message args
  else if is_cmd cmd "admin" && is_admin then cmd_admin message args
  else if is_cmd cmd "unadmin" && is_admin then cmd_unadmin message args
  else if is_cmd cmd "list_admins" && is_admin then cmd_list_admins message
  else if is_cmd cmd "save" && is_admin then cmd_save handlers message
  else cmd_unknown message cmd.

(** [if is_admin { if let Some(id) = message.guild_id { save_server_config
    (..).await? } else { say(..).await? } }] *)
Definition save_config (handlers : gmap Z Handler) (is_admin : bool)
    (message : Message) : M () :=
  if is_admin then
    match guild_id message with
    | Some id =>
        this ← get_this; perform (EvSaveConfig id (<[id := this]> handlers))
    | None =>
        say (channel_id message)
          (str "Unable to save config because there was no guild ID (are you in a PM?)")
    end
  else mret ().

(** The body of [handle_commands] once the entry of the guild is at
    hand. *)
Definition handle_guild (handlers : gmap Z Handler) (guild uid : Z)
    (message : Message) : M () :=
  this ← get_this;
  if bool_decide (author_id message = uid)
     || negb (starts_with (content message) (trigger_word (config this)))
  then mret ()
  else if negb (guild_in_cache guild) then mret ()
  else
    is_admin ← compute_is_admin guild message;
    match is_admin with
    | None => mret ()
    | Some is_admin =>
        let split := split_whitespace (content message) in
        if bool_decide (length split < 2)%nat then mret ()
        else
          match split !! 1%nat with
          | None => panic
          | Some cmd =>
              dispatch handlers is_admin message cmd (drop 2 split);;
              save_config handlers is_admin message
          end
    end.

Definition handle_commands (handlers : gmap Z Handler) (uid : Z)
    (message : Message) : Handled :=
  match guild_id message with
  | None => MkHandled handlers [] (Done ())
  | Some guild =>
      let e := entry_or_insert handlers guild in
      let r := run (handle_guild e.1 guild uid message) e.2 in
      MkHandled (<[guild := final r]> e.1) (trace r) (outcome r)
  end.

(** The registry after the messages of a list, handled in order, and
    everything that was done for them. *)
Fixpoint handle_all (handlers : gmap Z Handler) (uid : Z)
    (messages : list Message) : gmap Z Handler * list Event :=
  match messages with
  | [] => (handlers, [])
  | message :: messages =>
      let r := handle_commands handlers uid message in
      let rs := handle_all (handlers_after r) uid messages in
      (rs.1, events r ++ rs.2)
  end.

(** ** Specification *)

(** The state of a guild in the registry, before and after its first
    message. *)
Definition state_of (handlers : gmap Z Handler) (guild : Z) : Handler :=
  default Handler_new (handlers !! guild).

(** The guards of lines 32-42: the message is the handler's own, does
    not start with the trigger word, or its guild is not cached. *)
Definition ignored (this : Handler) (guild uid : Z) (message : Message) : bool :=
  bool_decide (author_id message = uid)
  || negb (starts_with (content message) (trigger_word (config this)))
  || negb (guild_in_cache guild).

(** What the authorisation comes to: listed, or a role with bit 3 of
    its permissions set. *)
Definition admin_outcome (this : Handler) (guild : Z) (message : Message)
    : Outcome (option bool) :=
  if bool_decide (author_id message ∈ admins (config this)) then Done (Some true)
  else
    match fetch_member_roles guild (author_id message) with
    | Ok (Some roles) =>
        Done (Some (bool_decide (Exists (λ r, Z.testbit (permissions r) 3 = true) roles)))
    | Ok None => Done None
    | Err e => Fail e
    end.

(** The body of the handler in the order of the design document
    (section 4.4): the trigger check, then the tokens, and only then the
    authorisation.  The code authorises first; [tokenize_first] is what
    [handle_guild] is compared with. *)
Definition tokenize_first (handlers : gmap Z Handler) (guild uid : Z)
    (message : Message) : M () :=
  this ← get_this;
  if bool_decide (author_id message = uid)
     || negb (starts_with (content message) (trigger_word (config this)))
  then mret ()
  else
    match split_whitespace (content message) with
    | _ :: cmd :: args =>
        if negb (guild_in_cache guild) then mret ()
        else
          is_admin ← compute_is_admin guild message;
          match is_admin with
          | None => mret ()
          | Some is_admin =>
              dispatch handlers is_admin message cmd args;;
              save_config handlers is_admin message
          end
    | _ => mret ()
    end.

(** Events that are messages to a channel, not saves. *)
Definition is_message (e : Event) : bool :=
  match e with
  | EvSay _ _ | EvSendEmbed _ _ _ _ | EvSendNoMentions _ _ => true
  | _ => false
  end.

(** The saves of the configuration among some events. *)
Definition config_saves (t : list Event) : list Event :=
  filter (λ e, is_save_config e = true) t.

(** A message of an admin that passes the guards and has a command. *)
Definition admin_command (this : Handler) (guild uid : Z) (message : Message)
    : bool :=
  negb (ignored this guild uid message)
  && bool_decide (admin_outcome this guild message = Done (Some true))
  && bool_decide (2 ≤ length (split_whitespace (content message)))%nat.

(** The dispatcher as a decoder into a closed enumeration, a gate and an
    interpreter: the reference [dispatch] is compared with. *)
Definition decode (cmd : text) : Command :=
  if is_cmd cmd "help" then Help
  else if is_cmd cmd "receivers" then Leaderboard Receivers
  else if is_cmd cmd "givers" then Leaderboard Givers
  else if is_cmd cmd "set_pin_channel" then SetPinChannel
  else if is_cmd cmd "set_threshold" then SetThreshold
  else if is_cmd cmd "blacklist" then Blacklist
  else if is_cmd cmd "unblacklist" then Unblacklist
  else if is_cmd cmd "show_blacklist" then ShowBlacklist
  else if is_cmd cmd "set_potato" then SetPotato
  else if is_cmd cmd "admin" then Admin
  else if is_cmd cmd "unadmin" then Unadmin
  else if is_cmd cmd "list_admins" then ListAdmins
  else if is_cmd cmd "save" then Save
  else Unknown.

Definition admin_required (c : Command) : bool :=
  match c with Help | Leaderboard _ | Unknown => false | _ => true end.

Definition is_leaderboard (c : Command) : bool :=
  match c with Leaderboard _ => true | _ => false end.

Definition authorize (is_admin : bool) (c : Command) : Command :=
  if admin_required c && negb is_admin then Unknown else c.

Definition execute (handlers : gmap Z Handler) (is_admin : bool)
    (message : Message) (cmd : text) (args : list text) (c : Command) : M () :=
  match c with
  | Help => cmd_help is_admin message
  | Leaderboard b => cmd_leaderboard b message args
  | SetPinChannel => cmd_set_pin_channel message args
  | SetThreshold => cmd_set_threshold message args
  | Blacklist => cmd_blacklist message args
  | Unblacklist => cmd_unblacklist message args
  | ShowBlacklist => cmd_show_blacklist message
  | SetPotato => cmd_set_potato message args
  | Admin => cmd_admin message args
  | Unadmin => cmd_unadmin message args
  | ListAdmins => cmd_list_admins message
  | Save => cmd_save handlers message
  | Unknown => cmd_unknown message cmd
  end.

(** The error of the argument of a command, if it has one: the error
    the requester is told. *)
Definition argument_error (c : Command) (args : list text) : option text :=
  match c with
  | SetPinChannel | SetThreshold | Blacklist | Unblacklist | Admin | Unadmin =>
      match parse_u64_arg args with Ok _ => None | Err e => Some e end
  | SetPotato =>
      match emoji ← ok_or (args !! 0%nat) not_enough_arguments;
            reaction_try_from emoji with
      | Ok _ => None
      | Err e => Some e
      end
  | _ => None
  end.

End dispatch.

(** ** The decoder *)

Lemma is_cmd_true cmd name : is_cmd cmd name = true ↔ cmd = str name.
Proof. apply bool_decide_eq_true. Qed.

(** Case analysis on the literal a command name is equal to; a goal
    about a literal is computed. *)
Ltac decode_cases :=
  unfold decode;
  repeat match goal with
  | |- context [is_cmd ?c ?n] =>
      let Hc := fresh "Hc" in
      destruct (is_cmd c n) eqn:Hc;
      [apply is_cmd_true in Hc; subst; by vm_compute|]
  end.

(** A name that is none of the literals is in no list of them. *)
Ltac not_a_command Hin :=
  repeat (apply elem_of_cons in Hin as [->|Hin];
          [match goal with Hc : is_cmd _ _ = false |- _ =>
             by vm_compute in Hc end|]);
  by apply elem_of_nil in Hin.

Lemma decode_admin_required cmd :
  admin_required (decode cmd) = bool_decide (cmd ∈ admin_commands).
Proof.
  decode_cases. symmetry. apply bool_decide_eq_false. intros Hin.
  not_a_command Hin.
Qed.

Lemma decode_Unknown cmd :
  bool_decide (decode cmd = Unknown) =
    bool_decide (cmd ∉ user_commands ++ admin_commands).
Proof.
  decode_cases. rewrite bool_decide_eq_true_2 by done.
  symmetry. apply bool_decide_eq_true. intros Hin. not_a_command Hin.
Qed.

Section gate.
Context `{Platform, World}.

(** The [match] on strings with its guards, and the enumeration behind
    the gate, are the same term. *)
Lemma dispatch_execute handlers is_admin message cmd args :
  dispatch handlers is_admin message cmd args =
    execute handlers is_admin message cmd args (authorize is_admin (decode cmd)).
Proof.
  unfold dispatch, decode.
  repeat match goal with
  | |- context [is_cmd cmd ?n] =>
      destruct (is_cmd cmd n); [destruct is_admin; by rewrite ?andb_false_r|]
  end.
  done.
Qed.

(** C5: a user who is not an admin gets from each of the ten admin
    commands what an unknown command gets: the arm of the wildcard. *)
Theorem dispatch_admin_only handlers message cmd args :
  cmd ∈ admin_commands →
  dispatch handlers false message cmd args = cmd_unknown message cmd.
Proof.
  intros Hc. rewrite dispatch_execute. unfold authorize.
  by rewrite decode_admin_required, bool_decide_eq_true_2.
Qed.

(** ... and never writes the state, whatever the command. *)
Lemma dispatch_user_pure handlers message cmd args :
  pure_state (dispatch handlers false message cmd args).
Proof.
  rewrite dispatch_execute. unfold authorize. rewrite andb_true_r.
  destruct (decode cmd); cbn [execute admin_required];
    auto using pure_state_cmd_help, pure_state_cmd_leaderboard,
      pure_state_cmd_unknown.
Qed.

(** C2: [dispatch] refines the dispatcher of the design: from every
    state it runs as the interpreter [execute] runs the command that
    [decode] finds for the name, after [authorize] has replaced an admin
    command of a user who is not an admin by [Unknown]. *)
Theorem dispatch_refines handlers is_admin message cmd args :
  dispatch handlers is_admin message cmd args ≡
    execute handlers is_admin message cmd args (authorize is_admin (decode cmd)).
Proof. intros h. by rewrite dispatch_execute. Qed.

(** An admin passes the gate. *)
Lemma dispatch_admin handlers message cmd args :
  dispatch handlers true message cmd args =
    execute handlers true message cmd args (decode cmd).
Proof. rewrite dispatch_execute. unfold authorize. by rewrite andb_false_r. Qed.

(** ** Rejected arguments *)

Lemma execute_argument_error handlers message cmd args c e h :
  argument_error c args = Some e →
  run (execute handlers true message cmd args c) h =
    run (say (channel_id message) (error_message e)) h.
Proof.
  destruct c; cbn [execute argument_error]; try done;
    try (destruct (parse_u64_arg args) eqn:Hp; [done|];
         intros [= ->]; by apply with_u64_arg_Err).
  intros He. destruct args as [|emoji args]; simpl in He.
  - injection He as <-. apply cmd_set_potato_missing.
  - destruct (reaction_try_from emoji) eqn:Hr; [done|].
    injection He as ->. by apply cmd_set_potato_Err.
Qed.

(** C3: no partial write.  A command whose argument is rejected (it is
    missing, is not the decimal form of a 64-bit number, or is not a
    reaction) leaves every field of the guild's state as it was; the
    admin who sent it is told the error and nothing else. *)
Theorem dispatch_argument_error handlers is_admin message cmd args e h :
  argument_error (decode cmd) args = Some e →
  final (run (dispatch handlers is_admin message cmd args) h) = h ∧
  (is_admin = true →
   run (dispatch handlers is_admin message cmd args) h =
     run (say (channel_id message) (error_message e)) h).
Proof.
  intros He. destruct is_admin.
  - rewrite dispatch_admin, (execute_argument_error _ _ _ _ _ e) by done.
    split; [apply pure_state_say|done].
  - split; [apply dispatch_user_pure|done].
Qed.

(** ** The invariant and panics *)

Lemma preserves_wf_dispatch handlers is_admin message cmd args :
  preserves wf_handler (dispatch handlers is_admin message cmd args).
Proof.
  rewrite dispatch_execute. destruct (authorize _ _); cbn [execute];
    auto using preserves_wf_cmd_set_pin_channel, preserves_wf_cmd_set_threshold,
      preserves_wf_cmd_blacklist, preserves_wf_cmd_unblacklist,
      preserves_wf_cmd_set_potato, preserves_wf_cmd_admin,
      preserves_wf_cmd_unadmin, pure_state_preserves, pure_state_cmd_help,
      pure_state_cmd_leaderboard, pure_state_cmd_show_blacklist,
      pure_state_cmd_list_admins, pure_state_cmd_save, pure_state_cmd_unknown.
Qed.

Lemma no_panic_execute handlers is_admin message cmd args c :
  (∀ b, c ≠ Leaderboard b) →
  no_panic (execute handlers is_admin message cmd args c).
Proof.
  intros Hc. destruct c; cbn [execute]; [|by destruct (Hc b)|..];
    auto using no_panic_cmd_help, no_panic_cmd_set_pin_channel,
      no_panic_cmd_set_threshold, no_panic_cmd_blacklist,
      no_panic_cmd_unblacklist, no_panic_cmd_show_blacklist,
      no_panic_cmd_set_potato, no_panic_cmd_admin, no_panic_cmd_unadmin,
      no_panic_cmd_list_admins, no_panic_cmd_save, no_panic_cmd_unknown.
Qed.

Lemma authorize_Leaderboard is_admin c b :
  authorize is_admin c = Leaderboard b ↔ c = Leaderboard b.
Proof. unfold authorize. destruct c, is_admin; naive_solver. Qed.

(** The one panic of the dispatcher: a build with overflow checks, a
    leaderboard and a page number whose tenfold leaves 64 bits. *)
Lemma dispatch_panics handlers is_admin message cmd args h :
  outcome (run (dispatch handlers is_admin message cmd args) h) = Panic ↔
  is_leaderboard (decode cmd) = true ∧ overflow_checks = true ∧
  1844674407370955162 ≤ page_num args.
Proof.
  rewrite dispatch_execute.
  destruct (is_leaderboard (decode cmd)) eqn:Hb.
  - destruct (decode cmd) as [|b| | | | | | | | | | |]; try done.
    rewrite (proj2 (authorize_Leaderboard is_admin _ b) eq_refl).
    cbn [execute]. rewrite cmd_leaderboard_panics. naive_solver.
  - split; [|naive_solver]. intros Hp. exfalso.
    eapply no_panic_execute; [|done].
    intros b Hc%authorize_Leaderboard. by rewrite Hc in Hb.
Qed.

(** What [dispatch] emits: messages, and the save of the tables when an
    admin asks for it. *)
Lemma emits_dispatch (P : Event → Prop) handlers is_admin message cmd args :
  (∀ e, is_message e = true → P e) →
  (is_admin = true → ∀ g hs, P (EvSaveTaters g hs)) →
  emits P (dispatch handlers is_admin message cmd args).
Proof.
  intros Hm Hs. rewrite dispatch_execute. unfold authorize.
  destruct (decode cmd), is_admin; cbn [execute admin_required andb negb];
    lazymatch goal with
    | |- context [cmd_save] => apply emits_cmd_save; auto
    | |- context [cmd_unknown] => apply emits_perform; auto
    | |- context [cmd_help] => auto using emits_cmd_help
    | |- context [cmd_leaderboard] => auto using emits_cmd_leaderboard
    | |- context [cmd_show_blacklist] => auto using emits_cmd_show_blacklist
    | |- context [cmd_set_potato] => auto using emits_cmd_set_potato
    | |- context [cmd_list_admins] => auto using emits_cmd_list_admins
    | |- _ => apply emits_with_u64_arg; auto with tater
    end.
Qed.

End gate.

(** ** Authorisation *)

(** The administrator permission is bit 3. *)
Lemma has_permission_ADMINISTRATOR r :
  has_permission r ADMINISTRATOR = Z.testbit (permissions r) 3.
Proof.
  unfold has_permission, ADMINISTRATOR. change 8 with (2 ^ 3).
  destruct (Z.testbit (permissions r) 3) eqn:Hb.
  - apply bool_decide_eq_true, Z.bits_inj'. intros n Hn.
    rewrite Z.land_spec, Z.pow2_bits_eqb by lia.
    destruct (Z.eqb_spec 3 n) as [<-|]; [by rewrite Hb|apply andb_false_r].
  - apply bool_decide_eq_false. intros Heq.
    apply (f_equal (λ x, Z.testbit x 3)) in Heq.
    by rewrite Z.land_spec, Hb, Z.pow2_bits_eqb in Heq by lia.
Qed.

Lemma existsb_ADMINISTRATOR roles :
  existsb (λ r, has_permission r ADMINISTRATOR) roles =
    bool_decide (Exists (λ r, Z.testbit (permissions r) 3 = true) roles).
Proof.
  induction roles as [|r roles IH]; cbn [existsb].
  - symmetry. apply bool_decide_eq_false. by intros ?%Exists_nil.
  - rewrite IH, has_permission_ADMINISTRATOR.
    destruct (Z.testbit _ 3) eqn:Hb; cbn [orb].
    + symmetry. apply bool_decide_eq_true. by left.
    + apply bool_decide_ext. rewrite Exists_cons.
      split; [by right|intros [?|?]; [congruence|done]].
Qed.

Section authorisation.
Context `{Platform, World}.

Lemma compute_is_admin_run guild message h :
  run (compute_is_admin guild message) h =
    MkRun h [] (admin_outcome h guild message).
Proof.
  unfold compute_is_admin, admin_outcome. run_simpl. case_bool_decide; [done|].
  run_simpl. destruct (fetch_member_roles _ _) as [[roles|]|e]; run_simpl;
    [|done..].
  simpl. by rewrite existsb_ADMINISTRATOR.
Qed.

(** A listed admin is an admin whatever the chat service answers. *)
Lemma admin_outcome_listed guild message h :
  author_id message ∈ admins (config h) →
  admin_outcome h guild message = Done (Some true).
Proof. intros. unfold admin_outcome. by rewrite bool_decide_eq_true_2. Qed.

(** Authorisation never panics. *)
Lemma admin_outcome_no_panic guild message h :
  admin_outcome h guild message ≠ Panic.
Proof.
  unfold admin_outcome. case_bool_decide; [done|].
  by destruct (fetch_member_roles _ _) as [[roles|]|e].
Qed.

End authorisation.

(** ** The body of the handler *)

Section handle.
Context `{Platform, World}.

Lemma pure_state_save_config handlers is_admin message :
  pure_state (save_config handlers is_admin message).
Proof.
  unfold save_config. destruct is_admin, (guild_id message); auto with tater.
Qed.

Lemma no_panic_save_config handlers is_admin message :
  no_panic (save_config handlers is_admin message).
Proof.
  unfold save_config. destruct is_admin, (guild_id message); auto with tater.
Qed.

(** [handle_guild] in closed form: the guards, the authorisation, two
    words or more, then the command and the save.  The indexing
    [split[1]] has no case of its own: it cannot fail. *)
Lemma handle_guild_run handlers guild uid message h :
  run (handle_guild handlers guild uid message) h =
    if ignored h guild uid message then MkRun h [] (Done ())
    else
      match admin_outcome h guild message with
      | Done (Some is_admin) =>
          match split_whitespace (content message) with
          | _ :: cmd :: args =>
              run (dispatch handlers is_admin message cmd args;;
                   save_config handlers is_admin message) h
          | _ => MkRun h [] (Done ())
          end
      | Done None => MkRun h [] (Done ())
      | Fail e => MkRun h [] (Fail e)
      | Panic => MkRun h [] Panic
      end.
Proof.
  unfold handle_guild, ignored. run_simpl.
  destruct (_ || negb (starts_with _ _)); cbn [orb]; [by run_simpl|].
  destruct (guild_in_cache guild); cbn [negb]; [|by run_simpl].
  run_simpl. rewrite compute_is_admin_run.
  destruct (admin_outcome _ _ _) as [[a|]| |]; run_simpl; try done.
  by destruct (split_whitespace _) as [|w [|cmd args]].
Qed.

(** The body in the order of the design document, in closed form. *)
Lemma tokenize_first_run handlers guild uid message h :
  run (tokenize_first handlers guild uid message) h =
    if ignored h guild uid message then MkRun h [] (Done ())
    else
      match split_whitespace (content message) with
      | _ :: cmd :: args =>
          match admin_outcome h guild message with
          | Done (Some is_admin) =>
              run (dispatch handlers is_admin message cmd args;;
                   save_config handlers is_admin message) h
          | Done None => MkRun h [] (Done ())
          | Fail e => MkRun h [] (Fail e)
          | Panic => MkRun h [] Panic
          end
      | _ => MkRun h [] (Done ())
      end.
Proof.
  unfold tokenize_first, ignored. run_simpl.
  destruct (_ || negb (starts_with _ _)); cbn [orb]; [by run_simpl|].
  destruct (split_whitespace _) as [|w [|cmd args]];
    [by destruct (negb _); run_simpl..|].
  destruct (guild_in_cache guild); cbn [negb]; [|by run_simpl].
  run_simpl. rewrite compute_is_admin_run.
  by destruct (admin_outcome _ _ _) as [[a|]| |]; run_simpl.
Qed.

(** C27: the code authorises before it counts the words; the design
    document counts the words first.  The two orders run alike, with
    the same state, the same events and the same outcome, except for a
    message that passes the guards of lines 32-42, has fewer than two
    words and whose author is not listed while the request for the
    member fails: the code has made the request and returns its error
    through the [?] of line 46, where the design returns normally. *)
Theorem authorizes_before_tokens handlers guild uid message h :
  let early e :=
    ignored h guild uid message = false ∧
    (length (split_whitespace (content message)) < 2)%nat ∧
    admin_outcome h guild message = Fail e in
  ((∀ e, ¬ early e) →
   run (handle_guild handlers guild uid message) h =
     run (tokenize_first handlers guild uid message) h) ∧
  (∀ e, early e →
    run (handle_guild handlers guild uid message) h = MkRun h [] (Fail e) ∧
    run (tokenize_first handlers guild uid message) h = MkRun h [] (Done ())).
Proof.
  cbn zeta. rewrite handle_guild_run, tokenize_first_run.
  pose proof (admin_outcome_no_panic guild message h) as Hn.
  destruct (ignored _ _ _ _); [by split; [|intros e (? & _)]|].
  destruct (split_whitespace _) as [|w [|cmd args]]; simpl;
    [| |split; [done|intros e (_ & ? & _); lia]];
    (destruct (admin_outcome _ _ _) as [[a|]|e|]; [| | |done];
     (split; [intros He; try done; by destruct (He e); split_and!; [|lia|]
             |intros e' (_ & _ & He'); by simplify_eq])).
Qed.

(** The body keeps the invariant. *)
Lemma preserves_wf_handle_guild handlers guild uid message :
  preserves wf_handler (handle_guild handlers guild uid message).
Proof.
  intros h Hh. rewrite handle_guild_run.
  destruct (ignored _ _ _ _); [done|].
  destruct (admin_outcome _ _ _) as [[a|]| |]; try done.
  destruct (split_whitespace _) as [|w [|cmd args]]; try done.
  apply preserves_bind; [apply preserves_wf_dispatch| |done].
  intros []. apply pure_state_preserves, pure_state_save_config.
Qed.

(** The body writes nothing unless the author is an admin. *)
Lemma handle_guild_user handlers guild uid message h :
  admin_outcome h guild message ≠ Done (Some true) →
  final (run (handle_guild handlers guild uid message) h) = h.
Proof.
  intros Ha. rewrite handle_guild_run.
  destruct (ignored _ _ _ _); [done|].
  destruct (admin_outcome _ _ _) as [[[]|]| |]; try done.
  destruct (split_whitespace _) as [|w [|cmd args]]; try done.
  apply pure_state_bind; [apply dispatch_user_pure|].
  intros []. apply pure_state_save_config.
Qed.

(** ... and then it saves nothing either. *)
Lemma handle_guild_user_events handlers guild uid message h :
  admin_outcome h guild message ≠ Done (Some true) →
  Forall (λ e, is_message e = true)
    (trace (run (handle_guild handlers guild uid message) h)).
Proof.
  intros Ha. rewrite handle_guild_run.
  destruct (ignored _ _ _ _); [constructor|].
  destruct (admin_outcome _ _ _) as [[[]|]| |]; try done; try constructor.
  destruct (split_whitespace _) as [|w [|cmd args]]; try constructor.
  apply emits_bind; [by apply emits_dispatch|intros []; apply emits_ret].
Qed.

(** C8: the handler panics only in the leaderboard, in a build with
    overflow checks, on a page number whose tenfold leaves 64 bits; in
    particular the indexing [split[1]] and [split[2..]] never panics. *)
Theorem handle_guild_panics handlers guild uid message h :
  outcome (run (handle_guild handlers guild uid message) h) = Panic →
  overflow_checks = true ∧
  ∃ w cmd args, split_whitespace (content message) = w :: cmd :: args ∧
    is_leaderboard (decode cmd) = true ∧ 1844674407370955162 ≤ page_num args.
Proof.
  rewrite handle_guild_run. destruct (ignored _ _ _ _); [done|].
  pose proof (admin_outcome_no_panic guild message h) as Hn.
  destruct (admin_outcome _ _ _) as [[a|]| |]; try done.
  destruct (split_whitespace _) as [|w [|cmd args]]; try done.
  rewrite outcome_bind.
  destruct (outcome (run (dispatch _ _ _ _ _) h)) as [[]| |] eqn:Hd.
  - by intros ?%no_panic_save_config.
  - done.
  - apply dispatch_panics in Hd as (? & ? & ?). eauto 10.
Qed.

(** ** The save of the configuration *)

Lemma save_config_run handlers message g h :
  guild_id message = Some g →
  run (save_config handlers true message) h =
    run (perform (EvSaveConfig g (<[g := h]> handlers))) h.
Proof. intros Hg. unfold save_config. rewrite Hg. by run_simpl. Qed.

(** When the command ends in an error (its answer could not be
    delivered), nothing is saved: the function has returned. *)
Lemma failed_command_skips_save handlers is_admin message cmd args e h :
  outcome (run (dispatch handlers is_admin message cmd args) h) = Fail e →
  run (dispatch handlers is_admin message cmd args;;
       save_config handlers is_admin message) h =
    MkRun (final (run (dispatch handlers is_admin message cmd args) h))
          (trace (run (dispatch handlers is_admin message cmd args) h)) (Fail e).
Proof.
  intros Hd. rewrite run_bind.
  destruct (run (dispatch _ _ _ _ _) h) as [h' t o]. simpl in Hd. by subst o.
Qed.

(** C29: [set_threshold] whose answer cannot be delivered: the
    threshold is changed in memory, the function returns the error of
    the delivery, and the configuration is not saved. *)
Theorem set_threshold_reply_fails handlers message args n e h :
  parse_u64_arg args = Ok n →
  deliver (EvSay (channel_id message) (msg_set_threshold n)) = Err e →
  run (dispatch handlers true message (str "set_threshold") args;;
       save_config handlers true message) h =
    MkRun (with_config (set_threshold n) h) [] (Fail e).
Proof.
  intros Hp Hd.
  assert (run (dispatch handlers true message (str "set_threshold") args) h =
          MkRun (with_config (set_threshold n) h) [] (Fail e)) as Hr.
  { change (dispatch _ _ _ _ _) with (cmd_set_threshold message args).
    by rewrite (cmd_set_threshold_run _ _ n), run_say, run_perform, Hd. }
  by rewrite run_bind, Hr.
Qed.

(** C28: an admin's command whose argument is rejected changes nothing,
    is answered with the error, and the configuration is saved all the
    same. *)
Theorem rejected_argument_saves handlers message cmd args g e h :
  guild_id message = Some g →
  argument_error (decode cmd) args = Some e →
  deliver (EvSay (channel_id message) (error_message e)) = Ok () →
  deliver (EvSaveConfig g (<[g := h]> handlers)) = Ok () →
  run (dispatch handlers true message cmd args;;
       save_config handlers true message) h =
    MkRun h [EvSay (channel_id message) (error_message e);
             EvSaveConfig g (<[g := h]> handlers)] (Done ()).
Proof.
  intros Hg He Hsay Hsave.
  rewrite run_bind, dispatch_admin, (execute_argument_error _ _ _ _ _ e) by done.
  rewrite run_say, run_perform, Hsay, bind_run_Done.
  by rewrite (save_config_run _ _ g), run_perform, Hsave.
Qed.

(** C30: the two saves fail differently.  [save] of an admin when the
    disk takes no save and the chat service delivers: the error of
    [save_server_taters] is caught at line 384 and told to the requester
    as an error message (lines 390-394); the handler goes on to line
    412, where the error of [save_server_config] leaves the function
    through [?]: it is returned to the caller, and the requester is not
    told. *)
Theorem save_failures handlers message args g e1 e2 h :
  guild_id message = Some g →
  deliver (EvSaveTaters g (<[g := h]> handlers)) = Err e1 →
  deliver (EvSay (channel_id message) (error_message e1)) = Ok () →
  deliver (EvSaveConfig g (<[g := h]> handlers)) = Err e2 →
  run (dispatch handlers true message (str "save") args;;
       save_config handlers true message) h =
    MkRun h [EvSay (channel_id message) (error_message e1)] (Fail e2).
Proof.
  intros Hg Ht Hsay Hc. rewrite run_bind.
  change (dispatch _ _ _ _ _) with (cmd_save handlers message).
  rewrite (cmd_save_run _ _ g) by done. unfold save_text. rewrite Ht.
  change (reply_text _) with (error_message e1).
  rewrite after_nil, run_say, run_perform, Hsay, bind_run_Done.
  by rewrite (save_config_run _ _ g), run_perform, Hc.
Qed.

(** No command saves the configuration itself. *)
Lemma config_saves_dispatch handlers is_admin message cmd args h :
  config_saves (trace (run (dispatch handlers is_admin message cmd args) h)) = [].
Proof.
  apply filter_nil_Forall.
  apply (emits_dispatch (λ e, ¬ is_save_config e = true)); [by intros []|done].
Qed.

(** The saves of a command and what follows it, when both end well. *)
Lemma config_saves_command handlers is_admin message cmd args g h :
  guild_id message = Some g →
  let r := run (dispatch handlers is_admin message cmd args;;
                save_config handlers is_admin message) h in
  outcome r = Done () →
  config_saves (trace r) =
    if is_admin then [EvSaveConfig g (<[g := final r]> handlers)] else [].
Proof.
  intros Hg r. subst r. rewrite outcome_bind, trace_bind, final_bind.
  pose proof (config_saves_dispatch handlers is_admin message cmd args h) as Hd.
  destruct (outcome (run (dispatch _ _ _ _ _) h)) as [[]| |]; try done.
  unfold config_saves in *. rewrite filter_app, Hd, pure_state_save_config.
  destruct is_admin; [|done].
  rewrite (save_config_run _ _ g), run_perform by done.
  by destruct (deliver _).
Qed.

(** When the command or the save after it does not end well, the
    configuration has not been saved. *)
Lemma config_saves_failed handlers is_admin message cmd args h :
  let r := run (dispatch handlers is_admin message cmd args;;
                save_config handlers is_admin message) h in
  outcome r ≠ Done () → config_saves (trace r) = [].
Proof.
  cbn zeta. rewrite outcome_bind, trace_bind.
  pose proof (config_saves_dispatch handlers is_admin message cmd args h) as Hd.
  destruct (outcome (run (dispatch _ _ _ _ _) h)) as [[]| |]; try done.
  unfold config_saves in *. rewrite filter_app, Hd. unfold save_config.
  destruct is_admin; [|done]. destruct (guild_id message) as [g|];
    run_simpl; rewrite run_perform; by destruct (deliver _).
Qed.

(** The saves of the configuration by the body of the handler: one, of
    the registry with the state the body left, when the message is a
    command of an admin and the body returned normally; none
    otherwise. *)
Lemma config_saves_handle_guild handlers guild uid message h :
  guild_id message = Some guild →
  let r := run (handle_guild handlers guild uid message) h in
  config_saves (trace r) =
    if admin_command h guild uid message && bool_decide (outcome r = Done ())
    then [EvSaveConfig guild (<[guild := final r]> handlers)]
    else [].
Proof.
  intros Hg. cbn zeta. rewrite handle_guild_run. unfold admin_command.
  destruct (ignored _ _ _ _); [done|]. cbn [negb andb].
  destruct (admin_outcome _ _ _) as [[a|]| |]; try done.
  destruct (split_whitespace _) as [|w [|cmd args]];
    [by rewrite andb_false_r..|].
  rewrite (bool_decide_eq_true_2 (2 ≤ _)%nat), andb_true_r by (simpl; lia).
  destruct (decide (outcome (run (dispatch handlers a message cmd args;;
                                  save_config handlers a message) h) = Done ()))
    as [Hd|Hd].
  - rewrite (bool_decide_eq_true_2 _ Hd), andb_true_r.
    rewrite (config_saves_command _ _ _ _ _ guild) by done. by destruct a.
  - rewrite (bool_decide_eq_false_2 _ Hd), andb_false_r.
    by apply config_saves_failed.
Qed.

(** C33: the configuration is saved exactly once.  When the handler
    returns normally for a message of a guild, the configuration has been
    saved exactly once if the message is a command of an admin (it passes
    the guards, its author is listed or holds an administrator role, it
    has two words or more), whichever command it names and whether or
    not it wrote anything, and the save wrote the registry with the state
    the command left; otherwise the configuration has not been saved. *)
Theorem config_saved_once handlers guild uid message h :
  guild_id message = Some guild →
  let r := run (handle_guild handlers guild uid message) h in
  outcome r = Done () →
  config_saves (trace r) =
    if admin_command h guild uid message
    then [EvSaveConfig guild (<[guild := final r]> handlers)]
    else [].
Proof.
  intros Hg r Hd. subst r. rewrite config_saves_handle_guild by done.
  by rewrite Hd, bool_decide_eq_true_2, andb_true_r.
Qed.

(** ** One message *)

(** The guild of the message holds what the body left, and the body
    started from the guild's state. *)
Lemma handle_commands_this handlers uid message g :
  guild_id message = Some g →
  handlers_after (handle_commands handlers uid message) !! g =
    Some (final (run (handle_guild (entry_or_insert handlers g).1 g uid message)
                     (state_of handlers g))).
Proof.
  intros Hg. unfold handle_commands, state_of. rewrite Hg. simpl.
  by rewrite lookup_insert_eq, entry_or_insert_this.
Qed.

(** Every other guild is as it was. *)
Lemma handle_commands_other handlers uid message g :
  guild_id message ≠ Some g →
  handlers_after (handle_commands handlers uid message) !! g = handlers !! g.
Proof.
  unfold handle_commands. destruct (guild_id message) as [g'|]; [|done].
  intros Hg. simpl. rewrite lookup_insert_ne by congruence.
  apply entry_or_insert_other. congruence.
Qed.

Lemma state_of_other handlers uid message g :
  guild_id message ≠ Some g →
  state_of (handlers_after (handle_commands handlers uid message)) g =
    state_of handlers g.
Proof. intros. unfold state_of. by rewrite handle_commands_other. Qed.

Lemma handle_commands_wf handlers uid message :
  wf_handlers handlers →
  wf_handlers (handlers_after (handle_commands handlers uid message)).
Proof.
  intros Hwf. unfold handle_commands. destruct (guild_id message) as [g|]; [|done].
  destruct (entry_or_insert_wf handlers g Hwf) as [Hwf1 Hwf2]. simpl.
  apply wf_handlers_insert; [done|]. by apply preserves_wf_handle_guild.
Qed.

(** The authorisation gate: a message of somebody who is not an admin
    leaves the state of every guild as it was. *)
Lemma handle_commands_user handlers uid message g :
  (∀ g', guild_id message = Some g' →
         admin_outcome (state_of handlers g') g' message ≠ Done (Some true)) →
  state_of (handlers_after (handle_commands handlers uid message)) g =
    state_of handlers g.
Proof.
  intros Ha. destruct (decide (guild_id message = Some g)) as [Hg|Hg];
    [|by apply state_of_other].
  unfold state_of at 1. rewrite (handle_commands_this _ _ _ g Hg). simpl.
  by apply handle_guild_user, Ha.
Qed.

(** C1: the authorisation gate.  When the author of a message is not an
    admin (not listed, and without a role that has the administrator
    permission, or the chat service fails to say), the state of every
    guild is afterwards what it was, and everything the handler has done
    is to send messages: nothing was saved. *)
Theorem authorization_gate handlers uid message :
  (∀ g, guild_id message = Some g →
        admin_outcome (state_of handlers g) g message ≠ Done (Some true)) →
  (∀ g, state_of (handlers_after (handle_commands handlers uid message)) g =
        state_of handlers g) ∧
  Forall (λ e, is_message e = true)
         (events (handle_commands handlers uid message)).
Proof.
  intros Ha. split; [intros g; by apply handle_commands_user|].
  unfold handle_commands.
  destruct (guild_id message) as [g|] eqn:Hg; [|constructor].
  cbn [events]. rewrite entry_or_insert_this.
  apply handle_guild_user_events. by apply Ha.
Qed.

Lemma entry_or_insert_state handlers g :
  (entry_or_insert handlers g).1 = <[g := state_of handlers g]> handlers.
Proof.
  unfold entry_or_insert, state_of. destruct (handlers !! g) eqn:Hg; [|done].
  symmetry. by apply insert_id.
Qed.

(** A listed admin is an admin whatever the chat service says: the
    command runs with [is_admin] set and the configuration is saved. *)
Theorem handle_guild_listed handlers guild uid message h w cmd args :
  author_id message ∈ admins (config h) →
  ignored h guild uid message = false →
  split_whitespace (content message) = w :: cmd :: args →
  run (handle_guild handlers guild uid message) h =
    run (dispatch handlers true message cmd args;;
         save_config handlers true message) h.
Proof.
  intros Ha Hi Hs. by rewrite handle_guild_run, Hi, admin_outcome_listed, Hs.
Qed.

(** C38: a message the handler ignores (here its own) still creates
    the entry of its guild in the registry, with the default state. *)
Theorem handle_commands_registers handlers uid message g :
  guild_id message = Some g → handlers !! g = None →
  author_id message = uid →
  handle_commands handlers uid message =
    MkHandled (<[g := Handler_new]> handlers) [] (Done ()).
Proof.
  intros Hg Hn Hu. unfold handle_commands, entry_or_insert. rewrite Hg, Hn.
  cbn [fst snd]. rewrite handle_guild_run. unfold ignored.
  rewrite bool_decide_eq_true_2 by done. cbn [orb final trace outcome].
  by rewrite insert_insert_eq.
Qed.

(** ** Messages one after the other *)

Lemma handle_all_app handlers uid l1 l2 :
  handle_all handlers uid (l1 ++ l2) =
    ((handle_all (handle_all handlers uid l1).1 uid l2).1,
     (handle_all handlers uid l1).2 ++
     (handle_all (handle_all handlers uid l1).1 uid l2).2).
Proof.
  revert handlers. induction l1 as [|m l1 IH]; intros handlers; simpl.
  - by destruct (handle_all handlers uid l2).
  - by rewrite IH, <-app_assoc.
Qed.

(** The invariant over any sequence of messages: if every number
    stored in the registry fits 64 bits, so does every number stored
    after the messages have been handled, whoever sent them and whatever
    the chat service answered. *)
Theorem handle_all_wf handlers uid messages :
  wf_handlers handlers → wf_handlers (handle_all handlers uid messages).1.
Proof.
  revert handlers. induction messages as [|m l IH]; intros handlers Hwf; [done|].
  simpl. by apply IH, handle_commands_wf.
Qed.

(** Isolation of guilds: a guild none of the messages comes from
    has afterwards the entry it had, or none as before. *)
Theorem handle_all_other handlers uid messages g :
  Forall (λ m, guild_id m ≠ Some g) messages →
  (handle_all handlers uid messages).1 !! g = handlers !! g.
Proof.
  revert handlers. induction messages as [|m l IH]; intros handlers Hl; [done|].
  apply Forall_cons in Hl as [Hm Hl]. simpl.
  by rewrite IH, handle_commands_other.
Qed.

(** Over any sequence of messages none of which comes from an
    admin, the state of every guild stays what it was. *)
Theorem handle_all_users handlers uid messages g :
  Forall (λ m, ∀ g', guild_id m = Some g' →
            admin_outcome (state_of handlers g') g' m ≠ Done (Some true))
         messages →
  state_of (handle_all handlers uid messages).1 g = state_of handlers g.
Proof.
  revert handlers. induction messages as [|m l IH]; intros handlers Hl; [done|].
  apply Forall_cons in Hl as [Hm Hl]. simpl.
  rewrite IH; [by apply handle_commands_user|].
  eapply Forall_impl; [exact Hl|]. intros m' Hm' g' Hg'. simpl in Hm'.
  rewrite handle_commands_user by done. by apply Hm'.
Qed.

End handle.
