(* ===== verification/Writes.v ===== *)
(** * Writes: what a command does to the state

    The arms of [handle_commands] write the guild's state in seven ways
    and no other: lines 189 and 221 assign [pin_channel] and
    [threshold], lines 191, 240 and 265 insert into and remove from
    [blacklisted_channels], line 301 assigns [tater_emoji], lines 320
    and 343 insert into and remove from [admins].  [Write] names these
    seven, [writes_of] says which of them a command performs, and
    [writes_for] which a message does, given the state it meets.

    [final_dispatch] and [final_handle_guild] show that the state after
    the code has run is the state before with these writes applied, on
    every path: errors, failed deliveries and panics included, and
    [handle_commands_state] says the same of the registry.  This is the
    abstract transition function of the handler; invariants follow from
    it through [kept] and [keeps]: a property that the writes keep is
    kept by the handler. *)

From stdpp Require Import gmap.
From S2P Require Import Prelude Text Guild Effects Leaderboard Commands.
From S2P Require Import Dispatch.

#[local] Open Scope Z_scope.

(** The assignments to [this.config]. *)
Inductive Write :=
| WPinChannel (channel : Z)
| WThreshold (threshold : Z)
| WBlacklist (channel : Z)
| WUnblacklist (channel : Z)
| WPotato (react : ReactionType)
| WAdmin (user : Z)
| WUnadmin (user : Z).

#[export] Instance Write_eq_dec : EqDecision Write.
Proof. solve_decision. Defined.

Definition apply_write (w : Write) (c : Config) : Config :=
  match w with
  | WPinChannel x => set_pin_channel x c
  | WThreshold x => set_threshold x c
  | WBlacklist x =>
      set_blacklisted_channels ({[x]} ∪ blacklisted_channels c) c
  | WUnblacklist x =>
      set_blacklisted_channels (blacklisted_channels c ∖ {[x]}) c
  | WPotato r => set_tater_emoji r c
  | WAdmin x => set_admins ({[x]} ∪ admins c) c
  | WUnadmin x => set_admins (admins c ∖ {[x]}) c
  end.

(** The writes of a list, first to last. *)
Definition write_all (ws : list Write) (h : Handler) : Handler :=
  foldl (λ h w, with_config (apply_write w) h) h ws.

(** A write of a number writes a 64-bit number. *)
Definition wf_write (w : Write) : Prop :=
  match w with
  | WPotato _ => True
  | WPinChannel x | WThreshold x | WBlacklist x | WUnblacklist x
  | WAdmin x | WUnadmin x => in_u64 x
  end.

(** A property of the state that every write keeps. *)
Definition kept (P : Handler → Prop) : Prop :=
  ∀ w h, wf_write w → P h → P (with_config (apply_write w) h).

Section writes.
Context `{Platform, World}.

(** The writes of a command that has passed the gate. *)
Definition writes_of (c : Command) (args : list text) : list Write :=
  match c with
  | SetPinChannel =>
      match parse_u64_arg args with
      | Ok x => [WPinChannel x; WBlacklist x]
      | Err _ => []
      end
  | SetThreshold =>
      match parse_u64_arg args with Ok x => [WThreshold x] | Err _ => [] end
  | Blacklist =>
      match parse_u64_arg args with Ok x => [WBlacklist x] | Err _ => [] end
  | Unblacklist =>
      match parse_u64_arg args with Ok x => [WUnblacklist x] | Err _ => [] end
  | SetPotato =>
      match emoji ← ok_or (args !! 0%nat) not_enough_arguments;
            reaction_try_from emoji with
      | Ok r => [WPotato r]
      | Err _ => []
      end
  | Admin =>
      match parse_u64_arg args with Ok x => [WAdmin x] | Err _ => [] end
  | Unadmin =>
      match parse_u64_arg args with Ok x => [WUnadmin x] | Err _ => [] end
  | _ => []
  end.

(** The writes of a message that meets the state [this] of its guild. *)
Definition writes_for (this : Handler) (guild uid : Z) (message : Message)
    : list Write :=
  if ignored this guild uid message then []
  else
    match admin_outcome this guild message with
    | Done (Some is_admin) =>
        match split_whitespace (content message) with
        | _ :: cmd :: args => writes_of (authorize is_admin (decode cmd)) args
        | _ => []
        end
    | _ => []
    end.

(** The command a message names, [split[1]] decoded, and its arguments,
    [split[2..]]. *)
Definition command_of (message : Message) : Command :=
  match split_whitespace (content message) with
  | _ :: cmd :: _ => decode cmd
  | _ => Unknown
  end.

Definition args_of (message : Message) : list text :=
  drop 2 (split_whitespace (content message)).

(** The writes the words of a message ask for, were its author an
    admin. *)
Definition may_write (message : Message) : list Write :=
  match split_whitespace (content message) with
  | _ :: cmd :: args => writes_of (decode cmd) args
  | _ => []
  end.

(** The writes of a message to the state of guild [g] in a registry. *)
Definition writes_to (handlers : gmap Z Handler) (uid : Z) (message : Message)
    (g : Z) : list Write :=
  if decide (guild_id message = Some g)
  then writes_for (state_of handlers g) g uid message
  else [].

End writes.

(** A list of writes keeps a property of the state. *)
Definition keeps (P : Handler → Prop) (ws : list Write) : Prop :=
  ∀ h, P h → P (write_all ws h).

(** Three properties of a guild's state that commands establish. *)
Definition blacklisted (c : Z) (h : Handler) : Prop :=
  c ∈ blacklisted_channels (config h).

Definition listed (u : Z) (h : Handler) : Prop := u ∈ admins (config h).

Definition pin_blacklisted (h : Handler) : Prop :=
  pin_channel (config h) ∈ blacklisted_channels (config h).

(** ** Writes *)

Lemma write_all_nil h : write_all [] h = h.
Proof. done. Qed.

Lemma write_all_cons w ws h :
  write_all (w :: ws) h = write_all ws (with_config (apply_write w) h).
Proof. done. Qed.

Lemma write_all_app ws1 ws2 h :
  write_all (ws1 ++ ws2) h = write_all ws2 (write_all ws1 h).
Proof. apply foldl_app. Qed.

(** Writes touch [config] only. *)
Lemma write_all_taters ws h :
  taters_got (write_all ws h) = taters_got h ∧
  taters_given (write_all ws h) = taters_given h.
Proof.
  revert h. induction ws as [|w ws IH]; intros h; [done|].
  rewrite write_all_cons. by destruct (IH (with_config (apply_write w) h)).
Qed.

(** ... and never the trigger word. *)
Lemma apply_write_trigger_word w c :
  trigger_word (apply_write w c) = trigger_word c.
Proof. by destruct w. Qed.

Lemma kept_write_all P ws h :
  kept P → Forall wf_write ws → P h → P (write_all ws h).
Proof.
  intros HP Hws. revert h. induction Hws as [|w ws Hw Hws IH]; intros h Hh;
    [done|].
  rewrite write_all_cons. by apply IH, HP.
Qed.

(** The invariant of [Guild] is kept by every write. *)
Lemma kept_wf_handler : kept wf_handler.
Proof.
  intros w h Hw Hh. apply wf_with_config; [done|].
  destruct Hh as [Hc _]. destruct w; simpl in *;
    auto using wf_config_set_pin_channel, wf_config_set_threshold,
      wf_config_blacklist_insert, wf_config_blacklist_remove,
      wf_config_set_tater_emoji, wf_config_admins_insert,
      wf_config_admins_remove.
Qed.

(** What the commands never write: the tables and the trigger word. *)
Lemma kept_frame got given trigger :
  kept (λ h, taters_got h = got ∧ taters_given h = given ∧
             trigger_word (config h) = trigger).
Proof.
  intros w h _ (? & ? & ?). split_and!; [done..|].
  simpl. by rewrite apply_write_trigger_word.
Qed.

(** ** Writes that keep a property *)

Lemma keeps_Forall P ws :
  Forall (λ w, ∀ h, P h → P (with_config (apply_write w) h)) ws → keeps P ws.
Proof.
  induction 1 as [|w ws Hw _ IH]; intros h Hh; [done|].
  rewrite write_all_cons. by apply IH, Hw.
Qed.

Lemma kept_keeps P ws : kept P → Forall wf_write ws → keeps P ws.
Proof. intros HP Hws h. by apply kept_write_all. Qed.

(** A channel stays blacklisted until it is unblacklisted. *)
Lemma keeps_blacklisted c ws : WUnblacklist c ∉ ws → keeps (blacklisted c) ws.
Proof.
  intros Hws. apply keeps_Forall, Forall_forall. intros w Hw h.
  unfold blacklisted. destruct w; simpl; set_solver.
Qed.

(** An admin stays one until [unadmin]. *)
Lemma keeps_listed u ws : WUnadmin u ∉ ws → keeps (listed u) ws.
Proof.
  intros Hws. apply keeps_Forall, Forall_forall. intros w Hw h.
  unfold listed. destruct w; simpl; set_solver.
Qed.

(** The pin channel stays blacklisted under every command but
    [unblacklist]: [set_pin_channel] blacklists what it sets. *)
Lemma keeps_pin_blacklisted `{Platform} c args :
  c ≠ Unblacklist → keeps pin_blacklisted (writes_of c args).
Proof.
  intros Hc h. unfold pin_blacklisted.
  destruct c; cbn [writes_of]; try done;
    match goal with |- context [match ?r with Ok _ => _ | Err _ => _ end] =>
      destruct r end; simpl; set_solver.
Qed.

(** ** The state after a command *)

Section final.
Context `{Platform, World}.

(** The state after an arm that parses a number: the body's, or the
    one before. *)
Lemma final_with_u64_arg message args body h :
  final (run (with_u64_arg message args body) h) =
    match parse_u64_arg args with
    | Ok x => final (run (body x) h)
    | Err _ => h
    end.
Proof.
  unfold with_u64_arg.
  rewrite final_bind_pure, final_try_block by (intros; apply pure_state_reply).
  rewrite final_bind. by destruct (parse_u64_arg args).
Qed.

Lemma final_cmd_set_potato message args h :
  final (run (cmd_set_potato message args) h) =
    write_all (writes_of SetPotato args) h.
Proof.
  unfold cmd_set_potato. cbn [writes_of].
  rewrite final_bind_pure, final_try_block by (intros; apply pure_state_reply).
  destruct (ok_or _ _) as [emoji|e]; [|done]. run_simpl. simpl.
  destruct (reaction_try_from emoji) as [r|e]; by run_simpl.
Qed.

(** The state after [execute]: the writes of the command, applied. *)
Lemma final_execute handlers is_admin message cmd args c h :
  final (run (execute handlers is_admin message cmd args c) h) =
    write_all (writes_of c args) h.
Proof.
  destruct c; cbn [execute];
    lazymatch goal with
    | |- context [cmd_help] => by rewrite pure_state_cmd_help
    | |- context [cmd_leaderboard] => by rewrite pure_state_cmd_leaderboard
    | |- context [cmd_show_blacklist] => by rewrite pure_state_cmd_show_blacklist
    | |- context [cmd_list_admins] => by rewrite pure_state_cmd_list_admins
    | |- context [cmd_save] => by rewrite pure_state_cmd_save
    | |- context [cmd_unknown] => by rewrite pure_state_cmd_unknown
    | |- context [cmd_set_potato] => apply final_cmd_set_potato
    | |- _ =>
        unfold cmd_set_pin_channel, cmd_set_threshold, cmd_blacklist,
          cmd_unblacklist, cmd_admin, cmd_unadmin;
        rewrite final_with_u64_arg; cbn [writes_of];
        destruct (parse_u64_arg args); [by run_simpl|done]
    end.
Qed.

(** The state after the [match]. *)
Lemma final_dispatch handlers is_admin message cmd args h :
  final (run (dispatch handlers is_admin message cmd args) h) =
    write_all (writes_of (authorize is_admin (decode cmd)) args) h.
Proof. rewrite dispatch_execute. apply final_execute. Qed.

(** The state after the whole body. *)
Lemma final_handle_guild handlers guild uid message h :
  final (run (handle_guild handlers guild uid message) h) =
    write_all (writes_for h guild uid message) h.
Proof.
  rewrite handle_guild_run. unfold writes_for.
  destruct (ignored _ _ _ _); [done|].
  destruct (admin_outcome _ _ _) as [[a|]| |]; try done.
  destruct (split_whitespace _) as [|w [|cmd args]]; try done.
  rewrite final_bind_pure by (intros; apply pure_state_save_config).
  apply final_dispatch.
Qed.

(** Every write of a command writes 64-bit numbers. *)
Lemma writes_of_wf c args : Forall wf_write (writes_of c args).
Proof.
  destruct c; cbn [writes_of]; try constructor;
    try (destruct (parse_u64_arg args) as [x|] eqn:Hp; [|constructor];
         apply parse_u64_arg_range in Hp;
         by repeat (constructor; [exact Hp|])).
  match goal with |- context [match ?r with Ok _ => _ | Err _ => _ end] =>
    destruct r end; by repeat constructor.
Qed.

Lemma writes_for_wf h guild uid message :
  Forall wf_write (writes_for h guild uid message).
Proof.
  unfold writes_for. destruct (ignored _ _ _ _); [constructor|].
  destruct (admin_outcome _ _ _) as [[a|]| |]; try constructor.
  destruct (split_whitespace _) as [|w [|cmd args]]; try constructor.
  apply writes_of_wf.
Qed.

(** Somebody who is not an admin writes nothing. *)
Lemma writes_of_user c args : writes_of (authorize false c) args = [].
Proof. by destruct c. Qed.

Lemma writes_for_user h guild uid message :
  admin_outcome h guild message ≠ Done (Some true) →
  writes_for h guild uid message = [].
Proof.
  intros Ha. unfold writes_for. destruct (ignored _ _ _ _); [done|].
  destruct (admin_outcome _ _ _) as [[[]|]| |]; try done.
  destruct (split_whitespace _) as [|w [|cmd args]]; try done.
  apply writes_of_user.
Qed.

(** A property that the writes keep is kept by the handler's body. *)
Lemma preserves_handle_guild P handlers guild uid message :
  kept P → preserves P (handle_guild handlers guild uid message).
Proof.
  intros HP h Hh. rewrite final_handle_guild.
  apply kept_write_all; auto using writes_for_wf.
Qed.

(** ** The registry after a message *)

(** What is written is nothing, or what the words ask for. *)
Lemma writes_of_authorize is_admin c args :
  writes_of (authorize is_admin c) args = [] ∨
  writes_of (authorize is_admin c) args = writes_of c args.
Proof. destruct is_admin; [right; by destruct c|left; apply writes_of_user]. Qed.

Lemma may_write_command_of message :
  may_write message = writes_of (command_of message) (args_of message).
Proof.
  unfold may_write, command_of, args_of.
  by destruct (split_whitespace _) as [|w [|cmd args]].
Qed.

Lemma writes_for_may_write h guild uid message :
  writes_for h guild uid message = [] ∨
  writes_for h guild uid message = may_write message.
Proof.
  unfold writes_for, may_write. destruct (ignored _ _ _ _); [by left|].
  destruct (admin_outcome _ _ _) as [[a|]| |]; try by left.
  destruct (split_whitespace _) as [|w [|cmd args]]; try by left.
  apply writes_of_authorize.
Qed.

(** The authorisation is made on the state the message meets: a listed
    author is obeyed whatever the chat service says about roles, ... *)
Lemma writes_for_listed h guild uid message :
  listed (author_id message) h → ignored h guild uid message = false →
  writes_for h guild uid message = may_write message.
Proof.
  intros Hl Hi. unfold writes_for, may_write.
  rewrite Hi, admin_outcome_listed by done.
  by destruct (split_whitespace _) as [|w [|cmd [|arg args]]];
    try destruct (decode cmd).
Qed.

(** ... and an author who is not listed is obeyed only for a role. *)
Lemma writes_for_unlisted h guild uid message roles :
  ¬ listed (author_id message) h →
  fetch_member_roles guild (author_id message) = Ok (Some roles) →
  Forall (λ r, has_permission r ADMINISTRATOR = false) roles →
  writes_for h guild uid message = [].
Proof.
  intros Hl Hr Hp. apply writes_for_user. unfold admin_outcome.
  rewrite bool_decide_eq_false_2, Hr by done. intros [= Ha].
  apply bool_decide_eq_true, Exists_exists in Ha as (r & Hin & Hbit).
  rewrite Forall_forall in Hp. specialize (Hp r Hin).
  rewrite has_permission_ADMINISTRATOR in Hp.
  change (Z.testbit (permissions r) 3 = true) in Hbit. congruence.
Qed.

Lemma writes_to_may_write handlers uid message g :
  writes_to handlers uid message g = [] ∨
  guild_id message = Some g ∧ writes_to handlers uid message g = may_write message.
Proof.
  unfold writes_to. case_decide; [|by left].
  destruct (writes_for_may_write (state_of handlers g) g uid message); auto.
Qed.

Lemma writes_to_wf handlers uid message g :
  Forall wf_write (writes_to handlers uid message g).
Proof. unfold writes_to. case_decide; [apply writes_for_wf|constructor]. Qed.

(** The state of every guild after a message: the writes of the message
    applied to the state before. *)
Lemma handle_commands_state handlers uid message g :
  state_of (handlers_after (handle_commands handlers uid message)) g =
    write_all (writes_to handlers uid message g) (state_of handlers g).
Proof.
  unfold writes_to. case_decide as Hg; [|by apply state_of_other].
  unfold state_of at 1. rewrite (handle_commands_this _ _ _ g Hg). simpl.
  apply final_handle_guild.
Qed.

(** The registry after a message of guild [g]. *)
Lemma handle_commands_after handlers uid message g :
  guild_id message = Some g →
  handlers_after (handle_commands handlers uid message) =
    <[g := write_all (writes_for (state_of handlers g) g uid message)
             (state_of handlers g)]> handlers.
Proof.
  intros Hg. unfold handle_commands. rewrite Hg. cbn zeta. cbn [handlers_after].
  rewrite entry_or_insert_this, entry_or_insert_state, final_handle_guild.
  fold (state_of handlers g). by rewrite insert_insert_eq.
Qed.

(** C9: the transition function of the registry.  For a message of
    guild [g], whoever wrote it and whatever the chat service answers,
    the registry after [handle_commands] is the registry before with,
    under [g], the state before (the default state on a first message)
    to which the writes of the message have been applied, in order; the
    writes are those the words ask for, or none. *)
Theorem handle_commands_writes handlers uid message g :
  guild_id message = Some g →
  let ws := writes_for (state_of handlers g) g uid message in
  handlers_after (handle_commands handlers uid message) =
    <[g := write_all ws (state_of handlers g)]> handlers ∧
  (ws = [] ∨ ws = may_write message).
Proof.
  intros Hg ws. split; [by apply handle_commands_after|].
  apply writes_for_may_write.
Qed.

End final.
