(* ===== verification/Answers.v ===== *)
(** * Answers: a command is answered

    Every arm of the [match] of [handle_commands] ends by sending
    something to the channel the message came from: a text, an embed or
    the message of an error.  Errors inside an arm are caught by its
    [try] block and answered; only the deliveries themselves are
    followed by [?].  So when the chat service delivers what is sent, a
    message that passes the guards of lines 32-59 is answered, whatever
    its words are and whether its author is an admin or not, unless the
    task panics on the page number (lines 89 and 106).

    [answers] is the predicate on computations, with its rules for bind
    and [try]; [handle_guild_answers] is the statement for the body of
    the handler.

    What counts as an answer is weak, as it is in the source: [say] and
    [send_message] take a channel and a text and name no message they
    reply to, so [answered message t] says that the events [t] hold a
    message to the channel of [message].  Two commands on one channel
    are each answered by the events of their own call
    ([handle_commands_answers]); in the log of a schedule the events are
    not labelled with the call they belong to. *)

From stdpp Require Import gmap.
From S2P Require Import Prelude Text Guild Effects Leaderboard Commands.
From S2P Require Import Dispatch Writes.

#[local] Open Scope Z_scope.

(** A message sent to the channel of [message]. *)
Definition answer_to (message : Message) (e : Event) : bool :=
  match e with
  | EvSay c _ | EvSendEmbed c _ _ _ | EvSendNoMentions c _ =>
      bool_decide (c = channel_id message)
  | _ => false
  end.

Definition answered (message : Message) (t : list Event) : Prop :=
  Exists (λ e, answer_to message e = true) t.

#[export] Instance answered_dec message t : Decision (answered message t).
Proof. unfold answered. apply _. Defined.

(** A world in which every request succeeds: sets and maps are iterated
    in the order of their elements, nobody has a role. *)
Definition ideal_world : World := {|
  guild_in_cache _ := true;
  fetch_member_roles _ _ := Ok (Some []);
  get_user _ := Ok {| user_mention := []; user_tag := [] |};
  deliver _ := Ok ();
  map_iter := map_to_list;
  set_iter := elements;
  overflow_checks := false;
  map_iter_perm _ := reflexivity _;
  set_iter_perm _ := reflexivity _;
|}.

Section answers.
Context `{Platform, World}.

(** The chat service delivers every message; saves may still fail. *)
Definition delivers : Prop := ∀ e, is_message e = true → deliver e = Ok ().

(** The chat service delivers, has every guild in its cache and tells
    the roles of a member. *)
Definition responsive : Prop :=
  delivers ∧
  (∀ g, guild_in_cache g = true) ∧
  (∀ g u, ∃ roles, fetch_member_roles g u = Ok (Some roles)).

(** The computation answers [message], unless it panics. *)
Definition answers {A} (message : Message) (m : M A) : Prop :=
  ∀ h, outcome (run m h) ≠ Panic → answered message (trace (run m h)).

(** The computation does not return an error. *)
Definition infallible {A} (m : M A) : Prop :=
  ∀ h e, outcome (run m h) ≠ Fail e.

(** A message the handler takes for a command, when the trigger word of
    its guild is [trigger]: not the handler's own, starting with the
    trigger word, of two words or more, and with a page number that does
    not overflow if it asks for a leaderboard. *)
Definition is_command (trigger : text) (uid : Z) (message : Message) : Prop :=
  author_id message ≠ uid ∧
  starts_with (content message) trigger = true ∧
  (2 ≤ length (split_whitespace (content message)))%nat ∧
  (is_leaderboard (command_of message) = true →
   page_num (args_of message) < 1844674407370955162).

#[export] Instance is_command_dec trigger uid message :
  Decision (is_command trigger uid message).
Proof. unfold is_command. apply _. Defined.

(** ** Rules *)

Lemma answered_app_l message t1 t2 : answered message t1 → answered message (t1 ++ t2).
Proof. intros. apply Exists_app. by left. Qed.

Lemma answered_app_r message t1 t2 : answered message t2 → answered message (t1 ++ t2).
Proof. intros. apply Exists_app. by right. Qed.

(** An answer given is not taken back by what follows. *)
Lemma answers_bind_l {A B} message (m : M A) (f : A → M B) :
  answers message m → answers message (m ≫= f).
Proof.
  intros Hm h. rewrite outcome_bind, trace_bind. specialize (Hm h).
  destruct (outcome (run m h)); intros; [apply answered_app_l|..]; auto.
Qed.

(** What cannot fail can come before the answer. *)
Lemma answers_bind_r {A B} message (m : M A) (f : A → M B) :
  infallible m → (∀ a, answers message (f a)) → answers message (m ≫= f).
Proof.
  intros Hm Hf h. rewrite outcome_bind, trace_bind. specialize (Hm h).
  destruct (outcome (run m h)) as [a|e|]; [|by destruct (Hm e)|done].
  intros. by apply answered_app_r, Hf.
Qed.

Lemma infallible_get_this : infallible get_this.
Proof. by intros h e. Qed.

Lemma infallible_try_block {A} (m : M A) : infallible (try_block m).
Proof. intros h e. rewrite run_try_block. simpl. by destruct (outcome (run m h)). Qed.

(** ** The arms *)

Section arms.
Hypothesis Hdelivers : delivers.
Context (message : Message).

Lemma answers_perform e :
  answer_to message e = true → answers message (perform e).
Proof.
  intros He h _. rewrite run_perform, Hdelivers by by destruct e.
  by apply Exists_cons_hd.
Qed.

Lemma answered_say t h :
  answered message (trace (run (say (channel_id message) t) h)).
Proof.
  rewrite run_say, run_perform, Hdelivers by done.
  apply Exists_cons_hd. simpl. by apply bool_decide_eq_true.
Qed.

Lemma answers_say t : answers message (say (channel_id message) t).
Proof. intros h _. apply answered_say. Qed.

Lemma answers_reply msg : answers message (reply message msg).
Proof. destruct msg; apply answers_say. Qed.

(** An arm that is a [try] block followed by the reply. *)
Lemma answers_try_reply (m : M text) :
  answers message (msg ← try_block m; reply message msg).
Proof.
  apply answers_bind_r; [apply infallible_try_block|apply answers_reply].
Qed.

Lemma answers_cmd_help is_admin : answers message (cmd_help is_admin message).
Proof. apply answers_bind_l, answers_say. Qed.

Lemma answers_cmd_leaderboard b args :
  answers message (cmd_leaderboard b message args).
Proof.
  intros h. rewrite cmd_leaderboard_run.
  destruct (_ && _); [done|]. intros _. unfold leaderboard_reply.
  destruct (first_failure _); [by apply answered_say|].
  rewrite Hdelivers by done. apply Exists_cons_hd. simpl.
  by apply bool_decide_eq_true.
Qed.

Lemma answers_cmd_show_blacklist : answers message (cmd_show_blacklist message).
Proof.
  apply answers_bind_r; [apply infallible_get_this|]. intros. apply answers_say.
Qed.

Lemma answers_cmd_save handlers : answers message (cmd_save handlers message).
Proof.
  unfold cmd_save. destruct (guild_id message); [apply answers_try_reply|].
  apply answers_bind_r; [done|apply answers_reply].
Qed.

(** Every command answers. *)
Lemma answers_execute handlers is_admin cmd args c :
  answers message (execute handlers is_admin message cmd args c).
Proof.
  destruct c; cbn [execute];
    auto using answers_cmd_help, answers_cmd_leaderboard,
      answers_cmd_show_blacklist, answers_cmd_save;
    try apply answers_try_reply.
  apply answers_perform. simpl. by apply bool_decide_eq_true.
Qed.

Lemma answers_dispatch handlers is_admin cmd args :
  answers message (dispatch handlers is_admin message cmd args).
Proof. intros h. rewrite dispatch_execute. apply answers_execute. Qed.

End arms.

(** ** The body of the handler *)

(** The guards, from the parts of [is_command]. *)
Lemma ignored_is_command h guild uid message :
  guild_in_cache guild = true →
  is_command (trigger_word (config h)) uid message →
  ignored h guild uid message = false.
Proof.
  intros Hc (Hu & Ht & _). unfold ignored.
  by rewrite bool_decide_eq_false_2, Ht, Hc.
Qed.

(** Liveness of one call: a command is answered when the chat service
    delivers, finds the guild and tells the roles of the author. *)
Lemma handle_guild_answers handlers guild uid message h :
  delivers → guild_in_cache guild = true →
  is_command (trigger_word (config h)) uid message →
  (∃ is_admin, admin_outcome h guild message = Done (Some is_admin)) →
  answered message (trace (run (handle_guild handlers guild uid message) h)).
Proof.
  intros Hd Hc Hm [a Ha]. rewrite handle_guild_run.
  rewrite ignored_is_command, Ha by done.
  destruct Hm as (_ & _ & Hl & Hp). unfold command_of, args_of in Hp.
  destruct (split_whitespace _) as [|w [|cmd args]]; simpl in Hl; [lia..|].
  apply answers_bind_l; [by apply answers_dispatch|].
  rewrite outcome_bind. intros Hpanic.
  destruct (outcome (run (dispatch _ _ _ _ _) h)) eqn:Ho;
    [by apply no_panic_save_config in Hpanic|done|].
  apply dispatch_panics in Ho as (Hb & _ & ?). specialize (Hp Hb).
  change (drop 2 (w :: cmd :: args)) with args in Hp. lia.
Qed.

(** A responsive chat service says whether the author is an admin. *)
Lemma admin_outcome_responsive h guild message :
  responsive → ∃ is_admin, admin_outcome h guild message = Done (Some is_admin).
Proof.
  intros (_ & _ & Hr). unfold admin_outcome. case_bool_decide; [by eexists|].
  destruct (Hr guild (author_id message)) as [roles ->]. by eexists.
Qed.

(** The same for the call: what [handle_commands] does for a command of
    guild [g] holds an answer. *)
Lemma handle_commands_answers handlers uid message g :
  responsive → guild_id message = Some g →
  is_command (trigger_word (config (state_of handlers g))) uid message →
  answered message (events (handle_commands handlers uid message)).
Proof.
  intros Hr Hg Hm. unfold handle_commands. rewrite Hg. cbn [events].
  rewrite entry_or_insert_this. fold (state_of handlers g).
  destruct (Hr) as (Hd & Hc & _).
  apply handle_guild_answers; auto using admin_outcome_responsive.
Qed.

End answers.

Lemma ideal_world_responsive : @responsive ideal_world.
Proof. split_and!; [done..|]. intros g u. by eexists. Qed.
