(* ===== verification/Events.v ===== *)
(** * Events: what is sent and saved is well formed

    The ids of the chat service are [u64]s in the source ([ChannelId],
    [GuildId], [UserId]); in the model they are integers, and that they
    fit 64 bits is a property to be proved of every value the handler
    makes.  [wf_handlers] says so of the registry; [wf_event] says so of
    what leaves the handler: a message goes to a channel whose id is a
    [u64], and a save writes a registry that is well formed, under a
    guild id that is a [u64].

    The handler only ever sends to the channel of the message
    (lines 81, 83, 164, 177, 206, 292, 399, ...) and only ever saves the
    registry it holds with the state of the guild put back (lines 382
    and 412), so well-formed messages and a well-formed registry give
    well-formed events: [wf_event_handle_commands].

    [at_most] bounds the number of events of a computation; one call of
    [handle_commands] makes at most three deliveries and saves
    ([at_most_handle_commands]): at most two by the command ([help] for
    an admin, [save]) and the save of the configuration.

    [handle_commands_confined] puts the two together: what a call does
    to the outside is at most three things, each a message to the
    channel of the command or a save of the registry the call holds,
    under the guild of the message. *)

From stdpp Require Import gmap.
From S2P Require Import Prelude Text Guild Effects Leaderboard Commands.
From S2P Require Import Dispatch Answers.

#[local] Open Scope Z_scope.

(** The ids of a message are [u64]s. *)
Definition wf_message (m : Message) : Prop :=
  in_u64 (channel_id m) ∧ in_u64 (author_id m) ∧
  (∀ g, guild_id m = Some g → in_u64 g).

Definition wf_event (e : Event) : Prop :=
  match e with
  | EvSay c _ | EvSendEmbed c _ _ _ | EvSendNoMentions c _ => in_u64 c
  | EvSaveTaters g hs | EvSaveConfig g hs => in_u64 g ∧ wf_handlers hs
  end.

(** The computation makes at most [n] deliveries and saves. *)
Definition at_most {A} (n : nat) (m : M A) : Prop :=
  ∀ h, (length (trace (run m h)) ≤ n)%nat.

Section events.
Context `{Platform, World}.

(** The save after a command, from the state [h] the command left. *)
Lemma emits_save_config_from (P : Event → Prop) handlers is_admin message h :
  (∀ t, P (EvSay (channel_id message) t)) →
  (∀ id, guild_id message = Some id →
         P (EvSaveConfig id (<[id := h]> handlers))) →
  Forall P (trace (run (save_config handlers is_admin message) h)).
Proof.
  intros Hsay Hsave. unfold save_config. destruct is_admin; [|constructor].
  destruct (guild_id message) as [id|]; [|by apply emits_say].
  run_simpl. by apply emits_perform, Hsave.
Qed.

(** What a command emits from the state [h]: messages to the channel of
    the message and, for [save], the save of the registry with [h] in
    it. *)
Lemma emits_execute_from (P : Event → Prop) handlers is_admin message cmd args
    c h :
  (∀ e, answer_to message e = true → P e) →
  (∀ id, guild_id message = Some id →
         P (EvSaveTaters id (<[id := h]> handlers))) →
  Forall P (trace (run (execute handlers is_admin message cmd args c) h)).
Proof.
  intros Hm Hs.
  assert (∀ t, P (EvSay (channel_id message) t)) as Hsay
    by (intros; apply Hm; simpl; by case_bool_decide).
  destruct c; cbn [execute];
    lazymatch goal with
    | |- context [cmd_save] => by apply emits_cmd_save_from
    | |- context [cmd_help] => by apply emits_cmd_help
    | |- context [cmd_show_blacklist] => by apply emits_cmd_show_blacklist
    | |- context [cmd_set_potato] => by apply emits_cmd_set_potato
    | |- context [cmd_list_admins] => by apply emits_cmd_list_admins
    | |- context [cmd_leaderboard] =>
        apply emits_cmd_leaderboard; [done|]; intros; apply Hm; simpl;
          by case_bool_decide
    | |- context [cmd_unknown] =>
        apply emits_perform, Hm; simpl; by case_bool_decide
    | |- _ => apply emits_with_u64_arg; auto with tater
    end.
Qed.

(** What the body emits from the state [h]: what its command emits, and
    the save of the registry with the state the command left. *)
Lemma emits_handle_guild_from (P : Event → Prop) handlers guild uid message h :
  (∀ e, answer_to message e = true → P e) →
  (∀ id, guild_id message = Some id →
         P (EvSaveTaters id (<[id := h]> handlers))) →
  (∀ id, guild_id message = Some id →
         P (EvSaveConfig id
              (<[id := final (run (handle_guild handlers guild uid message) h)]>
                 handlers))) →
  Forall P (trace (run (handle_guild handlers guild uid message) h)).
Proof.
  intros Hm Hs Hc. rewrite handle_guild_run in *.
  destruct (ignored _ _ _ _); [constructor|].
  destruct (admin_outcome _ _ _) as [[a|]| |]; try constructor.
  destruct (split_whitespace _) as [|w [|cmd args]]; try constructor.
  rewrite final_bind_pure in Hc by (intros; apply pure_state_save_config).
  rewrite trace_bind.
  pose proof (emits_execute_from P handlers a message cmd args
                (authorize a (decode cmd)) h Hm Hs) as He.
  rewrite <-dispatch_execute in He.
  destruct (outcome _); [apply Forall_app; split|..]; try done.
  apply emits_save_config_from; [|done].
  intros t. apply Hm. simpl. by case_bool_decide.
Qed.

Section well_formed.
Context (handlers : gmap Z Handler) (message : Message).
Hypothesis Hhandlers : wf_handlers handlers.
Hypothesis Hmessage : wf_message message.

Lemma wf_event_answer e : answer_to message e = true → wf_event e.
Proof.
  destruct Hmessage as (Hc & _). by destruct e; simpl; try case_bool_decide; subst.
Qed.

Lemma wf_event_save h id :
  wf_handler h → guild_id message = Some id →
  in_u64 id ∧ wf_handlers (<[id := h]> handlers).
Proof.
  intros Hh Hid. split; [|by apply wf_handlers_insert].
  destruct Hmessage as (_ & _ & Hg). by apply Hg.
Qed.

(** The body of the handler sends and saves well-formed things. *)
Lemma wf_event_handle_guild guild uid h :
  wf_handler h →
  Forall wf_event (trace (run (handle_guild handlers guild uid message) h)).
Proof.
  intros Hh.
  apply emits_handle_guild_from; [apply wf_event_answer|..]; intros id Hid;
    (apply wf_event_save; [|done]); [done|by apply preserves_wf_handle_guild].
Qed.

End well_formed.

(** One call: from a well-formed registry and message, well-formed
    events. *)
Lemma wf_event_handle_commands handlers uid message :
  wf_handlers handlers → wf_message message →
  Forall wf_event (events (handle_commands handlers uid message)).
Proof.
  intros Hh Hm. unfold handle_commands.
  destruct (guild_id message) as [g|]; [|constructor]. cbn [events].
  destruct (entry_or_insert_wf handlers g Hh).
  by apply wf_event_handle_guild.
Qed.

(** ** How much is sent *)

Lemma at_most_mono {A} n n' (m : M A) :
  (n ≤ n')%nat → at_most n m → at_most n' m.
Proof. intros Hn Hm h. specialize (Hm h). lia. Qed.

Lemma at_most_bind {A B} n1 n2 (m : M A) (f : A → M B) :
  at_most n1 m → (∀ a, at_most n2 (f a)) → at_most (n1 + n2) (m ≫= f).
Proof.
  intros Hm Hf h. rewrite trace_bind. specialize (Hm h).
  destruct (outcome (run m h)) as [a| |]; [|lia..].
  rewrite length_app. specialize (Hf a (final (run m h))). lia.
Qed.

Lemma at_most_silent {A} n (m : M A) : silent m → at_most n m.
Proof. intros Hm h. destruct (Hm h) as (a & _ & ->). simpl. lia. Qed.

Lemma at_most_lift_result {A} n (r : result text A) : at_most n (lift_result r).
Proof. intros h. rewrite run_lift_result. simpl. lia. Qed.

Lemma at_most_perform e : at_most 1 (perform e).
Proof. intros h. rewrite run_perform. destruct (deliver e); simpl; lia. Qed.

Lemma at_most_try_block {A} n (m : M A) : at_most n m → at_most n (try_block m).
Proof. intros Hm h. apply Hm. Qed.

Lemma at_most_reply message msg : at_most 1 (reply message msg).
Proof. destruct msg; apply at_most_perform. Qed.

(** An arm that is a silent [try] block and the reply. *)
Lemma at_most_try_reply message (m : M text) :
  at_most 0 m → at_most 1 (msg ← try_block m; reply message msg).
Proof.
  intros Hm. apply (at_most_bind 0 1); [by apply at_most_try_block|].
  intros. apply at_most_reply.
Qed.

Lemma at_most_cmd_leaderboard b message args :
  at_most 1 (cmd_leaderboard b message args).
Proof.
  intros h. rewrite cmd_leaderboard_run. destruct (_ && _); [simpl; lia|].
  unfold leaderboard_reply.
  destruct (first_failure _); [apply at_most_perform|].
  destruct (deliver _); [simpl; lia|apply at_most_perform].
Qed.

Lemma at_most_cmd_save handlers message :
  at_most 2 (cmd_save handlers message).
Proof.
  unfold cmd_save. apply (at_most_bind 1 1); [|intros; apply at_most_reply].
  destruct (guild_id message); [|by apply at_most_silent; auto with tater].
  apply at_most_try_block, (at_most_bind 0 1); [by apply at_most_silent; auto with tater|].
  intros this. apply (at_most_bind 1 0); [apply at_most_perform|].
  intros. apply at_most_silent. auto with tater.
Qed.

Lemma at_most_with_u64_arg message args body :
  (∀ x, silent (body x)) → at_most 1 (with_u64_arg message args body).
Proof.
  intros Hb. apply at_most_try_reply, (at_most_bind 0 0);
    [apply at_most_lift_result|].
  intros x. by apply at_most_silent.
Qed.

Lemma at_most_cmd_set_potato message args :
  at_most 1 (cmd_set_potato message args).
Proof.
  apply at_most_try_reply.
  do 2 (apply (at_most_bind 0 0); [apply at_most_lift_result|intros ?]).
  apply at_most_silent. unfold modify_config. auto 10 with tater.
Qed.

(** A command makes at most two deliveries and saves. *)
Lemma at_most_execute handlers is_admin message cmd args c :
  at_most 2 (execute handlers is_admin message cmd args c).
Proof.
  destruct c; cbn [execute];
    lazymatch goal with
    | |- context [cmd_save] => apply at_most_cmd_save
    | |- context [cmd_help] =>
        apply (at_most_bind 1 1); [apply at_most_perform|];
        intros; destruct is_admin;
          [apply at_most_perform|by apply at_most_silent; auto with tater]
    | |- _ =>
        apply (at_most_mono 1); [lia|];
        lazymatch goal with
        | |- context [cmd_leaderboard] => apply at_most_cmd_leaderboard
        | |- context [cmd_set_potato] => apply at_most_cmd_set_potato
        | |- context [cmd_unknown] => apply at_most_perform
        | |- context [cmd_list_admins] =>
            by intros h; rewrite cmd_list_admins_run; apply at_most_perform
        | |- context [cmd_show_blacklist] =>
            by apply (at_most_bind 0 1);
              [apply at_most_silent; auto with tater
              |intros; apply at_most_perform]
        | |- _ => by apply at_most_with_u64_arg; auto with tater
        end
    end.
Qed.

Lemma at_most_save_config handlers is_admin message :
  at_most 1 (save_config handlers is_admin message).
Proof.
  unfold save_config.
  destruct is_admin; [|by apply at_most_silent; auto with tater].
  destruct (guild_id message); [|apply at_most_perform].
  apply (at_most_bind 0 1); [by apply at_most_silent; auto with tater|].
  intros. apply at_most_perform.
Qed.

(** One call makes at most three: two of the command, and the save of
    the configuration. *)
Lemma at_most_handle_commands handlers uid message :
  (length (events (handle_commands handlers uid message)) ≤ 3)%nat.
Proof.
  unfold handle_commands. destruct (guild_id message) as [g|]; [|simpl; lia].
  cbn [events]. rewrite handle_guild_run.
  destruct (ignored _ _ _ _); [simpl; lia|].
  destruct (admin_outcome _ _ _) as [[a|]| |]; try (simpl; lia).
  destruct (split_whitespace _) as [|w [|cmd args]]; try (simpl; lia).
  apply (at_most_bind 2 1).
  - intros h. rewrite dispatch_execute. apply at_most_execute.
  - intros []. apply at_most_save_config.
Qed.

(** C12: what a call does to the outside is confined.  Whoever sent
    the message, whatever it says and whatever the chat service
    answers, one call of [handle_commands] makes at most three
    deliveries and saves, and each of them is one of three things: a
    message to the channel the command came from (every [say] and
    [send_message] of the source is on [message.channel_id]); the save
    of the tables, from the registry as the call found it with the
    entry of the guild in it (no arm writes before line 382); or the
    save of the configuration, from the registry as the call leaves
    it.  Nothing goes to another channel, and nothing is saved under
    another guild. *)
Theorem handle_commands_confined handlers uid message :
  let r := handle_commands handlers uid message in
  (length (events r) ≤ 3)%nat ∧
  Forall (λ e,
    answer_to message e = true ∨
    ∃ g, guild_id message = Some g ∧
      (e = EvSaveTaters g (<[g := state_of handlers g]> handlers) ∨
       e = EvSaveConfig g (handlers_after r))) (events r).
Proof.
  split; [apply at_most_handle_commands|]. unfold handle_commands.
  destruct (guild_id message) as [g|] eqn:Hg; [|constructor].
  cbn [events handlers_after].
  rewrite entry_or_insert_this, entry_or_insert_state.
  apply emits_handle_guild_from; [by left|..]; intros id Hid;
    assert (id = g) as -> by congruence; right;
    exists g; (split; [done|]); [left|by right].
  by rewrite insert_insert_eq.
Qed.

End events.
