(* ===== verification/Registry.v ===== *)
(** * Registry: the calls behind one lock

    [handle_commands] takes the lock of the registry at line 29
    ([wrapper.handlers.lock().await]) and holds it until it returns: the
    chat library starts one task per message, and the tasks that have a
    guild wait at line 29 until the lock is theirs.  Nothing orders the
    waiting tasks, and the chat service may answer each of them
    differently.

    [Pool] is the state of this system: the messages whose tasks wait,
    the registry behind the lock, and everything sent and saved so far.
    [step] grants the lock to any one of the waiting tasks, which runs
    [handle_commands] to its end under some world [W] the assumption [A]
    allows.  [handle_calls] is the same for a chosen order: the
    executable form of a schedule.  The pending messages are a list, but
    only as a multiset do they matter: [step] respects the equivalence
    of pools up to their order ([step_equiv]).

    The theorems: every schedule is finite, has as many steps as there
    are messages and makes at most three deliveries and saves per step;
    a pool with a waiting task can step; the calls of a list are a
    schedule ([run_calls_steps]); the state of a guild depends on
    the calls for that guild only ([guilds_independent]); properties
    of a guild's state that the writes of the waiting messages keep are
    invariants of [step], among them that the pin channel is blacklisted
    and that the trigger word never changes; and when the chat service
    is responsive every pending command has been answered once the pool
    is empty. *)

From stdpp Require Import gmap relations.
From S2P Require Import Prelude Text Guild Effects Leaderboard Commands.
From S2P Require Import Dispatch Writes Answers Events.

#[local] Open Scope Z_scope.

(** One call of [handle_commands]: the message, and the world the call
    meets. *)
Record Call := MkCall {
  call_world : World;
  call_message : Message;
}.

(** The messages whose tasks wait for the lock, the registry behind the
    lock, and what was delivered and saved so far, oldest first. *)
Record Pool := MkPool {
  pending : list Message;
  registry : gmap Z Handler;
  log : list Event;
}.

(** The waiting tasks are not ordered: pools are the same when they
    differ in the order of their pending messages only. *)
#[export] Instance Pool_equiv : Equiv Pool := λ p q,
  pending p ≡ₚ pending q ∧ registry p = registry q ∧ log p = log q.

Section registry.
Context `{Platform} (uid : Z).

(** The call of one task: [handle_commands] under the world of the
    call. *)
Definition handle_call (handlers : gmap Z Handler) (c : Call) : Handled :=
  @handle_commands _ (call_world c) handlers uid (call_message c).

(** The calls of a list, each from the registry the one before left. *)
Fixpoint handle_calls (handlers : gmap Z Handler) (calls : list Call)
    : gmap Z Handler * list Event :=
  match calls with
  | [] => (handlers, [])
  | c :: calls =>
      let r := handle_call handlers c in
      let rs := handle_calls (handlers_after r) calls in
      (rs.1, events r ++ rs.2)
  end.

(** The pool after the lock was granted to call [c], the messages [rest]
    still waiting. *)
Definition grant (c : Call) (rest : list Message) (p : Pool) : Pool :=
  let r := handle_call (registry p) c in
  MkPool rest (handlers_after r) (log p ++ events r).

(** The lock goes to any waiting task, under any world [A] allows. *)
Inductive step (A : World → Prop) : Pool → Pool → Prop :=
| step_grant p c l1 l2 :
    pending p = l1 ++ call_message c :: l2 →
    A (call_world c) →
    step A p (grant c (l1 ++ l2) p).

(** The pool after the lock went to the first tasks, one after the
    other, with the worlds of [calls]. *)
Definition run_calls (calls : list Call) (p : Pool) : Pool :=
  let r := handle_calls (registry p) calls in
  MkPool (drop (length calls) (pending p)) r.1 (log p ++ r.2).

(** The writes of a call to the state of guild [g]. *)
Definition call_writes (handlers : gmap Z Handler) (c : Call) (g : Z)
    : list Write :=
  @writes_to _ (call_world c) handlers uid (call_message c) g.

End registry.

(** ** Pools up to the order of the waiting tasks *)

#[export] Instance Pool_equivalence : Equivalence (≡@{Pool}).
Proof.
  split.
  - by intros p.
  - intros p q (? & ? & ?). by split_and!.
  - intros p q r (? & ? & ?) (? & ? & ?). split_and!; by etrans.
Qed.

#[export] Instance pending_proper : Proper ((≡) ==> (≡ₚ)) pending.
Proof. by intros p q (? & _). Qed.

#[export] Instance registry_proper : Proper ((≡) ==> (=)) registry.
Proof. by intros p q (_ & ? & _). Qed.

#[export] Instance log_proper : Proper ((≡) ==> (=)) log.
Proof. by intros p q (_ & _ & ?). Qed.

(** ** Steps *)

Section steps.
Context `{Platform} (uid : Z) (A : World → Prop).

Lemma step_inv p q :
  step uid A p q →
  ∃ c l1 l2, pending p = l1 ++ call_message c :: l2 ∧ A (call_world c) ∧
    q = grant uid c (l1 ++ l2) p.
Proof. destruct 1; eauto 10. Qed.

(** A step takes one message from the pool. *)
Lemma step_length p q :
  step uid A p q → length (pending p) = S (length (pending q)).
Proof.
  intros (c & l1 & l2 & -> & _ & ->)%step_inv. simpl.
  rewrite !length_app. simpl. lia.
Qed.

(** What waits after a step waited before. *)
Lemma step_pending p q m : step uid A p q → m ∈ pending q → m ∈ pending p.
Proof.
  intros (c & l1 & l2 & -> & _ & ->)%step_inv. simpl. set_solver.
Qed.

Lemma steps_pending p q m :
  rtc (step uid A) p q → m ∈ pending q → m ∈ pending p.
Proof. induction 1; eauto using step_pending. Qed.

Lemma step_first W m l handlers t :
  A W →
  step uid A (MkPool (m :: l) handlers t) (grant uid (MkCall W m) l (MkPool (m :: l) handlers t)).
Proof. intros. by apply (step_grant uid A _ (MkCall W m) [] l). Qed.

(** The order of the waiting tasks is immaterial: pools that differ in
    it only take the same steps, to pools that differ in it only. *)
Lemma step_equiv p p' q :
  p ≡ p' → step uid A p q → ∃ q', step uid A p' q' ∧ q ≡ q'.
Proof.
  intros (Hp & Hr & Hl) (c & l1 & l2 & Hq & Hc & ->)%step_inv.
  assert (call_message c ∈ pending p') as (l1' & l2' & Hq')%list_elem_of_split.
  { rewrite <-Hp, Hq. set_solver. }
  exists (grant uid c (l1' ++ l2') p').
  split; [by apply step_grant|]. unfold grant. rewrite Hr, Hl.
  split; [simpl|done]. apply (Permutation_cons_inv (a:=call_message c)).
  by rewrite !Permutation_middle, <-Hq, <-Hq'.
Qed.

#[export] Instance red_step_proper : Proper ((≡) ==> iff) (red (step uid A)).
Proof.
  intros p p' Hp. split; intros [q Hq].
  - destruct (step_equiv p p' q) as (q' & ? & _); [done..|]. by exists q'.
  - destruct (step_equiv p' p q) as (q' & ? & _); [done..|]. by exists q'.
Qed.

(** Progress: while a task waits the lock can be granted. *)
Lemma step_red p : (∃ W, A W) → pending p ≠ [] → red (step uid A) p.
Proof.
  intros [W HW] Hp. destruct p as [[|m l] handlers t]; [done|].
  eexists. by apply step_first.
Qed.

Lemma nf_pending p : (∃ W, A W) → nf (step uid A) p ↔ pending p = [].
Proof.
  intros HA. split.
  - intros Hnf. destruct (decide (pending p = [])) as [|Hp]; [done|].
    by destruct Hnf; apply step_red.
  - intros Hp [q Hq%step_length]. rewrite Hp in Hq. simpl in Hq. lia.
Qed.

(** No schedule is infinite. *)
Lemma step_sn p : sn (step uid A) p.
Proof.
  apply (wf_projected lt (λ p, length (pending p)));
    [|apply lt_wf].
  intros q p' Hq%step_length. lia.
Qed.

Lemma nsteps_length n p q :
  nsteps (step uid A) n p q →
  length (pending p) = (n + length (pending q))%nat.
Proof.
  induction 1 as [|n p p' q Hp%step_length _ IH]; [done|]. lia.
Qed.

End steps.

(** ** Schedules *)

Section schedules.
Context `{Platform} (uid : Z) (A : World → Prop).

(** The calls of a list are a schedule: the lock goes to the first
    message each time. *)
Lemma handle_calls_nsteps calls rest handlers t :
  Forall (λ c, A (call_world c)) calls →
  nsteps (step uid A) (length calls)
    (MkPool ((call_message <$> calls) ++ rest) handlers t)
    (MkPool rest (handle_calls uid handlers calls).1
       (t ++ (handle_calls uid handlers calls).2)).
Proof.
  intros HA. revert handlers t.
  induction HA as [|[W m] calls Hc _ IH]; intros handlers t; simpl.
  { rewrite app_nil_r. constructor. }
  eapply nsteps_l; [by apply step_first|].
  unfold grant. simpl. rewrite app_assoc. apply IH.
Qed.

Lemma run_calls_steps calls p :
  Forall (λ c, A (call_world c)) calls →
  call_message <$> calls = take (length calls) (pending p) →
  rtc (step uid A) p (run_calls uid calls p).
Proof.
  intros HA Hp. apply (rtc_nsteps_2 (length calls)).
  destruct p as [ms handlers t]. unfold run_calls. simpl in *.
  rewrite <-(take_drop (length calls) ms) at 1. rewrite <-Hp.
  by apply handle_calls_nsteps.
Qed.

(** [handle_all] is the schedule in the order of arrival, under a world
    that answers every call alike. *)
Lemma handle_all_calls `{W : World} handlers messages :
  handle_all handlers uid messages =
    handle_calls uid handlers (MkCall W <$> messages).
Proof.
  revert handlers. induction messages as [|m l IH]; intros handlers; [done|].
  simpl. by rewrite IH.
Qed.

(** The log only grows. *)
Lemma steps_log p q : rtc (step uid A) p q → ∃ t, log q = log p ++ t.
Proof.
  induction 1 as [p|p p' q Hp _ [t Ht]]; [exists []; by rewrite app_nil_r|].
  apply step_inv in Hp as (c & l1 & l2 & _ & _ & ->).
  eexists. rewrite Ht. simpl. by rewrite <-app_assoc.
Qed.

(** ** Guilds do not interfere *)

(** What the calls make of the state of a guild depends on nothing in
    the registry but that state. *)
Lemma handle_calls_state_local handlers handlers' calls g :
  state_of handlers g = state_of handlers' g →
  state_of (handle_calls uid handlers calls).1 g =
    state_of (handle_calls uid handlers' calls).1 g.
Proof.
  revert handlers handlers'.
  induction calls as [|c calls IH]; intros handlers handlers' Hs; [done|].
  simpl. apply IH. unfold handle_call.
  rewrite !handle_commands_state. unfold writes_to. by rewrite Hs.
Qed.

(** C31: guilds do not interfere.  The state of a guild after any
    sequence of calls is its state after the calls for that guild alone,
    in their order: what the messages of other guilds are, when they are
    handled, and what the chat service answers them makes no difference
    to it. *)
Theorem guilds_independent handlers calls g :
  state_of (handle_calls uid handlers calls).1 g =
    state_of (handle_calls uid handlers
                (filter (λ c, guild_id (call_message c) = Some g) calls)).1 g.
Proof.
  revert handlers. induction calls as [|c calls IH]; intros handlers; [done|].
  rewrite filter_cons. case_decide as Hg; simpl; [apply IH|].
  rewrite <-IH. apply handle_calls_state_local. unfold handle_call.
  rewrite handle_commands_state. unfold writes_to. by rewrite decide_False.
Qed.

(** A schedule of [n] steps makes at most [3 n] deliveries and saves. *)
Lemma nsteps_log_length n p q :
  nsteps (step uid A) n p q → (length (log q) ≤ length (log p) + 3 * n)%nat.
Proof.
  induction 1 as [|n p p' q Hp _ IH]; [lia|].
  apply step_inv in Hp as (c & l1 & l2 & _ & _ & ->). simpl in IH.
  rewrite length_app in IH.
  pose proof (@at_most_handle_commands _ (call_world c) (registry p) uid
                (call_message c)).
  unfold handle_call in IH. lia.
Qed.

(** ** Invariants *)

(** The state of a guild after a step: the writes of the call. *)
Lemma step_state p q g :
  step uid A p q →
  ∃ c, call_message c ∈ pending p ∧ A (call_world c) ∧
    state_of (registry q) g =
      write_all (call_writes uid (registry p) c g) (state_of (registry p) g).
Proof.
  intros (c & l1 & l2 & Hp & Hc & ->)%step_inv. exists c.
  split_and!; [rewrite Hp; set_solver|done|apply handle_commands_state].
Qed.

(** A property of the state of guild [g] that the writes of every
    waiting message of [g] keep is kept by a step... *)
Lemma step_keeps P g p q :
  step uid A p q →
  Forall (λ m, guild_id m = Some g → keeps P (may_write m)) (pending p) →
  P (state_of (registry p) g) → P (state_of (registry q) g).
Proof.
  intros (c & Hc & _ & ->)%(step_state _ _ g) Hk HP. unfold call_writes.
  destruct (@writes_to_may_write _ (call_world c) (registry p) uid
              (call_message c) g) as [->|[Hg ->]]; [done|].
  rewrite Forall_forall in Hk. by apply (Hk _ Hc Hg).
Qed.

(** ... and by every schedule. *)
Lemma steps_keeps P g p q :
  rtc (step uid A) p q →
  Forall (λ m, guild_id m = Some g → keeps P (may_write m)) (pending p) →
  P (state_of (registry p) g) → P (state_of (registry q) g).
Proof.
  induction 1 as [|p p' q Hp _ IH]; [done|]. intros Hk HP.
  apply IH; [|by eapply step_keeps].
  rewrite !Forall_forall in *. eauto using step_pending.
Qed.

(** What every write keeps is an invariant outright. *)
Lemma steps_kept P g p q :
  kept P → rtc (step uid A) p q →
  P (state_of (registry p) g) → P (state_of (registry q) g).
Proof.
  intros HP Hs. apply steps_keeps; [done|]. apply Forall_forall.
  intros m _ _. apply kept_keeps; [done|].
  rewrite may_write_command_of. apply writes_of_wf.
Qed.

(** The numbers of the registry stay within 64 bits. *)
Lemma steps_wf p q :
  rtc (step uid A) p q → wf_handlers (registry p) → wf_handlers (registry q).
Proof.
  induction 1 as [|p p' q Hp _ IH]; [done|]. intros Hwf. apply IH.
  apply step_inv in Hp as (c & l1 & l2 & _ & _ & ->). by apply handle_commands_wf.
Qed.

(** What is sent and saved is well formed. *)
Lemma steps_log_wf p q :
  rtc (step uid A) p q →
  Forall wf_message (pending p) → wf_handlers (registry p) →
  Forall wf_event (log p) → Forall wf_event (log q).
Proof.
  induction 1 as [|p p' q Hp _ IH]; [done|]. intros Hm Hwf Hl.
  assert (Forall wf_message (pending p')) as Hm'.
  { rewrite !Forall_forall in *. eauto using step_pending. }
  apply step_inv in Hp as (c & l1 & l2 & Hpp & _ & ->).
  apply IH; [done|by apply handle_commands_wf|]. simpl.
  apply Forall_app. split; [done|].
  apply wf_event_handle_commands; [done|].
  rewrite Forall_forall in Hm. apply Hm. rewrite Hpp. set_solver.
Qed.

(** Commands never touch the tables nor the trigger word. *)
Lemma steps_frame p q g :
  rtc (step uid A) p q →
  taters_got (state_of (registry q) g) = taters_got (state_of (registry p) g) ∧
  taters_given (state_of (registry q) g) = taters_given (state_of (registry p) g) ∧
  trigger_word (config (state_of (registry q) g)) =
    trigger_word (config (state_of (registry p) g)).
Proof. intros Hs. by apply (steps_kept _ g p q (kept_frame _ _ _) Hs). Qed.

(** A channel stays blacklisted while nobody asks to unblacklist it. *)
Lemma blacklisted_until_unblacklist c g p q :
  rtc (step uid A) p q →
  Forall (λ m, guild_id m = Some g → WUnblacklist c ∉ may_write m) (pending p) →
  blacklisted c (state_of (registry p) g) →
  blacklisted c (state_of (registry q) g).
Proof.
  intros Hs Hp. apply steps_keeps; [done|].
  eapply Forall_impl; [exact Hp|]. auto using keeps_blacklisted.
Qed.

(** An admin stays one while nobody asks to [unadmin] them. *)
Lemma listed_until_unadmin u g p q :
  rtc (step uid A) p q →
  Forall (λ m, guild_id m = Some g → WUnadmin u ∉ may_write m) (pending p) →
  listed u (state_of (registry p) g) → listed u (state_of (registry q) g).
Proof.
  intros Hs Hp. apply steps_keeps; [done|].
  eapply Forall_impl; [exact Hp|]. auto using keeps_listed.
Qed.

(** C15: the pin channel stays blacklisted.  If the pin channel of a
    guild is in its blacklist, as it is after [set_pin_channel], then it
    is after every schedule of the waiting messages, in whatever order
    the lock is granted, whoever wrote them (they may set other pin
    channels) and whatever the chat service answers, provided none of
    the messages of the guild names the command [unblacklist]. *)
Theorem pin_channel_stays_blacklisted g p q :
  rtc (step uid A) p q →
  Forall (λ m, guild_id m = Some g → command_of m ≠ Unblacklist) (pending p) →
  pin_blacklisted (state_of (registry p) g) →
  pin_blacklisted (state_of (registry q) g).
Proof.
  intros Hs Hp. apply steps_keeps; [done|].
  eapply Forall_impl; [exact Hp|]. intros m Hm Hg.
  rewrite may_write_command_of. auto using keeps_pin_blacklisted.
Qed.

(** C23: well-formedness.  When the ids of the waiting messages and
    every number stored in the registry fit 64 bits, then after every
    schedule so does every number stored in the registry, every message
    was sent to a channel whose id fits 64 bits, and every save wrote a
    registry all of whose numbers fit 64 bits: the integers of the model
    never leave the range of the [u64]s of the source. *)
Theorem schedule_well_formed p q :
  rtc (step uid A) p q →
  Forall wf_message (pending p) → wf_handlers (registry p) →
  Forall wf_event (log p) →
  wf_handlers (registry q) ∧ Forall wf_event (log q).
Proof. eauto using steps_wf, steps_log_wf. Qed.

(** The schedules terminate. However the lock is granted, no
    schedule goes on for ever, and a schedule of [n] steps has handled
    exactly [n] of the waiting messages: each task takes the lock once,
    runs to its end and gives the lock back, also when it returns an
    error or panics.  Each call makes at most three deliveries and
    saves, so a schedule of [n] steps makes at most [3 n]. *)
Theorem schedule_terminates p :
  sn (step uid A) p ∧
  ∀ n q, nsteps (step uid A) n p q →
    length (pending p) = (n + length (pending q))%nat ∧
    (length (log q) ≤ length (log p) + 3 * n)%nat.
Proof.
  split; [apply step_sn|]. intros n q Hs.
  split; [by eapply nsteps_length|by eapply nsteps_log_length].
Qed.

End schedules.

(** ** Liveness *)

Section liveness.
Context `{Platform} (uid : Z).

(** The step that handles a command answers it; any other step leaves
    it waiting. *)
Lemma step_answers p q m g :
  step uid (@responsive) p q → m ∈ pending p → guild_id m = Some g →
  is_command (trigger_word (config (state_of (registry p) g))) uid m →
  (∃ t, log q = log p ++ t ∧ answered m t) ∨ m ∈ pending q.
Proof.
  intros (c & l1 & l2 & Hp & Hc & ->)%step_inv Hm Hg Hcmd. simpl.
  rewrite Hp in Hm. apply elem_of_app in Hm as [Hm|[->|Hm]%elem_of_cons];
    [right; set_solver| |right; set_solver].
  left. eexists. split; [done|].
  by apply (@handle_commands_answers _ (call_world c) _ _ _ g).
Qed.

(** Every command that waits is answered by the time the pool is
    empty. *)
Lemma steps_answer p q m g :
  rtc (step uid (@responsive)) p q → pending q = [] →
  m ∈ pending p → guild_id m = Some g →
  is_command (trigger_word (config (state_of (registry p) g))) uid m →
  ∃ t, log q = log p ++ t ∧ answered m t.
Proof.
  induction 1 as [p|p p' q Hp Hs IH]; intros Hq Hm Hg Hcmd.
  { rewrite Hq in Hm. by apply elem_of_nil in Hm. }
  destruct (step_answers p p' m g) as [(t & Ht & Ha)|Hm']; [done..| |].
  - destruct (steps_log _ _ _ _ Hs) as [t' Ht']. exists (t ++ t').
    rewrite Ht', Ht, <-app_assoc. auto using answered_app_l.
  - destruct IH as (t' & Ht' & Ha); [done..| |].
    { by destruct (steps_frame uid _ p p' g (rtc_once _ _ Hp)) as (_ & _ & ->). }
    destruct (steps_log _ _ p p' (rtc_once _ _ Hp)) as [t Ht]. exists (t ++ t').
    rewrite Ht', Ht, <-app_assoc. auto using answered_app_r.
Qed.

(** C13: every command is answered.  When the chat service is
    responsive (it delivers messages, has the guild in its cache and
    tells the roles of the author; saves and user lookups may fail) and
    the lock has been granted until no task can take it any more, every
    message that was waiting and is a command (not the handler's own,
    starting with the trigger word of its guild, of two words or more,
    its page number below 1844674407370955162 if it asks for a
    leaderboard) has been answered on its channel, in whatever order the
    tasks ran and whatever the other messages changed. *)
Theorem every_command_answered p q m g :
  rtc (step uid (@responsive)) p q → nf (step uid (@responsive)) q →
  m ∈ pending p → guild_id m = Some g →
  is_command (trigger_word (config (state_of (registry p) g))) uid m →
  ∃ t, log q = log p ++ t ∧ answered m t.
Proof.
  intros Hs Hq%nf_pending; [by apply steps_answer|].
  exists ideal_world. apply ideal_world_responsive.
Qed.

End liveness.
