(* ===== verification/Tasks.v ===== *)
(** * Tasks: the body of the handler as a tree of its awaits

    [handle_commands] is an [async fn]: between two [.await]s it runs
    without interruption, and at an [.await] it is suspended until the
    chat service or the disk answers.  The task the chat library
    started for the message can be dropped while it is suspended; the
    guard of the lock is then dropped with it, and the registry keeps
    what the task had written so far.

    [Effects.M] runs a body to its end in one piece.  Here the same
    bodies are trees whose nodes are what the code does one after the
    other:

    - [Request] names the awaits of [commands.rs] and [Answer] the type
      of what each resumes with;
    - [Task A] is the finite free monad over the reads and writes of
      [this], the requests, [?] on an error and a panic; [task_try] is
      [try { ... }];
    - [complete] runs a task to its end under a [World], which answers
      every request: the run of [Effects.M];
    - [cancel n] runs it until it is suspended for the [n]-th time after
      the first and drops it there: the state it leaves, what was
      delivered and saved before, and the request it waited for;
    - [runs] is the same one node at a time, and [advance n] the task
      after [n] nodes;
    - [reads_only], [immediate], [settles] and [atomic] are read off the
      tree, for all answers: the task never writes; it never waits; its
      writes come before its first await; all its writes lie between two
      consecutive awaits;
    - [suspends n] is read off the tree and the state: the task waits at
      most [n] times, whatever it is answered.

    The theorems: [complete] is a morphism of monads into [Effects.M]
    ([interp_bind], [interp_try]), so that the bodies of [Async] run
    like those of [Commands]; a task that is dropped has delivered a
    prefix of what it delivers when it completes ([cancel_prefix]); it
    is dropped at its [n]-th await exactly when it has more than [n]
    ([cancel_awaits]); and a dropped [atomic] task leaves the state it
    started from or the state it ends with, never one in between
    ([atomic_cancel]). *)

From stdpp Require Import gmap.
From S2P Require Import Prelude Text Guild Effects.

#[local] Open Scope Z_scope.

(** ** Requests *)

(** The awaits of the body: [message.guild(&ctx.cache).await],
    [guild.member(&ctx.http, id).await], [.roles(&ctx.cache).await],
    [ctx.http.get_user(id).await], and the await of a delivery or a
    save. *)
Inductive Request :=
| ReqGuild (guild : Z)
| ReqMember (guild user : Z)
| ReqRoles (guild user : Z)
| ReqUser (id : Z)
| ReqDeliver (e : Event).

#[export] Instance Request_eq_dec : EqDecision Request.
Proof. solve_decision. Defined.

(** What the task resumes with. *)
Definition Answer (r : Request) : Type :=
  match r with
  | ReqGuild _ => bool
  | ReqMember _ _ => result text ()
  | ReqRoles _ _ => option (list Role)
  | ReqUser _ => result text User
  | ReqDeliver _ => result text ()
  end.

(** ** Tasks *)

Inductive Task (A : Type) : Type :=
| TRet (a : A)
| TFail (e : text)
| TPanic
| TGet (k : Handler → Task A)
| TPut (c : Config) (k : Task A)
| TAwait (r : Request) (k : Answer r → Task A).
Arguments TRet {A} a.
Arguments TFail {A} e.
Arguments TPanic {A}.
Arguments TGet {A} k.
Arguments TPut {A} c k.
Arguments TAwait {A} r k.

Fixpoint task_bind {A B} (f : A → Task B) (t : Task A) : Task B :=
  match t with
  | TRet a => f a
  | TFail e => TFail e
  | TPanic => TPanic
  | TGet k => TGet (λ h, task_bind f (k h))
  | TPut c k => TPut c (task_bind f k)
  | TAwait r k => TAwait r (λ a, task_bind f (k a))
  end.

#[export] Instance Task_ret : MRet Task := @TRet.
#[export] Instance Task_bind : MBind Task := @task_bind.

(** [try { ... }]: an error of the block becomes its value. *)
Fixpoint task_try {A} (t : Task A) : Task (result text A) :=
  match t with
  | TRet a => TRet (Ok a)
  | TFail e => TRet (Err e)
  | TPanic => TPanic
  | TGet k => TGet (λ h, task_try (k h))
  | TPut c k => TPut c (task_try k)
  | TAwait r k => TAwait r (λ a, task_try (k a))
  end.

(** Read [this]. *)
Definition task_get : Task Handler := TGet TRet.

(** Write [this.config]. *)
Definition task_put (c : Config) : Task () := TPut c (TRet ()).

(** The [?] operator on a [Result<_, String>]. *)
Definition task_lift {A} (r : result text A) : Task A :=
  match r with Ok a => TRet a | Err e => TFail e end.

(** [request.await] *)
Definition await (r : Request) : Task (Answer r) := TAwait r TRet.

(** One delivery or save, [.await]ed and followed by [?]. *)
Definition task_perform (e : Event) : Task () := TAwait (ReqDeliver e) task_lift.

(** [channel_id.say(&ctx.http, msg).await?] *)
Definition task_say (channel : Z) (msg : text) : Task () :=
  task_perform (EvSay channel msg).

(** [ctx.http.get_user(id).await.map_err(|e| e.to_string())?] *)
Definition task_get_user (id : Z) : Task User := TAwait (ReqUser id) task_lift.

(** Arithmetic on [usize], as [Effects.usize_op]: the build decides
    whether a result out of range panics or wraps. *)
Definition task_usize_op `{World} (x : Z) : Task Z :=
  if decide (in_u64 x) then mret x
  else if overflow_checks then TPanic else mret (wrap_u64 x).

(** ** What the tree tells, for all answers *)

(** The task never writes [this]. *)
Fixpoint reads_only {A} (t : Task A) : Prop :=
  match t with
  | TGet k => ∀ h, reads_only (k h)
  | TPut _ _ => False
  | TAwait r k => ∀ a, reads_only (k a)
  | _ => True
  end.

(** The task is never suspended. *)
Fixpoint immediate {A} (t : Task A) : Prop :=
  match t with
  | TGet k => ∀ h, immediate (k h)
  | TPut _ k => immediate k
  | TAwait _ _ => False
  | _ => True
  end.

(** The task writes before its first await only. *)
Fixpoint settles {A} (t : Task A) : Prop :=
  match t with
  | TGet k => ∀ h, settles (k h)
  | TPut _ k => settles k
  | TAwait r k => ∀ a, reads_only (k a)
  | _ => True
  end.

(** No await separates two writes of the task. *)
Fixpoint atomic {A} (t : Task A) : Prop :=
  match t with
  | TGet k => ∀ h, atomic (k h)
  | TPut _ k => settles k
  | TAwait r k => ∀ a, atomic (k a)
  | _ => True
  end.

(** From the state [h] the task is suspended at most [n] times before it
    ends, whatever it is answered. *)
Fixpoint suspends {A} (n : nat) (t : Task A) (h : Handler) : Prop :=
  match t with
  | TGet k => suspends n (k h) h
  | TPut c k => suspends n k (set_config c h)
  | TAwait r k =>
      match n with O => False | S n => ∀ a, suspends n (k a) h end
  | _ => True
  end.

(** ** Running a task *)

(** A task that was dropped while suspended: the state it leaves, what
    it had delivered and saved, and the request it waited for. *)
Record Suspended := MkSuspended {
  at_state : Handler;
  seen : list Event;
  waiting : Request;
}.

(** A suspension that comes after the events [t]. *)
Definition resumed (t : list Event) (s : Suspended) : Suspended :=
  MkSuspended (at_state s) (t ++ seen s) (waiting s).

Section semantics.
Context `{World}.

(** The world's answer to a request.  The member and their roles are
    one answer of the world: the roles are asked for only when the
    member was found. *)
Definition answer (r : Request) : Answer r :=
  match r with
  | ReqGuild g => guild_in_cache g
  | ReqMember g u =>
      match fetch_member_roles g u with Ok _ => Ok () | Err e => Err e end
  | ReqRoles g u =>
      match fetch_member_roles g u with Ok roles => roles | Err _ => None end
  | ReqUser id => get_user id
  | ReqDeliver e => deliver e
  end.

(** What an answered request adds to the trace: the delivery or the
    save, when it succeeded. *)
Definition recorded (r : Request) : Answer r → list Event :=
  match r with
  | ReqDeliver e => λ a, match a with Ok _ => [e] | Err _ => [] end
  | _ => λ _, []
  end.

(** The task runs to its end. *)
Fixpoint complete {A} (t : Task A) (h : Handler) : Run A :=
  match t with
  | TRet a => MkRun h [] (Done a)
  | TFail e => MkRun h [] (Fail e)
  | TPanic => MkRun h [] Panic
  | TGet k => complete (k h) h
  | TPut c k => complete k (set_config c h)
  | TAwait r k => after (recorded r (answer r)) (complete (k (answer r)) h)
  end.

Definition interp {A} (t : Task A) : M A := MkM (complete t).

(** The number of times the task is suspended before it ends. *)
Fixpoint awaits {A} (t : Task A) (h : Handler) : nat :=
  match t with
  | TGet k => awaits (k h) h
  | TPut c k => awaits k (set_config c h)
  | TAwait r k => S (awaits (k (answer r)) h)
  | _ => 0
  end.

(** The number of its reads, writes and awaits before the task ends. *)
Fixpoint turns {A} (t : Task A) (h : Handler) : nat :=
  match t with
  | TGet k => S (turns (k h) h)
  | TPut c k => S (turns k (set_config c h))
  | TAwait r k => S (turns (k (answer r)) h)
  | _ => 0
  end.

(** The task is dropped at its [n]-th await after the first; [None]
    when it ends before. *)
Fixpoint cancel {A} (n : nat) (t : Task A) (h : Handler) {struct t}
    : option Suspended :=
  match t with
  | TGet k => cancel n (k h) h
  | TPut c k => cancel n k (set_config c h)
  | TAwait r k =>
      match n with
      | O => Some (MkSuspended h [] r)
      | S n => resumed (recorded r (answer r)) <$> cancel n (k (answer r)) h
      end
  | _ => None
  end.

(** Everything a dropped task had delivered and saved has a property. *)
Definition sends {A} (P : Event → Prop) (t : Task A) : Prop :=
  ∀ n h s, cancel n t h = Some s → Forall P (seen s).

(** One node at a time: the task [t0], started in state [h0], has come
    to [t] in state [h] and has delivered and saved [ev]. *)
Inductive runs {A} (t0 : Task A) (h0 : Handler)
    : Task A → Handler → list Event → Prop :=
| runs_start : runs t0 h0 t0 h0 []
| runs_get k h ev :
    runs t0 h0 (TGet k) h ev → runs t0 h0 (k h) h ev
| runs_put c k h ev :
    runs t0 h0 (TPut c k) h ev → runs t0 h0 k (set_config c h) ev
| runs_await r k h ev :
    runs t0 h0 (TAwait r k) h ev →
    runs t0 h0 (k (answer r)) h (ev ++ recorded r (answer r)).

(** The task has returned, with a value, an error or a panic. *)
Definition finished {A} (t : Task A) : Prop :=
  match t with TRet _ | TFail _ | TPanic => True | _ => False end.

(** The task after [n] of its reads, writes and awaits, with the state
    and with what it has delivered and saved by then. *)
Fixpoint advance {A} (n : nat) (t : Task A) (h : Handler)
    : Task A * Handler * list Event :=
  match n, t with
  | S n, TGet k => advance n (k h) h
  | S n, TPut c k => advance n k (set_config c h)
  | S n, TAwait r k =>
      let '(t', h', ev) := advance n (k (answer r)) h in
      (t', h', recorded r (answer r) ++ ev)
  | _, _ => (t, h, [])
  end.

(** ** [complete] is a morphism of monads *)

Lemma complete_bind {A B} (t : Task A) (f : A → Task B) h :
  complete (t ≫= f) h = bind_run (complete t h) (λ a, complete (f a)).
Proof.
  revert h. induction t as [a|e| |k IH|c k IH|r k IH]; intros h; simpl.
  - by rewrite bind_run_Done, after_nil.
  - done.
  - done.
  - apply IH.
  - apply IH.
  - by rewrite bind_run_after, <-IH.
Qed.

Lemma complete_try {A} (t : Task A) h :
  complete (task_try t) h = try_run (complete t h).
Proof.
  revert h. induction t as [a|e| |k IH|c k IH|r k IH]; intros h; simpl; auto.
  by rewrite try_run_after, <-IH.
Qed.

Lemma interp_bind {A B} (t : Task A) (f : A → Task B) :
  interp (t ≫= f) ≡ interp t ≫= (λ a, interp (f a)).
Proof. intros h. apply complete_bind. Qed.

Lemma interp_try {A} (t : Task A) : interp (task_try t) ≡ try_block (interp t).
Proof. intros h. apply complete_try. Qed.

Lemma interp_ret {A} (a : A) : interp (mret a) ≡ mret a.
Proof. done. Qed.

Lemma interp_get : interp task_get ≡ get_this.
Proof. done. Qed.

Lemma interp_put c : interp (task_put c) ≡ put_config c.
Proof. done. Qed.

Lemma interp_panic {A} : interp (@TPanic A) ≡ panic.
Proof. done. Qed.

Lemma interp_lift {A} (r : result text A) : interp (task_lift r) ≡ lift_result r.
Proof. intros h. by destruct r. Qed.

Lemma interp_perform e : interp (task_perform e) ≡ perform e.
Proof. intros h. simpl. by destruct (deliver e) as [[]|]. Qed.

Lemma interp_say c msg : interp (task_say c msg) ≡ say c msg.
Proof. apply interp_perform. Qed.

Lemma interp_get_user id : interp (task_get_user id) ≡ lift_result (get_user id).
Proof. intros h. simpl. by destruct (get_user id). Qed.

Lemma interp_usize_op x : interp (task_usize_op x) ≡ usize_op x.
Proof.
  unfold task_usize_op, usize_op. case_decide; [done|].
  by destruct overflow_checks.
Qed.

#[export] Instance try_block_proper {A} :
  Proper ((≡) ==> (≡@{M (result text A)})) try_block.
Proof. intros m1 m2 Hm h. by rewrite !run_try_block, (Hm h). Qed.

#[export] Instance emits_proper {A} P : Proper ((≡) ==> iff) (emits (A:=A) P).
Proof. intros m1 m2 Hm. unfold emits. by setoid_rewrite (Hm _). Qed.

Lemma interp_bind_ext {A B} (t : Task A) (f : A → Task B) m g :
  interp t ≡ m → (∀ a, interp (f a) ≡ g a) → interp (t ≫= f) ≡ m ≫= g.
Proof. intros Ht Hf. rewrite interp_bind, Ht. by setoid_rewrite Hf. Qed.

Lemma interp_try_ext {A} (t : Task A) m :
  interp t ≡ m → interp (task_try t) ≡ try_block m.
Proof. intros Ht. by rewrite interp_try, Ht. Qed.

(** An await that delivers nothing resumes with the world's answer. *)
Lemma interp_await {A} r (f : Answer r → Task A) :
  recorded r (answer r) = [] → interp (await r ≫= f) ≡ interp (f (answer r)).
Proof. intros Hr h. simpl. rewrite Hr. apply after_nil. Qed.

(** The member and then their roles: one answer of the world. *)
Lemma interp_member {A} guild user (f : option (list Role) → Task A) g :
  (∀ roles, interp (f roles) ≡ g roles) →
  interp (await (ReqMember guild user) ≫= task_lift;;
          await (ReqRoles guild user) ≫= f)
  ≡ lift_result (fetch_member_roles guild user) ≫= g.
Proof.
  intros Hf h. simpl. unfold answer.
  destruct (fetch_member_roles guild user) eqn:Hr; simpl; [|done].
  by rewrite Hr, bind_run_Done, <-(Hf _ _).
Qed.

(** ** Dropped tasks *)

Lemma resumed_nil s : resumed [] s = s.
Proof. by destruct s. Qed.

(** A task is dropped at its [n]-th await exactly when it has one. *)
Lemma cancel_awaits {A} n (t : Task A) h :
  is_Some (cancel n t h) ↔ (n < awaits t h)%nat.
Proof.
  revert n h. induction t as [a|e| |k IH|c k IH|r k IH]; intros n h; simpl;
    try (rewrite <-not_eq_None_Some; split; [done|lia]); [apply IH..|].
  destruct n as [|n]; [split; [lia|eauto]|].
  rewrite fmap_is_Some, IH. lia.
Qed.

(** With as many awaits as the task has, or more, it is not dropped. *)
Lemma cancel_None {A} n (t : Task A) h :
  cancel n t h = None ↔ (awaits t h ≤ n)%nat.
Proof. rewrite eq_None_not_Some, cancel_awaits. lia. Qed.

(** What a dropped task had delivered and saved is the beginning of
    what it delivers and saves when it completes. *)
Lemma cancel_prefix {A} n (t : Task A) h s :
  cancel n t h = Some s → seen s `prefix_of` trace (complete t h).
Proof.
  revert n h s. induction t as [a|e| |k IH|c k IH|r k IH]; intros n h s;
    simpl; try done; [apply IH..|].
  destruct n as [|n]; [intros [= <-]; apply prefix_nil|].
  intros (s' & Hs & ->)%fmap_Some. simpl. by eapply prefix_app, IH.
Qed.

Lemma resumed_resumed t1 t2 s : resumed t1 (resumed t2 s) = resumed (t1 ++ t2) s.
Proof. unfold resumed. simpl. by rewrite app_assoc. Qed.

(** A task that is never suspended is never dropped. *)
Lemma immediate_cancel {A} n (t : Task A) h : immediate t → cancel n t h = None.
Proof. revert h. induction t; simpl; intros h Ht; auto; done. Qed.

(** A sequence is dropped in its first part, or in its second after the
    first has run to its end. *)
Lemma cancel_bind {A B} n (t : Task A) (f : A → Task B) h :
  cancel n (t ≫= f) h =
    match cancel n t h with
    | Some s => Some s
    | None =>
        match outcome (complete t h) with
        | Done a =>
            resumed (trace (complete t h)) <$>
              cancel (n - awaits t h) (f a) (final (complete t h))
        | _ => None
        end
    end.
Proof.
  revert n h. induction t as [a|e| |k IH|c k IH|r k IH]; intros n h; simpl;
    try done; [|apply IH..|].
  { rewrite Nat.sub_0_r. destruct (cancel n (f a) h) as [s|]; [|done].
    simpl. by rewrite resumed_nil. }
  destruct n as [|n]; [done|]. change (task_bind f (k ?a)) with (k a ≫= f).
  rewrite IH. destruct (cancel n (k _) h) as [s|]; [done|]. simpl.
  destruct (outcome (complete (k _) h)); [|done..].
  rewrite <-option_fmap_compose. apply option_fmap_ext. intros s.
  apply resumed_resumed.
Qed.

(** ** One node at a time *)

(** A task that has come some way completes as what is left of it. *)
Lemma runs_complete {A} (t0 t : Task A) h0 h ev :
  runs t0 h0 t h ev → complete t0 h0 = after ev (complete t h).
Proof.
  induction 1 as [|k h ev _ IH|c k h ev _ IH|r k h ev _ IH]; simpl in *;
    rewrite ?IH, ?after_after; by rewrite ?after_nil.
Qed.

(** A task that has come to its end has run like [complete]. *)
Lemma runs_finished {A} (t0 t : Task A) h0 h ev :
  runs t0 h0 t h ev → finished t →
  final (complete t0 h0) = h ∧ trace (complete t0 h0) = ev.
Proof.
  intros ->%runs_complete Ht. destruct t; try done; simpl;
    by rewrite app_nil_r.
Qed.

(** Where what is left of a task is dropped, the task is. *)
Lemma runs_cancel {A} (t0 t : Task A) h0 h ev :
  runs t0 h0 t h ev →
  ∃ m, ∀ n s, cancel n t h = Some s →
    cancel (m + n) t0 h0 = Some (resumed ev s).
Proof.
  induction 1 as [|k h ev _ [m IH]|c k h ev _ [m IH]|r k h ev _ [m IH]].
  - exists 0%nat. intros n s Hs. by rewrite resumed_nil.
  - exists m. intros n s Hs. by apply IH.
  - exists m. intros n s Hs. by apply IH.
  - exists (S m). intros n s Hs. rewrite <-resumed_resumed, Nat.add_succ_comm.
    apply IH. simpl. by rewrite Hs.
Qed.

(** A task that waits can be dropped there, with what it has written
    and delivered. *)
Lemma runs_dropped {A} (t0 : Task A) h0 r k h ev :
  runs t0 h0 (TAwait r k) h ev →
  ∃ n, cancel n t0 h0 = Some (MkSuspended h ev r).
Proof.
  intros [m Hm]%runs_cancel. exists (m + 0)%nat.
  rewrite (Hm 0%nat (MkSuspended h [] r)) by done.
  unfold resumed. simpl. by rewrite app_nil_r.
Qed.

(** [advance] goes on from where the task has come to. *)
Lemma runs_advance_from {A} n (t0 t : Task A) h0 h ev :
  runs t0 h0 t h ev →
  runs t0 h0 (advance n t h).1.1 (advance n t h).1.2 (ev ++ (advance n t h).2).
Proof.
  revert t h ev. induction n as [|n IH]; intros t h ev Ht.
  { destruct t; simpl; by rewrite app_nil_r. }
  destruct t as [a|e| |k|c k|r k]; simpl; rewrite ?app_nil_r; try done.
  - by apply IH, runs_get.
  - by apply IH, runs_put.
  - apply runs_await, (IH _ _ _) in Ht.
    destruct (advance n _ h) as [[t' h'] ev']. simpl in *. by rewrite app_assoc.
Qed.

Lemma runs_advance {A} n (t : Task A) h :
  runs t h (advance n t h).1.1 (advance n t h).1.2 (advance n t h).2.
Proof. apply (runs_advance_from n t t h h []), runs_start. Qed.

(** What a dropped task had delivered, it delivers when it completes. *)
Lemma sends_emits {A} P (t : Task A) : emits P (interp t) → sends P t.
Proof.
  intros Ht n h s Hs%cancel_prefix. destruct Hs as [l Hl].
  specialize (Ht h). simpl in Ht. rewrite Hl in Ht.
  by apply Forall_app in Ht as [? _].
Qed.

Lemma sends_immediate {A} P (t : Task A) : immediate t → sends P t.
Proof. intros Ht n h s. by rewrite immediate_cancel. Qed.

(** A task with one await had delivered nothing when it was dropped:
    the request it waited for is not among what it delivered. *)
Lemma sends_await {A} P r (k : Answer r → Task A) :
  (∀ a, immediate (k a)) → sends P (TAwait r k).
Proof.
  intros Hk [|n] h s; simpl; [intros [= <-]; constructor|].
  by rewrite immediate_cancel.
Qed.

Lemma sends_bind {A B} P (t : Task A) (f : A → Task B) :
  emits P (interp t) → (∀ a, sends P (f a)) → sends P (t ≫= f).
Proof.
  intros Ht Hf n h s. rewrite cancel_bind.
  destruct (cancel n t h) as [s'|] eqn:Hs; [intros [= <-]; by eapply sends_emits|].
  destruct (outcome (complete t h)); [|done..].
  intros (s' & Hs' & ->)%fmap_Some. simpl. apply Forall_app. split; [apply Ht|].
  by eapply Hf.
Qed.

(** A task that never writes leaves the state alone, dropped or not. *)
Lemma reads_only_complete {A} (t : Task A) h :
  reads_only t → final (complete t h) = h.
Proof. induction t; simpl; intros Ht; auto; done. Qed.

Lemma reads_only_cancel {A} n (t : Task A) h s :
  reads_only t → cancel n t h = Some s → at_state s = h.
Proof.
  revert n s. induction t as [a|e| |k IH|c k IH|r k IH]; intros n s Ht;
    simpl; try done; [by apply IH|].
  destruct n as [|n]; [by intros [= <-]|].
  intros (s' & Hs & ->)%fmap_Some. simpl. eauto.
Qed.

(** A task that has written all it writes when it first waits leaves,
    when dropped, the state it ends with. *)
Lemma settles_cancel {A} n (t : Task A) h s :
  settles t → cancel n t h = Some s → at_state s = final (complete t h).
Proof.
  revert n h s. induction t as [a|e| |k IH|c k IH|r k IH]; intros n h s Ht;
    simpl; try done; [by apply IH..|].
  rewrite reads_only_complete by done.
  destruct n as [|n]; [by intros [= <-]|].
  intros (s' & Hs & ->)%fmap_Some. simpl. by eapply reads_only_cancel.
Qed.

(** A dropped atomic task leaves the state it started from or the state
    it ends with. *)
Lemma atomic_cancel {A} n (t : Task A) h s :
  atomic t → cancel n t h = Some s →
  at_state s = h ∨ at_state s = final (complete t h).
Proof.
  revert n s. induction t as [a|e| |k IH|c k IH|r k IH]; intros n s Ht;
    simpl; try done; [by apply IH|right; by eapply settles_cancel|].
  destruct n as [|n]; [intros [= <-]; by left|].
  intros (s' & Hs & ->)%fmap_Some. simpl. eauto.
Qed.

(** ** How the properties of the tree compose *)

Lemma reads_only_settles {A} (t : Task A) : reads_only t → settles t.
Proof. induction t; simpl; auto; done. Qed.

Lemma immediate_settles {A} (t : Task A) : immediate t → settles t.
Proof. induction t; simpl; auto; done. Qed.

Lemma settles_atomic {A} (t : Task A) : settles t → atomic t.
Proof. induction t; simpl; auto using reads_only_settles. Qed.

Lemma reads_only_atomic {A} (t : Task A) : reads_only t → atomic t.
Proof. auto using settles_atomic, reads_only_settles. Qed.

Lemma reads_only_bind {A B} (t : Task A) (f : A → Task B) :
  reads_only t → (∀ a, reads_only (f a)) → reads_only (t ≫= f).
Proof. induction t; simpl; intros Ht Hf; auto; done. Qed.

Lemma immediate_bind {A B} (t : Task A) (f : A → Task B) :
  immediate t → (∀ a, immediate (f a)) → immediate (t ≫= f).
Proof. induction t; simpl; intros Ht Hf; auto; done. Qed.

Lemma settles_bind {A B} (t : Task A) (f : A → Task B) :
  settles t → (∀ a, reads_only (f a)) → settles (t ≫= f).
Proof.
  induction t; simpl; intros Ht Hf;
    auto using reads_only_settles, reads_only_bind.
Qed.

(** Writes, then what only reads. *)
Lemma atomic_bind_l {A B} (t : Task A) (f : A → Task B) :
  atomic t → (∀ a, reads_only (f a)) → atomic (t ≫= f).
Proof.
  induction t; simpl; intros Ht Hf;
    auto using reads_only_atomic, settles_bind.
Qed.

(** What only reads, then writes. *)
Lemma atomic_bind_r {A B} (t : Task A) (f : A → Task B) :
  reads_only t → (∀ a, atomic (f a)) → atomic (t ≫= f).
Proof. induction t; simpl; intros Ht Hf; auto; done. Qed.

Lemma reads_only_try {A} (t : Task A) : reads_only t → reads_only (task_try t).
Proof. induction t; simpl; auto. Qed.

Lemma immediate_try {A} (t : Task A) : immediate t → immediate (task_try t).
Proof. induction t; simpl; auto. Qed.

Lemma reads_only_lift {A} (r : result text A) : reads_only (task_lift r).
Proof. by destruct r. Qed.

Lemma immediate_lift {A} (r : result text A) : immediate (task_lift r).
Proof. by destruct r. Qed.

Lemma sends_perform P e : sends P (task_perform e).
Proof. apply sends_await. intros a. apply immediate_lift. Qed.

Lemma sends_say P c msg : sends P (task_say c msg).
Proof. apply sends_perform. Qed.

Lemma reads_only_perform e : reads_only (task_perform e).
Proof. intros a. apply reads_only_lift. Qed.

Lemma reads_only_say c msg : reads_only (task_say c msg).
Proof. apply reads_only_perform. Qed.

Lemma reads_only_get_user id : reads_only (task_get_user id).
Proof. intros a. apply reads_only_lift. Qed.

Lemma reads_only_usize_op x : reads_only (task_usize_op x).
Proof. unfold task_usize_op. case_decide; [done|]. by destruct overflow_checks. Qed.

Lemma reads_only_get : reads_only task_get.
Proof. by intros h. Qed.

Lemma immediate_get : immediate task_get.
Proof. by intros h. Qed.

Lemma immediate_put c : immediate (task_put c).
Proof. done. Qed.

Lemma immediate_ret {A} (a : A) : immediate (mret a).
Proof. done. Qed.

Lemma reads_only_ret {A} (a : A) : reads_only (mret a).
Proof. done. Qed.

(** ** How often a task is suspended *)

Lemma suspends_mono {A} n n' (t : Task A) h :
  (n ≤ n')%nat → suspends n t h → suspends n' t h.
Proof.
  revert n n' h. induction t as [| | |k IH|c k IH|r k IH]; intros n n' h Hn;
    simpl; eauto.
  destruct n as [|n]; [done|]. destruct n' as [|n']; [lia|].
  intros Ht a. apply (IH a n); [lia|done].
Qed.

Lemma suspends_immediate {A} n (t : Task A) h : immediate t → suspends n t h.
Proof. revert h. induction t; simpl; intros h Ht; auto; done. Qed.

(** The bound counts the suspensions of a run under any world. *)
Lemma suspends_awaits {A} n (t : Task A) h :
  suspends n t h → (awaits t h ≤ n)%nat.
Proof.
  revert n h. induction t as [| | |k IH|c k IH|r k IH]; intros n h;
    simpl; try lia; eauto.
  destruct n as [|n]; [done|]. intros Ht. specialize (IH _ _ _ (Ht (answer r))). lia.
Qed.

(** Sequencing adds the bounds. *)
Lemma suspends_bind {A B} n m (t : Task A) (f : A → Task B) h :
  suspends n t h → (∀ a h', suspends m (f a) h') →
  suspends (n + m) (t ≫= f) h.
Proof.
  revert n h. induction t as [a| | |k IH|c k IH|r k IH]; intros n h Ht Hf;
    simpl in *; eauto.
  - apply (suspends_mono m); [lia|done].
  - destruct n as [|n]; [done|]. intros a. by apply IH.
Qed.

(** After a task that only reads, the bound of what follows may depend
    on the state. *)
Lemma suspends_bind_reads {A B} n m (t : Task A) (f : A → Task B) h :
  reads_only t → suspends n t h → (∀ a, suspends m (f a) h) →
  suspends (n + m) (t ≫= f) h.
Proof.
  revert n. induction t as [a| | |k IH|c k IH|r k IH]; intros n Hr Ht Hf;
    simpl in *; eauto; [|done|].
  - apply (suspends_mono m); [lia|done].
  - destruct n as [|n]; [done|]. intros a. by apply IH.
Qed.

Lemma suspends_try {A} n (t : Task A) h :
  suspends n t h → suspends n (task_try t) h.
Proof.
  revert n h. induction t as [| | |k IH|c k IH|r k IH]; intros n h;
    simpl; eauto.
  destruct n; [done|]. eauto.
Qed.

(** One request, then [?]. *)
Lemma suspends_perform e h : suspends 1 (task_perform e) h.
Proof. intros a. by destruct a. Qed.

Lemma suspends_say c msg h : suspends 1 (task_say c msg) h.
Proof. apply suspends_perform. Qed.

End semantics.

#[export] Hint Resolve reads_only_bind reads_only_try reads_only_lift
  reads_only_perform reads_only_say reads_only_get_user reads_only_usize_op
  reads_only_get reads_only_ret : tater.
#[export] Hint Resolve immediate_bind immediate_try immediate_lift
  immediate_get immediate_put immediate_ret : tater.

#[export] Hint Resolve reads_only_atomic : tater.

(** The rules of [interp], for [auto]. *)
Create HintDb interp.
#[export] Hint Resolve interp_ret interp_get interp_put interp_panic interp_lift
  interp_perform interp_say interp_get_user interp_usize_op : interp.

(** Prove that a task runs like a body of [Effects.M] of the same
    shape: binds and [try] blocks by congruence, conditionals by cases,
    the leaves by the rules of [interp]. *)
Ltac interp_solve :=
  repeat first
    [ progress intros
    | reflexivity
    | solve [auto with interp]
    | apply interp_bind_ext
    | apply interp_try_ext
    | match goal with
      | |- interp (if ?b then _ else _) ≡ _ => destruct b
      | |- interp (match ?x with _ => _ end) ≡ _ => destruct x
      end ].
