(* ===== verification/Async.v ===== *)
(** * Async: [handle_commands] with its awaits

    The body of [handle_commands] once more, this time as a [Task]:
    every [.await] of [commands.rs] is a node of the tree, in the place
    the source has it, and the reads and writes of [this] between two
    awaits are the nodes between them.  The definitions follow those of
    [Leaderboard], [Commands] and [Dispatch] line by line and carry
    their names with the suffix [_task]; what differs is that a request
    is a node the world resumes, where [Effects.M] asks the world
    directly:

    - [compute_is_admin_task] (lines 43-54) waits for the member and
      then for their roles;
    - [render_board_task] (lines 115-136) and [list_admins_loop_task]
      (lines 363-366) wait for one user per turn of their loop;
    - the arms that write (lines 183-359) write inside their [try]
      block, which holds no await, and wait for the delivery of their
      reply after it;
    - [save_config_task] (lines 408-426) waits for the disk last;
    - [handle_guild_task] (lines 32-62 and 408-428) waits for the guild
      at line 39 before anything else.

    [abort_commands] is a call of [handle_commands] whose task is
    dropped at an await of the body: the lock of line 29 is released
    with the guard, and the registry keeps the entry of the guild with
    what was written.

    The bodies are a second transcription of the same lines.  That the
    two agree is checked, not assumed: run to its end, every task is the
    body of the same name ([interp_handle_guild] and the lemmas before
    it, [handle_commands_task_run]), so that what is proved of
    [Dispatch.handle_commands] holds of the task that completes.  This
    is a check of the model against itself and says nothing of the
    program.  The theorems of the program: every body makes a bounded
    number of requests ([handle_guild_awaits]), and every body is
    [atomic] ([atomic_handle_guild]): a
    call that is dropped leaves the state of the guild as it found it or
    as the complete call leaves it, which is the state after the writes
    of the command; it has then sent a prefix of the events of the
    complete call and has not saved the configuration. *)

From stdpp Require Import gmap.
From S2P Require Import Prelude Text Guild Effects Leaderboard Commands.
From S2P Require Import Dispatch Writes Tasks.

#[local] Open Scope Z_scope.

Section async.
Context `{Platform, World}.

(** ** The updates of the configuration (no await) *)

Definition modify_config_task (f : Config → Config) : Task () :=
  this ← task_get; task_put (f (config this)).

Definition blacklist_insert_task (x : Z) : Task bool :=
  this ← task_get;
  let r := hashset_insert x (blacklisted_channels (config this)) in
  task_put (set_blacklisted_channels r.1 (config this));; mret r.2.

Definition blacklist_remove_task (x : Z) : Task bool :=
  this ← task_get;
  let r := hashset_remove x (blacklisted_channels (config this)) in
  task_put (set_blacklisted_channels r.1 (config this));; mret r.2.

Definition admins_insert_task (x : Z) : Task bool :=
  this ← task_get;
  let r := hashset_insert x (admins (config this)) in
  task_put (set_admins r.1 (config this));; mret r.2.

Definition admins_remove_task (x : Z) : Task bool :=
  this ← task_get;
  let r := hashset_remove x (admins (config this)) in
  task_put (set_admins r.1 (config this));; mret r.2.

(** ** The arms *)

(** The [match msg] that ends the admin arms: one [say], awaited. *)
Definition reply_task (message : Message) (msg : result text text) : Task () :=
  match msg with
  | Ok msg => task_say (channel_id message) msg
  | Err oh_no => task_say (channel_id message) (error_message oh_no)
  end.

(** The arms with a [u64] argument: the [try] block parses and runs
    [body] without waiting, then the reply is awaited. *)
Definition with_u64_arg_task (message : Message) (args : list text)
    (body : Z → Task text) : Task () :=
  msg ← task_try (x ← task_lift (parse_u64_arg args); body x);
  reply_task message msg.

Definition cmd_help_task (is_admin : bool) (message : Message) : Task () :=
  task_say (channel_id message) HELP;;
  if is_admin then task_say (channel_id message) ADMIN_HELP else mret ().

Definition cmd_set_pin_channel_task (message : Message) (args : list text)
    : Task () :=
  with_u64_arg_task message args (λ channel_id,
    modify_config_task (set_pin_channel channel_id);;
    inserted ← blacklist_insert_task channel_id;
    mret (msg_set_pin_channel (channel_mention channel_id) (negb inserted))).

Definition cmd_set_threshold_task (message : Message) (args : list text)
    : Task () :=
  with_u64_arg_task message args (λ threshold,
    modify_config_task (set_threshold threshold);;
    mret (msg_set_threshold threshold)).

Definition cmd_blacklist_task (message : Message) (args : list text) : Task () :=
  with_u64_arg_task message args (λ channel_id,
    inserted ← blacklist_insert_task channel_id;
    mret (msg_blacklist (channel_mention channel_id) (negb inserted))).

Definition cmd_unblacklist_task (message : Message) (args : list text)
    : Task () :=
  with_u64_arg_task message args (λ channel_id,
    existed ← blacklist_remove_task channel_id;
    mret (msg_unblacklist (channel_mention channel_id) existed)).

Definition cmd_show_blacklist_task (message : Message) : Task () :=
  this ← task_get;
  task_say (channel_id message)
    (join [10] ((λ c, str "- " ++ channel_mention c) <$>
                set_iter (blacklisted_channels (config this)))).

Definition cmd_set_potato_task (message : Message) (args : list text)
    : Task () :=
  msg ← task_try (
    emoji ← task_lift (ok_or (args !! 0%nat) not_enough_arguments);
    potato_react ← task_lift (reaction_try_from emoji);
    this ← task_get;
    let old_react := reaction_to_string (tater_emoji (config this)) in
    modify_config_task (set_tater_emoji potato_react);;
    mret (msg_set_potato emoji old_react));
  reply_task message msg.

Definition cmd_admin_task (message : Message) (args : list text) : Task () :=
  with_u64_arg_task message args (λ user_id,
    inserted ← admins_insert_task user_id;
    mret (msg_admin user_id (negb inserted))).

Definition cmd_unadmin_task (message : Message) (args : list text) : Task () :=
  with_u64_arg_task message args (λ user_id,
    existed ← admins_remove_task user_id;
    mret (msg_unadmin user_id existed)).

(** The loop of [list_admins]: one user is awaited per admin. *)
Fixpoint list_admins_loop_task (msg : text) (ids : list Z) : Task text :=
  match ids with
  | [] => mret msg
  | id :: ids =>
      user ← task_get_user id;
      list_admins_loop_task (msg ++ [10] ++ str "- " ++ user_tag user) ids
  end.

Definition cmd_list_admins_task (message : Message) : Task () :=
  msg ← task_try (
    this ← task_get;
    list_admins_loop_task (str "Admins:") (set_iter (admins (config this))));
  reply_task message msg.

(** [save]: the save of the tables is awaited, then the reply. *)
Definition cmd_save_task (handlers : gmap Z Handler) (message : Message)
    : Task () :=
  msg ← match guild_id message with
        | Some id =>
            task_try (
              this ← task_get;
              task_perform (EvSaveTaters id (<[id := this]> handlers));;
              mret (str "Saved this server's taters!"))
        | None => mret (Err (str "There was no guild ID (are you in a PM?)"))
        end;
  reply_task message msg.

Definition cmd_unknown_task (message : Message) (command : text) : Task () :=
  task_perform (EvSendNoMentions (channel_id message)
                  (str "Unknown command: " ++ command)).

(** ** The leaderboard *)

(** The [for] loop of lines 115-136: one user is awaited per line. *)
Fixpoint render_board_task (b : Board) (board : text)
    (entries : list (nat * (Z * Z))) : Task text :=
  match entries with
  | [] => mret board
  | (idx, (user_id, count)) :: rest =>
      user ← task_get_user user_id;
      render_board_task b (board ++ board_line b idx user count) rest
  end.

Definition send_leaderboard_task (b : Board) (message : Message)
    (this : Handler) (page_num skip : Z) : Task () :=
  let map := board_map b this in
  let scores := scores map in
  board ← render_board_task b [] (to_display scores skip);
  let ps := place_strings (asker_place scores (author_id message)) in
  let total := total_pages (Z.of_nat (size map)) in
  page ← task_usize_op (page_num + 1);
  let footer :=
    footer ps.1 (Z.of_nat (size map)) ps.2
           (reaction_to_string (tater_emoji (config this))) page total in
  task_perform (EvSendEmbed (channel_id message)
                  (str "Leaderboard - Taters " ++ verb b) board footer).

Definition cmd_leaderboard_task (b : Board) (message : Message)
    (args : list text) : Task () :=
  res ← task_try (
    let page_num := page_num args in
    this ← task_get;
    skip ← task_usize_op (PAGE_SIZE * page_num);
    send_leaderboard_task b message this page_num skip);
  match res with
  | Err oh_no => task_say (channel_id message) (error_message oh_no)
  | Ok _ => mret ()
  end.

(** ** The handler *)

(** Lines 43-54: the member is awaited, [?] on the answer, then their
    roles are. *)
Definition compute_is_admin_task (guild : Z) (message : Message)
    : Task (option bool) :=
  this ← task_get;
  if bool_decide (author_id message ∈ admins (config this)) then mret (Some true)
  else
    await (ReqMember guild (author_id message)) ≫= task_lift;;
    roles ← await (ReqRoles guild (author_id message));
    mret (existsb (λ r, has_permission r ADMINISTRATOR) <$> roles).

Definition dispatch_task (handlers : gmap Z Handler) (is_admin : bool)
    (message : Message) (cmd : text) (args : list text) : Task () :=
  if is_cmd cmd "help" then cmd_help_task is_admin message
  else if is_cmd cmd "receivers" then cmd_leaderboard_task Receivers message args
  else if is_cmd cmd "givers" then cmd_leaderboard_task Givers message args
  else if is_cmd cmd "set_pin_channel" && is_admin
  then cmd_set_pin_channel_task message args
  else if is_cmd cmd "set_threshold" && is_admin
  then cmd_set_threshold_task message args
  else if is_cmd cmd "blacklist" && is_admin
  then cmd_blacklist_task message args
  else if is_cmd cmd "unblacklist" && is_admin
  then cmd_unblacklist_task message args
  else if is_cmd cmd "show_blacklist" && is_admin
  then cmd_show_blacklist_task message
  else if is_cmd cmd "set_potato" && is_admin
  then cmd_set_potato_task message args
  else if is_cmd cmd "admin" && is_admin then cmd_admin_task message args
  else if is_cmd cmd "unadmin" && is_admin then cmd_unadmin_task message args
  else if is_cmd cmd "list_admins" && is_admin
  then cmd_list_admins_task message
  else if is_cmd cmd "save" && is_admin then cmd_save_task handlers message
  else cmd_unknown_task message cmd.

Definition save_config_task (handlers : gmap Z Handler) (is_admin : bool)
    (message : Message) : Task () :=
  if is_admin then
    match guild_id message with
    | Some id =>
        this ← task_get;
        task_perform (EvSaveConfig id (<[id := this]> handlers))
    | None =>
        task_say (channel_id message)
          (str "Unable to save config because there was no guild ID (are you in a PM?)")
    end
  else mret ().

(** The body from line 32 on: the guild is awaited at line 39. *)
Definition handle_guild_task (handlers : gmap Z Handler) (guild uid : Z)
    (message : Message) : Task () :=
  this ← task_get;
  if bool_decide (author_id message = uid)
     || negb (starts_with (content message) (trigger_word (config this)))
  then mret ()
  else
    cached ← await (ReqGuild guild);
    if negb cached then mret ()
    else
      is_admin ← compute_is_admin_task guild message;
      match is_admin with
      | None => mret ()
      | Some is_admin =>
          let split := split_whitespace (content message) in
          if bool_decide (length split < 2)%nat then mret ()
          else
            match split !! 1%nat with
            | None => TPanic
            | Some cmd =>
                dispatch_task handlers is_admin message cmd (drop 2 split);;
                save_config_task handlers is_admin message
            end
      end.

(** A call whose task runs to its end: lines 19-31, the body, and the
    registry the guard of the lock gives back. *)
Definition handle_commands_task (handlers : gmap Z Handler) (uid : Z)
    (message : Message) : Handled :=
  match guild_id message with
  | None => MkHandled handlers [] (Done ())
  | Some guild =>
      let e := entry_or_insert handlers guild in
      let r := complete (handle_guild_task e.1 guild uid message) e.2 in
      MkHandled (<[guild := final r]> e.1) (trace r) (outcome r)
  end.

(** A call whose task is dropped at the [n]-th await of its body: what
    the registry holds when the guard of the lock is dropped, what was
    delivered and saved, and the request that was not waited for.
    [None] when the call returns before. *)
Definition abort_commands (n : nat) (handlers : gmap Z Handler) (uid : Z)
    (message : Message) : option (gmap Z Handler * Suspended) :=
  match guild_id message with
  | None => None
  | Some guild =>
      let e := entry_or_insert handlers guild in
      s ← cancel n (handle_guild_task e.1 guild uid message) e.2;
      Some (<[guild := at_state s]> e.1, s)
  end.

(** ** Run to its end, a task is the body of the same name *)

Lemma interp_reply message msg :
  interp (reply_task message msg) ≡ reply message msg.
Proof. unfold reply_task, reply. interp_solve. Qed.

Lemma interp_with_u64_arg message args body body' :
  (∀ x, interp (body x) ≡ body' x) →
  interp (with_u64_arg_task message args body) ≡ with_u64_arg message args body'.
Proof.
  pose proof interp_reply. unfold with_u64_arg_task, with_u64_arg.
  interp_solve.
Qed.

Lemma interp_cmd_help is_admin message :
  interp (cmd_help_task is_admin message) ≡ cmd_help is_admin message.
Proof. unfold cmd_help_task, cmd_help. interp_solve. Qed.

Lemma interp_cmd_show_blacklist message :
  interp (cmd_show_blacklist_task message) ≡ cmd_show_blacklist message.
Proof. unfold cmd_show_blacklist_task, cmd_show_blacklist. interp_solve. Qed.

Lemma interp_cmd_set_potato message args :
  interp (cmd_set_potato_task message args) ≡ cmd_set_potato message args.
Proof.
  pose proof interp_reply. unfold cmd_set_potato_task, cmd_set_potato.
  interp_solve.
Qed.

Lemma interp_list_admins_loop msg ids :
  interp (list_admins_loop_task msg ids) ≡ list_admins_loop msg ids.
Proof.
  revert msg. induction ids; intros msg;
    cbn [list_admins_loop_task list_admins_loop]; interp_solve.
Qed.

Lemma interp_cmd_list_admins message :
  interp (cmd_list_admins_task message) ≡ cmd_list_admins message.
Proof.
  pose proof interp_reply. pose proof interp_list_admins_loop.
  unfold cmd_list_admins_task, cmd_list_admins. interp_solve.
Qed.

Lemma interp_cmd_save handlers message :
  interp (cmd_save_task handlers message) ≡ cmd_save handlers message.
Proof. pose proof interp_reply. unfold cmd_save_task, cmd_save. interp_solve. Qed.

Lemma interp_cmd_unknown message cmd :
  interp (cmd_unknown_task message cmd) ≡ cmd_unknown message cmd.
Proof. apply interp_perform. Qed.

Lemma interp_render_board b board entries :
  interp (render_board_task b board entries) ≡ render_board b board entries.
Proof.
  revert board. induction entries as [|[idx [user_id count]] rest IH];
    intros board; cbn [render_board_task render_board]; interp_solve.
Qed.

Lemma interp_cmd_leaderboard b message args :
  interp (cmd_leaderboard_task b message args) ≡ cmd_leaderboard b message args.
Proof.
  pose proof interp_render_board.
  unfold cmd_leaderboard_task, cmd_leaderboard, send_leaderboard_task,
    send_leaderboard.
  interp_solve.
Qed.

Lemma interp_compute_is_admin guild message :
  interp (compute_is_admin_task guild message) ≡ compute_is_admin guild message.
Proof.
  apply interp_bind_ext; [done|]. intros this. case_bool_decide; [done|].
  by apply interp_member.
Qed.

Lemma interp_dispatch handlers is_admin message cmd args :
  interp (dispatch_task handlers is_admin message cmd args)
  ≡ dispatch handlers is_admin message cmd args.
Proof.
  unfold dispatch_task, dispatch.
  repeat (case_match; [|]);
    first [by apply interp_with_u64_arg
          |auto using interp_cmd_help, interp_cmd_leaderboard,
             interp_cmd_show_blacklist, interp_cmd_set_potato,
             interp_cmd_list_admins, interp_cmd_save, interp_cmd_unknown].
Qed.

Lemma interp_save_config handlers is_admin message :
  interp (save_config_task handlers is_admin message)
  ≡ save_config handlers is_admin message.
Proof. unfold save_config_task, save_config. interp_solve. Qed.

Lemma interp_handle_guild handlers guild uid message :
  interp (handle_guild_task handlers guild uid message)
  ≡ handle_guild handlers guild uid message.
Proof.
  pose proof interp_compute_is_admin. pose proof interp_dispatch.
  pose proof interp_save_config.
  unfold handle_guild_task, handle_guild. interp_solve.
  etrans; [by apply interp_await|]. cbv beta.
  change (answer (ReqGuild guild)) with (guild_in_cache guild). interp_solve.
Qed.

Lemma handle_commands_task_run handlers uid message :
  handle_commands_task handlers uid message =
    handle_commands handlers uid message.
Proof.
  unfold handle_commands_task, handle_commands.
  destruct (guild_id message) as [g|]; [|done]. cbn zeta.
  by rewrite <-(interp_handle_guild _ _ _ _ _).
Qed.

(** ** No await between two writes *)

Lemma reads_only_reply message msg : reads_only (reply_task message msg).
Proof. destruct msg; apply reads_only_say. Qed.

(** The arms with a [u64] argument: the body of the [try] block does
    not wait, and nothing is written after the reply was awaited. *)
Lemma atomic_with_u64_arg message args body :
  (∀ x, immediate (body x)) → atomic (with_u64_arg_task message args body).
Proof.
  intros Hb. apply atomic_bind_l; [|intros; apply reads_only_reply].
  apply settles_atomic, immediate_settles. auto with tater.
Qed.

Lemma atomic_cmd_set_potato message args :
  atomic (cmd_set_potato_task message args).
Proof.
  apply atomic_bind_l; [|intros; apply reads_only_reply].
  apply settles_atomic, immediate_settles, immediate_try.
  repeat (apply immediate_bind; [auto with tater|intros ?]). done.
Qed.

Lemma reads_only_cmd_help is_admin message :
  reads_only (cmd_help_task is_admin message).
Proof. unfold cmd_help_task. destruct is_admin; auto with tater. Qed.

Lemma reads_only_render_board b board entries :
  reads_only (render_board_task b board entries).
Proof.
  revert board. induction entries as [|[idx [user_id count]] rest IH];
    intros board; cbn [render_board_task]; auto with tater.
Qed.

Lemma reads_only_cmd_leaderboard b message args :
  reads_only (cmd_leaderboard_task b message args).
Proof.
  pose proof reads_only_render_board.
  unfold cmd_leaderboard_task, send_leaderboard_task.
  apply reads_only_bind; [auto 10 with tater|]. intros []; auto with tater.
Qed.

Lemma reads_only_list_admins_loop msg ids :
  reads_only (list_admins_loop_task msg ids).
Proof.
  revert msg. induction ids; intros msg; cbn [list_admins_loop_task];
    auto with tater.
Qed.

Lemma reads_only_cmd_list_admins message :
  reads_only (cmd_list_admins_task message).
Proof.
  pose proof reads_only_list_admins_loop. pose proof reads_only_reply.
  unfold cmd_list_admins_task. auto 10 with tater.
Qed.

Lemma reads_only_cmd_save handlers message :
  reads_only (cmd_save_task handlers message).
Proof.
  pose proof reads_only_reply.
  unfold cmd_save_task. destruct (guild_id message); auto 10 with tater.
Qed.

Lemma reads_only_cmd_show_blacklist message :
  reads_only (cmd_show_blacklist_task message).
Proof. unfold cmd_show_blacklist_task. auto with tater. Qed.

Lemma reads_only_cmd_unknown message cmd :
  reads_only (cmd_unknown_task message cmd).
Proof. apply reads_only_perform. Qed.

Lemma atomic_dispatch handlers is_admin message cmd args :
  atomic (dispatch_task handlers is_admin message cmd args).
Proof.
  unfold dispatch_task.
  repeat (case_match; [|]);
    first [by apply atomic_with_u64_arg | apply atomic_cmd_set_potato
          | apply reads_only_atomic;
            auto using reads_only_cmd_help, reads_only_cmd_leaderboard,
              reads_only_cmd_show_blacklist, reads_only_cmd_list_admins,
              reads_only_cmd_save, reads_only_cmd_unknown ].
Qed.

Lemma reads_only_save_config handlers is_admin message :
  reads_only (save_config_task handlers is_admin message).
Proof.
  unfold save_config_task. destruct is_admin, (guild_id message);
    auto with tater.
Qed.

Lemma reads_only_compute_is_admin guild message :
  reads_only (compute_is_admin_task guild message).
Proof.
  intros this. simpl. case_bool_decide; [done|]. intros [[]|]; by simpl.
Qed.

(** The body: it reads and waits until the command runs, the command
    is atomic, and the save that follows writes nothing. *)
Lemma atomic_handle_guild handlers guild uid message :
  atomic (handle_guild_task handlers guild uid message).
Proof.
  apply atomic_bind_r; [apply reads_only_get|]. intros this.
  case_match; [done|]. apply atomic_bind_r; [by intros a|].
  intros []; cbn [negb]; [|done].
  apply atomic_bind_r; [apply reads_only_compute_is_admin|].
  intros [is_admin|]; [|done]. repeat case_match; try done.
  apply atomic_bind_l; [apply atomic_dispatch|].
  intros. apply reads_only_save_config.
Qed.

(** ** How many requests a call makes

    The lock of line 29 is held while the body waits; [suspends] bounds
    how often it does, for all answers.  The loops are what matters: the
    leaderboard asks for one user per line of a page, which
    [take(PAGE_SIZE)] bounds (line 107), and [list_admins] for one user
    per listed admin (line 363), which nothing bounds but the set. *)

Lemma suspends_reply message msg h : suspends 1 (reply_task message msg) h.
Proof. destruct msg; apply suspends_say. Qed.

(** A [try] block that does not wait, and the reply. *)
Lemma suspends_try_reply message (t : Task text) h :
  immediate t → suspends 1 (msg ← task_try t; reply_task message msg) h.
Proof.
  intros Ht. apply (suspends_bind 0 1); [|intros; apply suspends_reply].
  by apply suspends_immediate, immediate_try.
Qed.

Lemma immediate_usize_op x : immediate (task_usize_op x).
Proof. unfold task_usize_op. case_decide; [done|]. by destruct overflow_checks. Qed.

Lemma immediate_modify_config f : immediate (modify_config_task f).
Proof. by intros h. Qed.

Lemma suspends_cmd_help is_admin message h :
  suspends 2 (cmd_help_task is_admin message) h.
Proof.
  apply (suspends_bind 1 1); [apply suspends_say|]. intros [] h'.
  destruct is_admin; [apply suspends_say|done].
Qed.

Lemma suspends_cmd_save handlers message h :
  suspends 2 (cmd_save_task handlers message) h.
Proof.
  apply (suspends_bind 1 1); [|intros; apply suspends_reply].
  destruct (guild_id message); [|done]. intros a. by destruct a.
Qed.

(** One user per entry. *)
Lemma suspends_render_board b board entries h :
  suspends (length entries) (render_board_task b board entries) h.
Proof.
  revert board. induction entries as [|[idx [user_id count]] rest IH];
    intros board; [done|].
  intros [user|e]; [apply IH|done].
Qed.

Lemma suspends_list_admins_loop msg ids h :
  suspends (length ids) (list_admins_loop_task msg ids) h.
Proof.
  revert msg. induction ids as [|id ids IH]; intros msg; [done|].
  intros [user|e]; [apply IH|done].
Qed.

(** The leaderboard: at most [PAGE_SIZE] users, the embed, and the
    error message when one of them failed. *)
Lemma suspends_cmd_leaderboard b message args h :
  suspends 12 (cmd_leaderboard_task b message args) h.
Proof.
  apply (suspends_bind 11 1); [|intros [] ?; [done|apply suspends_say]].
  apply suspends_try. cbn [task_bind mbind Task_bind task_get suspends].
  apply (suspends_bind 0 11); [apply suspends_immediate, immediate_usize_op|].
  intros skip h'. apply (suspends_bind 10 1).
  - eapply suspends_mono; [|apply suspends_render_board].
    rewrite length_to_display. lia.
  - intros board h''. apply (suspends_bind 0 1);
      [apply suspends_immediate, immediate_usize_op|].
    intros. apply suspends_perform.
Qed.

(** [list_admins]: one user per listed admin, and the reply. *)
Lemma suspends_cmd_list_admins message h :
  suspends (size (admins (config h)) + 1) (cmd_list_admins_task message) h.
Proof.
  apply suspends_bind; [|intros; apply suspends_reply].
  apply suspends_try. cbn [task_bind mbind Task_bind task_get suspends].
  eapply suspends_mono; [|apply suspends_list_admins_loop].
  by rewrite set_iter_perm.
Qed.

Lemma suspends_dispatch handlers is_admin message cmd args h :
  suspends (12 `max` (size (admins (config h)) + 1))
    (dispatch_task handlers is_admin message cmd args) h.
Proof.
  unfold dispatch_task. repeat (case_match; [|]);
    lazymatch goal with
    | |- context [cmd_list_admins_task] =>
        eapply suspends_mono; [|apply suspends_cmd_list_admins]; lia
    | |- context [cmd_leaderboard_task] =>
        eapply suspends_mono; [|apply suspends_cmd_leaderboard]; lia
    | |- _ =>
        apply (suspends_mono 2); [lia|];
        lazymatch goal with
        | |- context [cmd_help_task] => apply suspends_cmd_help
        | |- context [cmd_save_task] => apply suspends_cmd_save
        | |- context [cmd_unknown_task] =>
            apply (suspends_mono 1); [lia|apply suspends_perform]
        | |- context [cmd_show_blacklist_task] =>
            apply (suspends_mono 1); [lia|apply suspends_say]
        | |- _ =>
            apply (suspends_mono 1); [lia|]; apply suspends_try_reply;
            repeat (apply immediate_bind; [auto using immediate_modify_config with tater|intros ?]);
            by auto using immediate_modify_config with tater
        end
    end.
Qed.

Lemma suspends_save_config handlers is_admin message h :
  suspends 1 (save_config_task handlers is_admin message) h.
Proof.
  unfold save_config_task. destruct is_admin; [|done].
  destruct (guild_id message); [apply suspends_perform|apply suspends_say].
Qed.

(** The member, then their roles. *)
Lemma suspends_compute_is_admin guild message h :
  suspends 2 (compute_is_admin_task guild message) h.
Proof.
  simpl. case_bool_decide; [done|]. intros [[]|e]; [|done]. by intros roles.
Qed.

(** C22: a call makes a bounded number of requests while it holds the
    lock.  Whatever the message and whatever the chat service and the
    disk answer, the body of [handle_commands] is suspended at most 16
    times, or 5 times more than the guild has listed admins: once for
    the guild, twice for the member and their roles, once for the save
    of the configuration, and in the command at most twice, except in
    the leaderboard, whose loop asks for at most [PAGE_SIZE] users
    before the embed and the error message, and in [list_admins], whose
    loop asks for every listed admin.  So the time the lock of all
    guilds is held does not grow with the tables, but does with the
    list of admins of one guild. *)
Theorem handle_guild_awaits handlers guild uid message h :
  suspends (16 `max` (size (admins (config h)) + 5))
    (handle_guild_task handlers guild uid message) h.
Proof.
  cbn [handle_guild_task task_bind mbind Task_bind task_get suspends].
  case_match; [done|].
  apply (suspends_mono (1 + (2 + (12 `max` (size (admins (config h)) + 1) + 1))));
    [lia|].
  apply suspends_bind_reads; [by intros a|by intros a|].
  intros []; cbn [negb]; [|done].
  apply suspends_bind_reads;
    [apply reads_only_compute_is_admin|apply suspends_compute_is_admin|].
  intros [is_admin|]; [|done]. repeat case_match; try done.
  apply suspends_bind; [apply suspends_dispatch|].
  intros. apply suspends_save_config.
Qed.

(** ** Calls that are dropped *)

(** The save of the configuration is the last await of the body: a call
    that was dropped had not completed it. *)
Lemma sends_save_config P handlers is_admin message :
  sends P (save_config_task handlers is_admin message).
Proof.
  unfold save_config_task. destruct is_admin, (guild_id message);
    [apply sends_bind; [apply emits_get_this|intros]|..];
    auto using sends_perform, sends_say, sends_immediate with tater.
Qed.

Lemma sends_handle_guild handlers guild uid message :
  sends (λ e, ¬ is_save_config e = true)
    (handle_guild_task handlers guild uid message).
Proof.
  apply sends_bind; [apply emits_get_this|]. intros this.
  case_match; [by apply sends_immediate|].
  apply sends_bind; [intros h; constructor|].
  intros []; cbn [negb]; [|by apply sends_immediate].
  apply sends_bind.
  { rewrite interp_compute_is_admin. intros h.
    rewrite compute_is_admin_run. constructor. }
  intros [is_admin|]; [|by apply sends_immediate].
  repeat case_match; try by apply sends_immediate.
  apply sends_bind; [|intros; apply sends_save_config].
  rewrite interp_dispatch. apply emits_dispatch; [by intros []|done].
Qed.

(** A body that is dropped leaves the state it started from or the
    state the complete body leaves; what it had delivered is the
    beginning of what the complete body delivers; it had not saved the
    configuration. *)
Lemma handle_guild_dropped n handlers guild uid message h s :
  cancel n (handle_guild_task handlers guild uid message) h = Some s →
  (at_state s = h ∨
   at_state s = final (run (handle_guild handlers guild uid message) h)) ∧
  seen s `prefix_of` trace (run (handle_guild handlers guild uid message) h) ∧
  config_saves (seen s) = [].
Proof.
  intros Hs. rewrite <-interp_handle_guild. split_and!.
  - by eapply atomic_cancel, Hs; apply atomic_handle_guild.
  - by eapply cancel_prefix.
  - apply filter_nil_Forall. by eapply sends_handle_guild.
Qed.

(** The same of the call: the registry holds the entry of the guild,
    as the call found it or as the complete call leaves it. *)
Lemma abort_commands_dropped n handlers uid message g hs s :
  guild_id message = Some g →
  abort_commands n handlers uid message = Some (hs, s) →
  (hs = <[g := state_of handlers g]> handlers ∨
   hs = handlers_after (handle_commands handlers uid message)) ∧
  seen s `prefix_of` events (handle_commands handlers uid message) ∧
  config_saves (seen s) = [].
Proof.
  intros Hg. unfold abort_commands, handle_commands. rewrite Hg. cbn zeta.
  intros (s' & Hs & [= <- <-])%bind_Some. cbn [handlers_after events].
  apply handle_guild_dropped in Hs as (Hs & ? & ?). split_and!; [|done..].
  rewrite entry_or_insert_this, entry_or_insert_state in *.
  fold (state_of handlers g) in *. rewrite !insert_insert_eq.
  destruct Hs as [-> | ->]; auto.
Qed.

(** C11: a dropped call leaves no half-written state.  When the task of
    a message of guild [g] is dropped at any await of its body, under
    any answers of the chat service, the registry holds for [g] the
    state the call found with all the writes of the command applied or
    with none of them, never with some: no arm waits between two of its
    writes.  What the call has delivered and saved by then is the
    beginning of what the complete call delivers and saves, and the
    configuration has not been saved: a command that was dropped after
    it wrote is in memory and not on disk. *)
Theorem dropped_call_atomic n handlers uid message g hs s :
  guild_id message = Some g →
  abort_commands n handlers uid message = Some (hs, s) →
  (∃ ws, (ws = [] ∨ ws = may_write message) ∧
     hs = <[g := write_all ws (state_of handlers g)]> handlers) ∧
  seen s `prefix_of` events (handle_commands handlers uid message) ∧
  config_saves (seen s) = [].
Proof.
  intros Hg (Hs & ? & ?)%(abort_commands_dropped _ _ _ _ g); [|done].
  split; [|done]. destruct Hs as [-> | ->]; [by exists []; auto|].
  exists (writes_for (state_of handlers g) g uid message).
  split; [apply writes_for_may_write|by apply handle_commands_after].
Qed.

End async.
