(* ===== verification/Drops.v ===== *)
(** * Drops: the registry when tasks are dropped

    The chat library may drop the task of a message at any of its
    awaits: while it waits for the lock of line 29, or later, while it
    holds the lock and waits for the chat service or the disk.  The
    guard of the lock is dropped with the task, so the next task finds
    the registry as the dropped one left it.

    [astep] is [Registry.step] with these two ways of ending a call
    added: [astep_leave] (dropped before it had the lock: nothing
    happened) and [astep_drop] (dropped at the [n]-th await of the body:
    [Async.abort_commands]).  Pools are [alike] when the same messages
    wait and every guild has the same state, an absent entry counting as
    the state [Handler::new] makes.

    The theorems: a call that is dropped leaves the registry as a call
    that completes does, possibly under other answers of the chat
    service ([astep_step]); so every schedule with dropped tasks ends
    in a pool like one a schedule without reaches
    ([aborts_simulated]), and what holds of the state of a guild after
    every schedule of [Registry.step] holds when tasks are dropped
    ([asteps_keeps]): the pin channel stays blacklisted.  What does not
    carry over is what the calls deliver and save: a dropped call has
    written and not saved. *)

From stdpp Require Import gmap relations.
From S2P Require Import Prelude Text Guild Effects Leaderboard Commands.
From S2P Require Import Dispatch Writes Answers Events Registry Tasks Async.

#[local] Open Scope Z_scope.

(** A world whose cache holds no guild: every message is ignored at
    line 41. *)
Definition deaf_world : World := {|
  guild_in_cache _ := false;
  fetch_member_roles _ _ := Ok None;
  get_user _ := Ok {| user_mention := []; user_tag := [] |};
  deliver _ := Ok ();
  map_iter := map_to_list;
  set_iter := elements;
  overflow_checks := false;
  map_iter_perm _ := reflexivity _;
  set_iter_perm _ := reflexivity _;
|}.

(** The same messages wait, and every guild has the same state. *)
Definition alike `{Platform} (p q : Pool) : Prop :=
  pending p = pending q ∧
  ∀ g, state_of (registry p) g = state_of (registry q) g.

Section abort.
Context `{Platform} (uid : Z).

(** The pool after the task of call [c] had the lock and was dropped at
    the [n]-th await of its body, the messages [rest] still waiting. *)
Definition drop_call (n : nat) (c : Call) (rest : list Message) (p : Pool)
    : option Pool :=
  r ← @abort_commands _ (call_world c) n (registry p) uid (call_message c);
  Some (MkPool rest r.1 (log p ++ seen r.2)).

(** A waiting task completes or, when the runtime drops tasks ([D]), is
    dropped while it waits for the lock or while it holds it. *)
Inductive astep (A : World → Prop) (D : Prop) : Pool → Pool → Prop :=
| astep_grant p q :
    step uid A p q → astep A D p q
| astep_leave p m l1 l2 :
    D →
    pending p = l1 ++ m :: l2 →
    astep A D p (MkPool (l1 ++ l2) (registry p) (log p))
| astep_drop p c l1 l2 n q :
    D →
    pending p = l1 ++ call_message c :: l2 →
    A (call_world c) →
    drop_call n c (l1 ++ l2) p = Some q →
    astep A D p q.

End abort.

(** ** Pools that are alike *)

#[export] Instance alike_equivalence `{Platform} : Equivalence alike.
Proof.
  split.
  - by intros p.
  - intros p q [? Hs]. by split.
  - intros p q r [? Hs] [? Hs']. split; [by etrans|]. intros g.
    by rewrite Hs.
Qed.

Section simulation.
Context `{Platform} (uid : Z).

(** The state a call leaves depends on the states it finds. *)
Lemma handle_call_alike r r' c g :
  (∀ g, state_of r g = state_of r' g) →
  state_of (handlers_after (handle_call uid r c)) g =
    state_of (handlers_after (handle_call uid r' c)) g.
Proof.
  intros Hr. unfold handle_call. rewrite !handle_commands_state, Hr.
  unfold writes_to. by rewrite Hr.
Qed.

Lemma grant_alike p p' c rest :
  alike p p' → alike (grant uid c rest p) (grant uid c rest p').
Proof. intros [_ Hr]. split; [done|]. intros g. by apply handle_call_alike. Qed.

(** A step from a pool is a step from every pool like it. *)
Lemma step_alike A p p' q :
  alike p p' → step uid A p q → ∃ q', step uid A p' q' ∧ alike q q'.
Proof.
  intros Hp (c & l1 & l2 & Hl & Hc & ->)%step_inv.
  exists (grant uid c (l1 ++ l2) p'). split; [|by apply grant_alike].
  constructor; [|done]. by rewrite <-(proj1 Hp).
Qed.

(** In a world without the guild the call changes no state. *)
Lemma deaf_call_state r m g :
  state_of (handlers_after (handle_call uid r (MkCall deaf_world m))) g =
    state_of r g.
Proof.
  unfold handle_call. rewrite handle_commands_state. unfold writes_to.
  case_decide; [|done]. unfold writes_for, ignored. simpl.
  by rewrite !orb_true_r.
Qed.

Lemma state_of_insert r g g' : state_of (<[g := state_of r g]> r) g' = state_of r g'.
Proof.
  unfold state_of. destruct (decide (g = g')) as [->|];
    [by rewrite lookup_insert_eq|by rewrite lookup_insert_ne].
Qed.

(** A call that is dropped leaves the states a complete call leaves,
    under its own world or under one without the guild. *)
Lemma drop_call_state n c rest p q :
  drop_call uid n c rest p = Some q →
  pending q = rest ∧
  ∃ w, ∀ g, state_of (registry q) g =
    state_of (handlers_after (handle_call uid (registry p)
                                (MkCall w (call_message c)))) g.
Proof.
  intros ([hs s] & Hs & [= <-])%bind_Some. split; [done|]. simpl.
  destruct (guild_id (call_message c)) as [g0|] eqn:Hg;
    [|unfold abort_commands in Hs; by rewrite Hg in Hs].
  eapply abort_commands_dropped in Hs as ([-> | ->] & _); [| |done].
  - exists deaf_world. intros g. by rewrite deaf_call_state, state_of_insert.
  - by exists (call_world c).
Qed.

(** A step with dropped tasks is a step without, up to [alike]. *)
Lemma astep_step A D p p' q :
  alike p p' → astep uid A D p q →
  ∃ q', step uid (λ _, True) p' q' ∧ alike q q'.
Proof.
  intros Hp Hs. revert p' Hp.
  destruct Hs as [p q Hs|p m l1 l2 _ Hl|p c l1 l2 n q _ Hl _ Hq]; intros p' Hp.
  - destruct (step_alike A p p' q Hp Hs) as (q' & Hs' & ?). exists q'.
    split; [|done]. destruct Hs'. by constructor.
  - exists (grant uid (MkCall deaf_world m) (l1 ++ l2) p').
    split; [constructor; [by rewrite <-(proj1 Hp)|done]|]. split; [done|].
    intros g. simpl. rewrite deaf_call_state. apply Hp.
  - apply drop_call_state in Hq as (Hq & w & Hw).
    exists (grant uid (MkCall w (call_message c)) (l1 ++ l2) p').
    split; [constructor; [by rewrite <-(proj1 Hp)|done]|]. split; [done|].
    intros g. rewrite Hw. simpl. apply handle_call_alike, Hp.
Qed.

Lemma asteps_steps A D p p' q :
  alike p p' → rtc (astep uid A D) p q →
  ∃ q', rtc (step uid (λ _, True)) p' q' ∧ alike q q'.
Proof.
  intros Hp Hs. revert p' Hp. induction Hs as [p|p p1 q Hp1 _ IH]; intros p' Hp.
  { exists p'. by split. }
  destruct (astep_step _ _ _ _ _ Hp Hp1) as (p1' & ? & Hp1').
  destruct (IH _ Hp1') as (q' & ? & ?). exists q'. split; [|done].
  by eapply rtc_l.
Qed.

(** What waits after a step waited before. *)
Lemma astep_pending A D p q m : astep uid A D p q → m ∈ pending q → m ∈ pending p.
Proof.
  intros Hs. destruct Hs as [p q Hs|p m0 l1 l2 _ Hl|p c l1 l2 n q _ Hl _ Hq].
  - by eapply step_pending.
  - rewrite Hl. simpl. set_solver.
  - apply drop_call_state in Hq as [-> _]. rewrite Hl. set_solver.
Qed.

(** A property of the state of guild [g] that the writes of every
    waiting message of [g] keep is kept when tasks are dropped. *)
Lemma asteps_keeps A D P g p q :
  rtc (astep uid A D) p q →
  Forall (λ m, guild_id m = Some g → keeps P (may_write m)) (pending p) →
  P (state_of (registry p) g) → P (state_of (registry q) g).
Proof.
  intros (q' & Hs & [_ Hq])%(asteps_steps _ _ p p); [|done]. rewrite Hq.
  by eapply steps_keeps.
Qed.

(** When the runtime drops no task, the steps are those of
    [Registry.step]. *)
Lemma astep_no_drop A p q : astep uid A False p q → step uid A p q.
Proof. by destruct 1. Qed.

Lemma asteps_no_drop A p q :
  rtc (astep uid A False) p q → rtc (step uid A) p q.
Proof. apply rtc_subrel. intros ??. apply astep_no_drop. Qed.

(** C14: dropped tasks reach no new state.  Whatever tasks the runtime
    drops, and at whichever of their awaits, the pool a schedule ends
    in is like a pool that a schedule without dropped tasks reaches
    from the same start: the same messages wait and every guild has the
    same state.  A call dropped before it wrote is matched by the call
    of the same message in a world whose cache lacks the guild, a call
    dropped after it wrote by the complete call. *)
Theorem aborts_simulated A D p q :
  rtc (astep uid A D) p q →
  ∃ q', rtc (step uid (λ _, True)) p q' ∧ alike q q'.
Proof. by apply asteps_steps. Qed.

(** C16: the pin channel stays blacklisted when tasks are dropped.  If
    the pin channel of a guild is in its blacklist, it is after every
    schedule of the waiting messages in which tasks complete or are
    dropped at any of their awaits, provided none of the messages of
    the guild names the command [unblacklist]: [set_pin_channel] sets
    the channel and blacklists it without waiting in between. *)
Theorem dropped_tasks_keep_pin_blacklisted A D g p q :
  rtc (astep uid A D) p q →
  Forall (λ m, guild_id m = Some g → command_of m ≠ Unblacklist) (pending p) →
  pin_blacklisted (state_of (registry p) g) →
  pin_blacklisted (state_of (registry q) g).
Proof.
  intros Hs Hp. eapply asteps_keeps; [done|].
  eapply Forall_impl; [exact Hp|]. intros m Hm Hg.
  rewrite may_write_command_of. auto using keeps_pin_blacklisted.
Qed.

End simulation.
