(* ===== verification/Lock.v ===== *)
(** * Lock: tasks, the lock and the awaits, one step at a time

    [Registry.step] and [Drops.astep] take a call of [handle_commands]
    as one step.  The runtime does not: it starts a task per message
    and runs the tasks in turns, each from one await to the next.  What
    makes a call one step all the same is the lock of line 29, which a
    task takes before it touches the registry and keeps, with the guard
    [handlers], until it returns or is dropped.

    [System] is the state of the tasks at that grain: the messages
    whose tasks have not passed line 29, the task that holds the lock
    with what is left of its body, the registry, and what was delivered
    and saved.  [lstep] is one turn of one task:

    - [lstep_return]: a message without a guild returns at line 27,
      without the lock, whoever holds it;
    - [lstep_lock]: when the lock is free a task passes line 29, finds
      or makes the entry of its guild (line 30) and starts the body;
    - [lstep_read], [lstep_write], [lstep_resume]: the holder reads
      [this], writes [this.config], or is resumed with the answer to
      the request it waited for;
    - [lstep_unlock]: the body has returned, with a value, an error or
      a panic, and the guard is dropped;
    - [lstep_drop], [lstep_leave]: when the runtime drops tasks ([D]),
      the holder is dropped at an await, or a task that has not passed
      line 29 is.

    [tracks s p] relates a system to the pool of the calls that have
    ended: when the lock is free the two agree up to the order of the
    waiting tasks; when it is held, the message of the holder still
    waits in [p], and the holder has come from the start of its body,
    in the state [p] has for its guild, to where it is, one node at a
    time ([Tasks.runs]).

    The theorems: [tracks] is a simulation of [lstep] by [Drops.astep]
    ([lstep_astep]), so whatever the turns of the tasks, a system whose
    lock is free again is a pool that the atomic calls reach, and a
    schedule of [Registry.step] when no task is dropped
    ([lock_serialises]); every schedule of atomic calls is a run of the
    tasks ([lock_implements]); and whenever no task is between two
    writes, the registry is one that whole calls reach
    ([awaits_see_whole_calls]). *)

From Stdlib Require Import Relation_Operators Lexicographic_Product.
From stdpp Require Import gmap relations.
From S2P Require Import Prelude Text Guild Effects Leaderboard Commands.
From S2P Require Import Dispatch Writes Answers Events Registry Tasks Async.
From S2P Require Import Drops.

#[local] Open Scope Z_scope.

(** The task that holds the lock: its call, the guild whose entry it
    borrowed at line 30, and what is left of its body. *)
Record Holder := MkHolder {
  holder_call : Call;
  holder_guild : Z;
  holder_task : Task ();
}.

(** The messages whose tasks have not passed line 29, the holder of the
    lock, the registry, and what was delivered and saved so far. *)
Record System := MkSystem {
  blocked : list Message;
  holder : option Holder;
  store : gmap Z Handler;
  sent : list Event;
}.

(** A pool is a system at rest, and a system read as a pool. *)
Definition idle (p : Pool) : System :=
  MkSystem (pending p) None (registry p) (log p).

Definition pool_of (s : System) : Pool :=
  MkPool (blocked s) (store s) (sent s).

(** No task is between two of its reads and writes: the lock is free,
    or its holder waits at an await or has returned. *)
Definition waits (s : System) : Prop :=
  match holder s with
  | None => True
  | Some o => match holder_task o with TGet _ | TPut _ _ => False | _ => True end
  end.

Section lock.
Context `{Platform} (uid : Z) (A : World → Prop) (D : Prop).

(** The body of call [c], for the registry it was started with. *)
Definition body (handlers : gmap Z Handler) (c : Call) (g : Z) : Task () :=
  @handle_guild_task _ (call_world c) handlers g uid (call_message c).

Inductive lstep : System → System → Prop :=
| lstep_return s c l1 l2 :
    blocked s = l1 ++ call_message c :: l2 →
    guild_id (call_message c) = None →
    A (call_world c) →
    lstep s (MkSystem (l1 ++ l2) (holder s) (store s) (sent s))
| lstep_lock s c g l1 l2 :
    holder s = None →
    blocked s = l1 ++ call_message c :: l2 →
    guild_id (call_message c) = Some g →
    A (call_world c) →
    lstep s (MkSystem (l1 ++ l2)
               (Some (MkHolder c g (body (entry_or_insert (store s) g).1 c g)))
               (entry_or_insert (store s) g).1 (sent s))
| lstep_read s c g k :
    holder s = Some (MkHolder c g (TGet k)) →
    lstep s (MkSystem (blocked s)
               (Some (MkHolder c g (k (state_of (store s) g))))
               (store s) (sent s))
| lstep_write s c g cfg k :
    holder s = Some (MkHolder c g (TPut cfg k)) →
    lstep s (MkSystem (blocked s) (Some (MkHolder c g k))
               (<[g := set_config cfg (state_of (store s) g)]> (store s))
               (sent s))
| lstep_resume s c g r k :
    holder s = Some (MkHolder c g (TAwait r k)) →
    lstep s (MkSystem (blocked s)
               (Some (MkHolder c g (k (@answer (call_world c) r))))
               (store s)
               (sent s ++ recorded r (@answer (call_world c) r)))
| lstep_unlock s c g t :
    holder s = Some (MkHolder c g t) →
    finished t →
    lstep s (MkSystem (blocked s) None (store s) (sent s))
| lstep_drop s c g r k :
    D →
    holder s = Some (MkHolder c g (TAwait r k)) →
    lstep s (MkSystem (blocked s) None (store s) (sent s))
| lstep_leave s m l1 l2 :
    D →
    blocked s = l1 ++ m :: l2 →
    lstep s (MkSystem (l1 ++ l2) (holder s) (store s) (sent s)).

(** The holder [o] of a system with the messages [waiting], the
    registry [handlers] and the events [events] has come this far in a
    call that [p] has not seen end. *)
Definition busy (o : Holder) (waiting : list Message)
    (handlers : gmap Z Handler) (events : list Event) (p : Pool) : Prop :=
  let c := holder_call o in
  let g := holder_guild o in
  let e := entry_or_insert (registry p) g in
  pending p ≡ₚ call_message c :: waiting ∧
  guild_id (call_message c) = Some g ∧
  A (call_world c) ∧
  ∃ ev,
    @runs (call_world c) _ (body e.1 c g) e.2 (holder_task o)
      (state_of handlers g) ev ∧
    handlers = <[g := state_of handlers g]> e.1 ∧
    events = log p ++ ev.

(** The system [s] and the pool [p] of the calls that have ended. *)
Definition tracks (s : System) (p : Pool) : Prop :=
  match holder s with
  | None => pool_of s ≡ p
  | Some o => busy o (blocked s) (store s) (sent s) p
  end.

(** The turns the holder has left, the drop of the guard included. *)
Definition holder_turns (s : System) : nat :=
  match holder s with
  | None => 0
  | Some o =>
      S (@turns (call_world (holder_call o)) _ (holder_task o)
           (state_of (store s) (holder_guild o)))
  end.

(** What decreases with every turn: the tasks that have not passed
    line 29, then the turns the holder has left. *)
Definition turns_left (s : System) : nat * nat :=
  (length (blocked s), holder_turns s).

End lock.

(** ** The simulation *)

Section simulation.
Context `{Platform} (uid : Z) (A : World → Prop) (D : Prop).

(** What is blocked waits in the pool. *)
Lemma tracks_blocked s p m : tracks uid A s p → m ∈ blocked s → m ∈ pending p.
Proof.
  unfold tracks. destruct (holder s) as [o|].
  - intros (Hp & _) Hm. rewrite Hp. set_solver.
  - intros (Hp & _) Hm. by rewrite <-Hp.
Qed.

(** A message leaves the system and the pool. *)
Lemma tracks_remove s p p' m l1 l2 :
  tracks uid A s p → blocked s = l1 ++ m :: l2 →
  pending p ≡ₚ m :: pending p' → registry p' = registry p → log p' = log p →
  tracks uid A (MkSystem (l1 ++ l2) (holder s) (store s) (sent s)) p'.
Proof.
  unfold tracks. simpl. intros Hs Hb Hp Hr Hl.
  destruct (holder s) as [o|].
  - destruct Hs as (Hp' & ?). unfold busy. rewrite Hr, Hl. split; [|done].
    rewrite Hb in Hp'. apply (Permutation_cons_inv (a:=m)).
    rewrite <-Hp, Hp', <-Permutation_middle. apply Permutation_swap.
  - destruct Hs as (Hp' & Hr' & Hl'). simpl in *.
    split_and!; simpl; [|congruence..]. apply (Permutation_cons_inv (a:=m)).
    by rewrite <-Hp, <-Hp', Hb, Permutation_middle.
Qed.

(** A call without a guild changes the pool by its message only. *)
Lemma grant_no_guild c rest p :
  guild_id (call_message c) = None →
  grant uid c rest p = MkPool rest (registry p) (log p).
Proof.
  intros Hg. unfold grant, handle_call, handle_commands. rewrite Hg. simpl.
  by rewrite app_nil_r.
Qed.

Lemma state_of_entry handlers g :
  state_of (entry_or_insert handlers g).1 g = (entry_or_insert handlers g).2.
Proof. unfold state_of. by rewrite entry_or_insert_lookup. Qed.

(** A task takes the lock: the pool does not move. *)
Lemma tracks_lock s p c g l1 l2 :
  tracks uid A s p → holder s = None →
  blocked s = l1 ++ call_message c :: l2 →
  guild_id (call_message c) = Some g → A (call_world c) →
  tracks uid A
    (MkSystem (l1 ++ l2)
       (Some (MkHolder c g (body uid (entry_or_insert (store s) g).1 c g)))
       (entry_or_insert (store s) g).1 (sent s)) p.
Proof.
  unfold tracks. intros Hs Hh Hb Hg Hc. rewrite Hh in Hs.
  destruct Hs as (Hp & Hr & Hl). simpl in *. unfold busy. simpl.
  rewrite <-Hr, <-Hl, state_of_entry.
  split_and!; [by rewrite <-Hp, Hb, Permutation_middle|done..|].
  exists []. split_and!; [constructor| |by rewrite app_nil_r].
  symmetry. apply insert_id, entry_or_insert_lookup.
Qed.

(** The holder takes a turn: the pool does not move. *)
Lemma busy_advance c g t t' ws hs hs' h' evs evs' ev' p :
  busy uid A (MkHolder c g t) ws hs evs p →
  (∀ t0 h0 ev, @runs (call_world c) _ t0 h0 t (state_of hs g) ev →
               @runs (call_world c) _ t0 h0 t' h' (ev ++ ev')) →
  (∀ e1, hs = <[g := state_of hs g]> e1 → hs' = <[g := h']> e1) →
  evs' = evs ++ ev' →
  busy uid A (MkHolder c g t') ws hs' evs' p.
Proof.
  intros (? & ? & ? & ev & Hr & Hs & ->) Ht Hh ->. simpl in *.
  specialize (Hh _ Hs). split_and!; [done..|]. exists (ev ++ ev'). simpl.
  assert (state_of hs' g = h') as ->.
  { unfold state_of. by rewrite Hh, lookup_insert_eq. }
  split_and!; [by apply Ht|done|by rewrite app_assoc].
Qed.

Lemma tracks_read s p c g k :
  tracks uid A s p → holder s = Some (MkHolder c g (TGet k)) →
  tracks uid A
    (MkSystem (blocked s) (Some (MkHolder c g (k (state_of (store s) g))))
       (store s) (sent s)) p.
Proof.
  unfold tracks. intros Hs Hh. rewrite Hh in Hs. simpl.
  eapply (busy_advance _ _ _ _ _ _ _ _ _ _ []);
    [done| |done|by rewrite app_nil_r].
  intros t0 h0 ev Hr. rewrite app_nil_r. by constructor.
Qed.

Lemma tracks_write s p c g cfg k :
  tracks uid A s p → holder s = Some (MkHolder c g (TPut cfg k)) →
  tracks uid A
    (MkSystem (blocked s) (Some (MkHolder c g k))
       (<[g := set_config cfg (state_of (store s) g)]> (store s)) (sent s)) p.
Proof.
  unfold tracks. intros Hs Hh. rewrite Hh in Hs. simpl.
  eapply (busy_advance _ _ _ _ _ _ _ _ _ _ []); [done| | |by rewrite app_nil_r].
  - intros t0 h0 ev Hr. rewrite app_nil_r. by constructor.
  - intros e1 He. rewrite He at 2. by rewrite insert_insert_eq.
Qed.

Lemma tracks_resume s p c g r k :
  tracks uid A s p → holder s = Some (MkHolder c g (TAwait r k)) →
  tracks uid A
    (MkSystem (blocked s) (Some (MkHolder c g (k (@answer (call_world c) r))))
       (store s) (sent s ++ recorded r (@answer (call_world c) r))) p.
Proof.
  unfold tracks. intros Hs Hh. rewrite Hh in Hs. simpl.
  eapply busy_advance; [done| |done|done]. intros t0 h0 ev Hr. by constructor.
Qed.

(** The holder returns: its call ends in the pool. *)
Lemma busy_unlock c g t ws hs evs p :
  busy uid A (MkHolder c g t) ws hs evs p → finished t →
  ∃ p', step uid A p p' ∧ MkPool ws hs evs ≡ p'.
Proof.
  intros (Hp & Hg & Hc & ev & Hr & Hs & ->) Ht. simpl in *.
  assert (call_message c ∈ pending p) as (k1 & k2 & Hk)%list_elem_of_split.
  { rewrite Hp. set_solver. }
  exists (grant uid c (k1 ++ k2) p). split; [by constructor|].
  destruct (runs_finished _ _ _ _ _ Hr Ht) as [Hf Hev].
  unfold grant, handle_call. rewrite <-handle_commands_task_run.
  unfold handle_commands_task. rewrite Hg. cbn zeta. unfold body in *.
  rewrite Hf, Hev. split_and!; simpl; [|done..].
  apply (Permutation_cons_inv (a:=call_message c)).
  by rewrite <-Hp, Hk, Permutation_middle.
Qed.

(** The holder is dropped: its call is, in the pool. *)
Lemma busy_drop c g r k ws hs evs p :
  D → busy uid A (MkHolder c g (TAwait r k)) ws hs evs p →
  ∃ p', astep uid A D p p' ∧ MkPool ws hs evs ≡ p'.
Proof.
  intros HD (Hp & Hg & Hc & ev & Hr & Hs & ->). simpl in *.
  assert (call_message c ∈ pending p) as (k1 & k2 & Hk)%list_elem_of_split.
  { rewrite Hp. set_solver. }
  apply runs_dropped in Hr as [n Hn].
  exists (MkPool (k1 ++ k2) hs (log p ++ ev)). split.
  - apply (astep_drop _ _ _ _ c k1 k2 n); [done..|].
    unfold drop_call, abort_commands. rewrite Hg. cbn zeta. unfold body in Hn.
    rewrite Hn. simpl. by rewrite <-Hs.
  - split_and!; simpl; [|done..].
    apply (Permutation_cons_inv (a:=call_message c)).
    by rewrite <-Hp, Hk, Permutation_middle.
Qed.

(** [tracks] is a simulation: a turn of a task is no step of the pool,
    or the end of a call. *)
Lemma lstep_astep s s' p :
  lstep uid A D s s' → tracks uid A s p →
  ∃ p', rtc (astep uid A D) p p' ∧ tracks uid A s' p'.
Proof.
  intros Hs Ht.
  destruct Hs as [s c l1 l2 Hb Hg Hc|s c g l1 l2 Hh Hb Hg Hc|s c g k Hh
    |s c g cfg k Hh|s c g r k Hh|s c g t Hh Hf|s c g r k HD Hh|s m l1 l2 HD Hb].
  - assert (call_message c ∈ pending p) as (k1 & k2 & Hk)%list_elem_of_split.
    { eapply tracks_blocked; [done|]. rewrite Hb. set_solver. }
    exists (grant uid c (k1 ++ k2) p).
    split; [apply rtc_once, astep_grant; by constructor|].
    rewrite grant_no_guild by done.
    eapply tracks_remove; [done..| |done|done]. simpl.
    by rewrite Hk, Permutation_middle.
  - exists p. split; [done|]. by apply tracks_lock.
  - exists p. split; [done|]. by apply tracks_read.
  - exists p. split; [done|]. by apply tracks_write.
  - exists p. split; [done|]. by apply tracks_resume.
  - unfold tracks in Ht. rewrite Hh in Ht.
    destruct (busy_unlock _ _ _ _ _ _ _ Ht Hf) as (p' & ? & ?). exists p'.
    split; [by apply rtc_once, astep_grant|done].
  - unfold tracks in Ht. rewrite Hh in Ht.
    destruct (busy_drop _ _ _ _ _ _ _ _ HD Ht) as (p' & ? & ?). exists p'.
    split; [by apply rtc_once|done].
  - assert (m ∈ pending p) as (k1 & k2 & Hk)%list_elem_of_split.
    { eapply tracks_blocked; [done|]. rewrite Hb. set_solver. }
    exists (MkPool (k1 ++ k2) (registry p) (log p)).
    split; [by eapply rtc_once, astep_leave|].
    eapply tracks_remove; [done..| |done|done]. simpl.
    by rewrite Hk, Permutation_middle.
Qed.

Lemma lsteps_asteps s s' p :
  rtc (lstep uid A D) s s' → tracks uid A s p →
  ∃ p', rtc (astep uid A D) p p' ∧ tracks uid A s' p'.
Proof.
  intros Hs. revert p. induction Hs as [s|s s1 s' Hs1 _ IH]; intros p Hp.
  { by exists p. }
  destruct (lstep_astep _ _ _ Hs1 Hp) as (p1 & ? & Hp1).
  destruct (IH _ Hp1) as (p' & ? & ?). exists p'. split; [by etrans|done].
Qed.

Lemma tracks_idle p : tracks uid A (idle p) p.
Proof. by destruct p. Qed.

(** C10: the lock serialises the calls.  Let the tasks take their turns
    in any order: tasks without a guild return at any time, a task
    takes the lock when it is free, the holder reads, writes and is
    resumed with the answers of its world, gives the lock back when it
    returns, fails or panics, and any task is dropped at an await when
    the runtime does that.  Whenever the lock is free again, the
    waiting messages, the registry and everything delivered and saved
    are those of a schedule of whole calls from the pool the tasks
    started in, up to the order of the waiting messages: calls of
    [Dispatch.handle_commands] and calls dropped at an await
    ([Drops.astep]), and calls of [handle_commands] alone
    ([Registry.step]) when no task is dropped. *)
Theorem lock_serialises p s :
  rtc (lstep uid A D) (idle p) s → holder s = None →
  ∃ q, rtc (astep uid A D) p q ∧ pool_of s ≡ q ∧
       (¬ D → rtc (step uid A) p q).
Proof.
  intros Hs Hh.
  destruct (lsteps_asteps _ _ p Hs (tracks_idle p)) as (q & Hq & Ht).
  exists q. unfold tracks in Ht. rewrite Hh in Ht. split_and!; [done..|].
  intros HD. eapply rtc_subrel; [|done]. intros p1 p2 Hp. by destruct Hp.
Qed.

End simulation.

(** ** The relation has no stuck holder

    Two facts of the relation, used to read the theorems above and not
    properties of the program: a run of [lstep] is finite, and it can
    only stop with the lock free and nobody before line 29.  Both hold
    by the way [lstep] is made: a body is a finite tree and the world
    answers every request at once.  A request that is never answered,
    which is how a task would keep the lock, is not a run of [lstep];
    how many requests a body makes while it holds the lock is
    [Async.handle_guild_awaits]. *)

Section progress.
Context `{Platform} (uid : Z) (A : World → Prop) (D : Prop).

(** Every turn takes a task past line 29 or brings the holder nearer
    to its end. *)
Lemma lstep_turns_left s s' :
  lstep uid A D s s' →
  slexprod _ _ lt lt (turns_left s') (turns_left s).
Proof.
  unfold turns_left, holder_turns.
  destruct 1 as [s c l1 l2 Hb|s c g l1 l2 _ Hb|s c g k Hh|s c g cfg k Hh
    |s c g r k Hh|s c g t Hh|s c g r k _ Hh|s m l1 l2 _ Hb]; simpl;
    try (rewrite Hb, !length_app; apply left_slex; simpl; lia);
    rewrite Hh; apply right_slex; simpl; try lia.
  unfold state_of at 1. rewrite lookup_insert_eq. simpl. lia.
Qed.

(** No run of the tasks goes on for ever. *)
Lemma lstep_sn s : sn (lstep uid A D) s.
Proof.
  apply (wf_projected (slexprod _ _ lt lt) turns_left);
    [|apply wf_slexprod; apply lt_wf].
  intros ??. apply lstep_turns_left.
Qed.

(** The holder of the lock can always take its next turn. *)
Lemma holder_red s o : holder s = Some o → red (lstep uid A D) s.
Proof.
  destruct o as [c g [a|e| |k|cfg k|r k]]; intros Hh; eexists;
    [by eapply lstep_unlock..|by eapply lstep_read|by eapply lstep_write
    |by eapply lstep_resume].
Qed.

(** When the lock is free, a task that has not passed line 29 can. *)
Lemma blocked_red s W m l :
  A W → holder s = None → blocked s = m :: l → red (lstep uid A D) s.
Proof.
  intros HW Hh Hb. destruct (guild_id m) as [g|] eqn:Hg; eexists.
  - by eapply (lstep_lock _ _ _ _ (MkCall W m) g []).
  - by eapply (lstep_return _ _ _ _ (MkCall W m) []).
Qed.

Lemma nf_rest s :
  (∃ W, A W) → nf (lstep uid A D) s → holder s = None ∧ blocked s = [].
Proof.
  intros [W HW] Hs. destruct (holder s) as [o|] eqn:Hh.
  { destruct Hs. by eapply holder_red. }
  split; [done|]. destruct (blocked s) as [|m l] eqn:Hb; [done|].
  destruct Hs. by eapply blocked_red.
Qed.

End progress.

(** ** Every atomic call is a run of its task *)

Section complete.
Context `{Platform} (uid : Z) (A : World → Prop) (D : Prop).

Lemma state_of_written handlers g h : state_of (<[g := h]> handlers) g = h.
Proof. unfold state_of. by rewrite lookup_insert_eq. Qed.

(** The holder runs to its end and gives the lock back. *)
Lemma holder_completes c g t waiting handlers events :
  is_Some (handlers !! g) →
  let r := @complete (call_world c) _ t (state_of handlers g) in
  rtc (lstep uid A D)
    (MkSystem waiting (Some (MkHolder c g t)) handlers events)
    (MkSystem waiting None (<[g := final r]> handlers) (events ++ trace r)).
Proof.
  revert handlers events.
  induction t as [a|e| |k IH|cfg k IH|r k IH]; intros handlers events Hg; simpl.
  1-3: rewrite app_nil_r, insert_id
         by (unfold state_of; by destruct Hg as [? ->]);
       by eapply rtc_once, lstep_unlock.
  - eapply rtc_l; [by eapply lstep_read|]. by apply IH.
  - eapply rtc_l; [by eapply lstep_write|]. simpl.
    specialize (IH (<[g:=set_config cfg (state_of handlers g)]> handlers) events).
    cbn zeta in IH. rewrite state_of_written, insert_insert_eq in IH.
    apply IH. by rewrite lookup_insert_eq.
  - eapply rtc_l; [by eapply lstep_resume|]. simpl. rewrite app_assoc.
    by apply IH.
Qed.

(** The holder runs to its [n]-th await and is dropped there. *)
Lemma holder_dropped c g t n s waiting handlers events :
  D → is_Some (handlers !! g) →
  @cancel (call_world c) _ n t (state_of handlers g) = Some s →
  rtc (lstep uid A D)
    (MkSystem waiting (Some (MkHolder c g t)) handlers events)
    (MkSystem waiting None (<[g := at_state s]> handlers) (events ++ seen s)).
Proof.
  intros HD. revert n s handlers events.
  induction t as [a|e| |k IH|cfg k IH|r k IH]; intros n s handlers events Hg;
    simpl; try done.
  - intros Hs. eapply rtc_l; [by eapply lstep_read|]. by eapply IH.
  - intros Hs. eapply rtc_l; [by eapply lstep_write|]. simpl.
    specialize (IH n s (<[g:=set_config cfg (state_of handlers g)]> handlers)
                  events).
    rewrite state_of_written, insert_insert_eq in IH.
    apply IH; [by rewrite lookup_insert_eq|done].
  - destruct n as [|n].
    + intros [= <-]. simpl.
      rewrite app_nil_r, insert_id
        by (unfold state_of; by destruct Hg as [? ->]).
      by eapply rtc_once, lstep_drop.
    + intros (s' & Hs & ->)%fmap_Some. eapply rtc_l; [by eapply lstep_resume|].
      simpl. rewrite app_assoc. by eapply IH.
Qed.

Lemma entry_or_insert_is_Some handlers g :
  is_Some ((entry_or_insert handlers g).1 !! g).
Proof. by rewrite entry_or_insert_lookup. Qed.

(** A call of the pool is a run of its task. *)
Lemma step_lsteps p q : step uid A p q → rtc (lstep uid A D) (idle p) (idle q).
Proof.
  intros (c & l1 & l2 & Hl & Hc & ->)%step_inv.
  destruct (guild_id (call_message c)) as [g|] eqn:Hg.
  - eapply rtc_l; [by apply (lstep_lock uid A D (idle p) c g l1 l2)|]. simpl.
    unfold grant, handle_call. rewrite <-handle_commands_task_run.
    unfold handle_commands_task. rewrite Hg. cbn zeta.
    rewrite <-(state_of_entry (registry p) g).
    apply holder_completes, entry_or_insert_is_Some.
  - rewrite (grant_no_guild _ _ _ _ Hg).
    by apply rtc_once, (lstep_return uid A D (idle p) c l1 l2).
Qed.

Lemma astep_lsteps p q :
  astep uid A D p q → rtc (lstep uid A D) (idle p) (idle q).
Proof.
  intros Hs. destruct Hs as [p q Hs|p m l1 l2 HD Hl|p c l1 l2 n q HD Hl Hc Hq].
  - by apply step_lsteps.
  - by apply rtc_once, (lstep_leave uid A D (idle p) m l1 l2).
  - apply bind_Some in Hq as ([hs s] & Hs & [= <-]).
    unfold abort_commands in Hs.
    destruct (guild_id (call_message c)) as [g|] eqn:Hg; [|done].
    apply bind_Some in Hs as (s' & Hs & [= <- <-]).
    eapply rtc_l; [by apply (lstep_lock uid A D (idle p) c g l1 l2)|]. simpl.
    rewrite <-(state_of_entry (registry p) g) in Hs.
    by eapply holder_dropped; [|apply entry_or_insert_is_Some|].
Qed.

(** C17: the tasks implement the atomic calls.  Every schedule of whole
    calls, completed or dropped at an await, is a run of the tasks: the
    task of each call takes the lock, runs its body node by node under
    the world of the call, and gives the lock back or is dropped before
    the next task takes it.  With [lock_serialises]: the pools of the
    atomic calls are exactly the states in which the tasks leave the
    lock free. *)
Theorem lock_implements p q :
  rtc (astep uid A D) p q → rtc (lstep uid A D) (idle p) (idle q).
Proof.
  induction 1 as [p|p p' q Hp _ IH]; [done|]. etrans; [|done].
  by apply astep_lsteps.
Qed.

(** The holder comes as far as its task runs, one turn per node. *)
Lemma runs_lsteps c g t0 t h ev waiting handlers events :
  is_Some (handlers !! g) →
  @runs (call_world c) _ t0 (state_of handlers g) t h ev →
  rtc (lstep uid A D)
    (MkSystem waiting (Some (MkHolder c g t0)) handlers events)
    (MkSystem waiting (Some (MkHolder c g t)) (<[g := h]> handlers)
       (events ++ ev)).
Proof.
  intros Hg. induction 1 as [|k h ev _ IH|cfg k h ev _ IH|r k h ev _ IH].
  - rewrite app_nil_r, insert_id by (unfold state_of; by destruct Hg as [? ->]).
    done.
  - eapply rtc_r; [exact IH|].
    eapply (eq_rect _ (lstep uid A D _)); [by eapply lstep_read|]. simpl.
    by rewrite state_of_written.
  - eapply rtc_r; [exact IH|].
    eapply (eq_rect _ (lstep uid A D _)); [by eapply lstep_write|]. simpl.
    by rewrite state_of_written, insert_insert_eq.
  - eapply rtc_r; [exact IH|]. rewrite app_assoc. by eapply lstep_resume.
Qed.

(** A task takes the lock and its first [n] turns. *)
Lemma lock_advances n p c g l1 l2 :
  pending p = l1 ++ call_message c :: l2 →
  guild_id (call_message c) = Some g → A (call_world c) →
  let e := entry_or_insert (registry p) g in
  let r := @advance (call_world c) _ n (body uid e.1 c g) e.2 in
  rtc (lstep uid A D) (idle p)
    (MkSystem (l1 ++ l2) (Some (MkHolder c g r.1.1)) (<[g := r.1.2]> e.1)
       (log p ++ r.2)).
Proof.
  intros Hl Hg Hc. cbv zeta.
  eapply rtc_l; [by apply (lstep_lock uid A D (idle p) c g l1 l2)|]. simpl.
  apply runs_lsteps; [apply entry_or_insert_is_Some|].
  rewrite state_of_entry. apply runs_advance.
Qed.

End complete.

(** ** What the awaits see *)

Section suspended.
Context `{Platform} (uid : Z) (A : World → Prop) (D : Prop).

(** A run of the tasks is one of a runtime that may drop them. *)
Lemma lstep_may_drop s s' : lstep uid A D s s' → lstep uid A True s s'.
Proof. destruct 1; by econstructor. Qed.

(** A system in which no task is between two writes lets go of the
    lock without a write. *)
Lemma waits_release s :
  waits s →
  ∃ s', rtc (lstep uid A True) s s' ∧ holder s' = None ∧ store s' = store s.
Proof.
  unfold waits. destruct (holder s) as [[c g t]|] eqn:Hh; [|by exists s].
  intros Ht. exists (MkSystem (blocked s) None (store s) (sent s)).
  split; [apply rtc_once|done].
  destruct t; try done; first [by eapply lstep_unlock|by eapply lstep_drop].
Qed.

(** C18: no await sees a half-written registry.  However the tasks take
    their turns, and whether or not the runtime drops tasks, whenever
    no task is between two of its reads and writes (the lock is free,
    or its holder is suspended at an await or has returned) the state
    of every guild is one that a schedule of whole calls of
    [Dispatch.handle_commands] reaches from the pool the tasks started
    in.  Between two writes this fails ([Scenarios.half_written]); no
    task is suspended there, and the lock keeps the others out. *)
Theorem awaits_see_whole_calls p s :
  rtc (lstep uid A D) (idle p) s → waits s →
  ∃ q, rtc (step uid (λ _, True)) p q ∧
       ∀ g, state_of (store s) g = state_of (registry q) g.
Proof.
  intros Hs (s' & Hs' & Hh & Hr)%waits_release.
  eapply rtc_subrel in Hs; [|exact lstep_may_drop].
  destruct (lsteps_asteps uid A True (idle p) s' p) as (q & Hq & Ht);
    [by etrans|apply tracks_idle|].
  unfold tracks in Ht. rewrite Hh in Ht. destruct Ht as (_ & Ht & _).
  destruct (asteps_steps uid A True p p q) as (q' & ? & [_ Hq']); [done..|].
  exists q'. split; [done|]. intros g. by rewrite <-Hq', <-Ht, <-Hr.
Qed.

End suspended.
