(* ===== verification/Arrivals.v ===== *)
(** * Arrivals: messages that come in while others are handled

    The chat library starts a task for every message when the message
    comes in, not in batches: while a task holds the lock of line 29
    and waits for the chat service, new tasks are started and wait for
    the lock behind it.  [Lock.lstep] runs the tasks of a pool that is
    given at the start.  Here messages arrive during the run:

    - [arrive ms s] is the system [s] with the tasks of the messages
      [ms] started: they have not passed line 29;
    - [oruns s ms s'] is a run from [s] to [s'] in which the tasks take
      their turns ([Lock.lstep]) and the messages [ms] arrive, in this
      order, each at any time.

    Nothing a task does depends on which other tasks have been started
    and not passed line 29, so an arrival can be moved before every
    turn that came before it: a run with arrivals is a run of the batch
    with the arrived messages in it ([oruns_lsteps]), and conversely
    ([oruns_arrive_all]).  These are lemmas about the relations, which
    hold of any body; they are here so that what [Lock] proves of a
    batch can be used when messages arrive ([arrivals_serialised]), as
    [Disk.tasks_durable] does. *)

From stdpp Require Import gmap relations.
From S2P Require Import Prelude Text Guild Effects Leaderboard Commands.
From S2P Require Import Dispatch Writes Answers Events Registry Tasks Async.
From S2P Require Import Drops Lock.

#[local] Open Scope Z_scope.

(** The tasks of the messages [ms] are started. *)
Definition arrive (ms : list Message) (s : System) : System :=
  MkSystem (blocked s ++ ms) (holder s) (store s) (sent s).

(** The pool with the messages [ms] in it from the start. *)
Definition preload (ms : list Message) (p : Pool) : Pool :=
  MkPool (pending p ++ ms) (registry p) (log p).

Section arrivals.
Context `{Platform} (uid : Z) (A : World → Prop) (D : Prop).

(** A run of the tasks into which the messages [ms] arrive. *)
Inductive oruns : System → list Message → System → Prop :=
| oruns_done s : oruns s [] s
| oruns_turn s s' ms s'' :
    lstep uid A D s s' → oruns s' ms s'' → oruns s ms s''
| oruns_arrive s m ms s'' :
    oruns (arrive [m] s) ms s'' → oruns s (m :: ms) s''.

End arrivals.

Section commute.
Context `{Platform} (uid : Z) (A : World → Prop) (D : Prop).

Lemma arrive_nil s : arrive [] s = s.
Proof. destruct s. unfold arrive. simpl. by rewrite app_nil_r. Qed.

Lemma arrive_arrive ms1 ms2 s : arrive ms2 (arrive ms1 s) = arrive (ms1 ++ ms2) s.
Proof. unfold arrive. simpl. by rewrite app_assoc. Qed.

Lemma idle_preload ms p : idle (preload ms p) = arrive ms (idle p).
Proof. done. Qed.

(** A task takes its turn whoever else has been started. *)
Lemma lstep_arrive ms s s' :
  lstep uid A D s s' → lstep uid A D (arrive ms s) (arrive ms s').
Proof.
  destruct 1 as [s c l1 l2 Hb|s c g l1 l2 Hh Hb|s c g k Hh|s c g cfg k Hh
    |s c g r k Hh|s c g t Hh|s c g r k HD Hh|s m l1 l2 HD Hb];
    unfold arrive; simpl; rewrite <-?app_assoc;
    [eapply (lstep_return _ _ _ (arrive ms s) c l1 (l2 ++ ms))
    |eapply (lstep_lock _ _ _ (arrive ms s) c g l1 (l2 ++ ms))
    |eapply (lstep_read _ _ _ (arrive ms s))
    |eapply (lstep_write _ _ _ (arrive ms s))
    |eapply (lstep_resume _ _ _ (arrive ms s))
    |eapply (lstep_unlock _ _ _ (arrive ms s))
    |eapply (lstep_drop _ _ _ (arrive ms s))
    |eapply (lstep_leave _ _ _ (arrive ms s) m l1 (l2 ++ ms))];
    simpl; rewrite ?Hb, <-?app_assoc; done.
Qed.

Lemma lsteps_arrive ms s s' :
  rtc (lstep uid A D) s s' → rtc (lstep uid A D) (arrive ms s) (arrive ms s').
Proof.
  induction 1 as [|s s1 s' Hs _ IH]; [done|].
  eapply rtc_l; [by apply lstep_arrive|done].
Qed.

(** The arrivals moved to the start. *)
Lemma oruns_lsteps s ms s' :
  oruns uid A D s ms s' → rtc (lstep uid A D) (arrive ms s) s'.
Proof.
  induction 1 as [s|s s1 ms s' Hs _ IH|s m ms s' _ IH].
  - by rewrite arrive_nil.
  - eapply rtc_l; [by apply lstep_arrive|done].
  - by rewrite arrive_arrive in IH.
Qed.

(** A run of a batch is a run in which everything arrived at once. *)
Lemma lsteps_oruns s s' : rtc (lstep uid A D) s s' → oruns uid A D s [] s'.
Proof.
  induction 1 as [|s s1 s' Hs _ IH]; [constructor|by eapply oruns_turn].
Qed.

Lemma oruns_arrive_all s ms s' :
  oruns uid A D (arrive ms s) [] s' → oruns uid A D s ms s'.
Proof.
  revert s. induction ms as [|m ms IH]; intros s; [by rewrite arrive_nil|].
  intros Hs. apply oruns_arrive, IH. by rewrite arrive_arrive.
Qed.

(** Turns before a run with arrivals. *)
Lemma oruns_turns s s' ms s'' :
  rtc (lstep uid A D) s s' → oruns uid A D s' ms s'' → oruns uid A D s ms s''.
Proof. induction 1; [done|]. intros. by eapply oruns_turn; [|auto]. Qed.

(** A schedule of whole calls is a run of the tasks in which nothing
    arrives. *)
Lemma steps_oruns p q :
  rtc (step uid A) p q → oruns uid A D (idle p) [] (idle q).
Proof.
  induction 1 as [|p p' q Hp _ IH]; [constructor|].
  eapply oruns_turns; [by apply step_lsteps|done].
Qed.

(** Whenever the lock is free, the registry and the log are those of a
    schedule of whole calls of the batch with the arrived messages. *)
Lemma arrivals_serialised p ms s :
  oruns uid A D (idle p) ms s → holder s = None →
  ∃ q, rtc (astep uid A D) (preload ms p) q ∧ pool_of s ≡ q.
Proof.
  intros Hs%oruns_lsteps Hh. rewrite <-idle_preload in Hs.
  destruct (lsteps_asteps uid A D _ _ (preload ms p) Hs) as (q & Hq & Ht);
    [apply tracks_idle|].
  exists q. unfold tracks in Ht. by rewrite Hh in Ht.
Qed.

End commute.
