(* ===== verification/Disk.v ===== *)
(** * Disk: what the saves write, and what a restart recovers

    [commands.rs] saves in two places: [save] calls
    [HandlerWrapper::save_server_taters] (line 382), and every command
    of an admin is followed by [HandlerWrapper::save_server_config]
    (line 412).  Both are given the registry and the id of the guild.
    The two functions and the loading at startup are in the handler
    module, outside [commands.rs]; the design document gives their
    contract: [save_config(guild_id, config)], [save_counts(guild_id,
    received, given)] and [load(guild_id) -> Option<GuildState>].

    In the other files a save is an event of the log.  Here the log is
    replayed:

    - [Disk] holds what is stored for each guild: its configuration and
      its two tables, each written by its own save;
    - [write] is the effect of one event on the disk, [disk_after] the
      disk after a log;
    - [load] is what startup reads for a guild, with the defaults of
      [Handler::new] for the part that was never saved, and [restart]
      the registry a restart begins with;
    - [durable d handlers] says that a restart from [d] recovers the
      state of every guild of the registry.

    The theorems say when the registry is durable.  A call that returns
    normally keeps it so, whatever the chat service and the disk did to
    it ([returned_call_durable]); so does every run of the tasks when
    every delivery and save succeeds and no task is dropped
    ([tasks_durable]).  A call whose reply cannot be delivered, or whose
    task is dropped after its writes, has written and not saved: the
    registry is ahead of the disk until the next command of an admin of
    the guild returns ([admin_command_heals]). *)

From stdpp Require Import gmap relations.
From S2P Require Import Prelude Text Guild Effects Leaderboard Commands.
From S2P Require Import Dispatch Writes Answers Events Registry Tasks Async.
From S2P Require Import Drops Lock Arrivals.

#[local] Open Scope Z_scope.

(** The two tables of a guild. *)
Definition tables (h : Handler) : gmap Z Z * gmap Z Z :=
  (taters_got h, taters_given h).

Definition set_tables (t : gmap Z Z * gmap Z Z) (h : Handler) : Handler :=
  {| config := config h; taters_got := t.1; taters_given := t.2 |}.

(** What is stored, by guild. *)
Record Disk := MkDisk {
  disk_config : gmap Z Config;
  disk_taters : gmap Z (gmap Z Z * gmap Z Z);
}.

(** [save_server_config(path, handlers, id)]: the configuration of the
    guild [id] in the registry replaces the stored one. *)
Definition save_server_config (handlers : gmap Z Handler) (id : Z) (d : Disk)
    : Disk :=
  match handlers !! id with
  | Some this => MkDisk (<[id := config this]> (disk_config d)) (disk_taters d)
  | None => d
  end.

(** [save_server_taters(path, handlers, id)]: the same for the tables. *)
Definition save_server_taters (handlers : gmap Z Handler) (id : Z) (d : Disk)
    : Disk :=
  match handlers !! id with
  | Some this => MkDisk (disk_config d) (<[id := tables this]> (disk_taters d))
  | None => d
  end.

(** The effect of an event of the log on the disk: the saves that
    succeeded are the saves of the log. *)
Definition write (d : Disk) (e : Event) : Disk :=
  match e with
  | EvSaveConfig id handlers => save_server_config handlers id d
  | EvSaveTaters id handlers => save_server_taters handlers id d
  | _ => d
  end.

Definition disk_after (d : Disk) (t : list Event) : Disk := foldl write d t.

(** The recovered state of guild [g] after an event, [h] being the
    recovered state before. *)
Definition absorb (g : Z) (h : Handler) (e : Event) : Handler :=
  match e with
  | EvSaveConfig id handlers =>
      if decide (id = g)
      then from_option (λ this, set_config (config this) h) h (handlers !! g)
      else h
  | EvSaveTaters id handlers =>
      if decide (id = g)
      then from_option (λ this, set_tables (tables this) h) h (handlers !! g)
      else h
  | _ => h
  end.

(** Every delivery and every save succeeds. *)
Definition reliable (W : World) : Prop := ∀ e, @deliver W e = Ok ().

Section disk.
Context `{Platform}.

(** What startup makes of the two files of a guild: nothing when there
    is neither, and [Handler::new] for the part that is missing. *)
Definition recovered (c : option Config) (t : option (gmap Z Z * gmap Z Z))
    : Handler :=
  set_tables (default (tables Handler_new) t)
    (set_config (default (config Handler_new) c) Handler_new).

Definition load_files (c : option Config) (t : option (gmap Z Z * gmap Z Z))
    : option Handler :=
  match c, t with
  | None, None => None
  | _, _ => Some (recovered c t)
  end.

(** [load(guild_id)] *)
Definition load (d : Disk) (id : Z) : option Handler :=
  load_files (disk_config d !! id) (disk_taters d !! id).

(** The registry after a restart. *)
Definition restart (d : Disk) : gmap Z Handler :=
  merge load_files (disk_config d) (disk_taters d).

(** A restart recovers the state of every guild. *)
Definition durable (d : Disk) (handlers : gmap Z Handler) : Prop :=
  ∀ g, state_of (restart d) g = state_of handlers g.

End disk.

(** ** The disk after a log *)

Lemma disk_after_app d t1 t2 :
  disk_after d (t1 ++ t2) = disk_after (disk_after d t1) t2.
Proof. apply foldl_app. Qed.

Section replay.
Context `{Platform}.

Lemma lookup_restart d g : restart d !! g = load d g.
Proof.
  unfold restart, load. rewrite lookup_merge.
  by destruct (disk_config d !! g), (disk_taters d !! g).
Qed.

Lemma state_of_restart d g :
  state_of (restart d) g = recovered (disk_config d !! g) (disk_taters d !! g).
Proof.
  unfold state_of. rewrite lookup_restart. unfold load.
  by destruct (disk_config d !! g), (disk_taters d !! g).
Qed.

(** Nothing on disk: every guild starts anew. *)
Lemma restart_empty : restart (MkDisk ∅ ∅) = ∅.
Proof.
  apply map_eq. intros g. rewrite lookup_restart. unfold load. simpl.
  by rewrite !lookup_empty.
Qed.

(** A save is an update of the recovered state of its guild. *)
Lemma recover_write d e g :
  state_of (restart (write d e)) g = absorb g (state_of (restart d) g) e.
Proof.
  rewrite !state_of_restart.
  destruct e as [| | |id hs|id hs]; simpl; try done;
    unfold save_server_taters, save_server_config;
    (destruct (decide (id = g)) as [->|];
      [destruct (hs !! g) as [this|]; simpl; [|done];
         by rewrite lookup_insert_eq
      |destruct (hs !! id); simpl; [|done]; by rewrite lookup_insert_ne]).
Qed.

Lemma recover_after d t g :
  state_of (restart (disk_after d t)) g = foldl (absorb g) (state_of (restart d) g) t.
Proof.
  revert d. induction t as [|e t IH]; intros d; [done|].
  simpl. by rewrite IH, recover_write.
Qed.

End replay.

(** ** What the recovered state keeps *)

Lemma handler_eq h1 h2 : config h1 = config h2 → tables h1 = tables h2 → h1 = h2.
Proof. destruct h1, h2. unfold tables. simpl. by intros -> [= -> ->]. Qed.

(** What every event of a log keeps of the recovered state, the log
    keeps. *)
Lemma absorb_invariant (I : Handler → Prop) g x t :
  I x → Forall (λ e, ∀ x, I x → I (absorb g x e)) t → I (foldl (absorb g) x t).
Proof.
  intros Hx Ht. revert x Hx. induction Ht as [|e t He _ IH]; intros x Hx; [done|].
  simpl. by apply IH, He.
Qed.

(** The recovered configuration depends on the saves of the
    configuration only. *)
Lemma config_absorb g x y e :
  config x = config y →
  config (absorb g x e) =
    config (if is_save_config e then absorb g y e else y).
Proof.
  intros Hxy. destruct e as [| | |id hs|id hs]; simpl; try done;
    destruct (decide (id = g)); try done; by destruct (hs !! g).
Qed.

Lemma config_absorb_saves g x y t :
  config x = config y →
  config (foldl (absorb g) x t) = config (foldl (absorb g) y (config_saves t)).
Proof.
  revert x y. induction t as [|e t IH]; intros x y Hxy; [done|].
  unfold config_saves in *. pose proof (config_absorb g x y e Hxy) as He.
  destruct (is_save_config e) eqn:Hs.
  - rewrite filter_cons_True by done. simpl. by apply IH.
  - rewrite filter_cons_False by congruence. simpl. by apply IH.
Qed.

(** ** One call *)

Section call.
Context `{Platform, World}.

(** A message that is not a command of an admin writes nothing. *)
Lemma writes_for_not_admin h guild uid message :
  admin_command h guild uid message = false → writes_for h guild uid message = [].
Proof.
  unfold admin_command, writes_for. destruct (ignored _ _ _ _); [done|].
  destruct (admin_outcome _ _ _) as [[[]|]| |]; try done;
    destruct (split_whitespace _) as [|w [|cmd args]]; try done.
  intros _. apply writes_of_user.
Qed.

Section body.
Context (handlers : gmap Z Handler) (guild uid : Z) (message : Message).
Context (h : Handler).
Hypothesis Hguild : guild_id message = Some guild.

#[local] Notation ran := (run (handle_guild handlers guild uid message) h).

(** The saves of the body are saves of its guild ... *)
Lemma absorb_body_other g :
  g ≠ guild → Forall (λ e, ∀ x, absorb g x e = x) (trace ran).
Proof.
  intros Hg. apply emits_handle_guild_from; [by intros []|..];
    intros id Hid x; simpl; rewrite decide_False; congruence.
Qed.

(** ... with the tables the body found. *)
Lemma absorb_body_tables :
  Forall (λ e, ∀ x, tables x = tables h → tables (absorb guild x e) = tables h)
    (trace ran).
Proof.
  apply emits_handle_guild_from; [by intros []|..]; intros id Hid x Hx; simpl;
    (destruct (decide (id = guild)) as [->|]; [|done]);
    by rewrite lookup_insert_eq.
Qed.

Lemma tables_body : tables (final ran) = tables h.
Proof.
  unfold tables. rewrite final_handle_guild.
  by destruct (write_all_taters (writes_for h guild uid message) h) as [-> ->].
Qed.

(** The recovered configuration after the body: the one the body left,
    when the message is a command of an admin and the body returned. *)
Lemma config_absorb_body x :
  config (foldl (absorb guild) x (trace ran)) =
    if admin_command h guild uid message && bool_decide (outcome ran = Done ())
    then config (final ran) else config x.
Proof.
  rewrite (config_absorb_saves _ x x) by done.
  rewrite config_saves_handle_guild by done.
  destruct (_ && _); [|done]. simpl.
  by rewrite decide_True, lookup_insert_eq by done.
Qed.

(** When the body returns normally, or has written nothing, a restart
    recovers the state it left. *)
Lemma body_durable :
  outcome ran = Done () ∨ final ran = h →
  foldl (absorb guild) h (trace ran) = final ran.
Proof.
  intros Hr. apply handler_eq.
  - rewrite config_absorb_body.
    destruct (admin_command h guild uid message) eqn:Ha; cbn [andb].
    + case_bool_decide; [done|]. destruct Hr as [Hr|Hr]; [done|by rewrite Hr].
    + by rewrite final_handle_guild, writes_for_not_admin.
  - rewrite tables_body.
    apply (absorb_invariant (λ x, tables x = tables h)); [done|].
    apply absorb_body_tables.
Qed.

End body.

Lemma events_handle_commands handlers uid message g :
  guild_id message = Some g →
  events (handle_commands handlers uid message) =
    trace (run (handle_guild (entry_or_insert handlers g).1 g uid message)
             (state_of handlers g)).
Proof.
  intros Hg. unfold handle_commands, state_of. rewrite Hg. simpl.
  by rewrite entry_or_insert_this.
Qed.

Lemma returned_handle_commands handlers uid message g :
  guild_id message = Some g →
  returned (handle_commands handlers uid message) =
    outcome (run (handle_guild (entry_or_insert handlers g).1 g uid message)
               (state_of handlers g)).
Proof.
  intros Hg. unfold handle_commands, state_of. rewrite Hg. simpl.
  by rewrite entry_or_insert_this.
Qed.

Lemma state_of_handle_commands handlers uid message g :
  guild_id message = Some g →
  state_of (handlers_after (handle_commands handlers uid message)) g =
    final (run (handle_guild (entry_or_insert handlers g).1 g uid message)
             (state_of handlers g)).
Proof. intros Hg. unfold state_of at 1. by rewrite handle_commands_this. Qed.

(** A call that returns normally, or that leaves every state as it
    was, keeps the registry durable. *)
Lemma handle_commands_durable d handlers uid message :
  let r := handle_commands handlers uid message in
  durable d handlers →
  returned r = Done () ∨
    (∀ g, state_of (handlers_after r) g = state_of handlers g) →
  durable (disk_after d (events r)) (handlers_after r).
Proof.
  intros r Hd Hr g. rewrite recover_after, Hd. subst r.
  destruct (guild_id message) as [g0|] eqn:Hg0;
    [|unfold handle_commands; by rewrite Hg0].
  rewrite (events_handle_commands _ _ _ g0) by done.
  destruct (decide (g = g0)) as [->|Hg].
  - rewrite state_of_handle_commands by done. apply body_durable; [done|].
    rewrite <-returned_handle_commands, <-state_of_handle_commands by done.
    destruct Hr as [Hr|Hr]; [by left|right; apply Hr].
  - rewrite state_of_other by congruence.
    apply (absorb_invariant (λ x, x = state_of handlers g)); [done|].
    eapply Forall_impl; [by apply absorb_body_other|].
    intros e He x ->. apply He.
Qed.

End call.

(** ** When every delivery and save succeeds *)

Section reliable.
Context `{Platform} `{W : World}.
Hypothesis Hrel : reliable W.

Lemma reliable_say c t h : outcome (run (say c t) h) = Done ().
Proof. by rewrite run_say, run_perform, Hrel. Qed.

(** An arm with a number answers, and returns. *)
Lemma reliable_with_u64_arg message args body h :
  (∀ x, silent (body x)) →
  outcome (run (with_u64_arg message args body) h) = Done ().
Proof.
  intros Hb. destruct (parse_u64_arg args) as [x|e] eqn:Hp.
  - destruct (silent_run (body x) h (Hb x)) as [msg Hm].
    rewrite (with_u64_arg_Ok _ _ _ x h _ msg Hp Hm). apply reliable_say.
  - rewrite (with_u64_arg_Err _ _ _ e) by done. apply reliable_say.
Qed.

Lemma reliable_cmd_set_potato message args h :
  outcome (run (cmd_set_potato message args) h) = Done ().
Proof.
  destruct args as [|emoji args]; [by rewrite cmd_set_potato_missing, reliable_say|].
  destruct (reaction_try_from emoji) as [r|e] eqn:Hr.
  - rewrite (cmd_set_potato_run _ _ _ r) by done. apply reliable_say.
  - rewrite (cmd_set_potato_Err _ _ _ e) by done. apply reliable_say.
Qed.

(** A command returns, or has written nothing: the arms that write
    answer and return, and the leaderboard, which can fail or panic,
    does not write. *)
Lemma reliable_execute handlers is_admin message cmd args c h :
  let r := run (execute handlers is_admin message cmd args c) h in
  outcome r = Done () ∨ final r = h.
Proof.
  destruct c; cbn [execute];
    lazymatch goal with
    | |- context [cmd_help] => right; apply pure_state_cmd_help
    | |- context [cmd_leaderboard] => right; apply pure_state_cmd_leaderboard
    | |- context [cmd_show_blacklist] => right; apply pure_state_cmd_show_blacklist
    | |- context [cmd_list_admins] => right; apply pure_state_cmd_list_admins
    | |- context [cmd_save] => right; apply pure_state_cmd_save
    | |- context [cmd_unknown] => right; apply pure_state_cmd_unknown
    | |- context [cmd_set_potato] => left; apply reliable_cmd_set_potato
    | |- _ => left; apply reliable_with_u64_arg; auto with tater
    end.
Qed.

Lemma reliable_save_config handlers is_admin message h :
  outcome (run (save_config handlers is_admin message) h) = Done ().
Proof.
  unfold save_config. destruct is_admin; [|done].
  destruct (guild_id message); [|apply reliable_say].
  run_simpl. by rewrite run_perform, Hrel.
Qed.

(** The body returns, or has written nothing. *)
Lemma reliable_handle_guild handlers guild uid message h :
  let r := run (handle_guild handlers guild uid message) h in
  outcome r = Done () ∨ final r = h.
Proof.
  cbn zeta. rewrite handle_guild_run. destruct (ignored _ _ _ _); [by left|].
  destruct (admin_outcome _ _ _) as [[a|]| |]; try (by right).
  destruct (split_whitespace _) as [|w [|cmd args]]; try (by left).
  rewrite outcome_bind, final_bind_pure
    by (intros; apply pure_state_save_config).
  rewrite dispatch_execute.
  destruct (reliable_execute handlers a message cmd args
              (authorize a (decode cmd)) h) as [->|Hr]; [|by right].
  left. apply reliable_save_config.
Qed.

End reliable.

(** ** Schedules *)

Section schedules.
Context `{Platform} (uid : Z).

(** A call under a reliable world keeps the registry durable. *)
Lemma reliable_call_durable d handlers c :
  reliable (call_world c) → durable d handlers →
  durable (disk_after d (events (handle_call uid handlers c)))
    (handlers_after (handle_call uid handlers c)).
Proof.
  intros Hc Hd. apply handle_commands_durable; [done|]. unfold handle_call.
  destruct (guild_id (call_message c)) as [g|] eqn:Hg;
    [|left; unfold handle_commands; by rewrite Hg].
  rewrite (returned_handle_commands _ _ _ g) by done.
  destruct (reliable_handle_guild Hc (entry_or_insert handlers g).1 g uid
              (call_message c) (state_of handlers g)) as [|Hr]; [by left|].
  right. intros g'. destruct (decide (g' = g)) as [->|].
  - by rewrite state_of_handle_commands.
  - apply state_of_other. congruence.
Qed.

Lemma steps_durable d p q :
  rtc (step uid reliable) p q →
  durable (disk_after d (log p)) (registry p) →
  durable (disk_after d (log q)) (registry q).
Proof.
  induction 1 as [|p p' q Hp _ IH]; [done|]. intros Hd. apply IH.
  destruct Hp as [p c l1 l2 _ Hc]. simpl. rewrite disk_after_app.
  by apply reliable_call_durable.
Qed.

(** C19: the tasks keep the registry durable.  Let the tasks take their
    turns in any order while messages arrive, under worlds in which
    every delivery and every save succeeds, and let no task be dropped.
    If a restart recovered the state of every guild at the start, it
    does whenever the lock is free: every command of an admin has
    written, answered and saved, and a call that failed (the member or
    a user was not found) or panicked (the leaderboard) had written
    nothing. *)
Theorem tasks_durable d p ms s :
  oruns uid reliable False (idle p) ms s → holder s = None →
  durable (disk_after d (log p)) (registry p) →
  durable (disk_after d (sent s)) (store s).
Proof.
  intros Hs Hh Hd.
  destruct (arrivals_serialised uid reliable False p ms s Hs Hh)
    as (q & Hq & _ & Hr & Hl).
  simpl in Hr, Hl. rewrite Hr, Hl.
  apply (steps_durable d (preload ms p) q); [by apply asteps_no_drop|done].
Qed.

End schedules.

(** ** Calls that return *)

Section returned.
Context `{Platform, World}.

(** C20: a call that returns normally keeps the registry durable,
    whatever the chat service and the disk answered: if a restart
    recovered the state of every guild before the call, it does after
    it.  The save of the tables by [save] may have failed (the failure is
    answered and the call goes on); the save of the configuration has
    not, or the call would not have returned normally. *)
Theorem returned_call_durable d handlers uid message :
  let r := handle_commands handlers uid message in
  returned r = Done () → durable d handlers →
  durable (disk_after d (events r)) (handlers_after r).
Proof. intros r Hr Hd. apply handle_commands_durable; [done|by left]. Qed.

(** C21: the next command of an admin makes up for what was lost.
    Whatever is on disk (the configuration may be behind the registry
    after a reply that could not be delivered or a task that was
    dropped), after a command of an admin of the guild that returned
    normally a restart recovers the configuration of the guild: the save
    writes the whole configuration, not the change. *)
Theorem admin_command_heals d handlers uid message g :
  guild_id message = Some g →
  let r := handle_commands handlers uid message in
  admin_command (state_of handlers g) g uid message = true →
  returned r = Done () →
  config (state_of (restart (disk_after d (events r))) g) =
    config (state_of (handlers_after r) g).
Proof.
  intros Hg r Ha Hr. subst r.
  rewrite (returned_handle_commands _ _ _ g) in Hr by done.
  rewrite recover_after, (events_handle_commands _ _ _ g) by done.
  rewrite state_of_handle_commands, config_absorb_body by done.
  by rewrite Ha, Hr, bool_decide_eq_true_2.
Qed.

End returned.

(** ** Round trip *)

Section roundtrip.
Context `{Platform}.

(** Saving the tables and the configuration of a guild and loading the
    guild gives its state back, whatever was stored before. *)
Lemma load_saved d handlers id this :
  handlers !! id = Some this →
  load (disk_after d [EvSaveTaters id handlers; EvSaveConfig id handlers]) id =
    Some this.
Proof.
  intros Hid. unfold load. simpl. unfold save_server_taters, save_server_config.
  rewrite Hid. simpl. rewrite !lookup_insert_eq. by destruct this.
Qed.

(** A registry that holds one guild is durable once the guild is
    saved. *)
Lemma saved_guild_durable g h :
  durable (disk_after (MkDisk ∅ ∅)
             [EvSaveTaters g {[g := h]}; EvSaveConfig g {[g := h]}])
    {[g := h]}.
Proof.
  intros g'. destruct (decide (g' = g)) as [->|Hg].
  - unfold state_of. by rewrite lookup_restart, (load_saved _ _ _ h);
      rewrite lookup_singleton_eq.
  - rewrite recover_after, restart_empty. simpl.
    rewrite !decide_False by done. unfold state_of.
    by rewrite lookup_empty, lookup_singleton_ne.
Qed.

End roundtrip.
