(* ===== verification/Scenarios.v ===== *)
(** * Scenarios: a concrete world, and the handler run in it

    The theorems of the other files hold for every [Platform] and every
    [World].  Here both are instantiated, so that the handler can be
    evaluated: [demo_platform] and [world], a chat service in which user
    1 holds a role with the administrator permission, every user can be
    looked up, the hash tables iterate by ascending key, and deliveries
    succeed or fail as the parameter says.

    The examples are the end-to-end scenarios of the design document,
    evaluated by the kernel, and runs of the task of [set_pin_channel]
    that is dropped at each of its awaits or stopped between its two
    writes; the witnesses apply each theorem that has hypotheses to one
    of these runs. *)

From stdpp Require Import gmap sorting relations.
From S2P Require Import Prelude Text Sorting Guild Effects.
From S2P Require Import Leaderboard Commands Dispatch.
From S2P Require Import Writes Answers Events Registry.
From S2P Require Import Tasks Async Drops Lock Arrivals Disk.

#[local] Open Scope Z_scope.

(** ** The platform *)

Definition potato : ReactionType := {| reaction_to_string := [129364] |}.

Definition demo_reaction (s : text) : result text ReactionType :=
  if bool_decide (length s = 1%nat) then Ok {| reaction_to_string := s |}
  else Err (str "not an emoji").

Definition demo_platform : Platform := {|
  channel_mention c := str "<#" ++ u64_to_string c ++ str ">";
  reaction_try_from := demo_reaction;
  default_trigger_word := str "!!";
  default_pin_channel := 0;
  default_threshold := 5;
  default_tater_emoji := potato;
  default_pin_channel_u64 := ltac:(done);
  default_threshold_u64 := ltac:(done);
|}.

(** ** The world *)

Definition by_key (x y : Z * Z) : Prop := x.1 ≤ y.1.

#[local] Instance by_key_dec : RelDecision by_key.
Proof. intros x y. unfold by_key. apply _. Defined.

Definition demo_user (id : Z) : User :=
  {| user_mention := str "<@" ++ u64_to_string id ++ str ">";
     user_tag := str "user#" ++ u64_to_string id |}.

Definition demo_roles (user : Z) : list Role :=
  if bool_decide (user = 1) then [{| permissions := 8 |}]
  else [{| permissions := 1024 |}].

Definition world_with (roles : Z → result text (option (list Role)))
    (deliver : Event → result text ()) (checks : bool) : World := {|
  guild_in_cache _ := true;
  fetch_member_roles _ user := roles user;
  get_user id := Ok (demo_user id);
  deliver := deliver;
  map_iter m := merge_sort by_key (map_to_list m);
  set_iter s := merge_sort Z.le (elements s);
  overflow_checks := checks;
  map_iter_perm m := merge_sort_Permutation by_key (map_to_list m);
  set_iter_perm s := merge_sort_Permutation Z.le (elements s);
|}.

Definition world : (Event → result text ()) → bool → World :=
  world_with (λ user, Ok (Some (demo_roles user))).

(** Every delivery succeeds; no delivery succeeds. *)
Definition delivered (e : Event) : result text () := Ok ().
Definition refused (e : Event) : result text () := Err (str "connection reset").

Definition release_world : World := world delivered false.
Definition debug_world : World := world delivered true.
Definition offline_world : World := world refused false.

(** The chat service delivers, but the request for the member fails, or
    the roles of the member are not in the cache. *)
Definition member_unknown : World :=
  world_with (λ _, Err (str "Unknown Member")) delivered false.

Definition roles_uncached : World := world_with (λ _, Ok None) delivered false.

(** The chat service delivers, but the disk is full: no save succeeds. *)
Definition disk_full (e : Event) : result text () :=
  if is_message e then Ok () else Err (str "No space left on device").

Definition unsaved_world : World := world disk_full false.

(** ** Messages *)

Definition bot : Z := 99.
Definition admin_user : Z := 1.
Definition plain_user : Z := 2.
Definition guild : Z := 7.
Definition channel : Z := 5.

Definition message_of (author : Z) (content : string) : Message :=
  {| guild_id := Some guild; author_id := author; content := str content;
     channel_id := channel |}.

Definition private_message (author : Z) (content : string) : Message :=
  {| guild_id := None; author_id := author; content := str content;
     channel_id := channel |}.

(** A guild with scores: user 1 has 5, users 2 and 3 have 10. *)
Definition scored : Handler :=
  {| config := config (@Handler_new demo_platform);
     taters_got := {[1 := 5; 2 := 10; 3 := 10]};
     taters_given := ∅ |}.

(** A guild with a table of ten entries. *)
Definition ten : Handler :=
  {| config := config (@Handler_new demo_platform);
     taters_got := list_to_map ((λ i, (i, i)) <$> seqZ 1 10);
     taters_given := ∅ |}.

(** The state of a new guild, and states with one channel blacklisted
    and with one admin listed. *)
Definition fresh : Handler := @Handler_new demo_platform.

Definition blacklisting : Handler :=
  with_config (set_blacklisted_channels {[42]}) fresh.

Definition administered : Handler := with_config (set_admins {[2]}) fresh.

#[local] Existing Instance demo_platform.
#[local] Existing Instance release_world.

(** A guild whose trigger word is two words. *)
Definition hey_bot : Handler :=
  {| config :=
       {| trigger_word := str "hey bot"; admins := ∅;
          blacklisted_channels := ∅; pin_channel := 0; threshold := 5;
          tater_emoji := potato |};
     taters_got := ∅; taters_given := ∅ |}.

(** A guild whose pin channel was set to 42 by the command. *)
Definition pinned : Handler :=
  write_all [WPinChannel 42; WBlacklist 42] fresh.

(** Two tasks wait for the lock: an admin makes user 2 an admin, and
    user 2 sets the threshold. *)
Definition make_admin : Message := message_of admin_user "!! admin 2".
Definition set_three : Message := message_of plain_user "!! set_threshold 3".

Definition two_tasks : Pool := MkPool [make_admin; set_three] ∅ [].

(** The pool after the lock went to the first task and then to the
    second, and after it went to the second first. *)
Definition in_order : Pool :=
  grant bot (MkCall release_world set_three) []
    (grant bot (MkCall release_world make_admin) [set_three] two_tasks).

Definition out_of_order : Pool :=
  grant bot (MkCall release_world make_admin) []
    (grant bot (MkCall release_world set_three) [make_admin] two_tasks).

(** Three tasks of a guild whose pin channel is blacklisted. *)
Definition pin_tasks : Pool :=
  MkPool [message_of admin_user "!! set_pin_channel 9";
          message_of admin_user "!! blacklist 10";
          message_of plain_user "!! unadmin 1"] {[guild := pinned]} [].

Definition pin_calls : list Call :=
  MkCall release_world <$> pending pin_tasks.

Definition pin_done : Pool := run_calls bot pin_calls pin_tasks.

(** The first of the three tasks is dropped while it waits for the
    delivery of its reply: it has set the pin channel and blacklisted
    it, and nothing was sent or saved. *)
Definition set_pin : Message := message_of admin_user "!! set_pin_channel 9".

Definition pin_written : Handler :=
  write_all [WPinChannel 9; WBlacklist 9] pinned.

Definition pin_reply : Request :=
  ReqDeliver (EvSay channel (msg_set_pin_channel (channel_mention 9) false)).

Definition pin_dropped : Pool :=
  MkPool [message_of admin_user "!! blacklist 10";
          message_of plain_user "!! unadmin 1"] {[guild := pin_written]} [].

(** A task holds the lock and has returned; the task of a private
    message has not started. *)
Definition returning : System :=
  MkSystem [private_message plain_user "!! help"]
    (Some (MkHolder (MkCall release_world set_pin) guild (TRet ())))
    {[guild := pin_written]} [].

(** The first of the three tasks has taken the lock and [n] turns. *)
Definition set_pin_after (n : nat) : System :=
  let c := MkCall release_world set_pin in
  let e := entry_or_insert (registry pin_tasks) guild in
  let r := @advance (call_world c) _ n (body bot e.1 c guild) e.2 in
  MkSystem (drop 1 (pending pin_tasks)) (Some (MkHolder c guild r.1.1))
    (<[guild := r.1.2]> e.1) (log pin_tasks ++ r.2).

(** The disk on which the guild of [pin_tasks] was saved, and the pool
    in which the first of the three tasks has been started and the
    other two have not arrived. *)
Definition pin_disk : Disk :=
  disk_after (MkDisk ∅ ∅)
    [EvSaveTaters guild {[guild := pinned]};
     EvSaveConfig guild {[guild := pinned]}].

Definition first_task : Pool :=
  MkPool (take 1 (pending pin_tasks)) (registry pin_tasks) [].

(** An admin sets the threshold. *)
Definition set_four : Message := message_of admin_user "!! set_threshold 4".

(** Evaluate both sides of a closed goal. *)
Ltac evaluate := vm_compute; first [reflexivity | discriminate | exact I | lia].

(** Membership in a concrete list or set, by evaluation. *)
Ltac member :=
  match goal with
  | |- ?P => refine (@bool_decide_unpack P _ _); vm_compute; exact I
  end.

(** ** The scenarios of the design document *)

(** Scenario A as written: [!!help] is one word, so nothing is sent; the
    guild is registered. *)
Example scenario_A_glued :
  handle_commands ∅ bot (message_of plain_user "!!help") =
    MkHandled {[guild := fresh]} [] (Done ()).
Proof. evaluate. Qed.

(** Scenario A with the command as a word of its own: the help text and
    nothing else. *)
Example scenario_A :
  handle_commands ∅ bot (message_of plain_user "!! help") =
    MkHandled {[guild := fresh]} [EvSay channel HELP] (Done ()).
Proof. evaluate. Qed.

(** The same from an admin: the admin block follows, and the
    configuration is saved. *)
Example scenario_A_admin :
  events (handle_commands ∅ bot (message_of admin_user "!! help")) =
    [EvSay channel HELP; EvSay channel ADMIN_HELP;
     EvSaveConfig guild {[guild := fresh]}].
Proof. evaluate. Qed.

(** Scenario B: users 2 and 3 are tied at 10 and the table iterates
    1, 2, 3: the ranking is 3, 2, 1, on one page of one. *)
Example scenario_B_order :
  scores (taters_got scored) = [(3, 10); (2, 10); (1, 5)].
Proof. evaluate. Qed.

Example scenario_B :
  events (handle_commands {[guild := scored]} bot
            (message_of plain_user "!! receivers")) =
    [EvSendEmbed channel (str "Leaderboard - Taters received")
       (board_line Receivers 0 (demo_user 3) 10 ++
        board_line Receivers 1 (demo_user 2) 10 ++
        board_line Receivers 2 (demo_user 1) 5)
       (footer (str "2") 3 (str "10") (reaction_to_string potato) 1 1)].
Proof. evaluate. Qed.

(** Scenario C: an admin's [set_threshold abc] is answered with the
    error, the threshold stays, and the configuration is saved. *)
Example scenario_C :
  handle_commands ∅ bot (message_of admin_user "!! set_threshold abc") =
    MkHandled {[guild := fresh]}
      [EvSay channel (error_message (str "invalid digit found in string"));
       EvSaveConfig guild {[guild := fresh]}] (Done ()).
Proof. evaluate. Qed.

(** Scenario D: [blacklist 123] from a user who is not an admin. *)
Example scenario_D :
  handle_commands ∅ bot (message_of plain_user "!! blacklist 123") =
    MkHandled {[guild := fresh]}
      [EvSendNoMentions channel (str "Unknown command: blacklist")] (Done ()).
Proof. evaluate. Qed.

(** The same from an admin. *)
Example scenario_D_admin :
  handle_commands ∅ bot (message_of admin_user "!! blacklist 123") =
    MkHandled
      {[guild := with_config (set_blacklisted_channels {[123]}) fresh]}
      [EvSay channel (str "Blacklisted `<#123>`");
       EvSaveConfig guild
         {[guild := with_config (set_blacklisted_channels {[123]}) fresh]}]
      (Done ()).
Proof. evaluate. Qed.

(** A table of ten entries has two pages, and the second is empty. *)
Example ten_entries_two_pages :
  events (handle_commands {[guild := ten]} bot
            (message_of plain_user "!! receivers 1")) =
    [EvSendEmbed channel (str "Leaderboard - Taters received") []
       (footer (str "9") 10 (str "2") (reaction_to_string potato) 2 2)].
Proof. evaluate. Qed.

(** The trigger word is only a prefix: any first word that starts with
    it will do. *)
Example trigger_is_a_prefix :
  events (handle_commands ∅ bot (message_of plain_user "!!!anything help")) =
    [EvSay channel HELP].
Proof. evaluate. Qed.

(** With overflow checks the page number 1844674407370955162 panics;
    without them the page shown starts at rank 5. *)
Example page_overflow_panics :
  returned (@handle_commands demo_platform debug_world {[guild := ten]} bot
              (message_of plain_user "!! receivers 1844674407370955162")) =
    Panic.
Proof. evaluate. Qed.

Example page_overflow_wraps :
  events (handle_commands {[guild := ten]} bot
            (message_of plain_user "!! receivers 1844674407370955162")) =
    [leaderboard_embed Receivers (message_of plain_user "") ten 4
       1844674407370955163].
Proof. evaluate. Qed.

(** ** Writes and schedules *)

(** [set_pin_channel] writes the pin channel and blacklists it. *)
Example set_pin_channel_writes :
  writes_for fresh guild bot (message_of admin_user "!! set_pin_channel 42") =
    [WPinChannel 42; WBlacklist 42].
Proof. evaluate. Qed.

(** The authorisation is made afresh for each call: once user 2 is
    listed their [set_threshold] is obeyed, and once they are not it is
    refused. *)
Example authorisation_is_fresh :
  (handle_all ∅ bot [make_admin; set_three;
                     message_of admin_user "!! unadmin 2";
                     message_of plain_user "!! set_threshold 4"]).1 =
    {[guild := with_config (set_threshold 3) fresh]}.
Proof. evaluate. Qed.

(** The order in which the lock is granted matters: when user 2 runs
    first they are not yet an admin and the threshold stays 5. *)
Example order_matters :
  threshold (config (state_of (registry in_order) guild)) = 3 ∧
  threshold (config (state_of (registry out_of_order) guild)) = 5.
Proof. split; evaluate. Qed.

(** Without an answer about the member a command gets no answer: the
    error of the request is returned to the caller of the handler, and
    missing roles end the call in silence. *)
Example member_unknown_unanswered :
  @handle_commands demo_platform member_unknown ∅ bot
     (message_of plain_user "!! help") =
    MkHandled {[guild := fresh]} [] (Fail (str "Unknown Member")).
Proof. evaluate. Qed.

Example roles_uncached_unanswered :
  @handle_commands demo_platform roles_uncached ∅ bot
     (message_of plain_user "!! help") =
    MkHandled {[guild := fresh]} [] (Done ()).
Proof. evaluate. Qed.

(** A failed save of the configuration is not told to the requester:
    the answer says the threshold was changed, the state in memory has
    it, and the error goes to the caller of the handler.  A failed save
    of the tables is told. *)
Example config_save_failure_unreported :
  @handle_commands demo_platform unsaved_world ∅ bot
     (message_of admin_user "!! set_threshold 3") =
    MkHandled {[guild := with_config (set_threshold 3) fresh]}
      [EvSay channel (str "Threshold changed to 3")]
      (Fail (str "No space left on device")).
Proof. evaluate. Qed.

Example tater_save_failure_reported :
  events (@handle_commands demo_platform unsaved_world ∅ bot
            (message_of admin_user "!! save")) =
    [EvSay channel (error_message (str "No space left on device"))].
Proof. evaluate. Qed.

(** The command is the second word of the message, not the word after
    the trigger word: with a trigger word of two words no command can be
    given, the command read is always the second word of the trigger. *)
Example two_word_trigger :
  events (handle_commands {[guild := hey_bot]} bot
            (message_of plain_user "hey bot help")) =
    [EvSendNoMentions channel (str "Unknown command: bot")].
Proof. evaluate. Qed.

(** The parser of [u64] takes a plus sign: [set_threshold +7] sets the
    threshold to 7; a minus sign is an invalid digit. *)
Example plus_sign_accepted :
  threshold (config (state_of (handlers_after
    (handle_commands ∅ bot (message_of admin_user "!! set_threshold +7")))
    guild)) = 7 ∧
  parse_u64 (str "-7") = Err InvalidDigit.
Proof. split; evaluate. Qed.

(** A message outside a guild does nothing at all, also [save] from an
    admin: line 27 returns before the lock is asked for, so the branches
    of lines 385-387 and 415-424 are never reached. *)
Example private_message_ignored :
  handle_commands ∅ bot (private_message admin_user "!! save") =
    MkHandled ∅ [] (Done ()).
Proof. evaluate. Qed.

(** A message of one word from a user who is not listed, when the
    request for the member fails: the code returns the error of the
    request, the order of the design document returns normally. *)
Example one_word_member_unknown :
  run (@handle_guild demo_platform member_unknown ∅ guild bot
         (message_of plain_user "!!")) fresh =
    MkRun fresh [] (Fail (str "Unknown Member")) ∧
  run (@tokenize_first demo_platform member_unknown ∅ guild bot
         (message_of plain_user "!!")) fresh =
    MkRun fresh [] (Done ()).
Proof. split; evaluate. Qed.

(** [list_admins] waits once per listed admin while it holds the lock:
    with three admins the body is suspended six times (the guild, three
    users, the reply, the save), with twenty it is 23 times.  A page of
    the leaderboard of a table of twenty waits for ten users. *)
Example list_admins_requests :
  awaits (handle_guild_task ∅ guild bot (message_of admin_user "!! list_admins"))
         (with_config (set_admins {[1; 2; 3]}) fresh) = 6%nat ∧
  awaits (handle_guild_task ∅ guild bot (message_of admin_user "!! list_admins"))
         (with_config (set_admins (list_to_set (seqZ 1 20))) fresh) = 23%nat ∧
  awaits (handle_guild_task ∅ guild bot (message_of admin_user "!! receivers"))
         (set_tables (list_to_map ((λ i, (i, i)) <$> seqZ 1 20), ∅)
            (with_config (set_admins {[1]}) fresh)) = 13%nat.
Proof. split_and!; evaluate. Qed.

Lemma two_tasks_out_of_order : nsteps (step bot (λ _, True)) 2 two_tasks out_of_order.
Proof.
  eapply nsteps_l;
    [by apply (step_grant bot _ two_tasks (MkCall release_world set_three)
                 [make_admin] [])|].
  eapply nsteps_l; [by apply step_first|]. apply nsteps_O.
Qed.

Lemma message_of_wf author content :
  in_u64 author → wf_message (message_of author content).
Proof.
  intros. split_and!; simpl; unfold channel, guild;
    [u64_lia|done|intros g [= <-]; u64_lia].
Qed.

Lemma release_world_responsive : @responsive release_world.
Proof. split_and!; [done..|]. intros g u. by eexists. Qed.

Lemma pin_tasks_done A :
  Forall (λ c, A (call_world c)) pin_calls → rtc (step bot A) pin_tasks pin_done.
Proof. intros HA. by apply run_calls_steps. Qed.

(** ** Tasks that are dropped *)

(** The call of an admin by role waits five times: for the guild, the
    member, the roles, the delivery of the reply and the save of the
    configuration. *)
Example awaits_set_pin :
  awaits (handle_guild_task (registry pin_tasks) guild bot set_pin) pinned = 5%nat.
Proof. evaluate. Qed.

(** Dropped while it waits for the roles, the call has written
    nothing. *)
Example dropped_before_write :
  abort_commands 2 (registry pin_tasks) bot set_pin =
    Some (registry pin_tasks,
          MkSuspended pinned [] (ReqRoles guild admin_user)).
Proof. evaluate. Qed.

(** Dropped while it waits for the delivery of its reply, the call has
    written both the pin channel and the blacklist; nothing was sent,
    and the configuration in memory is not on disk. *)
Example dropped_after_write :
  abort_commands 3 (registry pin_tasks) bot set_pin =
    Some (registry pin_dropped, MkSuspended pin_written [] pin_reply).
Proof. evaluate. Qed.

(** Dropped while the configuration is saved, the call has answered. *)
Example dropped_while_saving :
  (λ r, (seen r.2, waiting r.2)) <$>
    abort_commands 4 (registry pin_tasks) bot set_pin =
    Some ([EvSay channel (msg_set_pin_channel (channel_mention 9) false)],
          ReqDeliver (EvSaveConfig guild (registry pin_dropped))).
Proof. evaluate. Qed.

(** A call that has no fifth await left is not dropped there. *)
Example not_dropped :
  abort_commands 5 (registry pin_tasks) bot set_pin = None.
Proof. evaluate. Qed.

Lemma pin_tasks_dropped : astep bot (λ _, True) True pin_tasks pin_dropped.
Proof.
  apply (astep_drop bot _ _ pin_tasks (MkCall release_world set_pin) []
           (drop 1 (pending pin_tasks)) 3); [done..|]. evaluate.
Qed.

(** The task of a private message returns while another task holds the
    lock: it never asks for it. *)
Example returns_while_locked :
  lstep bot (λ _, True) False returning
    (MkSystem [] (holder returning) (store returning) (sent returning)).
Proof.
  by apply (lstep_return bot _ _ returning
              (MkCall release_world (private_message plain_user "!! help"))
              [] []).
Qed.

Lemma set_pin_reaches D n :
  rtc (lstep bot (λ _, True) D) (idle pin_tasks) (set_pin_after n).
Proof.
  exact (lock_advances bot _ D n pin_tasks (MkCall release_world set_pin)
           guild [] (drop 1 (pending pin_tasks)) eq_refl eq_refl I).
Qed.

(** After seven turns the task of [set_pin_channel 9] has written the
    pin channel and not yet the blacklist: the pin channel of the guild
    is not blacklisted, as it was before and is two turns later, when
    the task waits for the delivery of its reply. *)
Example half_written :
  pin_blacklisted (state_of (registry pin_tasks) guild) ∧
  ¬ waits (set_pin_after 7) ∧
  ¬ pin_blacklisted (state_of (store (set_pin_after 7)) guild) ∧
  waits (set_pin_after 9) ∧
  state_of (store (set_pin_after 9)) guild = pin_written.
Proof.
  split_and!; [member|by vm_compute| |by vm_compute|evaluate].
  intros Hp. by apply (bool_decide_pack _) in Hp.
Qed.

(** ** What a restart recovers *)

Lemma release_world_reliable : reliable release_world.
Proof. done. Qed.

Lemma pin_disk_durable : durable pin_disk (registry pin_tasks).
Proof. apply saved_guild_durable. Qed.

(** The three messages arrive one after the other and are handled. *)
Lemma pin_tasks_arrive :
  oruns bot reliable False (idle first_task) (drop 1 (pending pin_tasks))
    (idle pin_done).
Proof.
  apply oruns_arrive_all.
  change (arrive _ (idle first_task)) with (idle pin_tasks).
  apply steps_oruns, pin_tasks_done. repeat constructor.
Qed.

(** The task that was dropped after its writes has set the pin channel
    to 9 in the registry; on disk it is 42, and a restart brings 42
    back. *)
Example restart_after_drop :
  let d := disk_after pin_disk (log pin_dropped) in
  pin_channel (config (state_of (registry pin_dropped) guild)) = 9 ∧
  pin_channel (config (state_of (restart d) guild)) = 42.
Proof. split; evaluate. Qed.

(** The same when the reply cannot be delivered: the call ends in the
    error of the delivery, after its writes and before the save. *)
Example restart_after_failed_reply :
  let r := @handle_commands _ offline_world (registry pin_tasks) bot set_pin in
  let d := disk_after pin_disk (events r) in
  returned r = Fail (str "connection reset") ∧
  pin_channel (config (state_of (handlers_after r) guild)) = 9 ∧
  pin_channel (config (state_of (restart d) guild)) = 42.
Proof. split_and!; evaluate. Qed.

(** ** Witnesses *)

Lemma handle_commands_writes_witness :
  let m := message_of admin_user "!! set_pin_channel 42" in
  let ws := writes_for (state_of ∅ guild) guild bot m in
  handlers_after (handle_commands ∅ bot m) =
    <[guild := write_all ws (state_of ∅ guild)]> ∅ ∧
  (ws = [] ∨ ws = may_write m).
Proof. apply (handle_commands_writes ∅ bot _ guild). evaluate. Defined.

Lemma pin_channel_stays_blacklisted_witness :
  pin_blacklisted (state_of (registry pin_done) guild).
Proof.
  apply (pin_channel_stays_blacklisted bot (λ _, True) guild pin_tasks pin_done).
  - apply pin_tasks_done. by repeat constructor.
  - repeat constructor; intros _; evaluate.
  - unfold pin_blacklisted. member.
Defined.

Lemma every_command_answered_witness :
  ∃ t, log pin_done = log pin_tasks ++ t ∧
       answered (message_of plain_user "!! unadmin 1") t.
Proof.
  apply (every_command_answered bot pin_tasks pin_done _ guild).
  - apply pin_tasks_done. repeat constructor; apply release_world_responsive.
  - apply nf_pending; [|done]. eexists. apply release_world_responsive.
  - member.
  - done.
  - member.
Defined.

Lemma config_saved_once_witness :
  let r := run (handle_guild ∅ guild bot (message_of admin_user "!! help")) fresh in
  config_saves (trace r) =
    if admin_command fresh guild bot (message_of admin_user "!! help")
    then [EvSaveConfig guild (<[guild := final r]> ∅)]
    else [].
Proof.
  apply (config_saved_once ∅ guild bot (message_of admin_user "!! help") fresh);
    evaluate.
Defined.

Lemma schedule_well_formed_witness :
  wf_handlers (registry pin_done) ∧ Forall wf_event (log pin_done).
Proof.
  apply (schedule_well_formed bot (λ _, True) pin_tasks pin_done).
  - apply pin_tasks_done. by repeat constructor.
  - repeat (constructor;
      [apply message_of_wf; unfold admin_user, plain_user; u64_lia|]).
    constructor.
  - apply map_Forall_singleton. unfold pinned. apply kept_write_all;
      [apply kept_wf_handler|repeat constructor; u64_lia|apply Handler_new_wf].
  - constructor.
Defined.

Lemma authorization_gate_witness :
  (∀ g, state_of (handlers_after
                    (handle_commands {[guild := blacklisting]} bot
                       (message_of plain_user "!! unblacklist 42"))) g =
        state_of {[guild := blacklisting]} g) ∧
  Forall (λ e, is_message e = true)
    (events (handle_commands {[guild := blacklisting]} bot
               (message_of plain_user "!! unblacklist 42"))).
Proof.
  apply (authorization_gate {[guild := blacklisting]} bot
           (message_of plain_user "!! unblacklist 42")).
  intros g' [= <-]. evaluate.
Defined.

Lemma cmd_leaderboard_reply_witness :
  run (cmd_leaderboard Receivers (message_of plain_user "") [str "1"]) ten =
    leaderboard_reply Receivers (message_of plain_user "") ten
      (PAGE_SIZE * page_num [str "1"]) (page_num [str "1"] + 1).
Proof. apply cmd_leaderboard_reply. evaluate. Defined.

Lemma handle_all_other_witness :
  (handle_all {[8 := scored]} bot
     [message_of admin_user "!! set_threshold 3";
      message_of admin_user "!! admin 2"]).1 !! 8 =
    ({[8 := scored]} : gmap Z Handler) !! 8.
Proof. apply handle_all_other. repeat constructor; evaluate. Defined.

Lemma handle_guild_listed_witness :
  run (handle_guild ∅ guild bot (message_of plain_user "!! admin 3"))
      administered =
    run (dispatch ∅ true (message_of plain_user "!! admin 3") (str "admin")
           [str "3"];;
         save_config ∅ true (message_of plain_user "!! admin 3")) administered.
Proof.
  apply (handle_guild_listed ∅ guild bot (message_of plain_user "!! admin 3")
           administered (str "!!")); [member|evaluate..].
Defined.

Lemma asker_place_present_witness :
  ∃ p, asker_place (scores (taters_got scored)) 2 = Some (p, 10).
Proof. apply asker_place_present. evaluate. Defined.

Lemma total_pages_bounds_witness :
  PAGE_SIZE * (total_pages 10 - 1) ≤ 10 < PAGE_SIZE * total_pages 10.
Proof. apply total_pages_bounds. lia. Defined.

Lemma with_u64_arg_rejected_witness :
  final (run (with_u64_arg (message_of admin_user "") [str "-1"]
                (λ x, modify_config (set_threshold x);; mret [])) fresh) = fresh ∧
  trace (run (with_u64_arg (message_of admin_user "") [str "-1"]
                (λ x, modify_config (set_threshold x);; mret [])) fresh)
    `sublist_of`
    [EvSay channel (error_message (str "invalid digit found in string"))].
Proof. apply with_u64_arg_rejected. evaluate. Defined.

Lemma scores_unique_witness :
  [(3, 10); (2, 10); (1, 5)] = scores (taters_got scored).
Proof.
  apply scores_unique; [repeat constructor; evaluate|].
  intros k. replace (map_iter (taters_got scored))
    with [(1, 5); (2, 10); (3, 10)] by evaluate.
  unfold with_key. rewrite !filter_cons, !filter_nil. simpl.
  repeat case_decide; done || lia.
Defined.

Lemma dispatch_argument_error_witness :
  final (run (dispatch ∅ true (message_of admin_user "") (str "set_threshold")
                [str "abc"]) fresh) = fresh.
Proof.
  apply (dispatch_argument_error ∅ true (message_of admin_user "")
           (str "set_threshold") [str "abc"]
           (str "invalid digit found in string") fresh).
  evaluate.
Defined.

Lemma handle_all_wf_witness :
  wf_handlers
    (handle_all ∅ bot [message_of admin_user "!! set_threshold 3";
                       message_of plain_user "!! receivers";
                       message_of admin_user "!! admin 2"]).1.
Proof. apply (handle_all_wf ∅ bot). apply map_Forall_empty. Defined.

Lemma dispatch_admin_only_witness :
  dispatch ∅ false (message_of plain_user "") (str "blacklist") [str "123"] =
    cmd_unknown (message_of plain_user "") (str "blacklist").
Proof. apply (dispatch_admin_only ∅). member. Defined.

Lemma handle_guild_panics_witness :
  @overflow_checks debug_world = true ∧
  ∃ w cmd args,
    split_whitespace (str "!! givers 1844674407370955162") = w :: cmd :: args ∧
    is_leaderboard (decode cmd) = true ∧ 1844674407370955162 ≤ page_num args.
Proof.
  apply (@handle_guild_panics demo_platform debug_world ∅ guild bot
           (message_of plain_user "!! givers 1844674407370955162") fresh).
  evaluate.
Defined.

Lemma cmd_leaderboard_wraps_witness :
  run (cmd_leaderboard Receivers (message_of plain_user "")
         [str "1844674407370955162"]) ten =
    leaderboard_reply Receivers (message_of plain_user "") ten 4
      1844674407370955163.
Proof. apply cmd_leaderboard_wraps; evaluate. Defined.

Lemma cmd_set_pin_channel_blacklists_witness :
  pin_channel (config (final (run (cmd_set_pin_channel
                                     (message_of admin_user "") [str "42"])
                                  fresh))) = 42 ∧
  42 ∈ blacklisted_channels
         (config (final (run (cmd_set_pin_channel
                                (message_of admin_user "") [str "42"]) fresh))).
Proof. apply cmd_set_pin_channel_blacklists. evaluate. Defined.

Lemma idempotent_sets_witness :
  final (run (cmd_blacklist (message_of admin_user "") [str "42"])
             blacklisting) = blacklisting ∧
  run (cmd_blacklist (message_of admin_user "") [str "42"]) blacklisting =
    run (say channel (quoted (channel_mention 42) ++
                      str " was already blacklisted")) blacklisting.
Proof.
  destruct (idempotent_sets (message_of admin_user "") [str "42"] 42
              blacklisting) as [Hb _]; [evaluate|].
  apply Hb. member.
Defined.

Lemma save_failures_witness :
  run (@dispatch demo_platform unsaved_world ∅ true (message_of admin_user "")
         (str "save") [];;
       @save_config unsaved_world ∅ true (message_of admin_user "")) scored =
    MkRun scored [EvSay channel (error_message (str "No space left on device"))]
      (Fail (str "No space left on device")).
Proof.
  apply (@save_failures demo_platform unsaved_world ∅ (message_of admin_user "")
           [] guild (str "No space left on device")
           (str "No space left on device") scored); evaluate.
Defined.

Lemma rejected_argument_saves_witness :
  run (dispatch ∅ true (message_of admin_user "") (str "admin") [];;
       save_config ∅ true (message_of admin_user "")) fresh =
    MkRun fresh [EvSay channel (error_message not_enough_arguments);
                 EvSaveConfig guild {[guild := fresh]}] (Done ()).
Proof.
  apply (rejected_argument_saves ∅ (message_of admin_user "") (str "admin") []
           guild not_enough_arguments fresh); evaluate.
Defined.

Lemma set_threshold_reply_fails_witness :
  run (@dispatch demo_platform offline_world ∅ true (message_of admin_user "")
         (str "set_threshold") [str "3"];;
       @save_config offline_world ∅ true (message_of admin_user "")) fresh =
    MkRun (with_config (set_threshold 3) fresh) [] (Fail (str "connection reset")).
Proof.
  apply (@set_threshold_reply_fails demo_platform offline_world); evaluate.
Defined.

Lemma handle_all_users_witness :
  state_of (handle_all {[guild := blacklisting]} bot
              [message_of plain_user "!! unblacklist 42";
               message_of plain_user "!! admin 2";
               message_of plain_user "!! givers"]).1 guild =
    state_of {[guild := blacklisting]} guild.
Proof.
  apply handle_all_users.
  repeat constructor; intros g' [= <-]; evaluate.
Defined.

Lemma to_display_ranks_witness :
  (to_display (scores (taters_got ten)) 10).*1 =
    seq (Z.to_nat 10) (length (to_display (scores (taters_got ten)) 10)).
Proof. apply to_display_ranks. evaluate. Defined.

Lemma parse_u64_arg_to_string_witness :
  parse_u64_arg [u64_to_string u64_MAX] = Ok u64_MAX.
Proof. apply parse_u64_arg_to_string. u64_lia. Defined.

Lemma cmd_unblacklist_pin_channel_witness :
  pin_channel (config (final (run (cmd_unblacklist (message_of admin_user "")
                                     [str "0"]) fresh))) =
    pin_channel (config fresh) ∧
  pin_channel (config (final (run (cmd_unblacklist (message_of admin_user "")
                                     [str "0"]) fresh)))
    ∉ blacklisted_channels
        (config (final (run (cmd_unblacklist (message_of admin_user "")
                               [str "0"]) fresh))).
Proof. apply cmd_unblacklist_pin_channel. evaluate. Defined.

Lemma cmd_show_blacklist_empty_witness :
  run (cmd_show_blacklist (message_of admin_user "")) fresh =
    run (say channel []) fresh.
Proof. apply cmd_show_blacklist_empty. evaluate. Defined.

Lemma cmd_save_run_witness :
  run (cmd_save ∅ (message_of admin_user "")) scored =
    after [EvSaveTaters guild {[guild := scored]}]
      (run (say channel (str "Saved this server's taters!")) scored).
Proof.
  rewrite (cmd_save_run ∅ (message_of admin_user "") guild scored); evaluate.
Defined.

Lemma cmd_set_potato_run_witness :
  run (cmd_set_potato (message_of admin_user "") [[127840]]) fresh =
    run (say channel (msg_set_potato [127840] (reaction_to_string potato)))
        (with_config (set_tater_emoji {| reaction_to_string := [127840] |}) fresh).
Proof. apply cmd_set_potato_run. evaluate. Defined.

Lemma handle_commands_registers_witness :
  handle_commands ∅ bot (message_of bot "!! help") =
    MkHandled {[guild := fresh]} [] (Done ()).
Proof. apply handle_commands_registers; evaluate. Defined.

Lemma dropped_call_atomic_witness :
  (∃ ws, (ws = [] ∨ ws = may_write set_pin) ∧
     registry pin_dropped =
       <[guild := write_all ws (state_of (registry pin_tasks) guild)]>
         (registry pin_tasks)) ∧
  seen (MkSuspended pin_written [] pin_reply)
    `prefix_of` events (handle_commands (registry pin_tasks) bot set_pin) ∧
  config_saves (seen (MkSuspended pin_written [] pin_reply)) = [].
Proof.
  apply (dropped_call_atomic 3 (registry pin_tasks) bot set_pin guild);
    evaluate.
Defined.

Lemma aborts_simulated_witness :
  ∃ q', rtc (step bot (λ _, True)) pin_tasks q' ∧ alike pin_dropped q'.
Proof.
  apply (aborts_simulated bot (λ _, True) True pin_tasks pin_dropped).
  apply rtc_once, pin_tasks_dropped.
Defined.

Lemma dropped_tasks_keep_pin_blacklisted_witness :
  pin_blacklisted (state_of (registry pin_dropped) guild).
Proof.
  apply (dropped_tasks_keep_pin_blacklisted bot (λ _, True) True guild
           pin_tasks pin_dropped).
  - apply rtc_once, pin_tasks_dropped.
  - repeat constructor; intros _; evaluate.
  - unfold pin_blacklisted. member.
Defined.

Lemma lock_serialises_witness :
  ∃ q, rtc (astep bot (λ _, True) True) pin_tasks q ∧
       pool_of (idle pin_dropped) ≡ q ∧
       (¬ True → rtc (step bot (λ _, True)) pin_tasks q).
Proof.
  apply (lock_serialises bot (λ _, True) True pin_tasks (idle pin_dropped));
    [|done].
  apply astep_lsteps, pin_tasks_dropped.
Defined.

Lemma lock_implements_witness :
  rtc (lstep bot (λ _, True) True) (idle pin_tasks) (idle pin_dropped).
Proof.
  apply (lock_implements bot (λ _, True) True pin_tasks pin_dropped).
  apply rtc_once, pin_tasks_dropped.
Defined.

Lemma awaits_see_whole_calls_witness :
  ∃ q, rtc (step bot (λ _, True)) pin_tasks q ∧
       ∀ g, state_of (store (set_pin_after 9)) g = state_of (registry q) g.
Proof.
  apply (awaits_see_whole_calls bot (λ _, True) False pin_tasks
           (set_pin_after 9)); [apply set_pin_reaches|by vm_compute].
Defined.

Lemma tasks_durable_witness :
  durable (disk_after pin_disk (sent (idle pin_done))) (store (idle pin_done)).
Proof.
  apply (tasks_durable bot pin_disk first_task (drop 1 (pending pin_tasks))
           (idle pin_done)); [apply pin_tasks_arrive|done|apply pin_disk_durable].
Defined.

Lemma returned_call_durable_witness :
  let r := handle_commands (registry pin_tasks) bot set_pin in
  durable (disk_after pin_disk (events r)) (handlers_after r).
Proof.
  apply (returned_call_durable pin_disk (registry pin_tasks) bot set_pin);
    [evaluate|apply pin_disk_durable].
Defined.

Lemma admin_command_heals_witness :
  let r := handle_commands (registry pin_dropped) bot set_four in
  config (state_of (restart (disk_after pin_disk (events r))) guild) =
    config (state_of (handlers_after r) guild).
Proof.
  apply (admin_command_heals pin_disk (registry pin_dropped) bot set_four guild);
    evaluate.
Defined.
